(** * HLB code generator: a shallow embedding of [codegen.go] and of the
    CST of package [parser], with the properties of the specification
    settled against it.

    Layout:
    - [shellquote]: the word splitting and quoting the [run] builtin uses;
    - [time], [net], [llb]: the timestamp parser of Go's library, the
      values of the libraries, the build-graph IR as a term algebra;
    - [parser]: positions, the CST records, scopes;
    - [codegen]: the evaluator, in a state-and-error monad over the
      [CodeGenInfo] the Go code threads by pointer; what [codegen.go]
      calls and does not define is the class [Externals];
    - [reference]: one [Externals], after the specification;
    - the vocabulary of the properties, then the properties: those of
      the specification first, further properties of the code after
      them. *)

From Stdlib Require Import ZArith Ascii String List Bool Lia.
From stdpp Require Import base option list gmap strings pretty.

Local Open Scope string_scope.
Local Open Scope list_scope.
Local Open Scope Z_scope.

Set Warnings "-register-all".

(** ** Go strings *)

(** Go's [string] is a byte sequence; every character the modelled code
    inspects is ASCII, so a string is read byte by byte. *)

Definition dquoteChar : ascii := ascii_of_nat 34.
Definition squoteChar : ascii := ascii_of_nat 39.
Definition backslashChar : ascii := ascii_of_nat 92.
Definition newlineChar : ascii := ascii_of_nat 10.
Definition tabChar : ascii := ascii_of_nat 9.
Definition spaceChar : ascii := ascii_of_nat 32.

Definition str1 (c : ascii) : string := String c EmptyString.

(** [strings.ContainsRune(chars, c)] *)
Fixpoint ContainsRune (chars : string) (c : ascii) : bool :=
  match chars with
  | EmptyString => false
  | String d rest => if Ascii.eqb d c then true else ContainsRune rest c
  end.

(** ** github.com/kballard/go-shellquote

    [codegen.go] imports this package for [Split] and [Join]. The
    package is a dependency and not part of the repository; it is
    embedded after its two files, [quote.go] ([Join], [quote]) and
    [unquote.go] ([Split], [splitWord]). *)

Module shellquote.

Inductive splitError : Type :=
| UnterminatedSingleQuoteError
| UnterminatedDoubleQuoteError
| UnterminatedEscapeError.

(** [specialChars]: backslash, single quote, double quote, then the
    thirteen characters of the literal below. *)
Definition specialChars : string :=
  String backslashChar (String squoteChar (String dquoteChar "`${[|&;<>()*?!")).
(** [extraSpecialChars]: space, tab, newline. *)
Definition extraSpecialChars : string :=
  String spaceChar (String tabChar (String newlineChar EmptyString)).
Definition prefixChars : string := "~".

(** [splitChars]: space, newline, tab. *)
Definition splitChars : string :=
  String spaceChar (String newlineChar (String tabChar EmptyString)).
(** [doubleEscapeChars]: dollar, backquote, double quote, newline,
    backslash. *)
Definition doubleEscapeChars : string :=
  String "$" (String "`" (String dquoteChar
    (String newlineChar (String backslashChar EmptyString)))).

(** The first loop of [quote]: backslash-escape the special characters.
    Meeting an extra-special character abandons the attempt ([goto quote]
    after [buf.Truncate(origLen)]), which is the [None] here. *)
Fixpoint quoteEscape (atStart : bool) (cur : string) : option string :=
  match cur with
  | EmptyString => Some EmptyString
  | String c cur' =>
      if ContainsRune specialChars c || (atStart && ContainsRune prefixChars c)
      then option_map (fun r => String backslashChar (String c r))
                      (quoteEscape false cur')
      else if ContainsRune extraSpecialChars c then None
      else option_map (String c) (quoteEscape false cur')
  end.

(** The [quote:] label of [quote]: single-quote the word; each single
    quote inside it closes the quoted run, is emitted backslash-escaped,
    and a new run opens after it. [seg] is the run read since the last
    single quote ([word[0:i]] in the source). *)
Fixpoint quoteSingle (seg : string) (word : string) : string :=
  let flush := match seg with
               | EmptyString => EmptyString
               | _ => str1 squoteChar +:+ seg +:+ str1 squoteChar
               end in
  match word with
  | EmptyString => flush
  | String c word' =>
      if Ascii.eqb c squoteChar
      then flush +:+ String backslashChar (str1 squoteChar) +:+ quoteSingle EmptyString word'
      else quoteSingle (seg +:+ str1 c) word'
  end.

Definition quote (word : string) : string :=
  match word with
  | EmptyString => String squoteChar (str1 squoteChar)
  | _ => match quoteEscape true word with
         | Some r => r
         | None => quoteSingle EmptyString word
         end
  end.

(** [Join(args ...string)]: quote each argument, separate by one space. *)
Fixpoint Join (args : list string) : string :=
  match args with
  | [] => EmptyString
  | [arg] => quote arg
  | arg :: rest => quote arg +:+ " " +:+ Join rest
  end.

(** The labels of [splitWord] ([raw], [escape], [single], [double]) are
    the modes of one scanner; [Between] is the loop of [Split] itself,
    which skips separators and escaped newlines between two words. *)
Inductive mode : Type := Between | Raw | Escape | Single | Double.

Fixpoint scan (m : mode) (buf : string) (words : list string) (input : string)
  : splitError + list string :=
  match input with
  | EmptyString =>
      match m with
      | Between => inr words
      | Raw => inr (words ++ [buf])
      | Escape => inl UnterminatedEscapeError
      | Single => inl UnterminatedSingleQuoteError
      | Double => inl UnterminatedDoubleQuoteError
      end
  | String c cur =>
      match m with
      | Between =>
          if ContainsRune splitChars c then scan Between EmptyString words cur
          else if Ascii.eqb c backslashChar then
            match cur with
            | EmptyString => inl UnterminatedEscapeError
            | String c2 cur2 =>
                if Ascii.eqb c2 newlineChar then scan Between EmptyString words cur2
                else scan Raw (str1 c2) words cur2
            end
          else if Ascii.eqb c squoteChar then scan Single EmptyString words cur
          else if Ascii.eqb c dquoteChar then scan Double EmptyString words cur
          else scan Raw (str1 c) words cur
      | Raw =>
          if Ascii.eqb c squoteChar then scan Single buf words cur
          else if Ascii.eqb c dquoteChar then scan Double buf words cur
          else if Ascii.eqb c backslashChar then scan Escape buf words cur
          else if ContainsRune splitChars c then scan Between EmptyString (words ++ [buf]) cur
          else scan Raw (buf +:+ str1 c) words cur
      | Escape =>
          if Ascii.eqb c newlineChar then scan Raw buf words cur
          else scan Raw (buf +:+ str1 c) words cur
      | Single =>
          if Ascii.eqb c squoteChar then scan Raw buf words cur
          else scan Single (buf +:+ str1 c) words cur
      | Double =>
          if Ascii.eqb c dquoteChar then scan Raw buf words cur
          else if Ascii.eqb c backslashChar then
            match cur with
            | EmptyString => inl UnterminatedDoubleQuoteError
            | String c2 cur2 =>
                if ContainsRune doubleEscapeChars c2 then
                  if Ascii.eqb c2 newlineChar then scan Double buf words cur2
                  else scan Double (buf +:+ str1 c2) words cur2
                else scan Double (buf +:+ String c (str1 c2)) words cur2
            end
          else scan Double (buf +:+ str1 c) words cur
      end
  end.

(** [Split(input string) (words []string, err error)] *)
Definition Split (input : string) : splitError + list string :=
  scan Between EmptyString [] input.

End shellquote.

(** ** Go control flow

    A Go call returns a value, returns a non-nil [error], or panics. The
    run-time panics the modelled code can raise are told apart from the
    explicit [panic(...)] calls, which carry their message. *)

Inductive panic : Type :=
| NilDereference                 (* a field read through a nil pointer *)
| IndexOutOfRange                (* [s[i]] with [i] outside [s] *)
| TypeAssertion                  (* [v.(T)] on a value that is no [T] *)
| NilFuncCall                    (* a call of a nil func value *)
| Explicit (msg : string).       (* [panic(msg)] *)

Inductive result (E A : Type) : Type :=
| Ok (a : A)
| Err (e : E)
| Panic (p : panic).

Arguments Ok {E A} a.
Arguments Err {E A} e.
Arguments Panic {E A} p.

(** [p != nil] *)
Definition notNil {A : Type} (p : option A) : bool :=
  match p with Some _ => true | None => false end.

(** ** Package [time], [net] and the IR of package [llb]

    The clients of these packages only build values and pass them on, so
    the IR is a term algebra: one constructor per builder operation. *)

Module time.

(** What [time.Parse] reads off a timestamp. *)
Record Time : Type := mkTime {
  year : Z; month : Z; day : Z;
  hour : Z; minute : Z; second : Z;
  nanosecond : Z;
  zoneOffset : Z  (* seconds east of UTC *)
}.

(** *** [time.Parse(time.RFC3339, value)]

    [codegen.go] calls it on the argument of [createdTime]. Package
    [time] belongs to Go's library and not to the repository; the parser
    is embedded after [format.go] of Go 1.13, the release [go.hlb]
    builds with, for the one layout the evaluator passes:
    [2006-01-02T15:04:05Z07:00]. [parse] cuts the layout into the
    chunks [2006], [01], [02], [15], [04], [05] and [Z07:00] with the
    literal bytes between them, and reads the value chunk by chunk.
    [int] has 64 bits. Later releases differ in details that are not
    followed here: from Go 1.17 on a comma is read like the dot of the
    fraction. *)

Definition digitOf (c : ascii) : option Z :=
  let n := Z.of_nat (nat_of_ascii c) in
  if (48 <=? n) && (n <=? 57) then Some (n - 48) else None.

(** [s[i:]] *)
Definition from (i : nat) (s : string) : string :=
  substring i (String.length s - i) s.

(** [isDigit(s, i)] *)
Definition isDigit (s : string) (i : nat) : bool :=
  match String.get i s with
  | Some c => match digitOf c with Some _ => true | None => false end
  | None => false
  end.

(** [leadingInt(s)]: the digits in front of [s] as a number, and the
    rest; [None] when the number leaves [int64]. *)
Fixpoint leadingInt (x : Z) (s : string) : option (Z * string) :=
  match s with
  | String c rest =>
      match digitOf c with
      | Some d =>
          if (2 ^ 63 - 1) / 10 <? x then None
          else
            let x' := x * 10 + d in
            if 2 ^ 63 - 1 <? x' then None else leadingInt x' rest
      | None => Some (x, s)
      end
  | EmptyString => Some (x, s)
  end.

(** [atoi(s)]: an optional sign and digits up to the end of [s]. *)
Definition atoi (s : string) : option Z :=
  let '(neg, s) :=
    match s with
    | String c rest =>
        if Ascii.eqb c "-" then (true, rest)
        else if Ascii.eqb c "+" then (false, rest)
        else (false, s)
    | EmptyString => (false, s)
    end in
  match leadingInt 0 s with
  | Some (q, EmptyString) => Some (if neg then - q else q)
  | _ => None
  end.

(** [getnum(s, fixed)] reads one or two digits, two when [fixed]. It
    returns the number, the rest and whether it read one: on [errBad]
    the number is [0] and the string is returned unread. *)
Definition getnum (s : string) (fixed : bool) : Z * string * bool :=
  match s with
  | String c0 rest0 =>
      match digitOf c0 with
      | None => (0, s, false)
      | Some d0 =>
          match rest0 with
          | String c1 rest1 =>
              match digitOf c1 with
              | Some d1 => (d0 * 10 + d1, rest1, true)
              | None => if fixed then (0, s, false) else (d0, rest0, true)
              end
          | EmptyString => if fixed then (0, s, false) else (d0, rest0, true)
          end
      end
  | EmptyString => (0, s, false)
  end.

(** [skip(value, prefix)] for a prefix of one byte that is no space. *)
Definition skip (value : string) (prefix : ascii) : option string :=
  match value with
  | String c rest => if Ascii.eqb c prefix then Some rest else None
  | EmptyString => None
  end.

(** [parseNanoseconds(value, nbytes)]: [value[1:nbytes]] as a number
    below [1e9], scaled by the digits missing to nine; more than nine
    digits are not scaled. *)
Definition parseNanoseconds (value : string) (nbytes : nat) : option Z :=
  match value with
  | String "." _ =>
      ns ← atoi (substring 1 (nbytes - 1) value);
      if (ns <? 0) || (10 ^ 9 <=? ns) then None
      else Some (ns * 10 ^ Z.of_nat (10 - nbytes))
  | _ => None
  end.

(** [for ; n < len(value) && isDigit(value, n); n++ {}] from [n] on:
    the number of digits in front of [s]. *)
Fixpoint leadingDigits (s : string) : nat :=
  match s with
  | String c rest =>
      match digitOf c with
      | Some _ => S (leadingDigits rest)
      | None => O
      end
  | EmptyString => O
  end.

(** The special case of the chunk [05]: a fraction of a second in the
    value and none in the layout. [parseNanoseconds] assigns [err]
    anew, so the fraction is read, and an error of [getnum] dropped,
    also when no digit of the seconds stands before the dot. *)
Definition fractionalSecond (value : string) (ok : bool) : option (Z * string * bool) :=
  if (2 <=? String.length value)%nat
     && match value with String "." _ => true | _ => false end
     && isDigit value 1
  then
    let n := (2 + leadingDigits (from 2 value))%nat in
    nsec ← parseNanoseconds value n;
    Some (nsec, from n value, true)
  else Some (0, value, ok).

(** The chunk [Z07:00]: [Z], or a sign, two bytes of hours, a colon and
    two bytes of minutes. The hours and the minutes go through [atoi]
    and are not checked against a range. *)
Definition zone (value : string) : option (Z * string) :=
  match value with
  | String "Z" rest => Some (0, rest)
  | _ =>
      if (String.length value <? 6)%nat then None
      else if negb (String.eqb (substring 3 1 value) ":") then None
      else
        hr ← atoi (substring 1 2 value);
        mm ← atoi (substring 4 2 value);
        let zoneOffset := (hr * 60 + mm) * 60 in
        let value' := from 6 value in
        if String.eqb (substring 0 1 value) "+" then Some (zoneOffset, value')
        else if String.eqb (substring 0 1 value) "-" then Some (- zoneOffset, value')
        else None
  end.

(** [daysBefore[m]] *)
Definition daysBefore (m : Z) : Z :=
  nth (Z.to_nat m) [0; 31; 59; 90; 120; 151; 181; 212; 243; 273; 304; 334; 365] 0.

Definition isLeap (year : Z) : bool :=
  (year mod 4 =? 0) && (negb (year mod 100 =? 0) || (year mod 400 =? 0)).

Definition daysIn (m year : Z) : Z :=
  if (m =? 2) && isLeap year then 29 else daysBefore m - daysBefore (m - 1).

(** [None] is a [*ParseError]. After every chunk [parse] returns the
    range error first and the error of the reader second; the day of
    the month is validated after the last chunk. *)
Definition Parse (value : string) : option Time :=
  (* 2006 *)
  if (String.length value <? 4)%nat || negb (isDigit value 0) then None else
  year ← atoi (substring 0 4 value);
  value ← skip (from 4 value) "-";
  (* 01 *)
  let '(month, value, ok) := getnum value true in
  if (month <=? 0) || (12 <? month) then None else
  if negb ok then None else
  value ← skip value "-";
  (* 02 *)
  let '(day, value, ok) := getnum value true in
  if day <? 0 then None else
  if negb ok then None else
  value ← skip value "T";
  (* 15 *)
  let '(hour, value, ok) := getnum value false in
  if (hour <? 0) || (24 <=? hour) then None else
  if negb ok then None else
  value ← skip value ":";
  (* 04 *)
  let '(min, value, ok) := getnum value true in
  if (min <? 0) || (60 <=? min) then None else
  if negb ok then None else
  value ← skip value ":";
  (* 05 *)
  let '(sec, value, ok) := getnum value true in
  if (sec <? 0) || (60 <=? sec) then None else
  '(nsec, value, ok) ← fractionalSecond value ok;
  if negb ok then None else
  (* Z07:00 *)
  '(zoneOffset, value) ← zone value;
  (* extra text *)
  if negb (String.eqb value "") then None else
  if (day <? 1) || (daysIn month year <? day) then None else
  Some (mkTime year month day hour min sec nsec zoneOffset).

End time.

Module net.

(** [net.IP]: the bytes of an address, [None] for the nil [IP] that
    [net.ParseIP] returns on text that is no address. *)
Definition IP : Type := option (list Z).

End net.

Module llb.

Inductive NetMode : Type := NetMode_UNSET | NetMode_HOST | NetMode_NONE.
Inductive SecurityMode : Type := SecurityMode_SANDBOX | SecurityMode_INSECURE.
Inductive CacheMountSharingMode : Type :=
  CacheMountShared | CacheMountPrivate | CacheMountLocked.

Record CopyInfo : Type := mkCopyInfo {
  FollowSymlinks : bool;
  CopyDirContentsOnly : bool;
  AttemptUnpack : bool;
  CreateDestPath : bool;
  AllowWildcard : bool;
  AllowEmptyWildcard : bool
}.

(** [&llb.CopyInfo{}] *)
Definition emptyCopyInfo : CopyInfo := mkCopyInfo false false false false false false.

(** [State] is a vertex of the build graph; [Opt] is any of the option
    values the evaluator keeps in its [[]interface{}] lists. *)
Inductive State : Type :=
| Scratch
| Image (ref : string) (opts : list Opt)
| HTTP (url : string) (opts : list Opt)
| Git (remote ref : string) (opts : list Opt)
| Local (id : string) (opts : list Opt)
| Frontend (frontend : State) (opts : list Opt)
| ExecRoot (st : State) (opts : list Opt)              (* st.Run(opts...).Root() *)
| ExecMount (st : State) (opts : list Opt) (target : string)
                                                       (* st.Run(opts...).GetMount(target) *)
| StAddEnv (st : State) (key value : string)           (* st.AddEnv(key, value) *)
| StDir (st : State) (path : string)                   (* st.Dir(path) *)
| StUser (st : State) (name : string)                  (* st.User(name) *)
| StArgs (st : State) (args : list string)             (* st.Args(args...) *)
| StFile (st : State) (a : FileAction)                 (* st.File(a) *)
with FileAction : Type :=
| Mkdir (path : string) (mode : Z) (opts : list Opt)
| Mkfile (path : string) (mode : Z) (content : string) (opts : list Opt)
| Rm (path : string) (opts : list Opt)
| Copy (input : State) (src dest : string) (opts : list Opt)
with Opt : Type :=
| WithDefault                                          (* imagemetaresolver.WithDefault *)
| Checksum (dgst : string)
| Chmod (mode : Z)
| Filename (name : string)
| KeepGitDir
| IncludePatterns (p : list string)
| ExcludePatterns (p : list string)
| FollowPaths (p : list string)
| WithFrontendInput (key : string) (input : State)
| WithFrontendOpt (key value : string)
| IgnoreCache
| WithParents (b : bool)
| WithUser (owner : string)
| WithCreatedTime (t : time.Time)
| WithAllowNotFound (b : bool)
| WithAllowWildcard (b : bool)
| CopyInfoOpt (cp : CopyInfo)
| ReadonlyRootFS
| AddEnv (key value : string)
| Dir (path : string)
| User (name : string)
| Network (m : NetMode)
| Security (m : SecurityMode)
| AddExtraHost (host : string) (ip : net.IP)
| AddSSHSocket (opts : list Opt)
| AddSecret (target : string) (opts : list Opt)
| AddMount (target : string) (input : State) (opts : list Opt)
| Shlex (cmd : string)
| SSHID (id : string)
| SSHSocketOpt (target : string) (uid gid mode : Z)
| SecretID (id : string)
| SecretFileOpt (uid gid mode : Z)
| Readonly
| Tmpfs
| SourcePath (path : string)
| AsPersistentCacheDir (id : string) (sharing : CacheMountSharingMode).

(** The option interfaces of [llb]; the evaluator asserts one of them on
    every item before it hands the item to a builder. *)
Inductive OptionKind : Type :=
| ImageOption | HTTPOption | GitOption | LocalOption | FrontendOption
| RunOption | SSHOption | SecretOption | MountOption
| MkdirOption | MkfileOption | RmOption | CopyOption.

(** Which interfaces a value implements, that is, on which of them the
    type assertion [iopt.(llb.K)] of the evaluator succeeds.
    [IgnoreCache] is a constraints option and fits every source and
    [Run]; [WithUser] and [WithCreatedTime] fit the three file actions
    that create entries. [llb.MountOption] is no interface but a named
    function type, the functions of a pointer to a mount: [Tmpfs()],
    [SourcePath(...)] and [AsPersistentCacheDir(...)] return a
    [MountOption], while [llb.Readonly] is itself such a function, not a
    call that returns one, and the evaluator stores it as it is, with its
    unnamed function type; the assertion to [MountOption] fails on it,
    as every other assertion does. *)
Definition implements (o : Opt) (k : OptionKind) : bool :=
  match o, k with
  | WithDefault, ImageOption => true
  | (Checksum _ | Chmod _ | Filename _), HTTPOption => true
  | KeepGitDir, GitOption => true
  | (IncludePatterns _ | ExcludePatterns _ | FollowPaths _), LocalOption => true
  | (WithFrontendInput _ _ | WithFrontendOpt _ _), FrontendOption => true
  | IgnoreCache,
    (ImageOption | HTTPOption | GitOption | LocalOption | FrontendOption | RunOption) => true
  | WithParents _, MkdirOption => true
  | (WithUser _ | WithCreatedTime _), (MkdirOption | MkfileOption | CopyOption) => true
  | (WithAllowNotFound _ | WithAllowWildcard _), RmOption => true
  | CopyInfoOpt _, CopyOption => true
  | (ReadonlyRootFS | AddEnv _ _ | Dir _ | User _ | Network _ | Security _
     | AddExtraHost _ _ | AddSSHSocket _ | AddSecret _ _ | AddMount _ _ _ | Shlex _),
    RunOption => true
  | (SSHID _ | SSHSocketOpt _ _ _ _), SSHOption => true
  | (SecretID _ | SecretFileOpt _ _ _), SecretOption => true
  | (Tmpfs | SourcePath _ | AsPersistentCacheDir _ _), MountOption => true
  | _, _ => false
  end.

End llb.

(** ** Values of type [interface{}]

    The evaluator passes block results, scope data and option lists as
    [interface{}]; these are the dynamic types that occur. *)
Inductive value : Type :=
| VNil
| VState (st : llb.State)
| VString (s : string)
| VInt (n : Z)
| VBool (b : bool)
| VOptions (opts : list llb.Opt).

(** ** Package [parser]: the concrete syntax tree

    One record per struct of the source. A pointer field that the grammar
    makes optional, that is one alternative of several, or that a later
    pass fills in is an [option]; [None] is Go's [nil]. *)

Module parser.

(** [lexer.Position] *)
Record Position : Type := mkPosition {
  Filename : string;
  Offset : Z;
  Line : Z;
  Column : Z
}.

Definition noPosition : Position := mkPosition EmptyString 0 0 0.

Definition shiftPosition (pos : Position) (offset line : Z) : Position :=
  {| Filename := Filename pos;
     Offset := Offset pos + offset;
     Line := Line pos + line;
     Column := Column pos + offset |}.

(** [type ObjType string] *)
Definition ObjType : Type := string.

Definition None_ : ObjType := EmptyString.
Definition Str : ObjType := "string".
Definition Int : ObjType := "int".
Definition Bool : ObjType := "bool".
Definition Filesystem : ObjType := "fs".
Definition Option : ObjType := "option".
Definition OptionImage : ObjType := "option::image".
Definition OptionRun : ObjType := "option::run".
Definition OptionMount : ObjType := "option::mount".

Record Ident : Type := mkIdent { Ident_Pos : Position; Name : string }.

Definition NewIdent (name : string) : Ident := mkIdent noPosition name.

Record Type_ : Type := mkType { Type_Pos : Position; Type_ObjType : ObjType }.

Definition NewType (typ : ObjType) : Type_ := mkType noPosition typ.

(** [strings.Split(s, "::")[0]]: the text before the first [::]. *)
Fixpoint beforeColons (s : string) : string :=
  match s with
  | EmptyString => EmptyString
  | String c rest =>
      match rest with
      | String d _ =>
          if Ascii.eqb c ":" && Ascii.eqb d ":" then EmptyString
          else String c (beforeColons rest)
      | EmptyString => String c EmptyString
      end
  end.

(** [func (t *Type) Type() ObjType] *)
Definition Type_Type (t : Type_) : ObjType := beforeColons (Type_ObjType t).

Record NumericLit : Type := mkNumericLit {
  NumericLit_Pos : Position;
  NumericLit_Value : Z;
  NumericLit_Base : Z
}.

Record BasicLit : Type := mkBasicLit {
  BasicLit_Pos : Position;
  BasicLit_Str : option string;
  BasicLit_Decimal : option Z;
  BasicLit_Numeric : option NumericLit;
  BasicLit_Bool : option bool
}.

Record Comment : Type := mkComment { Comment_Pos : Position; Comment_Text : string }.
Record CommentGroup : Type :=
  mkCommentGroup { CommentGroup_Pos : Position; CommentGroup_List : list Comment }.
Record Newline : Type := mkNewline { Newline_Pos : Position; Newline_Text : string }.
Record OpenBrace : Type := mkOpenBrace { OpenBrace_Pos : Position; OpenBrace_Brace : string }.
Record CloseBrace : Type := mkCloseBrace { CloseBrace_Pos : Position; CloseBrace_Brace : string }.
Record OpenParen : Type := mkOpenParen { OpenParen_Pos : Position; OpenParen_Paren : string }.
Record CloseParen : Type := mkCloseParen { CloseParen_Pos : Position; CloseParen_Paren : string }.
Record With : Type := mkWith { With_Pos : Position; With_Keyword : string }.
Record As : Type := mkAs { As_Pos : Position; As_Keyword : string }.
Record Variadic : Type := mkVariadic { Variadic_Pos : Position; Variadic_Keyword : string }.

Record StmtEnd : Type := mkStmtEnd {
  StmtEnd_Pos : Position;
  StmtEnd_Semicolon : option string;
  StmtEnd_Newline : option Newline;
  StmtEnd_Comment : option Comment
}.

Record Field : Type := mkField {
  Field_Pos : Position;
  Field_Variadic : option Variadic;
  Field_Type : Type_;
  Field_Name : Ident
}.

Record FieldList : Type := mkFieldList {
  FieldList_Pos : Position;
  FieldList_OpenParen : option OpenParen;
  FieldList_List : list Field;
  FieldList_CloseParen : option CloseParen
}.

Record Method : Type := mkMethod {
  Method_Pos : Position;
  Method_OpenParen : option OpenParen;
  Method_Type : Type_;
  Method_CloseParen : option CloseParen
}.

(** [AliasDecl.Func] and [AliasDecl.Call] point back at the declaration
    and the statement the alias stands in. A tree cannot hold its own
    ancestors: [Call] is the statement that holds the alias and is left
    out, and of [Func] the alias keeps the part that does not contain
    the alias itself, the name and the return type of the enclosing
    [FuncDecl] ([AliasDecl_Func] is [None] before the checker has linked
    it). *)
Record FuncRef : Type := mkFuncRef { FuncRef_Name : Ident; FuncRef_Type : Type_ }.

Record AliasDecl : Type := mkAliasDecl {
  AliasDecl_Pos : Position;
  AliasDecl_As : As;
  AliasDecl_Ident : Ident;
  AliasDecl_Func : option FuncRef
}.

Inductive Expr : Type :=
| mkExpr (pos : Position) (ident : option Ident) (basicLit : option BasicLit)
         (funcLit : option FuncLit)
with FuncLit : Type :=
| mkFuncLit (pos : Position) (typ : Type_) (body : option BlockStmt)
with BlockStmt : Type :=
| mkBlockStmt (pos : Position) (openBrace : option OpenBrace) (list_ : list Stmt)
              (closeBrace : option CloseBrace)
with Stmt : Type :=
| mkStmt (pos : Position) (call : option CallStmt) (newline : option Newline)
         (doc : option CommentGroup)
with CallStmt : Type :=
| mkCallStmt (pos : Position) (doc : option CommentGroup) (func : Ident)
             (args : list Expr) (withOpt : option WithOpt) (alias : option AliasDecl)
             (stmtEnd : option StmtEnd)
with WithOpt : Type :=
| mkWithOpt (pos : Position) (with_ : With) (ident : option Ident)
            (funcLit : option FuncLit).

Definition Expr_Ident (e : Expr) := let 'mkExpr _ x _ _ := e in x.
Definition Expr_BasicLit (e : Expr) := let 'mkExpr _ _ x _ := e in x.
Definition Expr_FuncLit (e : Expr) := let 'mkExpr _ _ _ x := e in x.
Definition FuncLit_Type (l : FuncLit) := let 'mkFuncLit _ x _ := l in x.
Definition FuncLit_Body (l : FuncLit) := let 'mkFuncLit _ _ x := l in x.
Definition BlockStmt_List (s : BlockStmt) := let 'mkBlockStmt _ _ x _ := s in x.
Definition BlockStmt_CloseBrace (s : BlockStmt) := let 'mkBlockStmt _ _ _ x := s in x.
Definition Stmt_Call (s : Stmt) := let 'mkStmt _ x _ _ := s in x.
Definition Stmt_Newline (s : Stmt) := let 'mkStmt _ _ x _ := s in x.
Definition Stmt_Doc (s : Stmt) := let 'mkStmt _ _ _ x := s in x.
Definition CallStmt_Func (s : CallStmt) := let 'mkCallStmt _ _ x _ _ _ _ := s in x.
Definition CallStmt_Args (s : CallStmt) := let 'mkCallStmt _ _ _ x _ _ _ := s in x.
Definition CallStmt_WithOpt (s : CallStmt) := let 'mkCallStmt _ _ _ _ x _ _ := s in x.
Definition CallStmt_Alias (s : CallStmt) := let 'mkCallStmt _ _ _ _ _ x _ := s in x.
Definition WithOpt_Ident (w : WithOpt) := let 'mkWithOpt _ _ x _ := w in x.
Definition WithOpt_FuncLit (w : WithOpt) := let 'mkWithOpt _ _ _ x := w in x.

(** The constructors of the source ([NewIdentExpr], [NewStringExpr], ...). *)
Definition NewIdentExpr (name : string) : Expr :=
  mkExpr noPosition (Some (NewIdent name)) None None.
Definition NewStringExpr (v : string) : Expr :=
  mkExpr noPosition None (Some (mkBasicLit noPosition (Some v) None None None)) None.
Definition NewDecimalExpr (v : Z) : Expr :=
  mkExpr noPosition None (Some (mkBasicLit noPosition None (Some v) None None)) None.
Definition NewNumericExpr (v base : Z) : Expr :=
  mkExpr noPosition None
    (Some (mkBasicLit noPosition None None (Some (mkNumericLit noPosition v base)) None)) None.
Definition NewBoolExpr (v : bool) : Expr :=
  mkExpr noPosition None (Some (mkBasicLit noPosition None None None (Some v))) None.
Definition NewFuncLit (typ : ObjType) (stmts : list Stmt) : FuncLit :=
  mkFuncLit noPosition (NewType typ) (Some (mkBlockStmt noPosition None stmts None)).
Definition NewFuncLitExpr (typ : ObjType) (stmts : list Stmt) : Expr :=
  mkExpr noPosition None None (Some (NewFuncLit typ stmts)).
Definition NewCallStmt (name : string) (args : list Expr) (withOpt : option WithOpt)
  (alias : option AliasDecl) : Stmt :=
  mkStmt noPosition
    (Some (mkCallStmt noPosition None (NewIdent name) args withOpt alias None)) None None.
Definition NewWithIdent (name : string) : WithOpt :=
  mkWithOpt noPosition (mkWith noPosition "with") (Some (NewIdent name)) None.
Definition NewWithFuncLit (stmts : list Stmt) : WithOpt :=
  mkWithOpt noPosition (mkWith noPosition "with") None (Some (NewFuncLit Option stmts)).

(** [func (s *BlockStmt) NonEmptyStmts() []*Stmt]; the receiver may be nil. *)
Definition NonEmptyStmts (s : option BlockStmt) : list Stmt :=
  match s with
  | None => []
  | Some b =>
      List.filter (fun stmt => negb (notNil (Stmt_Newline stmt) || notNil (Stmt_Doc stmt)))
                  (BlockStmt_List b)
  end.

(** [FuncDecl.Scope], the scope of the parameters, is read by no
    function of the sources and is left out: a scope holds declarations,
    and a declaration cannot hold the scope in turn. *)
Record FuncDecl : Type := mkFuncDecl {
  FuncDecl_Pos : Position;
  FuncDecl_Doc : option CommentGroup;
  FuncDecl_Type : Type_;
  FuncDecl_Method : option Method;
  FuncDecl_Name : Ident;
  FuncDecl_Params : FieldList;
  FuncDecl_Body : option BlockStmt
}.

Record ImportDecl : Type := mkImportDecl {
  ImportDecl_Pos : Position;
  ImportDecl_Ident : Ident;
  ImportDecl_Import : FuncLit
}.

Record ExportDecl : Type := mkExportDecl { ExportDecl_Pos : Position; ExportDecl_Ident : Ident }.
Record BadDecl : Type := mkBadDecl { BadDecl_Pos : Position; BadDecl_Bad : string }.

Record Decl : Type := mkDecl {
  Decl_Pos : Position;
  Decl_Bad : option BadDecl;
  Decl_Import : option ImportDecl;
  Decl_Export : option ExportDecl;
  Decl_Func : option FuncDecl;
  Decl_Newline : option Newline;
  Decl_Doc : option CommentGroup
}.

(** [func (b *CloseBrace) End() lexer.Position] *)
Definition CloseBrace_End (b : CloseBrace) : Position :=
  shiftPosition (CloseBrace_Pos b) 1 0.

(** [func (d *FuncDecl) Position() lexer.Position] *)
Definition FuncDecl_Position (d : FuncDecl) : Position := FuncDecl_Pos d.

(** [func (d *FuncDecl) End() lexer.Position { return d.Body.CloseBrace.End() }]:
    two pointers are followed, [d.Body] to read [CloseBrace] and
    [CloseBrace] to read its [Pos]. *)
Definition FuncDecl_End {E : Type} (d : FuncDecl) : result E Position :=
  match FuncDecl_Body d with
  | None => Panic NilDereference
  | Some body =>
      match BlockStmt_CloseBrace body with
      | None => Panic NilDereference
      | Some b => Ok (CloseBrace_End b)
      end
  end.

(** *** Scopes *)

Inductive ObjKind : Type := DeclKind | FieldKind | ExprKind.

(** The dynamic types of the [Node] an [Object] holds. *)
Inductive Node : Type :=
| Node_FuncDecl (n : FuncDecl)
| Node_AliasDecl (n : AliasDecl)
| Node_ImportDecl (n : ImportDecl)
| Node_Field (n : Field).

Record Object : Type := mkObject {
  Object_Kind : ObjKind;
  Object_Node : Node;
  Object_Data : value
}.

(** Modelled from the spec: [Scope] and [Scope.Lookup] are declared in a
    file of package [parser] that is not among the sources. The spec has
    a scope as a mapping from identifier name to an object with a kind,
    a node and data, plus a parent link; lookup walks the parent chain
    and the first hit wins. *)
Inductive Scope : Type :=
| mkScope (objects : gmap string Object) (parent : option Scope).

(** Modelled from the spec: [Scope.Lookup] walks the parent chain, and
    the first hit wins; [None] is the nil object of a name that is bound
    nowhere. *)
Fixpoint Lookup (s : Scope) (name : string) : option Object :=
  let 'mkScope objects parent := s in
  match objects !! name with
  | Some obj => Some obj
  | None => match parent with
            | Some p => Lookup p name
            | None => None
            end
  end.

Record File : Type := mkFile {
  File_Pos : Position;
  File_Scope : Scope;
  File_Doc : option CommentGroup;
  File_Decls : list Decl
}.

(** *** Types and literals *)

(** [strings.Split(s, "::")]: the parts between the occurrences of the
    separator, read from the left; there is always one part at least. *)
Fixpoint splitColons (s : string) : list string :=
  match s with
  | EmptyString => [EmptyString]
  | String c rest =>
      match rest with
      | String d rest' =>
          if Ascii.eqb c ":" && Ascii.eqb d ":" then EmptyString :: splitColons rest'
          else match splitColons rest with
               | part :: parts => String c part :: parts
               | [] => [String c EmptyString]
               end
      | EmptyString => [String c EmptyString]
      end
  end.

(** [func (t *Type) SubType() ObjType]: [None] for one part, the second
    part otherwise. *)
Definition Type_SubType (t : Type_) : ObjType :=
  match splitColons (Type_ObjType t) with
  | _ :: sub :: _ => sub
  | _ => None_
  end.

(** [func (t *Type) Equals(typ ObjType) bool] *)
Definition Type_Equals (t : Type_) (typ : ObjType) : bool := String.eqb typ (Type_Type t).

(** [func (l *BasicLit) ObjType() ObjType] *)
Definition BasicLit_ObjType {E : Type} (l : BasicLit) : result E ObjType :=
  if notNil (BasicLit_Str l) then Ok Str
  else if notNil (BasicLit_Decimal l) || notNil (BasicLit_Numeric l) then Ok Int
  else if notNil (BasicLit_Bool l) then Ok Bool
  else Panic (Explicit "unknown basic lit").

(** [func NewField(typ ObjType, name string, variadic bool) *Field] *)
Definition NewField (typ : ObjType) (name : string) (variadic : bool) : Field :=
  mkField noPosition
    (if variadic then Some (mkVariadic noPosition "variadic") else None)
    (NewType typ) (NewIdent name).

(** *** Counting *)

(** The loop of [NumStmts]: [num++] on every statement that is neither a
    newline nor a comment. The count never exceeds the length of the
    slice, so the Go [int] does not wrap. *)
Fixpoint countStmts (stmts : list Stmt) (num : Z) : Z :=
  match stmts with
  | [] => num
  | stmt :: rest =>
      if notNil (Stmt_Newline stmt) || notNil (Stmt_Doc stmt) then countStmts rest num
      else countStmts rest (num + 1)
  end.

(** [func (s *BlockStmt) NumStmts() int]; the receiver may be nil. *)
Definition BlockStmt_NumStmts (s : option BlockStmt) : Z :=
  match s with
  | None => 0
  | Some b => countStmts (BlockStmt_List b) 0
  end.

(** [func (l *FuncLit) NumStmts() int]; the receiver may be nil. *)
Definition FuncLit_NumStmts (l : option FuncLit) : Z :=
  match l with
  | None => 0
  | Some lit => BlockStmt_NumStmts (FuncLit_Body lit)
  end.

(** [func (f *FieldList) NumFields() int]; the receiver may be nil. *)
Definition FieldList_NumFields (f : option FieldList) : Z :=
  match f with
  | None => 0
  | Some fl => Z.of_nat (length (FieldList_List fl))
  end.

(** [func (g *CommentGroup) NumComments() int]; the receiver may be nil. *)
Definition CommentGroup_NumComments (g : option CommentGroup) : Z :=
  match g with
  | None => 0
  | Some cg => Z.of_nat (length (CommentGroup_List cg))
  end.

(** *** [End]: the position of the first character after a node

    A method that follows a pointer panics when the pointer is nil, as
    [FuncDecl_End] above. [BasicLit.End] and [NumericLit.End] read
    [l.String()], which is declared in a file that is not among the
    sources; they are left out, and [Expr.End] with them. *)

(** [len(s)] *)
Definition len (s : string) : Z := Z.of_nat (String.length s).

Definition Stmt_Pos (s : Stmt) := let 'mkStmt x _ _ _ := s in x.
Definition CallStmt_StmtEnd (s : CallStmt) := let 'mkCallStmt _ _ _ _ _ _ x := s in x.
Definition WithOpt_Pos (w : WithOpt) := let 'mkWithOpt x _ _ _ := w in x.
Definition FuncLit_Pos (l : FuncLit) := let 'mkFuncLit x _ _ := l in x.

Definition Ident_End (i : Ident) : Position := shiftPosition (Ident_Pos i) (len (Name i)) 0.
Definition Type_End (t : Type_) : Position :=
  shiftPosition (Type_Pos t) (len (Type_ObjType t)) 0.
Definition BadDecl_End (d : BadDecl) : Position :=
  shiftPosition (BadDecl_Pos d) (len (BadDecl_Bad d)) 0.
Definition Variadic_End (v : Variadic) : Position :=
  shiftPosition (Variadic_Pos v) (len (Variadic_Keyword v)) 0.
Definition With_End (w : With) : Position := shiftPosition (With_Pos w) (len (With_Keyword w)) 0.
Definition As_End (a : As) : Position := shiftPosition (As_Pos a) (len (As_Keyword a)) 0.
Definition Newline_End (n : Newline) : Position :=
  shiftPosition (Newline_Pos n) (len (Newline_Text n)) 0.
(** [shiftPosition(c.Pos, len(c.Text)-1, 0)] *)
Definition Comment_End (c : Comment) : Position :=
  shiftPosition (Comment_Pos c) (len (Comment_Text c) - 1) 0.
Definition OpenParen_End (p : OpenParen) : Position := shiftPosition (OpenParen_Pos p) 1 0.
Definition CloseParen_End (p : CloseParen) : Position := shiftPosition (CloseParen_Pos p) 1 0.
Definition OpenBrace_End (b : OpenBrace) : Position := shiftPosition (OpenBrace_Pos b) 1 0.
Definition Field_End (f : Field) : Position := Ident_End (Field_Name f).
Definition ExportDecl_End (d : ExportDecl) : Position := Ident_End (ExportDecl_Ident d).
Definition AliasDecl_End (d : AliasDecl) : Position := Ident_End (AliasDecl_Ident d).

(** [func (g *CommentGroup) End() lexer.Position]: one past [g.Pos] for
    an empty list, the end of [g.List[len(g.List)-1]] otherwise. *)
Definition CommentGroup_End (g : CommentGroup) : Position :=
  match last (CommentGroup_List g) with
  | None => shiftPosition (CommentGroup_Pos g) 1 0
  | Some c => Comment_End c
  end.

(** [func (e *StmtEnd) End() lexer.Position] *)
Definition StmtEnd_End (e : StmtEnd) : Position :=
  match StmtEnd_Semicolon e with
  | Some semicolon => shiftPosition (StmtEnd_Pos e) (len semicolon) 0
  | None =>
      match StmtEnd_Newline e with
      | Some n => Newline_End n
      | None =>
          match StmtEnd_Comment e with
          | Some c => Comment_End c
          | None => shiftPosition (StmtEnd_Pos e) 1 0
          end
      end
  end.

(** [func (s *BlockStmt) End() lexer.Position { return s.CloseBrace.End() }];
    a caller may hold a nil block. *)
Definition BlockStmt_End {E : Type} (s : option BlockStmt) : result E Position :=
  match s with
  | None => Panic NilDereference
  | Some b =>
      match BlockStmt_CloseBrace b with
      | None => Panic NilDereference
      | Some cb => Ok (CloseBrace_End cb)
      end
  end.

(** [func (l *FuncLit) End() lexer.Position { return l.Body.End() }] *)
Definition FuncLit_End {E : Type} (l : FuncLit) : result E Position :=
  BlockStmt_End (FuncLit_Body l).

(** [func (s *CallStmt) End() lexer.Position { return s.StmtEnd.End() }] *)
Definition CallStmt_End {E : Type} (s : CallStmt) : result E Position :=
  match CallStmt_StmtEnd s with
  | None => Panic NilDereference
  | Some e => Ok (StmtEnd_End e)
  end.

(** [func (w *WithOpt) End() lexer.Position] *)
Definition WithOpt_End {E : Type} (w : WithOpt) : result E Position :=
  match WithOpt_Ident w with
  | Some id => Ok (Ident_End id)
  | None =>
      match WithOpt_FuncLit w with
      | Some lit => FuncLit_End lit
      | None => Ok (shiftPosition (WithOpt_Pos w) 1 0)
      end
  end.

(** [func (s *Stmt) End() lexer.Position] *)
Definition Stmt_End {E : Type} (s : Stmt) : result E Position :=
  match Stmt_Call s with
  | Some call => CallStmt_End call
  | None =>
      match Stmt_Newline s with
      | Some n => Ok (Newline_End n)
      | None =>
          match Stmt_Doc s with
          | Some g => Ok (CommentGroup_End g)
          | None => Ok (shiftPosition (Stmt_Pos s) 1 0)
          end
      end
  end.

(** [func (d *ImportDecl) End() lexer.Position { return d.Import.End() }] *)
Definition ImportDecl_End {E : Type} (d : ImportDecl) : result E Position :=
  FuncLit_End (ImportDecl_Import d).

(** [func (m *Method) End() lexer.Position { return m.CloseParen.End() }] *)
Definition Method_End {E : Type} (m : Method) : result E Position :=
  match Method_CloseParen m with
  | None => Panic NilDereference
  | Some p => Ok (CloseParen_End p)
  end.

(** [func (f *FieldList) Position() lexer.Position { return f.OpenParen.Pos }] *)
Definition FieldList_Position {E : Type} (f : FieldList) : result E Position :=
  match FieldList_OpenParen f with
  | None => Panic NilDereference
  | Some p => Ok (OpenParen_Pos p)
  end.

(** [func (f *FieldList) End() lexer.Position { return f.CloseParen.End() }] *)
Definition FieldList_End {E : Type} (f : FieldList) : result E Position :=
  match FieldList_CloseParen f with
  | None => Panic NilDereference
  | Some p => Ok (CloseParen_End p)
  end.

(** [func (d *Decl) End() lexer.Position] *)
Definition Decl_End {E : Type} (d : Decl) : result E Position :=
  match Decl_Bad d with
  | Some bad => Ok (BadDecl_End bad)
  | None =>
      match Decl_Import d with
      | Some imp => ImportDecl_End imp
      | None =>
          match Decl_Export d with
          | Some exp => Ok (ExportDecl_End exp)
          | None =>
              match Decl_Func d with
              | Some fd => FuncDecl_End fd
              | None =>
                  match Decl_Newline d with
                  | Some n => Ok (Newline_End n)
                  | None =>
                      match Decl_Doc d with
                      | Some g => Ok (CommentGroup_End g)
                      | None => Ok (shiftPosition (Decl_Pos d) 1 0)
                      end
                  end
              end
          end
      end
  end.

(** [func (f *File) End() lexer.Position]: without declarations, one past
    [f.Pos] or the end of the leading comment; otherwise the end of
    [f.Decls[len(f.Decls)-1]]. *)
Definition File_End {E : Type} (f : File) : result E Position :=
  match last (File_Decls f) with
  | None =>
      match File_Doc f with
      | None => Ok (shiftPosition (File_Pos f) 1 0)
      | Some g => Ok (CommentGroup_End g)
      end
  | Some d => Decl_End d
  end.

End parser.

(** ** Package [codegen]: the evaluator *)

Module codegen.

Import parser.

(** The errors the evaluator returns. *)
Inductive error : Type :=
| ErrUnknownTarget (name : string)        (* [fmt.Errorf("unknown target %q", name)] *)
| ErrInvalidTarget (ident : Ident)        (* [report.ErrInvalidTarget{call.Func}] *)
| ErrSplit (e : shellquote.splitError)    (* returned by [shellquote.Split] *)
| ErrTimeParse (v : string)               (* returned by [time.Parse] *)
| ErrOther (msg : string).                (* raised by a debugger or an option *)

(** What a [Debugger] is shown: the file before anything runs, then the
    call statement about to run. *)
Inductive DebugNode : Type :=
| Debug_File (f : File)
| Debug_CallStmt (c : CallStmt).

(** [type Debugger func (ptr parser.Scope, parser.Node, interface{}) error];
    a debugger is read as a function of what it is shown. *)
Definition Debugger : Type := Scope -> DebugNode -> value -> option error.

Record CodeGenInfo : Type := mkCodeGenInfo {
  Debug : Debugger;
  Locals : gmap string string
}.

(** [type CodeGenOption func (ptr CodeGenInfo) error]: the updated info and
    the error. *)
Definition CodeGenOption : Type := CodeGenInfo -> CodeGenInfo * option error.

Definition WithDebugger (dbgr : Debugger) : CodeGenOption :=
  fun i => ({| Debug := dbgr; Locals := Locals i |}, None).

(** Modelled from the spec: [NewNoopDebugger] is declared in a file that
    is not among the sources; the spec has the default debug hook as a
    no-op. *)
Definition NewNoopDebugger : Debugger := fun _ _ _ => None.

(** The state the evaluator works on: the [CodeGenInfo] every function
    receives by pointer, how many identifiers [identity.NewID] has handed
    out, and the calls the alias callbacks have recorded. *)
Record world : Type := mkWorld {
  info : CodeGenInfo;
  drawn : nat;
  captured : list (CallStmt * value)
}.

Definition M (A : Type) : Type := world -> result error A * world.

Definition ret {A : Type} (a : A) : M A := fun w => (Ok a, w).

Definition bind {A B : Type} (m : M A) (k : A -> M B) : M B :=
  fun w =>
    match m w with
    | (Ok a, w') => k a w'
    | (Err e, w') => (Err e, w')
    | (Panic p, w') => (Panic p, w')
    end.

Definition fail {A : Type} (e : error) : M A := fun w => (Err e, w).
Definition crash {A : Type} (p : panic) : M A := fun w => (Panic p, w).

Notation "x <- m ;; k" := (bind m (fun x => k))
  (at level 100, m at next level, right associativity).
Notation "m ;; k" := (bind m (fun _ => k))
  (at level 100, k at level 200, right associativity).

(** Reading a field through a pointer. *)
Definition deref {A : Type} (p : option A) : M A :=
  match p with
  | Some a => ret a
  | None => crash NilDereference
  end.

(** [s[i]] *)
Definition index {A : Type} (s : list A) (i : nat) : M A :=
  match s !! i with
  | Some a => ret a
  | None => crash IndexOutOfRange
  end.

(** [err := info.Debug(scope, node, v)] *)
Definition callDebug (scope : Scope) (node : DebugNode) (v : value) : M (option error) :=
  fun w => (Ok (Debug (info w) scope node v), w).

(** [err := info.Debug(scope, node, v); if err != nil { return nil, err }] *)
Definition debug (scope : Scope) (node : DebugNode) (v : value) : M unit :=
  err <- callDebug scope node v ;;
  match err with
  | Some e => fail e
  | None => ret tt
  end.

(** [info.Locals[id] = path] *)
Definition setLocal (id path : string) : M unit :=
  fun w =>
    (Ok tt, {| info := {| Debug := Debug (info w); Locals := <[id := path]> (Locals (info w)) |};
               drawn := drawn w;
               captured := captured w |}).

(** [type aliasCallback func (ptr parser.CallStmt, interface{})] *)
Definition aliasCallback : Type := CallStmt -> value -> M unit.

Definition noopAliasCallback : aliasCallback := fun _ _ => ret tt.

(** A callback that records what it is called with, in call order. *)
Definition recordAlias : aliasCallback :=
  fun call v w =>
    (Ok tt, {| info := info w; drawn := drawn w; captured := captured w ++ [(call, v)] |}).

(** [llb.StateOption], [func(llb.State) llb.State]; [None] is the nil
    func. The closure [run] returns calls the alias callback, so applying
    it is a step of the evaluator. *)
Definition StateOption : Type := option (llb.State -> M llb.State).

Definition applyStateOption (so : StateOption) (st : llb.State) : M llb.State :=
  match so with
  | Some f => f st
  | None => crash NilFuncCall
  end.

(** Type assertions. *)
Definition assertState (v : value) : M llb.State :=
  match v with VState st => ret st | _ => crash TypeAssertion end.
Definition assertString (v : value) : M string :=
  match v with VString s => ret s | _ => crash TypeAssertion end.
Definition assertOptions (v : value) : M (list llb.Opt) :=
  match v with VOptions o => ret o | _ => crash TypeAssertion end.

(** [for _, iopt := range iopts { opt := iopt.(llb.K); opts = append(opts, opt) }] *)
Fixpoint assertOpts (k : llb.OptionKind) (iopts : list llb.Opt) : M (list llb.Opt) :=
  match iopts with
  | [] => ret []
  | iopt :: rest =>
      if llb.implements iopt k
      then (opts <- assertOpts k rest ;; ret (iopt :: opts))
      else crash TypeAssertion
  end.

(** [os.FileMode(mode)]: a conversion to a 32-bit unsigned integer. *)
Definition FileMode (mode : Z) : Z := mode mod 2 ^ 32.

(** What [codegen.go] uses and does not define: the registry of package
    [report], functions of Go's library and of [identity], and the
    evaluator's functions that live in other files of the package. The
    properties below hold for every implementation of them. *)
Class Externals : Type := mkExternals {
  (** [_, ok := report.Builtins[typ][name]] *)
  IsBuiltin : ObjType -> string -> bool;
  (** [report.Contains(report.Debugs, name)] *)
  IsDebug : string -> bool;
  (** [net.ParseIP(address)] *)
  net_ParseIP : string -> net.IP;
  (** [fmt.Sprintf(format, as...)], every argument a string *)
  fmt_Sprintf : string -> list string -> string;
  (** [identity.NewID()]: the identifier of the n-th draw *)
  identity_NewID : nat -> string;
  emitStringExpr : Scope -> CallStmt -> Expr -> M string;
  emitIntExpr : Scope -> Expr -> M Z;
  maybeEmitBoolExpr : Scope -> list Expr -> M bool;
  emitFilesystemExpr : Scope -> option CallStmt -> Expr -> aliasCallback -> M llb.State;
  emitOptionExpr : Scope -> CallStmt -> string -> Expr -> M (list llb.Opt);
  emitFuncDecl : Scope -> FuncDecl -> CallStmt -> string -> aliasCallback -> M value;
  emitAliasDecl : Scope -> AliasDecl -> CallStmt -> M value;
  emitFilesystemFuncDecl :
    Scope -> FuncDecl -> CallStmt -> aliasCallback -> M (llb.State * option error);
  emitFilesystemAliasDecl :
    Scope -> AliasDecl -> CallStmt -> M (llb.State * option error)
}.

(** [id := identity.NewID()] *)
Definition NewID `{Externals} : M string :=
  fun w =>
    (Ok (identity_NewID (drawn w)),
     {| info := info w; drawn := S (drawn w); captured := captured w |}).

(** [switch x { case k1: ...; case k2: ...; default: ... }] on a string *)
Fixpoint switch {A : Type} (x : string) (cases : list (string * A)) (default : A) : A :=
  match cases with
  | [] => default
  | (k, a) :: rest => if String.eqb x k then a else switch x rest default
  end.

Section Options.

Context `{Externals}.
Variable scope : Scope.

(** [args[i]] *)
Definition arg (args : list Expr) (i : nat) : M Expr := index args i.

(** The loops that evaluate every argument as a string, in order. *)
Fixpoint emitStringExprs (call : CallStmt) (args : list Expr) : M (list string) :=
  match args with
  | [] => ret []
  | a :: rest =>
      s <- emitStringExpr scope call a ;;
      ss <- emitStringExprs call rest ;;
      ret (s :: ss)
  end.

(** [for _, stmt := range stmts { switch { case stmt.Call != nil: ... } }]:
    the body runs on the call statements and threads what the loop
    accumulates. *)
Fixpoint forStmts {S : Type} (body : CallStmt -> S -> M S) (stmts : list Stmt) (s : S) : M S :=
  match stmts with
  | [] => ret s
  | stmt :: rest =>
      match Stmt_Call stmt with
      | Some call => s' <- body call s ;; forStmts body rest s'
      | None => forStmts body rest s
      end
  end.

(** The [default] case of every option loop. *)
Definition defaultOption (op : string) (call : CallStmt) (opts : list llb.Opt)
  : M (list llb.Opt) :=
  iopts <- emitOptionExpr scope call op (NewIdentExpr (Name (CallStmt_Func call))) ;;
  ret (opts ++ iopts).

(** The [createdTime] case, shared by three loops. *)
Definition createdTimeOption (call : CallStmt) (opts : list llb.Opt) : M (list llb.Opt) :=
  a0 <- arg (CallStmt_Args call) 0 ;;
  v <- emitStringExpr scope call a0 ;;
  (* t, err := time.Parse(time.RFC3339, v) *)
  match time.Parse v with
  | None => fail (ErrTimeParse v)
  | Some t => ret (opts ++ [llb.WithCreatedTime t])
  end.

Definition chownOption (call : CallStmt) (opts : list llb.Opt) : M (list llb.Opt) :=
  a0 <- arg (CallStmt_Args call) 0 ;;
  owner <- emitStringExpr scope call a0 ;;
  ret (opts ++ [llb.WithUser owner]).

Definition emitImageOptions (op : string) (stmts : list Stmt) : M (list llb.Opt) :=
  forStmts (fun call opts =>
    let args := CallStmt_Args call in
    switch (Name (CallStmt_Func call))
      [("resolve",
        v <- maybeEmitBoolExpr scope args ;;
        ret (if v : bool then opts ++ [llb.WithDefault] else opts))]
      (defaultOption op call opts)) stmts [].

Definition emitHTTPOptions (op : string) (stmts : list Stmt) : M (list llb.Opt) :=
  forStmts (fun call opts =>
    let args := CallStmt_Args call in
    switch (Name (CallStmt_Func call))
      [("checksum",
        a0 <- arg args 0 ;;
        dgst <- emitStringExpr scope call a0 ;;
        ret (opts ++ [llb.Checksum dgst]));
       ("chmod",
        a0 <- arg args 0 ;;
        mode <- emitIntExpr scope a0 ;;
        ret (opts ++ [llb.Chmod (FileMode mode)]));
       ("filename",
        a0 <- arg args 0 ;;
        filename <- emitStringExpr scope call a0 ;;
        ret (opts ++ [llb.Filename filename]))]
      (defaultOption op call opts)) stmts [].

Definition emitGitOptions (op : string) (stmts : list Stmt) : M (list llb.Opt) :=
  forStmts (fun call opts =>
    let args := CallStmt_Args call in
    switch (Name (CallStmt_Func call))
      [("keepGitDir",
        v <- maybeEmitBoolExpr scope args ;;
        ret (if v : bool then opts ++ [llb.KeepGitDir] else opts))]
      (defaultOption op call opts)) stmts [].

Definition emitLocalOptions (op : string) (stmts : list Stmt) : M (list llb.Opt) :=
  forStmts (fun call opts =>
    let args := CallStmt_Args call in
    switch (Name (CallStmt_Func call))
      [("includePatterns",
        patterns <- emitStringExprs call args ;;
        ret (opts ++ [llb.IncludePatterns patterns]));
       ("excludePatterns",
        patterns <- emitStringExprs call args ;;
        ret (opts ++ [llb.ExcludePatterns patterns]));
       ("followPaths",
        paths <- emitStringExprs call args ;;
        ret (opts ++ [llb.FollowPaths paths]))]
      (defaultOption op call opts)) stmts [].

Definition emitGenerateOptions (op : string) (stmts : list Stmt) (ac : aliasCallback)
  : M (list llb.Opt) :=
  forStmts (fun call opts =>
    let args := CallStmt_Args call in
    switch (Name (CallStmt_Func call))
      [("frontendInput",
        a0 <- arg args 0 ;;
        key <- emitStringExpr scope call a0 ;;
        a1 <- arg args 1 ;;
        value <- emitFilesystemExpr scope None a1 ac ;;
        ret (opts ++ [llb.WithFrontendInput key value]));
       ("frontendOpt",
        a0 <- arg args 0 ;;
        key <- emitStringExpr scope call a0 ;;
        a1 <- arg args 1 ;;
        value <- emitStringExpr scope call a1 ;;
        ret (opts ++ [llb.WithFrontendOpt key value]))]
      (defaultOption op call opts)) stmts [].

Definition emitMkdirOptions (op : string) (stmts : list Stmt) : M (list llb.Opt) :=
  forStmts (fun call opts =>
    let args := CallStmt_Args call in
    switch (Name (CallStmt_Func call))
      [("createParents",
        v <- maybeEmitBoolExpr scope args ;;
        ret (opts ++ [llb.WithParents v]));
       ("chown", chownOption call opts);
       ("createdTime", createdTimeOption call opts)]
      (defaultOption op call opts)) stmts [].

Definition emitMkfileOptions (op : string) (stmts : list Stmt) : M (list llb.Opt) :=
  forStmts (fun call opts =>
    switch (Name (CallStmt_Func call))
      [("chown", chownOption call opts);
       ("createdTime", createdTimeOption call opts)]
      (defaultOption op call opts)) stmts [].

Definition emitRmOptions (op : string) (stmts : list Stmt) : M (list llb.Opt) :=
  forStmts (fun call opts =>
    let args := CallStmt_Args call in
    switch (Name (CallStmt_Func call))
      [("allowNotFound",
        v <- maybeEmitBoolExpr scope args ;;
        ret (opts ++ [llb.WithAllowNotFound v]));
       ("allowWildcard",
        v <- maybeEmitBoolExpr scope args ;;
        ret (opts ++ [llb.WithAllowWildcard v]))]
      (defaultOption op call opts)) stmts [].

Definition emitCopyOptions (op : string) (stmts : list Stmt) : M (list llb.Opt) :=
  r <- forStmts (fun call (s : llb.CopyInfo * list llb.Opt) =>
    let cp := fst s in
    let opts := snd s in
    let args := CallStmt_Args call in
    let flag (set : bool -> llb.CopyInfo) : M (llb.CopyInfo * list llb.Opt) :=
      (v <- maybeEmitBoolExpr scope args ;; ret (set v, opts)) in
    switch (Name (CallStmt_Func call))
      [("followSymlinks", flag (fun v =>
          llb.mkCopyInfo v (llb.CopyDirContentsOnly cp) (llb.AttemptUnpack cp)
            (llb.CreateDestPath cp) (llb.AllowWildcard cp) (llb.AllowEmptyWildcard cp)));
       ("contentsOnly", flag (fun v =>
          llb.mkCopyInfo (llb.FollowSymlinks cp) v (llb.AttemptUnpack cp)
            (llb.CreateDestPath cp) (llb.AllowWildcard cp) (llb.AllowEmptyWildcard cp)));
       ("unpack", flag (fun v =>
          llb.mkCopyInfo (llb.FollowSymlinks cp) (llb.CopyDirContentsOnly cp) v
            (llb.CreateDestPath cp) (llb.AllowWildcard cp) (llb.AllowEmptyWildcard cp)));
       ("createDestPath", flag (fun v =>
          llb.mkCopyInfo (llb.FollowSymlinks cp) (llb.CopyDirContentsOnly cp)
            (llb.AttemptUnpack cp) v (llb.AllowWildcard cp) (llb.AllowEmptyWildcard cp)));
       ("allowWildcards", flag (fun v =>
          llb.mkCopyInfo (llb.FollowSymlinks cp) (llb.CopyDirContentsOnly cp)
            (llb.AttemptUnpack cp) (llb.CreateDestPath cp) v (llb.AllowEmptyWildcard cp)));
       ("allowEmptyWildcard", flag (fun v =>
          llb.mkCopyInfo (llb.FollowSymlinks cp) (llb.CopyDirContentsOnly cp)
            (llb.AttemptUnpack cp) (llb.CreateDestPath cp) (llb.AllowWildcard cp) v));
       ("chown", opts' <- chownOption call opts ;; ret (cp, opts'));
       ("createdTime", opts' <- createdTimeOption call opts ;; ret (cp, opts'))]
      (opts' <- defaultOption op call opts ;; ret (cp, opts')))
    stmts (llb.emptyCopyInfo, []) ;;
  (* opts = append([]interface{}{cp}, opts...) *)
  ret (llb.CopyInfoOpt (fst r) :: snd r).

Record sshSocketOpt : Type := mkSshSocketOpt {
  ssh_target : string;
  ssh_uid : Z;
  ssh_gid : Z;
  ssh_mode : Z
}.

(** [if sopt == nil { sopt = &sshSocketOpt{} }] *)
Definition orEmptySsh (sopt : option sshSocketOpt) : sshSocketOpt :=
  match sopt with
  | Some o => o
  | None => mkSshSocketOpt EmptyString 0 0 0
  end.

Definition emitSSHOptions (op : string) (stmts : list Stmt) : M (list llb.Opt) :=
  r <- forStmts (fun call (s : option sshSocketOpt * list llb.Opt) =>
    let sopt := fst s in
    let opts := snd s in
    let args := CallStmt_Args call in
    let o := orEmptySsh sopt in
    switch (Name (CallStmt_Func call))
      [("target",
        a0 <- arg args 0 ;;
        target <- emitStringExpr scope call a0 ;;
        ret (Some (mkSshSocketOpt target (ssh_uid o) (ssh_gid o) (ssh_mode o)), opts));
       ("id",
        a0 <- arg args 0 ;;
        id <- emitStringExpr scope call a0 ;;
        ret (sopt, opts ++ [llb.SSHID id]));
       ("uid",
        a0 <- arg args 0 ;;
        uid <- emitIntExpr scope a0 ;;
        ret (Some (mkSshSocketOpt (ssh_target o) uid (ssh_gid o) (ssh_mode o)), opts));
       ("gid",
        a0 <- arg args 0 ;;
        gid <- emitIntExpr scope a0 ;;
        ret (Some (mkSshSocketOpt (ssh_target o) (ssh_uid o) gid (ssh_mode o)), opts));
       ("mode",
        a0 <- arg args 0 ;;
        mode <- emitIntExpr scope a0 ;;
        ret (Some (mkSshSocketOpt (ssh_target o) (ssh_uid o) (ssh_gid o) (FileMode mode)), opts))]
      (opts' <- defaultOption op call opts ;; ret (sopt, opts')))
    stmts (None, []) ;;
  match fst r with
  | Some sopt =>
      ret (snd r ++ [llb.SSHSocketOpt (ssh_target sopt) (ssh_uid sopt) (ssh_gid sopt)
                                      (ssh_mode sopt)])
  | None => ret (snd r)
  end.

Record secretOpt : Type := mkSecretOpt {
  secret_uid : Z;
  secret_gid : Z;
  secret_mode : Z
}.

Definition orEmptySecret (sopt : option secretOpt) : secretOpt :=
  match sopt with
  | Some o => o
  | None => mkSecretOpt 0 0 0
  end.

Definition emitSecretOptions (op : string) (stmts : list Stmt) : M (list llb.Opt) :=
  r <- forStmts (fun call (s : option secretOpt * list llb.Opt) =>
    let sopt := fst s in
    let opts := snd s in
    let args := CallStmt_Args call in
    let o := orEmptySecret sopt in
    switch (Name (CallStmt_Func call))
      [("id",
        a0 <- arg args 0 ;;
        id <- emitStringExpr scope call a0 ;;
        ret (sopt, opts ++ [llb.SecretID id]));
       ("uid",
        a0 <- arg args 0 ;;
        uid <- emitIntExpr scope a0 ;;
        ret (Some (mkSecretOpt uid (secret_gid o) (secret_mode o)), opts));
       ("gid",
        a0 <- arg args 0 ;;
        gid <- emitIntExpr scope a0 ;;
        ret (Some (mkSecretOpt (secret_uid o) gid (secret_mode o)), opts));
       ("mode",
        a0 <- arg args 0 ;;
        mode <- emitIntExpr scope a0 ;;
        ret (Some (mkSecretOpt (secret_uid o) (secret_gid o) (FileMode mode)), opts))]
      (opts' <- defaultOption op call opts ;; ret (sopt, opts')))
    stmts (None, []) ;;
  match fst r with
  | Some sopt =>
      ret (snd r ++ [llb.SecretFileOpt (secret_uid sopt) (secret_gid sopt) (secret_mode sopt)])
  | None => ret (snd r)
  end.

(** The [cache] case of [emitMountOptions]: its sharing argument. *)
Definition sharingMode (mode : string) : M llb.CacheMountSharingMode :=
  switch mode
    [("shared", ret llb.CacheMountShared);
     ("private", ret llb.CacheMountPrivate);
     ("locked", ret llb.CacheMountLocked)]
    (crash (Explicit "unknown sharing mode")).

Definition emitMountOptions (op : string) (stmts : list Stmt) : M (list llb.Opt) :=
  forStmts (fun call opts =>
    let args := CallStmt_Args call in
    switch (Name (CallStmt_Func call))
      [("readonly",
        v <- maybeEmitBoolExpr scope args ;;
        ret (if v : bool then opts ++ [llb.Readonly] else opts));
       ("tmpfs",
        v <- maybeEmitBoolExpr scope args ;;
        ret (if v : bool then opts ++ [llb.Tmpfs] else opts));
       ("sourcePath",
        a0 <- arg args 0 ;;
        path <- emitStringExpr scope call a0 ;;
        ret (opts ++ [llb.SourcePath path]));
       ("cache",
        a0 <- arg args 0 ;;
        id <- emitStringExpr scope call a0 ;;
        a1 <- arg args 1 ;;
        mode <- emitStringExpr scope call a1 ;;
        sharing <- sharingMode mode ;;
        ret (opts ++ [llb.AsPersistentCacheDir id sharing]))]
      (defaultOption op call opts)) stmts [].

(** [emitOptions] for every operation but [run], whose loop
    ([emitExecOptions]) is the one that evaluates nested [with] clauses. *)
Definition emitOptionsOther (op : string) (stmts : list Stmt) (ac : aliasCallback)
  : M (list llb.Opt) :=
  switch op
    [("image", emitImageOptions op stmts);
     ("http", emitHTTPOptions op stmts);
     ("git", emitGitOptions op stmts);
     ("local", emitLocalOptions op stmts);
     ("generate", emitGenerateOptions op stmts ac);
     ("ssh", emitSSHOptions op stmts);
     ("secret", emitSecretOptions op stmts);
     ("mount", emitMountOptions op stmts);
     ("mkdir", emitMkdirOptions op stmts);
     ("mkfile", emitMkfileOptions op stmts);
     ("rm", emitRmOptions op stmts);
     ("copy", emitCopyOptions op stmts)]
    (crash (Explicit "call stmt does not support options")).

(** The [network] and [security] cases of [emitExecOptions]. *)
Definition netMode (mode : string) : M llb.NetMode :=
  switch mode
    [("unset", ret llb.NetMode_UNSET);
     ("host", ret llb.NetMode_HOST);
     ("node", ret llb.NetMode_NONE)]
    (crash (Explicit "unknown network mode")).

Definition securityMode (mode : string) : M llb.SecurityMode :=
  switch mode
    [("sandbox", ret llb.SecurityMode_SANDBOX);
     ("insecure", ret llb.SecurityMode_INSECURE)]
    (crash (Explicit "unknown network mode")).

(** The body of the loop of [emitExecOptions] after
    [iopts, err := emitWithOption(info, scope, stmt.Call, stmt.Call.WithOpt, ac)]. *)
Definition execOption (op : string) (ac : aliasCallback) (call : CallStmt)
  (iopts opts : list llb.Opt) : M (list llb.Opt) :=
  let args := CallStmt_Args call in
  switch (Name (CallStmt_Func call))
    [("readonlyRootfs",
      v <- maybeEmitBoolExpr scope args ;;
      ret (if v : bool then opts ++ [llb.ReadonlyRootFS] else opts));
     ("env",
      a0 <- arg args 0 ;;
      key <- emitStringExpr scope call a0 ;;
      a1 <- arg args 1 ;;
      value <- emitStringExpr scope call a1 ;;
      ret (opts ++ [llb.AddEnv key value]));
     ("dir",
      a0 <- arg args 0 ;;
      path <- emitStringExpr scope call a0 ;;
      ret (opts ++ [llb.Dir path]));
     ("user",
      a0 <- arg args 0 ;;
      name <- emitStringExpr scope call a0 ;;
      ret (opts ++ [llb.User name]));
     ("network",
      a0 <- arg args 0 ;;
      mode <- emitStringExpr scope call a0 ;;
      m <- netMode mode ;;
      ret (opts ++ [llb.Network m]));
     ("security",
      a0 <- arg args 0 ;;
      mode <- emitStringExpr scope call a0 ;;
      m <- securityMode mode ;;
      ret (opts ++ [llb.Security m]));
     ("host",
      a0 <- arg args 0 ;;
      host <- emitStringExpr scope call a0 ;;
      a1 <- arg args 1 ;;
      address <- emitStringExpr scope call a1 ;;
      ret (opts ++ [llb.AddExtraHost host (net_ParseIP address)]));
     ("ssh",
      sshOpts <- assertOpts llb.SSHOption iopts ;;
      ret (opts ++ [llb.AddSSHSocket sshOpts]));
     ("secret",
      a0 <- arg args 0 ;;
      target <- emitStringExpr scope call a0 ;;
      secretOpts <- assertOpts llb.SecretOption iopts ;;
      ret (opts ++ [llb.AddSecret target secretOpts]));
     ("mount",
      a0 <- arg args 0 ;;
      input <- emitFilesystemExpr scope None a0 ac ;;
      a1 <- arg args 1 ;;
      target <- emitStringExpr scope call a1 ;;
      mountOpts <- assertOpts llb.MountOption iopts ;;
      ret (opts ++ [llb.AddMount target input mountOpts]))]
    (defaultOption op call opts).

(** [obj := scope.Lookup(with.Ident.Name)] and the [switch obj.Kind] of
    [emitWithOption]. *)
Definition withIdent (id : Ident) : M (list llb.Opt) :=
  obj <- deref (Lookup scope (Name id)) ;;
  match Object_Kind obj with
  | ExprKind => assertOptions (Object_Data obj)
  | _ => crash (Explicit "unknown with option kind")
  end.

(** [emitWithOption], [emitOptions] and [emitExecOptions] call each other:
    an option statement of a [run] may carry a [with] clause of its own.
    Every call goes one level down the syntax tree, so the three are one
    recursion on the statement whose clause is evaluated:
    [withOptionOf ac parent] is
    [emitWithOption(info, scope, parent, parent.WithOpt, ac)], the form of
    every call in the source. The inner loop is [emitExecOptions] on
    [with.FuncLit.Body.NonEmptyStmts()], written on the statement list
    itself. The three functions follow in the shape the source gives
    them, with the equations that tie them to this one. *)
Fixpoint withOptionOf (ac : aliasCallback) (parent : CallStmt) {struct parent}
  : M (list llb.Opt) :=
  match parent with
  | mkCallStmt _ _ func _ None _ _ => ret []
  | mkCallStmt _ _ func _ (Some (mkWithOpt _ _ (Some id) _)) _ _ => withIdent id
  | mkCallStmt _ _ func _ (Some (mkWithOpt _ _ None None)) _ _ =>
      crash (Explicit "unknown with option")
  | mkCallStmt _ _ func _ (Some (mkWithOpt _ _ None (Some (mkFuncLit _ _ body)))) _ _ =>
      if String.eqb (Name func) "run" then
        match body with
        | None => ret []
        | Some (mkBlockStmt _ _ stmts _) =>
            (fix loop (stmts : list Stmt) (opts : list llb.Opt) {struct stmts}
               : M (list llb.Opt) :=
               match stmts with
               | [] => ret opts
               | mkStmt _ c nl doc :: rest =>
                   if notNil nl || notNil doc then loop rest opts
                   else match c with
                        | Some call =>
                            opts' <- (iopts <- withOptionOf ac call ;;
                                      execOption "run" ac call iopts opts) ;;
                            loop rest opts'
                        | None => loop rest opts
                        end
               end) stmts []
        end
      else emitOptionsOther (Name func) (NonEmptyStmts body) ac
  end.

Definition emitExecOptions (op : string) (stmts : list Stmt) (ac : aliasCallback)
  : M (list llb.Opt) :=
  forStmts (fun call opts =>
    iopts <- withOptionOf ac call ;;
    execOption op ac call iopts opts) stmts [].

Definition emitOptions (op : string) (stmts : list Stmt) (ac : aliasCallback)
  : M (list llb.Opt) :=
  switch op
    [("image", emitImageOptions op stmts);
     ("http", emitHTTPOptions op stmts);
     ("git", emitGitOptions op stmts);
     ("local", emitLocalOptions op stmts);
     ("generate", emitGenerateOptions op stmts ac);
     ("run", emitExecOptions op stmts ac);
     ("ssh", emitSSHOptions op stmts);
     ("secret", emitSecretOptions op stmts);
     ("mount", emitMountOptions op stmts);
     ("mkdir", emitMkdirOptions op stmts);
     ("mkfile", emitMkfileOptions op stmts);
     ("rm", emitRmOptions op stmts);
     ("copy", emitCopyOptions op stmts)]
    (crash (Explicit "call stmt does not support options")).

Definition emitWithOption (parent : CallStmt) (with_ : option WithOpt) (ac : aliasCallback)
  : M (list llb.Opt) :=
  match with_ with
  | None => ret []
  | Some w =>
      match WithOpt_Ident w with
      | Some id => withIdent id
      | None =>
          match WithOpt_FuncLit w with
          | Some lit =>
              emitOptions (Name (CallStmt_Func parent)) (NonEmptyStmts (FuncLit_Body lit)) ac
          | None => crash (Explicit "unknown with option")
          end
      end
  end.

Definition emitFilesystemSourceStmt (call : CallStmt) (ac : aliasCallback) : M llb.State :=
  iopts <- emitWithOption call (CallStmt_WithOpt call) ac ;;
  let args := CallStmt_Args call in
  switch (Name (CallStmt_Func call))
    [("scratch", ret llb.Scratch);
     ("image",
      a0 <- arg args 0 ;;
      ref <- emitStringExpr scope call a0 ;;
      opts <- assertOpts llb.ImageOption iopts ;;
      ret (llb.Image ref opts));
     ("http",
      a0 <- arg args 0 ;;
      url <- emitStringExpr scope call a0 ;;
      opts <- assertOpts llb.HTTPOption iopts ;;
      ret (llb.HTTP url opts));
     ("git",
      a0 <- arg args 0 ;;
      remote <- emitStringExpr scope call a0 ;;
      a1 <- arg args 1 ;;
      ref <- emitStringExpr scope call a1 ;;
      opts <- assertOpts llb.GitOption iopts ;;
      ret (llb.Git remote ref opts));
     ("local",
      a0 <- arg args 0 ;;
      path <- emitStringExpr scope call a0 ;;
      id <- NewID ;;
      setLocal id path ;;
      opts <- assertOpts llb.LocalOption iopts ;;
      (* return llb.Local(id), nil *)
      ret (llb.Local id []));
     ("generate",
      a0 <- arg args 0 ;;
      frontend <- emitFilesystemExpr scope None a0 ac ;;
      opts <- assertOpts llb.FrontendOption iopts ;;
      ret (llb.Frontend frontend (llb.IgnoreCache :: opts)))]
    (crash (Explicit "unknown fs source stmt")).

Definition emitStringSourceStmt (call : CallStmt) (ac : aliasCallback) : M string :=
  let args := CallStmt_Args call in
  switch (Name (CallStmt_Func call))
    [("value",
      a0 <- arg args 0 ;;
      emitStringExpr scope call a0);
     ("format",
      a0 <- arg args 0 ;;
      formatStr <- emitStringExpr scope call a0 ;;
      as_ <- emitStringExprs call (drop 1 args) ;;
      ret (fmt_Sprintf formatStr as_))]
    (crash (Explicit "unknown string source stmt")).

Definition emitSourceStmt (typ : ObjType) (call : CallStmt) (ac : aliasCallback) : M value :=
  if IsBuiltin typ (Name (CallStmt_Func call)) then
    switch typ
      [(Filesystem, st <- emitFilesystemSourceStmt call ac ;; ret (VState st));
       (Str, s <- emitStringSourceStmt call ac ;; ret (VString s))]
      (crash (Explicit "unimplemented"))
  else
    match Lookup scope (Name (CallStmt_Func call)) with
    | None => crash (Explicit (Name (CallStmt_Func call)))
    | Some obj =>
        match Object_Node obj with
        | Node_FuncDecl n => emitFuncDecl scope n call EmptyString noopAliasCallback
        | Node_AliasDecl n => emitAliasDecl scope n call
        | Node_Field _ => ret (Object_Data obj)
        | _ => crash (Explicit "unknown obj type")
        end
    end.

(** The [run] case: the command line. *)
Definition runShlex (call : CallStmt) (args : list Expr) : M string :=
  match args with
  | [a0] =>
      (* len(args) == 1 *)
      commandStr <- emitStringExpr scope call a0 ;;
      match shellquote.Split commandStr with
      | inl e => fail (ErrSplit e)
      | inr parts =>
          ret (if Nat.eqb (length parts) 1 then commandStr
               else shellquote.Join ["/bin/sh"; "-c"; commandStr])
      end
  | _ =>
      runArgs <- emitStringExprs call args ;;
      ret (shellquote.Join runArgs)
  end.

(** The [run] case: the aliased mounts of an inline [with] block, as the
    list [targets] and the map [calls] the source builds. The mount
    target is evaluated with the [run] call as its context. *)
Fixpoint mountAliases (call : CallStmt) (stmts : list Stmt)
  (targets : list string) (calls : gmap string CallStmt)
  : M (list string * gmap string CallStmt) :=
  match stmts with
  | [] => ret (targets, calls)
  | stmt :: rest =>
      c <- deref (Stmt_Call stmt) ;;
      if negb (String.eqb (Name (CallStmt_Func c)) "mount") || negb (notNil (CallStmt_Alias c))
      then mountAliases call rest targets calls
      else
        a1 <- arg (CallStmt_Args c) 1 ;;
        target <- emitStringExpr scope call a1 ;;
        mountAliases call rest (targets ++ [target]) (<[target := c]> calls)
  end.

Definition runMountAliases (call : CallStmt) : M (list string * gmap string CallStmt) :=
  match CallStmt_WithOpt call with
  | None => ret ([], ∅)
  | Some w =>
      match WithOpt_Ident w with
      | Some _ => ret ([], ∅)
      | None =>
          match WithOpt_FuncLit w with
          | Some lit => mountAliases call (NonEmptyStmts (FuncLit_Body lit)) [] ∅
          | None => crash (Explicit "unknown with option")
          end
      end
  end.

(** The closure [run] returns: exec, report every aliased mount to the
    callback, return the root. [calls] has an entry for every member of
    [targets]. *)
Fixpoint reportMounts (ac : aliasCallback) (st : llb.State) (opts : list llb.Opt)
  (calls : gmap string CallStmt) (targets : list string) : M unit :=
  match targets with
  | [] => ret tt
  | target :: rest =>
      c <- deref (calls !! target) ;;
      ac c (VState (llb.ExecMount st opts target)) ;;
      reportMounts ac st opts calls rest
  end.

Definition runStateOption (ac : aliasCallback) (opts : list llb.Opt)
  (targets : list string) (calls : gmap string CallStmt) : llb.State -> M llb.State :=
  fun st =>
    reportMounts ac st opts calls targets ;;
    ret (llb.ExecRoot st opts).

Definition emitFilesystemChainStmt (typ : ObjType) (call : CallStmt) (ac : aliasCallback)
  : M StateOption :=
  let args := CallStmt_Args call in
  iopts <- emitWithOption call (CallStmt_WithOpt call) ac ;;
  switch (Name (CallStmt_Func call))
    [("run",
      shlex <- runShlex call args ;;
      opts <- assertOpts llb.RunOption iopts ;;
      tc <- runMountAliases call ;;
      ret (Some (runStateOption ac (opts ++ [llb.Shlex shlex]) (fst tc) (snd tc))));
     ("env",
      a0 <- arg args 0 ;;
      key <- emitStringExpr scope call a0 ;;
      a1 <- arg args 1 ;;
      value <- emitStringExpr scope call a1 ;;
      ret (Some (fun st => ret (llb.StAddEnv st key value))));
     ("dir",
      a0 <- arg args 0 ;;
      path <- emitStringExpr scope call a0 ;;
      ret (Some (fun st => ret (llb.StDir st path))));
     ("user",
      a0 <- arg args 0 ;;
      name <- emitStringExpr scope call a0 ;;
      ret (Some (fun st => ret (llb.StUser st name))));
     ("entrypoint",
      stArgs <- emitStringExprs call args ;;
      ret (Some (fun st => ret (llb.StArgs st stArgs))));
     ("mkdir",
      a0 <- arg args 0 ;;
      path <- emitStringExpr scope call a0 ;;
      a1 <- arg args 1 ;;
      mode <- emitIntExpr scope a1 ;;
      iopts <- emitWithOption call (CallStmt_WithOpt call) ac ;;
      opts <- assertOpts llb.MkdirOption iopts ;;
      ret (Some (fun st => ret (llb.StFile st (llb.Mkdir path (FileMode mode) opts)))));
     ("mkfile",
      a0 <- arg args 0 ;;
      path <- emitStringExpr scope call a0 ;;
      a1 <- arg args 1 ;;
      mode <- emitIntExpr scope a1 ;;
      a2 <- arg args 2 ;;
      content <- emitStringExpr scope call a2 ;;
      opts <- assertOpts llb.MkfileOption iopts ;;
      ret (Some (fun st => ret (llb.StFile st (llb.Mkfile path (FileMode mode) content opts)))));
     ("rm",
      a0 <- arg args 0 ;;
      path <- emitStringExpr scope call a0 ;;
      opts <- assertOpts llb.RmOption iopts ;;
      ret (Some (fun st => ret (llb.StFile st (llb.Rm path opts)))));
     ("copy",
      a0 <- arg args 0 ;;
      input <- emitFilesystemExpr scope None a0 ac ;;
      a1 <- arg args 1 ;;
      src <- emitStringExpr scope call a1 ;;
      a2 <- arg args 2 ;;
      dest <- emitStringExpr scope call a2 ;;
      opts <- assertOpts llb.CopyOption iopts ;;
      ret (Some (fun st => ret (llb.StFile st (llb.Copy input src dest opts)))))]
    (* no case matches: [so] is still the nil func *)
    (ret None).

Definition emitStringChainStmt (call : CallStmt) : M (string -> string) :=
  crash (Explicit "unimplemented").

Definition emitChainStmt (typ : ObjType) (call : CallStmt) (ac : aliasCallback)
  : M (value -> M value) :=
  switch typ
    [(Filesystem,
      chain <- emitFilesystemChainStmt typ call ac ;;
      ret (fun v => st <- assertState v ;;
                    st' <- applyStateOption chain st ;;
                    ret (VState st')));
     (Str,
      chain <- emitStringChainStmt call ;;
      ret (fun v => s <- assertString v ;; ret (VString (chain s))))]
    (crash (Explicit "unknown chain stmt")).

(** *** [emitBlock] *)

(** [switch typ { case parser.Filesystem: v = llb.Scratch(); case parser.Str: v = "" }];
    [v] stays nil for every other type. *)
Definition initialValue (typ : ObjType) : value :=
  switch typ
    [(Filesystem, VState llb.Scratch);
     (Str, VString EmptyString)]
    VNil.

(** The first loop: show the leading debug calls to the debugger and
    stop at the first other statement; [index] is where the loop broke,
    and stays 0 when it ran to the end. [i] is the loop counter. *)
Fixpoint skipDebugs (v : value) (stmts : list Stmt) (i : nat) : M nat :=
  match stmts with
  | [] => ret 0%nat
  | stmt :: rest =>
      call <- deref (Stmt_Call stmt) ;;
      if IsDebug (Name (CallStmt_Func call)) then
        debug scope (Debug_CallStmt call) v ;;
        skipDebugs v rest (S i)
      else ret i
  end.

(** [if call.Alias != nil { ac(call, v) }] *)
Definition reportAlias (ac : aliasCallback) (call : CallStmt) (v : value) : M unit :=
  if notNil (CallStmt_Alias call) then ac call v else ret tt.

(** The second loop, over [stmts[index+1:]]. *)
Fixpoint chainStmts (typ : ObjType) (ac : aliasCallback) (stmts : list Stmt) (v : value)
  : M value :=
  match stmts with
  | [] => ret v
  | stmt :: rest =>
      call <- deref (Stmt_Call stmt) ;;
      if IsDebug (Name (CallStmt_Func call)) then
        debug scope (Debug_CallStmt call) v ;;
        chainStmts typ ac rest v
      else
        debug scope (Debug_CallStmt call) v ;;
        chain <- emitChainStmt typ call ac ;;
        v' <- chain v ;;
        reportAlias ac call v' ;;
        chainStmts typ ac rest v'
  end.

(** [sourceStmt := stmts[index].Call] is never nil: the first loop has
    read [Func] through the [Call] of every statement up to [index]. *)
Definition emitBlock (typ : ObjType) (stmts : list Stmt) (ac : aliasCallback) : M value :=
  let v := initialValue typ in
  idx <- skipDebugs v stmts 0 ;;
  stmt <- index stmts idx ;;
  sourceStmt <- deref (Stmt_Call stmt) ;;
  debug scope (Debug_CallStmt sourceStmt) v ;;
  v <- emitSourceStmt typ sourceStmt ac ;;
  reportAlias ac sourceStmt v ;;
  chainStmts typ ac (drop (idx + 1) stmts) v.

Definition emitFilesystemBlock (stmts : list Stmt) (ac : aliasCallback) : M llb.State :=
  v <- emitBlock Filesystem stmts ac ;;
  assertState v.

Definition emitStringBlock (stmts : list Stmt) : M string :=
  v <- emitBlock Str stmts noopAliasCallback ;;
  assertString v.

Definition emitFuncLit (lit : FuncLit) (op : string) (ac : aliasCallback) : M value :=
  switch (Type_Type (FuncLit_Type lit))
    [(Int, crash (Explicit "unimplemented"));
     (Bool, crash (Explicit "unimplemented"));
     (Filesystem,
      st <- emitFilesystemBlock (NonEmptyStmts (FuncLit_Body lit)) ac ;; ret (VState st));
     (Str,
      s <- emitStringBlock (NonEmptyStmts (FuncLit_Body lit)) ;; ret (VString s));
     (Option,
      opts <- emitOptions op (NonEmptyStmts (FuncLit_Body lit)) ac ;; ret (VOptions opts))]
    (ret VNil).

End Options.

(** *** [Generate] *)

Section Generate.

Context `{Externals}.

(** [for _, opt := range opts { err := opt(info); if err != nil { return st, info, err } }] *)
Fixpoint applyOptions (opts : list CodeGenOption) : M (option error) :=
  match opts with
  | [] => ret None
  | opt :: rest =>
      fun w =>
        let (i, err) := opt (info w) in
        let w' := {| info := i; drawn := drawn w; captured := captured w |} in
        match err with
        | Some e => (Ok (Some e), w')
        | None => applyOptions rest w'
        end
  end.

(** [info := &CodeGenInfo{Debug: NewNoopDebugger(), Locals: make(map[string]string)}] *)
Definition newInfo : M unit :=
  fun w => (Ok tt, {| info := {| Debug := NewNoopDebugger; Locals := ∅ |};
                      drawn := drawn w; captured := captured w |}).

(** [Generate] returns [(st, info, err)]: the state and the error are the
    value here and the info is in the resulting [world]. *)
Definition Generate (call : CallStmt) (file : File) (opts : list CodeGenOption)
  : M (llb.State * option error) :=
  let st := llb.Scratch in
  newInfo ;;
  err <- applyOptions opts ;;
  match err with
  | Some e => ret (st, Some e)
  | None =>
      match Lookup (File_Scope file) (Name (CallStmt_Func call)) with
      | None => ret (st, Some (ErrUnknownTarget (Name (CallStmt_Func call))))
      | Some obj =>
          (* Before executing anything. *)
          err <- callDebug (File_Scope file) (Debug_File file) VNil ;;
          match err with
          | Some e => ret (st, Some e)
          | None =>
              match Object_Kind obj with
              | DeclKind =>
                  match Object_Node obj with
                  | Node_FuncDecl n =>
                      if negb (String.eqb (Type_Type (FuncDecl_Type n)) Filesystem)
                      then ret (st, Some (ErrInvalidTarget (CallStmt_Func call)))
                      else emitFilesystemFuncDecl (File_Scope file) n call noopAliasCallback
                  | Node_AliasDecl n =>
                      f <- deref (AliasDecl_Func n) ;;
                      if negb (String.eqb (Type_Type (FuncRef_Type f)) Filesystem)
                      then ret (st, Some (ErrInvalidTarget (CallStmt_Func call)))
                      else emitFilesystemAliasDecl (File_Scope file) n call
                  | _ =>
                      (* no case of the type switch matches: [err] is still
                         the nil error of the debugger call *)
                      ret (st, None)
                  end
              | _ => ret (st, Some (ErrInvalidTarget (CallStmt_Func call)))
              end
          end
      end
  end.

End Generate.

End codegen.

(** ** The rest of the package, from the specification

    The registry of package [report], the debugger family, the library
    calls and the expression evaluators are not among the sources. The
    properties further down hold for every [Externals]; this module
    gives one, after the specification, on which the evaluator can be run
    on concrete programs. *)

Module reference.

Import parser codegen.

(** Modelled from the spec: the registry [report.Builtins] is not among
    the sources. Section 4.4 of the spec lists the [fs] source builtins,
    the [fs] chain builtins and the [string] source builtins. *)
Definition Builtins (typ : ObjType) (name : string) : bool :=
  switch typ
    [(Filesystem,
      existsb (String.eqb name)
        ["scratch"; "image"; "http"; "git"; "local"; "generate";
         "run"; "env"; "dir"; "user"; "entrypoint"; "mkdir"; "mkfile"; "rm"; "copy"]);
     (Str, existsb (String.eqb name) ["value"; "format"])]
    false.

(** Modelled from the spec: [report.Debugs] is not among the sources. The
    spec has the debug family as a small, fixed set of calls and names
    none; [breakpoint] stands for the family here. *)
Definition Debugs : list string := ["breakpoint"].

(** Modelled from the spec: [report.Contains] is not among the sources;
    it is read as membership in the list. *)
Definition Contains (l : list string) (s : string) : bool := existsb (String.eqb s) l.

(** *** A timestamp of RFC 3339

    Modelled from the words of the spec, [createdTime] parses an RFC
    3339 timestamp, after section 5.6 of the RFC: [date-time] is
    [full-date "T" full-time], with four digits of year, two each of
    month, day, hour, minute and second, an optional fraction of a dot
    and digits, and [Z] or a signed [hh:mm] as offset; [T] and [Z] may
    be in lower case, the second may be [60], and the day is one of the
    month. *)

Definition digitOf : ascii -> option Z := time.digitOf.

(** Exactly [n] decimal digits. *)
Fixpoint digits (n : nat) (acc : Z) (s : string) : option (Z * string) :=
  match n with
  | O => Some (acc, s)
  | S n' =>
      match s with
      | String c rest =>
          match digitOf c with
          | Some d => digits n' (10 * acc + d) rest
          | None => None
          end
      | EmptyString => None
      end
  end.

Definition expect (c : ascii) (s : string) : option string :=
  match s with
  | String d rest => if Ascii.eqb c d then Some rest else None
  | EmptyString => None
  end.

(** One of two bytes. *)
Definition expectEither (c c' : ascii) (s : string) : option string :=
  match s with
  | String d rest => if Ascii.eqb c d || Ascii.eqb c' d then Some rest else None
  | EmptyString => None
  end.

(** A fraction of a second: a dot and at least one digit, read to
    nanoseconds. *)
Fixpoint fractionDigits (scale acc : Z) (s : string) : Z * string :=
  match s with
  | String c rest =>
      match digitOf c with
      | Some d => fractionDigits (scale / 10) (acc + d * scale) rest
      | None => (acc, s)
      end
  | EmptyString => (acc, s)
  end.

Definition fraction (s : string) : option (Z * string) :=
  match s with
  | String "." (String c rest) =>
      match digitOf c with
      | Some _ => Some (fractionDigits 100000000 0 (String c rest))
      | None => None
      end
  | _ => Some (0, s)
  end.

Definition daysIn (year month : Z) : Z :=
  if (month =? 2) then
    if ((year mod 4 =? 0) && negb (year mod 100 =? 0)) || (year mod 400 =? 0) then 29 else 28
  else if (month =? 4) || (month =? 6) || (month =? 9) || (month =? 11) then 30
  else 31.

Definition zone (s : string) : option Z :=
  match s with
  | String sign rest =>
      if (Ascii.eqb sign "Z" || Ascii.eqb sign "z") then
        match rest with EmptyString => Some 0 | _ => None end
      else if Ascii.eqb sign "+" || Ascii.eqb sign "-" then
        '(h, rest) ← digits 2 0 rest;
        rest ← expect ":" rest;
        '(m, rest) ← digits 2 0 rest;
        match rest with
        | EmptyString =>
            if (h <? 24) && (m <? 60)
            then Some ((if Ascii.eqb sign "-" then -1 else 1) * (h * 3600 + m * 60))
            else None
        | _ => None
        end
      else None
  | EmptyString => None
  end.

Definition parseRFC3339 (s : string) : option time.Time :=
  '(year, s) ← digits 4 0 s;
  s ← expect "-" s;
  '(month, s) ← digits 2 0 s;
  s ← expect "-" s;
  '(day, s) ← digits 2 0 s;
  s ← expectEither "T" "t" s;
  '(hour, s) ← digits 2 0 s;
  s ← expect ":" s;
  '(minute, s) ← digits 2 0 s;
  s ← expect ":" s;
  '(second, s) ← digits 2 0 s;
  '(nsec, s) ← fraction s;
  offset ← zone s;
  if (1 <=? month) && (month <=? 12) && (1 <=? day) && (day <=? daysIn year month)
     && (hour <? 24) && (minute <? 60) && (second <=? 60)
  then Some (time.mkTime year month day hour minute second nsec offset)
  else None.

(** A valid RFC 3339 timestamp. *)
Definition validRFC3339 (s : string) : bool :=
  match parseRFC3339 s with Some _ => true | None => false end.

(** *** [net.ParseIP], for the dotted decimal form of IPv4 *)

Fixpoint octets (n : nat) (cur : option Z) (acc : list Z) (s : string) : net.IP :=
  match s with
  | EmptyString =>
      match cur with
      | Some v => if Nat.eqb n 3 then Some (acc ++ [v]) else None
      | None => None
      end
  | String c rest =>
      if Ascii.eqb c "." then
        match cur with
        | Some v => octets (S n) None (acc ++ [v]) rest
        | None => None
        end
      else
        match digitOf c with
        | Some d =>
            let v := 10 * default 0 cur + d in
            if v <=? 255 then octets n (Some v) acc rest else None
        | None => None
        end
  end.

Definition ParseIP (s : string) : net.IP := octets 0 None [] s.

(** *** [fmt.Sprintf] on string operands, for the verbs [%s], [%v] and
    [%%]; another verb is printed the way Go reports a wrong verb. *)
Fixpoint Sprintf (format : string) (operands : list string) : string :=
  match format with
  | EmptyString =>
      match operands with
      | [] => EmptyString
      | _ => "%!(EXTRA " +:+ String.concat ", " (map (fun a => "string=" +:+ a) operands)
             +:+ ")"
      end
  | String "%" (String v rest) =>
      if Ascii.eqb v "%" then String "%" (Sprintf rest operands)
      else
        match operands with
        | [] => "%!" +:+ str1 v +:+ "(MISSING)" +:+ Sprintf rest []
        | a :: operands' =>
            (if Ascii.eqb v "s" || Ascii.eqb v "v" then a
             else "%!" +:+ str1 v +:+ "(string=" +:+ a +:+ ")")
            +:+ Sprintf rest operands'
        end
  | String c rest => String c (Sprintf rest operands)
  end.

(** [identity.NewID] returns a random identifier; the n-th draw is read
    as a name that no other draw has. *)
Definition NewID (n : nat) : string := "local-" +:+ pretty n.

(** *** The expression evaluators

    Modelled from the spec: [emitStringExpr], [emitIntExpr],
    [maybeEmitBoolExpr], [emitFilesystemExpr], [emitOptionExpr],
    [emitFuncDecl], [emitAliasDecl] and the two [emitFilesystem...Decl]
    are not among the sources. After section 4.6 of the spec: a literal
    evaluates to its value; an identifier is invoked as a call without
    arguments, which returns the bound value for a parameter and
    evaluates a declaration; a block literal evaluates its body as a
    block of its type; a user function evaluates its body with the block
    protocol in a child scope that binds its parameters to the evaluated
    arguments; an alias evaluates its function and keeps the value the
    alias callback was shown for it. The evaluators and the functions of
    [codegen] call each other; [depth] bounds the nesting, and the
    evaluation stops with a panic below it, the depth limit the spec
    asks for. *)

Definition limit {A : Type} : M A := crash (Explicit "recursion limit").

(** Modelled from the spec: below the depth limit every evaluator of an
    expression stops. *)
Definition bottom : Externals :=
  {| IsBuiltin := Builtins;
     IsDebug := Contains Debugs;
     net_ParseIP := ParseIP;
     fmt_Sprintf := Sprintf;
     identity_NewID := NewID;
     emitStringExpr := fun _ _ _ => limit;
     emitIntExpr := fun _ _ => limit;
     maybeEmitBoolExpr := fun _ _ => limit;
     emitFilesystemExpr := fun _ _ _ _ => limit;
     emitOptionExpr := fun _ _ _ _ => limit;
     emitFuncDecl := fun _ _ _ _ _ => limit;
     emitAliasDecl := fun _ _ _ => limit;
     emitFilesystemFuncDecl := fun _ _ _ _ => limit;
     emitFilesystemAliasDecl := fun _ _ _ => limit |}.

Definition assertInt (v : value) : M Z :=
  match v with VInt n => ret n | _ => crash TypeAssertion end.
Definition assertBool (v : value) : M bool :=
  match v with VBool b => ret b | _ => crash TypeAssertion end.

(** A Go function that returns [(llb.State, error)]. *)
Definition withError (m : M llb.State) : M (llb.State * option error) :=
  fun w =>
    match m w with
    | (Ok st, w') => (Ok (st, None), w')
    | (Err e, w') => (Ok (llb.Scratch, Some e), w')
    | (Panic p, w') => (Panic p, w')
    end.

(** The scope at the root of the parent chain: the file scope. *)
Fixpoint fileScope (s : Scope) : Scope :=
  match s with
  | mkScope _ (Some p) => fileScope p
  | mkScope _ None => s
  end.

Section Level.

(** The evaluator one level down. *)
Variable inner : Externals.

(** Modelled from the spec: an identifier is invoked as a call without
    arguments. *)
Definition identCall (id : Ident) : CallStmt :=
  mkCallStmt (Ident_Pos id) None id [] None None None.

(** Modelled from the spec: [emitStringExpr]. *)
Definition stringExpr (scope : Scope) (call : CallStmt) (e : Expr) : M string :=
  match Expr_Ident e, Expr_BasicLit e, Expr_FuncLit e with
  | Some id, _, _ =>
      v <- @emitSourceStmt inner scope Str (identCall id) noopAliasCallback ;;
      assertString v
  | None, Some lit, _ =>
      match BasicLit_Str lit with
      | Some s => ret s
      | None => crash TypeAssertion
      end
  | None, None, Some lit =>
      v <- @emitFuncLit inner scope lit EmptyString noopAliasCallback ;;
      assertString v
  | None, None, None => crash (Explicit "unknown string expr")
  end.

(** Modelled from the spec: [emitIntExpr]. *)
Definition intExpr (scope : Scope) (e : Expr) : M Z :=
  match Expr_Ident e, Expr_BasicLit e, Expr_FuncLit e with
  | Some id, _, _ =>
      v <- @emitSourceStmt inner scope Int (identCall id) noopAliasCallback ;;
      assertInt v
  | None, Some lit, _ =>
      match BasicLit_Decimal lit, BasicLit_Numeric lit with
      | Some n, _ => ret n
      | None, Some n => ret (NumericLit_Value n)
      | None, None => crash TypeAssertion
      end
  | None, None, Some lit =>
      v <- @emitFuncLit inner scope lit EmptyString noopAliasCallback ;;
      assertInt v
  | None, None, None => crash (Explicit "unknown int expr")
  end.

(** Modelled from the spec: the evaluator of a [bool] expression. *)
Definition boolExpr (scope : Scope) (e : Expr) : M bool :=
  match Expr_Ident e, Expr_BasicLit e, Expr_FuncLit e with
  | Some id, _, _ =>
      v <- @emitSourceStmt inner scope Bool (identCall id) noopAliasCallback ;;
      assertBool v
  | None, Some lit, _ =>
      match BasicLit_Bool lit with
      | Some b => ret b
      | None => crash TypeAssertion
      end
  | None, None, Some lit =>
      v <- @emitFuncLit inner scope lit EmptyString noopAliasCallback ;;
      assertBool v
  | None, None, None => crash (Explicit "unknown bool expr")
  end.

(** Modelled from the spec: [maybeEmitBoolExpr], for the optional flag
    of an option such as [resolve] or [readonly], which is set when the
    option is present without an argument. *)
Definition maybeBoolExpr (scope : Scope) (args : list Expr) : M bool :=
  match args with
  | [] => ret true
  | e :: _ => boolExpr scope e
  end.

(** Modelled from the spec: [emitFilesystemExpr]. *)
Definition filesystemExpr (scope : Scope) (call : option CallStmt) (e : Expr)
  (ac : aliasCallback) : M llb.State :=
  match Expr_Ident e, Expr_BasicLit e, Expr_FuncLit e with
  | Some id, _, _ =>
      v <- @emitSourceStmt inner scope Filesystem (identCall id) ac ;;
      assertState v
  | None, Some _, _ => crash (Explicit "fs expr cannot be basic lit")
  | None, None, Some lit =>
      v <- @emitFuncLit inner scope lit EmptyString ac ;;
      assertState v
  | None, None, None => crash (Explicit "unknown fs expr")
  end.

(** Modelled from the spec: one argument of a user function, evaluated
    by the type of its parameter. *)
Definition argValue (scope : Scope) (call : CallStmt) (f : Field) (e : Expr) : M value :=
  switch (Type_Type (Field_Type f))
    [(Str, s <- stringExpr scope call e ;; ret (VString s));
     (Int, n <- intExpr scope e ;; ret (VInt n));
     (Bool, b <- boolExpr scope e ;; ret (VBool b));
     (Filesystem, st <- filesystemExpr scope (Some call) e noopAliasCallback ;; ret (VState st));
     (Option,
      opts <- @emitOptionExpr inner scope call EmptyString e ;; ret (VOptions opts))]
    (crash (Explicit "unknown parameter type")).

(** Modelled from the spec: the parameters, bound to the evaluated
    arguments. *)
Fixpoint bindArgs (scope : Scope) (call : CallStmt) (params : list Field) (args : list Expr)
  (objects : gmap string Object) : M (gmap string Object) :=
  match params, args with
  | f :: params', e :: args' =>
      v <- argValue scope call f e ;;
      bindArgs scope call params' args'
        (<[Name (Field_Name f) := mkObject ExprKind (Node_Field f) v]> objects)
  | _, _ => ret objects
  end.

(** Modelled from the spec: [emitFuncDecl], the body of a user function
    evaluated with the block protocol in a child of the file scope. *)
Definition funcDecl (scope : Scope) (n : FuncDecl) (call : CallStmt) (op : string)
  (ac : aliasCallback) : M value :=
  objects <- bindArgs scope call (FieldList_List (FuncDecl_Params n)) (CallStmt_Args call) ∅ ;;
  let child := mkScope objects (Some (fileScope scope)) in
  let stmts := NonEmptyStmts (FuncDecl_Body n) in
  switch (Type_Type (FuncDecl_Type n))
    [(Filesystem, @emitBlock inner child Filesystem stmts ac);
     (Str, @emitBlock inner child Str stmts ac);
     (Option, opts <- @emitOptions inner child op stmts ac ;; ret (VOptions opts))]
    (crash (Explicit "unimplemented")).

(** Modelled from the spec: [emitOptionExpr]. *)
Definition optionExpr (scope : Scope) (call : CallStmt) (op : string) (e : Expr)
  : M (list llb.Opt) :=
  match Expr_Ident e, Expr_BasicLit e, Expr_FuncLit e with
  | Some id, _, _ =>
      obj <- deref (Lookup scope (Name id)) ;;
      match Object_Node obj with
      | Node_FuncDecl n =>
          v <- funcDecl scope n (identCall id) op noopAliasCallback ;;
          assertOptions v
      | Node_Field _ => assertOptions (Object_Data obj)
      | _ => crash (Explicit "unknown obj type")
      end
  | None, Some _, _ => crash (Explicit "option expr cannot be basic lit")
  | None, None, Some lit =>
      v <- @emitFuncLit inner scope lit op noopAliasCallback ;;
      assertOptions v
  | None, None, None => crash (Explicit "unknown option expr")
  end.

(** The name a statement is aliased as. *)
Definition aliasName (c : CallStmt) : option string :=
  match CallStmt_Alias c with
  | Some a => Some (Name (AliasDecl_Ident a))
  | None => None
  end.

(** Modelled from the spec: [emitAliasDecl], the value an alias stands
    for. The function the alias is declared in is evaluated with a
    recording callback, and the value is what was recorded for the
    statement that carries the alias. *)
Definition aliasDecl (scope : Scope) (n : AliasDecl) (call : CallStmt) : M value :=
  f <- deref (AliasDecl_Func n) ;;
  obj <- deref (Lookup scope (Name (FuncRef_Name f))) ;;
  match Object_Node obj with
  | Node_FuncDecl fd =>
      fun w =>
        match funcDecl scope fd call EmptyString recordAlias
                {| info := info w; drawn := drawn w; captured := [] |} with
        | (Ok _, w') =>
            let w'' := {| info := info w'; drawn := drawn w'; captured := captured w |} in
            match List.filter (fun cv => bool_decide (aliasName (fst cv)
                                                      = Some (Name (AliasDecl_Ident n))))
                              (captured w') with
            | (_, v) :: _ => (Ok v, w'')
            | [] => (Panic (Explicit "alias not reached"), w'')
            end
        | (Err e, w') => (Err e, w')
        | (Panic p, w') => (Panic p, w')
        end
  | _ => crash (Explicit "unknown obj type")
  end.

(** Modelled from the spec: the functions [codegen.go] calls, one level
    above [inner]. *)
Definition level : Externals :=
  {| IsBuiltin := Builtins;
     IsDebug := Contains Debugs;
     net_ParseIP := ParseIP;
     fmt_Sprintf := Sprintf;
     identity_NewID := NewID;
     emitStringExpr := stringExpr;
     emitIntExpr := intExpr;
     maybeEmitBoolExpr := maybeBoolExpr;
     emitFilesystemExpr := filesystemExpr;
     emitOptionExpr := optionExpr;
     emitFuncDecl := funcDecl;
     emitAliasDecl := aliasDecl;
     emitFilesystemFuncDecl := fun scope n call ac =>
       withError (v <- funcDecl scope n call EmptyString ac ;; assertState v);
     emitFilesystemAliasDecl := fun scope n call =>
       withError (v <- aliasDecl scope n call ;; assertState v) |}.

End Level.

(** Modelled from the spec: the evaluator with the depth limit [depth]. *)
Fixpoint externals (depth : nat) : Externals :=
  match depth with
  | O => bottom
  | S d => level (externals d)
  end.

End reference.

(** * The vocabulary of the properties

    The definitions the properties are stated with: the block protocol
    in the words of the spec, the tables of the enumerated options, what
    the alias callback has been shown, and the concrete programs the
    properties are run on. *)

Import parser codegen.

(** ** Concrete programs *)

Definition world0 : world := mkWorld (mkCodeGenInfo NewNoopDebugger ∅) 0 [].

Definition emptyScope : Scope := mkScope ∅ None.

(** [name args...] without a [with] clause and without an alias. *)
Definition callOf (name : string) (args : list Expr) : Stmt := NewCallStmt name args None None.

(** [as name] *)
Definition aliasOf (name : string) : AliasDecl :=
  mkAliasDecl noPosition (mkAs noPosition "as") (NewIdent name) None.

Definition theCall (s : Stmt) : CallStmt :=
  match Stmt_Call s with
  | Some c => c
  | None => mkCallStmt noPosition None (NewIdent EmptyString) [] None None None
  end.

(** [typ name() body] *)
Definition funcOf (typ : ObjType) (name : string) (body : option BlockStmt) : FuncDecl :=
  mkFuncDecl noPosition None (NewType typ) None (NewIdent name)
    (mkFieldList noPosition None [] None) body.

Definition fileOf (objects : gmap string Object) : File :=
  mkFile noPosition (mkScope objects None) None [].

(** [{ stmts }] *)
Definition blockOf (stmts : list Stmt) : option BlockStmt :=
  Some (mkBlockStmt noPosition None stmts None).

(** [name], declared in the function [func] of type [fs]. *)
Definition linkedAlias (name func : string) : AliasDecl :=
  mkAliasDecl noPosition (mkAs noPosition "as") (NewIdent name)
    (Some (mkFuncRef (NewIdent func) (NewType Filesystem))).

(** Scenario 1 of the spec: [fs default() { scratch; }]. *)
Definition scenario1 : File :=
  fileOf {[ "default" := mkObject DeclKind
                           (Node_FuncDecl (funcOf Filesystem "default"
                                             (blockOf [callOf "scratch" []]))) VNil ]}.

(** Scenario 5 of the spec: [fs default() { scratch; mkdir "/x" 0o755; }]. *)
Definition scenario5 : File :=
  fileOf {[ "default" :=
              mkObject DeclKind
                (Node_FuncDecl
                   (funcOf Filesystem "default"
                      (blockOf [callOf "scratch" [];
                                callOf "mkdir" [NewStringExpr "/x"; NewNumericExpr 493 8]])))
                VNil ]}.

(** Scenario 6 of the spec:
    [fs a() { image "alpine"; run "true" with option { mount scratch "/m" as m; }; }]
    and [fs b() { a; copy m "/m/f" "/f"; }]. *)
Definition scenario6 : File :=
  let a :=
    funcOf Filesystem "a"
      (blockOf [callOf "image" [NewStringExpr "alpine"];
                NewCallStmt "run" [NewStringExpr "true"]
                  (Some (NewWithFuncLit
                           [NewCallStmt "mount" [NewIdentExpr "scratch"; NewStringExpr "/m"]
                              None (Some (linkedAlias "m" "a"))]))
                  None]) in
  let b :=
    funcOf Filesystem "b"
      (blockOf [callOf "a" [];
                callOf "copy" [NewIdentExpr "m"; NewStringExpr "/m/f"; NewStringExpr "/f"]]) in
  fileOf (<["a" := mkObject DeclKind (Node_FuncDecl a) VNil]>
          (<["b" := mkObject DeclKind (Node_FuncDecl b) VNil]>
           {[ "m" := mkObject DeclKind (Node_AliasDecl (linkedAlias "m" "a")) VNil ]})).

(** [fs default() { local "."; copy fs { local "src"; } "/" "/"; }] *)
Definition localsFile : File :=
  fileOf {[ "default" :=
              mkObject DeclKind
                (Node_FuncDecl
                   (funcOf Filesystem "default"
                      (blockOf [callOf "local" [NewStringExpr "."];
                                callOf "copy" [NewFuncLitExpr Filesystem
                                                 [callOf "local" [NewStringExpr "src"]];
                                               NewStringExpr "/"; NewStringExpr "/"]])))
                VNil ]}.

(** An [identity.NewID] that returns one identifier every time, with
    the string literals evaluated and nothing else. *)
Definition repeating : Externals :=
  {| IsBuiltin := reference.Builtins;
     IsDebug := reference.Contains reference.Debugs;
     net_ParseIP := reference.ParseIP;
     fmt_Sprintf := reference.Sprintf;
     identity_NewID := fun _ => "same";
     emitStringExpr := reference.stringExpr reference.bottom;
     emitIntExpr := fun _ _ => reference.limit;
     maybeEmitBoolExpr := fun _ _ => reference.limit;
     emitFilesystemExpr := fun _ _ _ _ => reference.limit;
     emitOptionExpr := fun _ _ _ _ => reference.limit;
     emitFuncDecl := fun _ _ _ _ _ => reference.limit;
     emitAliasDecl := fun _ _ _ => reference.limit;
     emitFilesystemFuncDecl := fun _ _ _ _ => reference.limit;
     emitFilesystemAliasDecl := fun _ _ _ => reference.limit |}.

(** ** The vocabulary of the statements *)

(** The info [Generate] starts from. *)
Definition freshWorld (w : world) : world :=
  {| info := {| Debug := NewNoopDebugger; Locals := ∅ |};
     drawn := drawn w; captured := captured w |}.

(** A binding that is no [fs] function: an object of another kind than a
    declaration, or a [FuncDecl] or a linked [AliasDecl] whose return
    type is not [fs]. *)
Definition noFsFunction (obj : Object) : Prop :=
  Object_Kind obj <> DeclKind
  \/ (exists n, Object_Node obj = Node_FuncDecl n
                /\ Type_Type (FuncDecl_Type n) <> Filesystem)
  \/ (exists n f, Object_Node obj = Node_AliasDecl n /\ AliasDecl_Func n = Some f
                  /\ Type_Type (FuncRef_Type f) <> Filesystem).

(** A file that declares the string function [greet]. *)
Definition greetFile : File :=
  fileOf {[ "greet" := mkObject DeclKind
                         (Node_FuncDecl (funcOf Str "greet" None)) VNil ]}.

(** A file whose scope binds [lib] to the declaration of an import. *)
Definition importFile : File :=
  fileOf {[ "lib" := mkObject DeclKind
                       (Node_ImportDecl
                          (mkImportDecl noPosition (NewIdent "lib") (NewFuncLit Filesystem [])))
                       VNil ]}.

(** The command of a [run] whose arguments evaluate to [strs]. *)
Definition commandOf (strs : list string) : shellquote.splitError + string :=
  match strs with
  | [commandStr] =>
      match shellquote.Split commandStr with
      | inl e => inl e
      | inr [_] => inr commandStr
      | inr _ => inr (shellquote.Join ["/bin/sh"; "-c"; commandStr])
      end
  | _ => inr (shellquote.Join strs)
  end.

(** The two block types that have a block protocol. *)
Inductive blockType : Type := FsBlock | StringBlock.

Definition objTypeOf (bt : blockType) : ObjType :=
  match bt with
  | FsBlock => Filesystem
  | StringBlock => Str
  end.

(** Step 1 of the spec: the identity of the block type. *)
Definition identityOf (bt : blockType) : value :=
  match bt with
  | FsBlock => VState llb.Scratch
  | StringBlock => VString EmptyString
  end.

Fixpoint foldM {A B : Type} (f : A -> B -> M A) (l : list B) (a : A) : M A :=
  match l with
  | [] => ret a
  | b :: rest => a' <- f a b ;; foldM f rest a'
  end.

(** [w] after the recording callback has been shown [entries]. *)
Definition addCaptured (w : world) (entries : list (CallStmt * value)) : world :=
  {| info := info w; drawn := drawn w; captured := captured w ++ entries |}.

(** A call of the block that is reported: no debug call, and aliased. *)
Definition reported `{Externals} (c : CallStmt) : bool :=
  negb (IsDebug (Name (CallStmt_Func c))) && notNil (CallStmt_Alias c).

(** A computation that shows nothing to the recording callback. *)
Definition quiet {A : Type} (m : M A) : Prop :=
  forall w, captured (snd (m w)) = captured w.

(** The aliased [mount] statements of a statement list. *)
Fixpoint aliasedMounts (stmts : list Stmt) : list CallStmt :=
  match stmts with
  | [] => []
  | stmt :: rest =>
      match Stmt_Call stmt with
      | Some c =>
          if String.eqb (Name (CallStmt_Func c)) "mount" && notNil (CallStmt_Alias c)
          then c :: aliasedMounts rest
          else aliasedMounts rest
      | None => aliasedMounts rest
      end
  end.

(** The statements of the inline [with] block of a call. *)
Definition inlineStmts (call : CallStmt) : list Stmt :=
  match CallStmt_WithOpt call with
  | Some w =>
      match WithOpt_Ident w, WithOpt_FuncLit w with
      | None, Some lit => NonEmptyStmts (FuncLit_Body lit)
      | _, _ => []
      end
  | None => []
  end.

(** [image "alpine" as base; env "A" "B" as built] *)
Definition aliasedBlock : list Stmt :=
  [NewCallStmt "image" [NewStringExpr "alpine"] None (Some (aliasOf "base"));
   NewCallStmt "env" [NewStringExpr "A"; NewStringExpr "B"] None (Some (aliasOf "built"))].

(** [mount scratch target as name] *)
Definition mountOf (target name : string) : Stmt :=
  NewCallStmt "mount" [NewIdentExpr "scratch"; NewStringExpr target] None
    (Some (aliasOf name)).

(** [run "true" with option { mount scratch t1 as a; mount scratch t2 as b; }] *)
Definition runWithMounts (t1 t2 : string) : Stmt :=
  NewCallStmt "run" [NewStringExpr "true"]
    (Some (NewWithFuncLit [mountOf t1 "a"; mountOf t2 "b"])) None.

(** How often the callback was shown the statement aliased [name]. *)
Definition timesShown (name : string) (entries : list (CallStmt * value)) : nat :=
  length (List.filter
            (fun cv => bool_decide (reference.aliasName (fst cv) = Some name)) entries).

(** What the alias callback is shown for a statement of a block: the
    call with the accumulator after it when the statement is aliased,
    and nothing otherwise. *)
Definition shownFor (c : CallStmt) (V : value) : list (CallStmt * value) :=
  match CallStmt_Alias c with
  | Some _ => [(c, V)]
  | None => []
  end.

(** The mount statement that is kept for a mount point: the last of the
    aliased mounts that has it. [pairs] are the mount points with their
    statements, in the order of the statements. *)
Fixpoint lastAt (pairs : list (string * CallStmt)) (t : string) : option CallStmt :=
  match pairs with
  | [] => None
  | (t', c) :: rest =>
      match lastAt rest t with
      | Some c' => Some c'
      | None => if String.eqb t' t then Some c else None
      end
  end.

(** What the state option of a [run] shows the callback after the exec
    of [st] with [opts]: for every mount point, in the order of the
    aliased mounts, the statement kept for it with the filesystem of
    the mount. *)
Definition mountsShown (mounts : list CallStmt) (targets : list string)
  (st : llb.State) (opts : list llb.Opt) : list (CallStmt * value) :=
  omap (fun t => option_map (fun c => (c, VState (llb.ExecMount st opts t)))
                            (lastAt (zip targets mounts) t))
       targets.

Section AliasVocabulary.

Context `{Externals}.
Variable scope : Scope.

(** The mount points of the aliased mounts of a [run]: the second
    argument of each, evaluated in the order of the statements with the
    [run] call as its context. *)
Fixpoint mountTargets (call : CallStmt) (mounts : list CallStmt) : M (list string) :=
  match mounts with
  | [] => ret []
  | c :: rest =>
      a1 <- arg (CallStmt_Args c) 1 ;;
      target <- emitStringExpr scope call a1 ;;
      targets <- mountTargets call rest ;;
      ret (target :: targets)
  end.

(** The statements after the source statement, evaluated one after the
    other with the recording callback, from the accumulator [V] in the
    world [w] to the accumulator [V'] in the world [w']. The debugger
    lets every statement pass; a debug call changes nothing; any other
    statement is evaluated to its chain function, the function is
    applied to the accumulator, and then, and only then, the callback is
    shown the statement with the new accumulator when the statement is
    aliased. [entries] is what the block has shown the callback on the
    way, in order. *)
Inductive chainShows (typ : ObjType)
  : list CallStmt -> value -> world -> list (CallStmt * value) -> value -> world -> Prop :=
| shows_done (V : value) (w : world) : chainShows typ [] V w [] V w
| shows_debug (c : CallStmt) (rest : list CallStmt) (V : value) (w : world)
    (entries : list (CallStmt * value)) (V' : value) (w' : world) :
    IsDebug (Name (CallStmt_Func c)) = true ->
    Debug (info w) scope (Debug_CallStmt c) V = None ->
    chainShows typ rest V w entries V' w' ->
    chainShows typ (c :: rest) V w entries V' w'
| shows_call (c : CallStmt) (rest : list CallStmt) (V : value) (w : world)
    (f : value -> M value) (w1 : world) (V1 : value) (w2 : world)
    (entries : list (CallStmt * value)) (V' : value) (w' : world) :
    IsDebug (Name (CallStmt_Func c)) = false ->
    Debug (info w) scope (Debug_CallStmt c) V = None ->
    emitChainStmt scope typ c recordAlias w = (Ok f, w1) ->
    f V w1 = (Ok V1, w2) ->
    chainShows typ rest V1 (addCaptured w2 (shownFor c V1)) entries V' w' ->
    chainShows typ (c :: rest) V w (shownFor c V1 ++ entries) V' w'.

End AliasVocabulary.

(** The tables of the spec: the strings of [network], [security] and
    [cache], each with its mode. *)
Definition networkModes : list (string * llb.NetMode) :=
  [("unset", llb.NetMode_UNSET); ("host", llb.NetMode_HOST); ("node", llb.NetMode_NONE)].

Definition securityModes : list (string * llb.SecurityMode) :=
  [("sandbox", llb.SecurityMode_SANDBOX); ("insecure", llb.SecurityMode_INSECURE)].

Definition sharingModes : list (string * llb.CacheMountSharingMode) :=
  [("shared", llb.CacheMountShared); ("private", llb.CacheMountPrivate);
   ("locked", llb.CacheMountLocked)].

(** A date and a time of day: the month, the day of that month, the
    hour, the minute and the second are in range. *)
Definition inRange (t : time.Time) : Prop :=
  1 <= time.month t <= 12
  /\ 1 <= time.day t <= time.daysIn (time.month t) (time.year t)
  /\ 0 <= time.hour t < 24
  /\ 0 <= time.minute t < 60
  /\ 0 <= time.second t < 60.

Fixpoint modeOf {A : Type} (table : list (string * A)) (s : string) : option A :=
  match table with
  | [] => None
  | (k, m) :: rest => if String.eqb s k then Some m else modeOf rest s
  end.

(** [local "." with option { includePatterns "*.go"; }] *)
Definition localWithPatterns : Stmt :=
  NewCallStmt "local" [NewStringExpr "."]
    (Some (NewWithFuncLit [callOf "includePatterns" [NewStringExpr "*.go"]])) None.

(** The names of the source builtins of [emitFilesystemSourceStmt] and
    [emitStringSourceStmt]. *)
Definition sourceNames : list string :=
  ["scratch"; "image"; "http"; "git"; "local"; "generate"; "value"; "format"].

(** A newline between two statements, as the parser keeps it. *)
Definition newlineStmt : Stmt :=
  mkStmt noPosition None (Some (mkNewline noPosition (str1 newlineChar))) None.

(** A statement as the parser builds it: one of the three
    alternatives of the grammar is set. *)
Definition parsedStmt (stmt : Stmt) : Prop :=
  notNil (Stmt_Call stmt) || notNil (Stmt_Newline stmt) || notNil (Stmt_Doc stmt) = true.

Section ProtocolVocabulary.

Context `{Externals}.
Variable scope : Scope.

(** Steps 4 and 5 of the spec on one of the remaining statements: the
    debug hook sees it with the current [V]; a debug call leaves [V] as it
    is; any other statement is evaluated to a function that is applied to
    the current [V], and the alias callback is shown the next [V]. *)
Definition chainStep (typ : ObjType) (ac : aliasCallback) (V : value) (c : CallStmt)
  : M value :=
  debug scope (Debug_CallStmt c) V ;;
  if IsDebug (Name (CallStmt_Func c)) then ret V
  else
    f <- emitChainStmt scope typ c ac ;;
    V' <- f V ;;
    reportAlias ac c V' ;;
    ret V'.

(** Block evaluation in the words of the spec, on a block that is given
    as its leading debug calls, its first other statement and the
    statements after it. *)
Definition blockProtocol (bt : blockType) (leading : list CallStmt) (source : CallStmt)
  (remaining : list CallStmt) (ac : aliasCallback) : M value :=
  let V := identityOf bt in
  foldM (fun _ c => debug scope (Debug_CallStmt c) V) leading tt ;;
  debug scope (Debug_CallStmt source) V ;;
  V <- emitSourceStmt scope (objTypeOf bt) source ac ;;
  reportAlias ac source V ;;
  foldM (chainStep (objTypeOf bt) ac) remaining V.

(** The same protocol with every step written out.

    The debug hook: the debugger of the info is shown the statement and
    the accumulator, and its error ends the evaluation. *)
Definition hook (c : CallStmt) (V : value) : M unit :=
  fun w =>
    match Debug (info w) scope (Debug_CallStmt c) V with
    | Some e => (Err e, w)
    | None => (Ok tt, w)
    end.

(** The alias callback is called for an aliased statement, and only for
    one. *)
Definition report (ac : aliasCallback) (c : CallStmt) (V : value) : M unit :=
  match CallStmt_Alias c with
  | Some _ => ac c V
  | None => ret tt
  end.

(** The value of the source statement: a builtin of the block type is
    evaluated by the source evaluator of that type, a filesystem or a
    string; any other name by what the scope binds it to. *)
Definition sourceValue (bt : blockType) (ac : aliasCallback) (c : CallStmt) : M value :=
  if IsBuiltin (objTypeOf bt) (Name (CallStmt_Func c)) then
    match bt with
    | FsBlock => st <- emitFilesystemSourceStmt scope c ac ;; ret (VState st)
    | StringBlock => s <- emitStringSourceStmt scope c ac ;; ret (VString s)
    end
  else emitSourceStmt scope (objTypeOf bt) c ac.

(** [chain(v.(llb.State))]: the accumulator has to be a filesystem, and
    the chain function is applied to it. *)
Definition applyChain (so : StateOption) (V : value) : M value :=
  match V with
  | VState st =>
      match so with
      | Some f => st' <- f st ;; ret (VState st')
      | None => crash NilFuncCall
      end
  | _ => crash TypeAssertion
  end.

(** The next accumulator, by the type of the block. In an [fs] block the
    statement is evaluated to its state option, which is applied to the
    accumulator. A string block has no chain statements: the string
    chain evaluator of the source is not implemented, and panics. *)
Definition nextValue (bt : blockType) (ac : aliasCallback) (V : value) (c : CallStmt)
  : M value :=
  match bt with
  | FsBlock =>
      so <- emitFilesystemChainStmt scope Filesystem c ac ;;
      applyChain so V
  | StringBlock => crash (Explicit "unimplemented")
  end.

(** One of the statements after the source statement: the hook sees it
    with the accumulator; a debug call leaves the accumulator as it is;
    any other statement gives the next accumulator, which the alias
    callback is shown. *)
Definition accumulateStep (bt : blockType) (ac : aliasCallback) (V : value) (c : CallStmt)
  : M value :=
  hook c V ;;
  if IsDebug (Name (CallStmt_Func c)) then ret V
  else
    V' <- nextValue bt ac V c ;;
    report ac c V' ;;
    ret V'.

(** The block: the accumulator starts as the identity of the block type,
    which the hook is shown with the leading debug calls and with the
    source statement; the source statement replaces it; the statements
    after it are folded over it; the result is the last accumulator. *)
Definition accumulate (bt : blockType) (leading : list CallStmt) (source : CallStmt)
  (remaining : list CallStmt) (ac : aliasCallback) : M value :=
  let V := identityOf bt in
  foldM (fun _ c => hook c V) leading tt ;;
  hook source V ;;
  V <- sourceValue bt ac source ;;
  report ac source V ;;
  foldM (accumulateStep bt ac) remaining V.

(** A debug call that the debugger of [w] lets pass when it is shown
    with the value [v]. *)
Definition passing (w : world) (v : value) (stmt : Stmt) : Prop :=
  exists c, Stmt_Call stmt = Some c
            /\ IsDebug (Name (CallStmt_Func c)) = true
            /\ Debug (info w) scope (Debug_CallStmt c) v = None.

(** [w] after [local] has drawn an identifier and recorded [path]. *)
Definition afterLocal (w : world) (path : string) : world :=
  {| info := {| Debug := Debug (info w);
                Locals := <[identity_NewID (drawn w) := path]> (Locals (info w)) |};
     drawn := S (drawn w);
     captured := captured w |}.

End ProtocolVocabulary.

(** ** The vocabulary of the further properties *)

(** A declaration that is a newline, and the declaration [fs build()]
    that has no body. *)
Definition newlineDecl : Decl :=
  mkDecl noPosition None None None None (Some (mkNewline noPosition (str1 newlineChar))) None.

Definition forwardDecl : Decl :=
  mkDecl noPosition None None None (Some (funcOf Filesystem "build" None)) None None.

(** The operations [emitOptions] has a case for. *)
Definition optionOps : list string :=
  ["image"; "http"; "git"; "local"; "generate"; "run"; "ssh"; "secret"; "mount";
   "mkdir"; "mkfile"; "rm"; "copy"].

(** The builtins [emitFilesystemChainStmt] has a case for. *)
Definition chainNames : list string :=
  ["run"; "env"; "dir"; "user"; "entrypoint"; "mkdir"; "mkfile"; "rm"; "copy"].

(** The option interface a source builtin asserts on the items of its
    [with] clause. *)
Definition sourceOptionKind (name : string) : option llb.OptionKind :=
  switch name
    [("image", Some llb.ImageOption);
     ("http", Some llb.HTTPOption);
     ("git", Some llb.GitOption);
     ("local", Some llb.LocalOption);
     ("generate", Some llb.FrontendOption)]
    None.

(** The same for the chain builtins that assert the items of the clause
    evaluated at their head. *)
Definition chainOptionKind (name : string) : option llb.OptionKind :=
  switch name
    [("run", Some llb.RunOption);
     ("mkfile", Some llb.MkfileOption);
     ("rm", Some llb.RmOption);
     ("copy", Some llb.CopyOption)]
    None.

(** [with { stmts }] and [with name] on the call [name args]. *)
Definition callWith (name : string) (args : list Expr) (w : WithOpt) : CallStmt :=
  theCall (NewCallStmt name args (Some w) None).

(** The flag of [llb.CopyInfo] an option of [copy] sets. *)
Definition setCopyFlag (name : string) (v : bool) (cp : llb.CopyInfo) : option llb.CopyInfo :=
  switch name
    [("followSymlinks",
      Some (llb.mkCopyInfo v (llb.CopyDirContentsOnly cp) (llb.AttemptUnpack cp)
              (llb.CreateDestPath cp) (llb.AllowWildcard cp) (llb.AllowEmptyWildcard cp)));
     ("contentsOnly",
      Some (llb.mkCopyInfo (llb.FollowSymlinks cp) v (llb.AttemptUnpack cp)
              (llb.CreateDestPath cp) (llb.AllowWildcard cp) (llb.AllowEmptyWildcard cp)));
     ("unpack",
      Some (llb.mkCopyInfo (llb.FollowSymlinks cp) (llb.CopyDirContentsOnly cp) v
              (llb.CreateDestPath cp) (llb.AllowWildcard cp) (llb.AllowEmptyWildcard cp)));
     ("createDestPath",
      Some (llb.mkCopyInfo (llb.FollowSymlinks cp) (llb.CopyDirContentsOnly cp)
              (llb.AttemptUnpack cp) v (llb.AllowWildcard cp) (llb.AllowEmptyWildcard cp)));
     ("allowWildcards",
      Some (llb.mkCopyInfo (llb.FollowSymlinks cp) (llb.CopyDirContentsOnly cp)
              (llb.AttemptUnpack cp) (llb.CreateDestPath cp) v (llb.AllowEmptyWildcard cp)));
     ("allowEmptyWildcard",
      Some (llb.mkCopyInfo (llb.FollowSymlinks cp) (llb.CopyDirContentsOnly cp)
              (llb.AttemptUnpack cp) (llb.CreateDestPath cp) (llb.AllowWildcard cp) v))]
    None.

(** A statement of the options of [ssh] or of [secret] that sets a field
    of the socket or of the file. *)
Definition setsField (fields : list string) (stmt : Stmt) : Prop :=
  exists c, Stmt_Call stmt = Some c
            /\ existsb (String.eqb (Name (CallStmt_Func c))) fields = true.

(** The names of these statements. *)
Definition sshFields : list string := ["target"; "uid"; "gid"; "mode"].
Definition secretFields : list string := ["uid"; "gid"; "mode"].

(** The socket option built from the fields of [ssh], the file option
    built from those of [secret]. *)
Definition socketItem (o : sshSocketOpt) : llb.Opt :=
  llb.SSHSocketOpt (ssh_target o) (ssh_uid o) (ssh_gid o) (ssh_mode o).

Definition fileItem (o : secretOpt) : llb.Opt :=
  llb.SecretFileOpt (secret_uid o) (secret_gid o) (secret_mode o).

(** The integer field a statement of [ssh] or of [secret] sets. *)
Definition setSshInt (name : string) (n : Z) (o : sshSocketOpt) : option sshSocketOpt :=
  switch name
    [("uid", Some (mkSshSocketOpt (ssh_target o) n (ssh_gid o) (ssh_mode o)));
     ("gid", Some (mkSshSocketOpt (ssh_target o) (ssh_uid o) n (ssh_mode o)));
     ("mode", Some (mkSshSocketOpt (ssh_target o) (ssh_uid o) (ssh_gid o) (FileMode n)))]
    None.

Definition setSecretInt (name : string) (n : Z) (o : secretOpt) : option secretOpt :=
  switch name
    [("uid", Some (mkSecretOpt n (secret_gid o) (secret_mode o)));
     ("gid", Some (mkSecretOpt (secret_uid o) n (secret_mode o)));
     ("mode", Some (mkSecretOpt (secret_uid o) (secret_gid o) (FileMode n)))]
    None.

(** The info after the options [opts] have been applied to [i], each to
    the info the one before it has left. *)
Definition applied (opts : list CodeGenOption) (i : CodeGenInfo) : CodeGenInfo :=
  fold_left (fun i opt => fst (opt i)) opts i.

(** An option that fails with [e] and leaves the info as it is. *)
Definition failingOption (e : error) : CodeGenOption := fun i => (i, Some e).

(** A debugger that objects to everything with [e]. *)
Definition objecting (e : error) : Debugger := fun _ _ _ => Some e.

(** The words a shell reads off the command of a [run] whose arguments
    evaluate to [strs]. *)
Definition argvOf (strs : list string) : list string :=
  match strs with
  | [commandStr] =>
      match shellquote.Split commandStr with
      | inr [part] => [part]
      | _ => ["/bin/sh"; "-c"; commandStr]
      end
  | _ => strs
  end.

(** A scope that binds [opts] to the one option of [git]. *)
Definition optionScope : Scope :=
  mkScope {[ "opts" := mkObject ExprKind (Node_Field (NewField Option "opts" false))
                         (VOptions [llb.KeepGitDir]) ]} None.

(** How many arguments a builtin reads: the source builtins of [fs]
    blocks, those of [string] blocks, and the chain builtins. [scratch],
    [run] and [entrypoint] read none by position. *)
Definition sourceArity (name : string) : option nat :=
  switch name
    [("image", Some 1%nat); ("http", Some 1%nat); ("git", Some 2%nat);
     ("local", Some 1%nat); ("generate", Some 1%nat)]
    None.

Definition stringArity (name : string) : option nat :=
  switch name [("value", Some 1%nat); ("format", Some 1%nat)] None.

Definition chainArity (name : string) : option nat :=
  switch name
    [("env", Some 2%nat); ("dir", Some 1%nat); ("user", Some 1%nat);
     ("mkdir", Some 2%nat); ("mkfile", Some 3%nat); ("rm", Some 1%nat);
     ("copy", Some 3%nat)]
    None.

(** A scope that binds the parameter [src] to a string. *)
Definition parameterScope : Scope :=
  mkScope {[ "src" := mkObject FieldKind (Node_Field (NewField Filesystem "src" false))
                        (VString "context") ]} None.

(** What [quote] writes for the run [seg] it has read since the last
    single quote: nothing for an empty run, the run between single
    quotes otherwise. *)
Definition flushed (seg : string) : string :=
  match seg with
  | EmptyString => EmptyString
  | _ => str1 squoteChar +:+ seg +:+ str1 squoteChar
  end.

(** The options that are flags: the statement adds the item when its
    argument is true, and nothing when it is false. *)
Definition flagOption (op name : string) : option llb.Opt :=
  switch op
    [("image", switch name [("resolve", Some llb.WithDefault)] None);
     ("git", switch name [("keepGitDir", Some llb.KeepGitDir)] None);
     ("run", switch name [("readonlyRootfs", Some llb.ReadonlyRootFS)] None);
     ("mount", switch name [("readonly", Some llb.Readonly); ("tmpfs", Some llb.Tmpfs)] None)]
    None.

(** The options that carry their argument: the statement adds the item
    of the value, true or false. *)
Definition boolOption (op name : string) : option (bool -> llb.Opt) :=
  switch op
    [("mkdir", switch name [("createParents", Some llb.WithParents)] None);
     ("rm", switch name [("allowNotFound", Some llb.WithAllowNotFound);
                         ("allowWildcard", Some llb.WithAllowWildcard)] None)]
    None.

(** A debugger that objects with [e] to the calls of [name] and lets
    everything else pass. *)
Definition objectingTo (name : string) (e : error) : Debugger :=
  fun _ node _ =>
    match node with
    | Debug_CallStmt c => if String.eqb (Name (CallStmt_Func c)) name then Some e else None
    | Debug_File _ => None
    end.

(** A statement as the grammar builds it: exactly one of its three
    alternatives is set. *)
Definition grammarStmt (stmt : Stmt) : bool :=
  match Stmt_Call stmt, Stmt_Newline stmt, Stmt_Doc stmt with
  | Some _, None, None | None, Some _, None | None, None, Some _ => true
  | _, _, _ => false
  end.

(** A character that neither ends a word nor opens a quotation or an
    escape for [shellquote.Split], and the strings of such characters. *)
Definition wordChar (c : ascii) : bool :=
  negb (ContainsRune shellquote.splitChars c)
  && negb (Ascii.eqb c squoteChar) && negb (Ascii.eqb c dquoteChar)
  && negb (Ascii.eqb c backslashChar).

Fixpoint allChars (p : ascii -> bool) (s : string) : bool :=
  match s with
  | EmptyString => true
  | String c rest => p c && allChars p rest
  end.

Section FurtherVocabulary.

Context `{Externals}.

(** What one statement of the options of [ssh] or of [secret] adds to
    the list of items: a statement that sets a field adds nothing, an
    [id] adds the item of the identifier its argument evaluates to, and
    any other call adds the items the option of its name expands to. *)
Definition adds (scope : Scope) (fields : list string) (idItem : string -> llb.Opt)
  (op : string) (stmt : Stmt) (added : list llb.Opt) : Prop :=
  match Stmt_Call stmt with
  | None => added = []
  | Some c =>
      let name := Name (CallStmt_Func c) in
      if existsb (String.eqb name) fields then added = []
      else if String.eqb name "id" then
        exists a0 id w w',
          CallStmt_Args c !! 0%nat = Some a0
          /\ emitStringExpr scope c a0 w = (Ok id, w')
          /\ added = [idItem id]
      else
        exists w w', emitOptionExpr scope c op (NewIdentExpr name) w = (Ok added, w')
  end.

(** A statement [emitBlock] evaluates: a call that is no debug call. *)
Definition evaluated (stmt : Stmt) : Prop :=
  exists c, Stmt_Call stmt = Some c /\ IsDebug (Name (CallStmt_Func c)) = false.

(** The body of an option loop only ever appends to the options it is
    given. *)
Definition appendOnly (body : CallStmt -> list llb.Opt -> M (list llb.Opt)) : Prop :=
  forall call opts w, body call opts w = (x <- body call [] ;; ret (opts ++ x)) w.

End FurtherVocabulary.

(** ** The vocabulary of the identifiers of [local]

    [identity.NewID] is the one source of identifiers and [local] the
    one place that draws from it and that writes to [Locals]. The
    evaluator is spread over the files of the package, so what a run
    does to [Locals] is said of one evaluation at a time. *)

Section LocalsVocabulary.

Context `{Externals}.

(** The keys of [Locals] are the identifiers drawn from the draw [base]
    on. *)
Definition recorded (base : nat) (w : world) : Prop :=
  (base <= drawn w)%nat
  /\ forall id, is_Some (Locals (info w) !! id)
                <-> exists n, (base <= n < drawn w)%nat /\ id = identity_NewID n.

(** An evaluation keeps the records when, however it ends, the keys of
    [Locals] are still the identifiers drawn and every entry it found
    is still there. *)
Definition keeps {A : Type} (m : M A) : Prop :=
  forall base w r w',
    m w = (r, w') -> recorded base w ->
    recorded base w' /\ Locals (info w) ⊆ Locals (info w').

Definition keepsCallback (ac : aliasCallback) : Prop :=
  forall c v, keeps (ac c v).

Definition keepsOption (so : StateOption) : Prop :=
  match so with
  | Some f => forall st, keeps (f st)
  | None => True
  end.

(** The functions of the package that [codegen.go] calls and does not
    define keep the records. *)
Record evaluatorsKeep : Prop := mkEvaluatorsKeep {
  keep_emitStringExpr : forall scope call e, keeps (emitStringExpr scope call e);
  keep_emitIntExpr : forall scope e, keeps (emitIntExpr scope e);
  keep_maybeEmitBoolExpr : forall scope args, keeps (maybeEmitBoolExpr scope args);
  keep_emitFilesystemExpr :
    forall scope call e ac, keepsCallback ac -> keeps (emitFilesystemExpr scope call e ac);
  keep_emitOptionExpr : forall scope call op e, keeps (emitOptionExpr scope call op e);
  keep_emitFuncDecl :
    forall scope n call op ac, keepsCallback ac -> keeps (emitFuncDecl scope n call op ac);
  keep_emitAliasDecl : forall scope n call, keeps (emitAliasDecl scope n call);
  keep_emitFilesystemFuncDecl :
    forall scope n call ac, keepsCallback ac -> keeps (emitFilesystemFuncDecl scope n call ac);
  keep_emitFilesystemAliasDecl :
    forall scope n call, keeps (emitFilesystemAliasDecl scope n call)
}.

End LocalsVocabulary.

(** * Properties *)

(** ** The embedded library functions on examples *)

Example Split_echo_hi : shellquote.Split "echo hi" = inr ["echo"; "hi"].
Proof. reflexivity. Qed.

Example Split_quoted : shellquote.Split "sh -c 'a b'  c\ d" = inr ["sh"; "-c"; "a b"; "c d"].
Proof. reflexivity. Qed.

Example Join_a_bc : shellquote.Join ["a"; "b c"] = "a 'b c'".
Proof. reflexivity. Qed.

Example Join_special : shellquote.Join ["it's"; "$x"; ""] = "it\'s \$x ''".
Proof. reflexivity. Qed.

Example parseRFC3339_ok :
  reference.parseRFC3339 "2020-02-29T12:30:00.5+01:00"
  = Some (time.mkTime 2020 2 29 12 30 0 500000000 3600).
Proof. reflexivity. Qed.

Example parseRFC3339_bad : reference.parseRFC3339 "yesterday" = None.
Proof. reflexivity. Qed.

Example Sprintf_hello : reference.Sprintf "hello %s" ["world"] = "hello world".
Proof. reflexivity. Qed.

(** ** The scenarios of the spec on the evaluator *)

Example scenario1_scratch :
  fst (@Generate (reference.externals 3) (theCall (callOf "default" [])) scenario1 [] world0)
  = Ok (llb.Scratch, None).
Proof. reflexivity. Qed.

Example scenario5_mkdir :
  fst (@Generate (reference.externals 3) (theCall (callOf "default" [])) scenario5 [] world0)
  = Ok (llb.StFile llb.Scratch (llb.Mkdir "/x" 493 []), None).
Proof. reflexivity. Qed.

(** The copy of [b] reads from the mount of the [run] of [a] after the
    exec. *)
Example scenario6_alias :
  fst (@Generate (reference.externals 6) (theCall (callOf "b" [])) scenario6 [] world0)
  = Ok (let opts := [llb.AddMount "/m" llb.Scratch []; llb.Shlex "true"] in
        llb.StFile (llb.ExecRoot (llb.Image "alpine" []) opts)
          (llb.Copy (llb.ExecMount (llb.Image "alpine" []) opts "/m") "/m/f" "/f" []),
        None).
Proof. reflexivity. Qed.

(** ** The monad *)

Lemma bind_Ok {A B : Type} (m : M A) (k : A -> M B) (w w' : world) (a : A) :
  m w = (Ok a, w') -> bind m k w = k a w'.
Proof. intros Hm. unfold bind. rewrite Hm. reflexivity. Qed.

Lemma bind_Err {A B : Type} (m : M A) (k : A -> M B) (w w' : world) (e : error) :
  m w = (Err e, w') -> bind m k w = (Err e, w').
Proof. intros Hm. unfold bind. rewrite Hm. reflexivity. Qed.

Lemma bind_Panic {A B : Type} (m : M A) (k : A -> M B) (w w' : world) (p : panic) :
  m w = (Panic p, w') -> bind m k w = (Panic p, w').
Proof. intros Hm. unfold bind. rewrite Hm. reflexivity. Qed.

Lemma bind_ret {A B : Type} (a : A) (k : A -> M B) (w : world) :
  bind (ret a) k w = k a w.
Proof. reflexivity. Qed.

Lemma bind_ext {A B : Type} (m1 m2 : M A) (k1 k2 : A -> M B) (w : world) :
  (forall w0, m1 w0 = m2 w0) -> (forall a w0, k1 a w0 = k2 a w0) ->
  bind m1 k1 w = bind m2 k2 w.
Proof.
  intros Hm Hk. unfold bind. rewrite Hm.
  destruct (m2 w) as [[a | e | p] w1]; [apply Hk | reflexivity ..].
Qed.

Lemma bind_assoc {A B C : Type} (m : M A) (k : A -> M B) (k' : B -> M C) (w : world) :
  bind (bind m k) k' w = bind m (fun a => bind (k a) k') w.
Proof.
  unfold bind. destruct (m w) as [[a | e | p] w1]; reflexivity.
Qed.

(** A successful bind splits into its two steps. *)
Lemma bind_Ok_inv {A B : Type} (m : M A) (k : A -> M B) (w w' : world) (b : B) :
  bind m k w = (Ok b, w') ->
  exists a w1, m w = (Ok a, w1) /\ k a w1 = (Ok b, w').
Proof.
  unfold bind. destruct (m w) as [[a | e | p] w1]; intros Hk.
  - exists a, w1. split; [reflexivity | exact Hk].
  - discriminate Hk.
  - discriminate Hk.
Qed.

(** ** [emitWithOption], [emitOptions] and [emitExecOptions] as the source
    has them *)

Section WithOptionEquations.

Context `{Externals}.
Variable scope : Scope.

(** The inner loop of [withOptionOf] is [forStmts] on the statements
    [NonEmptyStmts] keeps. *)
Lemma exec_loop_filter (body : CallStmt -> list llb.Opt -> M (list llb.Opt))
  (stmts : list Stmt) (opts : list llb.Opt) (w : world) :
  (fix loop (stmts : list Stmt) (opts : list llb.Opt) {struct stmts} : M (list llb.Opt) :=
     match stmts with
     | [] => ret opts
     | mkStmt _ c nl doc :: rest =>
         if notNil nl || notNil doc then loop rest opts
         else match c with
              | Some call => opts' <- body call opts ;; loop rest opts'
              | None => loop rest opts
              end
     end) stmts opts w
  = forStmts body
      (List.filter (fun stmt => negb (notNil (Stmt_Newline stmt) || notNil (Stmt_Doc stmt)))
                   stmts)
      opts w.
Proof.
  revert opts w. induction stmts as [| [pos c nl doc] rest IH]; intros opts w.
  - reflexivity.
  - cbn [List.filter Stmt_Newline Stmt_Doc].
    destruct (notNil nl || notNil doc) eqn:Htrivia; cbn [negb].
    + apply IH.
    + cbn [forStmts Stmt_Call]. destruct c as [call |].
      * unfold bind. destruct (body call opts w) as [[opts' | e | p] w']; [apply IH | reflexivity ..].
      * apply IH.
Qed.

(** [emitOptions] on an operation other than [run]. *)
Lemma emitOptions_other (op : string) (stmts : list Stmt) (ac : aliasCallback) :
  String.eqb op "run" = false ->
  emitOptions scope op stmts ac = emitOptionsOther scope op stmts ac.
Proof.
  intros Hop. unfold emitOptions, emitOptionsOther. cbn [switch]. rewrite Hop. reflexivity.
Qed.

(** The recursion evaluates the clause of a statement the way the source
    writes it: [emitWithOption(info, scope, parent, parent.WithOpt, ac)]. *)
Lemma withOptionOf_eq (ac : aliasCallback) (parent : CallStmt) (w : world) :
  withOptionOf scope ac parent w
  = emitWithOption scope parent (CallStmt_WithOpt parent) ac w.
Proof.
  destruct parent as [pos doc func args [[wpos wth [id |] [[lpos ltyp body] |]] |] alias se];
    try reflexivity.
  cbn [withOptionOf emitWithOption CallStmt_WithOpt CallStmt_Func WithOpt_Ident
       WithOpt_FuncLit FuncLit_Body].
  destruct (String.eqb (Name func) "run") eqn:Hrun.
  - apply String.eqb_eq in Hrun. rewrite Hrun.
    change (emitOptions scope "run" (NonEmptyStmts body) ac)
      with (emitExecOptions scope "run" (NonEmptyStmts body) ac).
    destruct body as [[bpos ob stmts cb] |]; [| reflexivity].
    unfold emitExecOptions, NonEmptyStmts. cbn [BlockStmt_List].
    apply exec_loop_filter.
  - rewrite emitOptions_other by exact Hrun. reflexivity.
Qed.

(** [emitExecOptions] with the clause of each statement evaluated by
    [emitWithOption], as in the source. *)
Lemma emitExecOptions_eq (op : string) (stmts : list Stmt) (ac : aliasCallback) (w : world) :
  emitExecOptions scope op stmts ac w
  = forStmts (fun call opts =>
      iopts <- emitWithOption scope call (CallStmt_WithOpt call) ac ;;
      execOption scope op ac call iopts opts) stmts [] w.
Proof.
  unfold emitExecOptions. generalize (@nil llb.Opt) as opts. revert w.
  induction stmts as [| stmt rest IH]; intros w opts; [reflexivity |].
  cbn [forStmts]. destruct (Stmt_Call stmt) as [call |]; [| apply IH].
  apply bind_ext.
  - intros w0. apply bind_ext; [apply withOptionOf_eq | reflexivity].
  - intros opts' w0. apply IH.
Qed.

End WithOptionEquations.

(** ** [FuncDecl.End] *)

(** C9. [FuncDecl.End] follows [d.Body] and then [CloseBrace]: on a
    declaration without a body (the grammar makes the block optional, so
    [FuncDecl_Body] is [None] for the declaration [fs build()]) it panics
    on the nil pointer, and it returns a position only for a declaration
    that has a body. *)
Theorem FuncDecl_End_needs_body (E : Type) (d : FuncDecl) :
  (FuncDecl_Body d = None -> @FuncDecl_End E d = Panic NilDereference)
  /\ (forall pos, @FuncDecl_End E d = Ok pos -> exists body, FuncDecl_Body d = Some body).
Proof.
  unfold FuncDecl_End. split.
  - intros Hbody. rewrite Hbody. reflexivity.
  - intros pos. destruct (FuncDecl_Body d) as [body |].
    + intros _. exists body. reflexivity.
    + discriminate.
Qed.

Lemma FuncDecl_End_needs_body_witness :
  FuncDecl_Body (funcOf Filesystem "build" None) = None
  /\ @FuncDecl_End error (funcOf Filesystem "build" None) = Panic NilDereference.
Proof.
  split; [reflexivity |].
  apply (proj1 (FuncDecl_End_needs_body error (funcOf Filesystem "build" None))).
  reflexivity.
Defined.

(** With a body and its closing brace, [End] is one past the brace. *)
Lemma FuncDecl_End_with_body (E : Type) (d : FuncDecl) (body : BlockStmt) (b : CloseBrace) :
  FuncDecl_Body d = Some body -> BlockStmt_CloseBrace body = Some b ->
  @FuncDecl_End E d = Ok (shiftPosition (CloseBrace_Pos b) 1 0).
Proof. intros Hbody Hb. unfold FuncDecl_End. rewrite Hbody, Hb. reflexivity. Qed.

(** ** [Generate] *)

(** C1, amended. Once the options have been applied without error:
    a target name that does not resolve makes [Generate] return the
    unknown-target error, and, the debugger raising no error before the
    run, a name bound to no [fs] function makes it return
    [ErrInvalidTarget]; the state returned with either error is the
    scratch default. *)
Theorem Generate_rejects_target `{Externals} (call : CallStmt) (file : File)
  (opts : list CodeGenOption) (w w1 : world) :
  applyOptions opts (freshWorld w) = (Ok None, w1) ->
  (Lookup (File_Scope file) (Name (CallStmt_Func call)) = None ->
   Generate call file opts w
   = (Ok (llb.Scratch, Some (ErrUnknownTarget (Name (CallStmt_Func call)))), w1))
  /\ (forall obj,
        Lookup (File_Scope file) (Name (CallStmt_Func call)) = Some obj ->
        Debug (info w1) (File_Scope file) (Debug_File file) VNil = None ->
        noFsFunction obj ->
        Generate call file opts w
        = (Ok (llb.Scratch, Some (ErrInvalidTarget (CallStmt_Func call))), w1)).
Proof.
  intros Hopts. unfold Generate.
  rewrite (bind_Ok newInfo _ w (freshWorld w) tt) by reflexivity.
  rewrite (bind_Ok _ _ _ _ _ Hopts).
  split.
  - intros Hlook. rewrite Hlook. reflexivity.
  - intros obj Hlook Hdebug Hobj. rewrite Hlook.
    rewrite (bind_Ok (callDebug _ _ _) _ w1 w1 None)
      by (unfold callDebug; rewrite Hdebug; reflexivity).
    destruct Hobj as [Hkind | [(n & Hnode & Htyp) | (n & f & Hnode & Hfunc & Htyp)]].
    + destruct (Object_Kind obj); [contradiction | reflexivity ..].
    + rewrite Hnode. apply String.eqb_neq in Htyp. rewrite Htyp.
      destruct (Object_Kind obj); reflexivity.
    + rewrite Hnode. apply String.eqb_neq in Htyp.
      destruct (Object_Kind obj); [| reflexivity ..].
      rewrite (bind_Ok (deref _) _ w1 w1 f) by (rewrite Hfunc; reflexivity).
      rewrite Htyp. reflexivity.
Qed.

Lemma Generate_rejects_target_witness :
  @Generate (reference.externals 1) (theCall (callOf "greet" [])) greetFile [] world0
  = (Ok (llb.Scratch, Some (ErrInvalidTarget (NewIdent "greet"))), world0).
Proof.
  refine (proj2 (@Generate_rejects_target (reference.externals 1)
                   (theCall (callOf "greet" [])) greetFile [] world0 world0 _)
                (mkObject DeclKind (Node_FuncDecl (funcOf Str "greet" None)) VNil) _ _ _).
  - reflexivity.
  - reflexivity.
  - reflexivity.
  - right. left. exists (funcOf Str "greet" None). split; [reflexivity | discriminate].
Defined.

(** C1 as stated fails on a name that is not in the file scope: the
    error is the unknown-target error, not [ErrInvalidTarget]. *)
Lemma Generate_unknown_target_counterexample :
  Lookup (File_Scope greetFile) "missing" = None
  /\ ~ (exists st id w,
          @Generate (reference.externals 1) (theCall (callOf "missing" [])) greetFile []
            world0
          = (Ok (st, Some (ErrInvalidTarget id)), w)).
Proof.
  split; [reflexivity |].
  intros (st & id & w & Hgen).
  vm_compute in Hgen. discriminate Hgen.
Qed.

(** A name bound to a declaration that is neither a [FuncDecl] nor an
    [AliasDecl], such as the alias of an import, falls through the type
    switch of [Generate]: the call returns the scratch state and no
    error. *)
Example Generate_import_target :
  @Generate (reference.externals 1) (theCall (callOf "lib" [])) importFile [] world0
  = (Ok (llb.Scratch, None), world0).
Proof. reflexivity. Qed.

(** ** The command of [run] *)

Lemma switch_hit {A : Type} (x : string) (a : A) (cases : list (string * A)) (d : A) :
  switch x ((x, a) :: cases) d = a.
Proof. cbn [switch]. rewrite String.eqb_refl. reflexivity. Qed.

Lemma switch_skip {A : Type} (x k : string) (a : A) (cases : list (string * A)) (d : A) :
  String.eqb x k = false -> switch x ((k, a) :: cases) d = switch x cases d.
Proof. intros Hk. cbn [switch]. rewrite Hk. reflexivity. Qed.

(** Run the step at the head of a computation. *)
Ltac mstep H := rewrite ?bind_assoc; rewrite (bind_Ok _ _ _ _ _ H).

(** Select the case of a [switch] on a known string. *)
Ltac switch_case :=
  repeat first [rewrite switch_hit | rewrite switch_skip by reflexivity].

Section Run.

Context `{Externals}.
Variable scope : Scope.

Lemma emitStringExprs_length (call : CallStmt) (args : list Expr) (strs : list string)
  (w w1 : world) :
  emitStringExprs scope call args w = (Ok strs, w1) -> length strs = length args.
Proof.
  revert strs w. induction args as [| a rest IH]; intros strs w Hrun.
  - cbn in Hrun. injection Hrun as <- _. reflexivity.
  - cbn [emitStringExprs] in Hrun.
    apply bind_Ok_inv in Hrun as (s & w2 & _ & Hrun).
    apply bind_Ok_inv in Hrun as (ss & w3 & Hrest & Hret).
    cbn in Hret. injection Hret as <- <-. cbn [length]. f_equal. exact (IH _ _ Hrest).
Qed.

Lemma emitStringExprs_one (call : CallStmt) (a : Expr) (strs : list string) (w w1 : world) :
  emitStringExprs scope call [a] w = (Ok strs, w1) ->
  exists s, strs = [s] /\ emitStringExpr scope call a w = (Ok s, w1).
Proof.
  intros Hrun. cbn [emitStringExprs] in Hrun.
  apply bind_Ok_inv in Hrun as (s & w2 & Hs & Hrun).
  cbn in Hrun. injection Hrun as <- <-. exists s. split; [reflexivity | exact Hs].
Qed.

Lemma runShlex_command (call : CallStmt) (strs : list string) (w w1 : world) :
  emitStringExprs scope call (CallStmt_Args call) w = (Ok strs, w1) ->
  runShlex scope call (CallStmt_Args call) w
  = (match commandOf strs with
     | inl e => Err (ErrSplit e)
     | inr shlex => Ok shlex
     end, w1).
Proof.
  intros Hargs. pose proof (emitStringExprs_length _ _ _ _ _ Hargs) as Hlen.
  unfold runShlex, commandOf.
  destruct (CallStmt_Args call) as [| a0 [| a1 rest]] eqn:Hcall.
  - destruct strs; [| discriminate Hlen].
    rewrite (bind_Ok _ _ _ _ _ Hargs). reflexivity.
  - apply emitStringExprs_one in Hargs as (s & -> & Hs).
    rewrite (bind_Ok _ _ _ _ _ Hs).
    destruct (shellquote.Split s) as [e | [| p0 [| p1 parts]]]; reflexivity.
  - destruct strs as [| s0 [| s1 strs]]; [discriminate Hlen | discriminate Hlen |].
    rewrite (bind_Ok _ _ _ _ _ Hargs). reflexivity.
Qed.

(** C2, amended. For a [run] call whose arguments evaluate to the
    strings [strs], the command is [commandOf strs]: a single argument
    that splits into one shell word is the command as it is; a single
    argument that splits into any other number of words is wrapped as
    the quoted join of [/bin/sh], [-c] and the argument; a single
    argument that does not split is an error; with no or with several
    arguments the command is the quoted join of the strings. The state
    option of every [run] runs the command of its arguments as the last
    option of the exec, and without a [with] clause as the only one. *)
Theorem run_command (typ : ObjType) (call : CallStmt) (ac : aliasCallback) :
  Name (CallStmt_Func call) = "run" ->
  (forall strs w w1,
      emitStringExprs scope call (CallStmt_Args call) w = (Ok strs, w1) ->
      runShlex scope call (CallStmt_Args call) w
      = (match commandOf strs with
         | inl e => Err (ErrSplit e)
         | inr shlex => Ok shlex
         end, w1))
  /\ (forall so w w1,
        emitFilesystemChainStmt scope typ call ac w = (Ok (Some so), w1) ->
        exists shlex opts wa wb,
          runShlex scope call (CallStmt_Args call) wa = (Ok shlex, wb)
          /\ forall st w2 st' w3,
               so st w2 = (Ok st', w3) ->
               st' = llb.ExecRoot st (opts ++ [llb.Shlex shlex]))
  /\ (forall strs w w1,
        CallStmt_WithOpt call = None ->
        emitStringExprs scope call (CallStmt_Args call) w = (Ok strs, w1) ->
        match commandOf strs with
        | inl e => emitFilesystemChainStmt scope typ call ac w = (Err (ErrSplit e), w1)
        | inr shlex =>
            exists so,
              emitFilesystemChainStmt scope typ call ac w = (Ok (Some so), w1)
              /\ forall st w', so st w' = (Ok (llb.ExecRoot st [llb.Shlex shlex]), w')
        end).
Proof.
  intros Hname. split; [| split].
  - intros strs w w1. apply runShlex_command.
  - intros so w w1. unfold emitFilesystemChainStmt. rewrite Hname. intros Hrun.
    apply bind_Ok_inv in Hrun as (iopts & w2 & _ & Hrun).
    rewrite switch_hit in Hrun.
    apply bind_Ok_inv in Hrun as (shlex & w3 & Hshlex & Hrun).
    apply bind_Ok_inv in Hrun as (opts & w4 & _ & Hrun).
    apply bind_Ok_inv in Hrun as (tc & w5 & _ & Hrun).
    cbn in Hrun. injection Hrun as <- _.
    exists shlex, opts, w2, w3. split; [exact Hshlex |].
    intros st w6 st' w7 Hso. unfold runStateOption in Hso.
    apply bind_Ok_inv in Hso as ([] & w8 & _ & Hso).
    cbn in Hso. injection Hso as <- _. reflexivity.
  - intros strs w w1 Hwith Hargs.
    pose proof (runShlex_command call strs w w1 Hargs) as Hshlex.
    unfold emitFilesystemChainStmt. rewrite Hwith, Hname.
    cbn [emitWithOption]. rewrite bind_ret, switch_hit.
    destruct (commandOf strs) as [e | shlex].
    + apply bind_Err, Hshlex.
    + eexists. split.
      * rewrite (bind_Ok _ _ _ _ _ Hshlex). cbn [assertOpts]. rewrite bind_ret.
        unfold runMountAliases. rewrite Hwith. rewrite bind_ret. reflexivity.
      * intros st w'. reflexivity.
Qed.

End Run.

(** [run "a" "b c"] *)
Lemma run_command_witness :
  exists so,
    @emitFilesystemChainStmt (reference.externals 1) emptyScope Filesystem
      (theCall (callOf "run" [NewStringExpr "a"; NewStringExpr "b c"])) noopAliasCallback world0
    = (Ok (Some so), world0)
    /\ forall st w', so st w' = (Ok (llb.ExecRoot st [llb.Shlex "a 'b c'"]), w').
Proof.
  exact (proj2 (proj2 (@run_command (reference.externals 1) emptyScope Filesystem
                         (theCall (callOf "run" [NewStringExpr "a"; NewStringExpr "b c"]))
                         noopAliasCallback eq_refl))
           ["a"; "b c"] world0 world0 eq_refl eq_refl).
Defined.

(** C2 as stated fails on [image "alpine"; run "echo hi"]: the single
    argument splits into two words, and the command that is emitted is
    not the argument as it is. *)
Lemma run_single_argument_counterexample :
  shellquote.Split "echo hi" = inr ["echo"; "hi"]
  /\ fst (@emitFilesystemBlock (reference.externals 1) emptyScope
            [callOf "image" [NewStringExpr "alpine"]; callOf "run" [NewStringExpr "echo hi"]]
            noopAliasCallback world0)
     <> Ok (llb.ExecRoot (llb.Image "alpine" []) [llb.Shlex "echo hi"]).
Proof.
  split; [reflexivity |].
  vm_compute. discriminate.
Qed.

(** What that block does emit. *)
Example run_echo_hi :
  fst (@emitFilesystemBlock (reference.externals 1) emptyScope
         [callOf "image" [NewStringExpr "alpine"]; callOf "run" [NewStringExpr "echo hi"]]
         noopAliasCallback world0)
  = Ok (llb.ExecRoot (llb.Image "alpine" []) [llb.Shlex "/bin/sh -c 'echo hi'"]).
Proof. reflexivity. Qed.

(** A single argument of one word is passed as it is. *)
Example run_true :
  fst (@emitFilesystemBlock (reference.externals 1) emptyScope
         [callOf "image" [NewStringExpr "alpine"]; callOf "run" [NewStringExpr "true"]]
         noopAliasCallback world0)
  = Ok (llb.ExecRoot (llb.Image "alpine" []) [llb.Shlex "true"]).
Proof. reflexivity. Qed.

(** ** The block protocol *)

Section BlockProtocol.

Context `{Externals}.
Variable scope : Scope.

Lemma initialValue_identity (bt : blockType) : initialValue (objTypeOf bt) = identityOf bt.
Proof. destruct bt; reflexivity. Qed.

Lemma skipDebugs_leading (v : value) (leading : list CallStmt) (source : CallStmt)
  (stmts rest : list Stmt) (src : Stmt) (i : nat) (w : world) :
  map Stmt_Call stmts = map Some leading ->
  Stmt_Call src = Some source ->
  Forall (fun c => IsDebug (Name (CallStmt_Func c)) = true) leading ->
  IsDebug (Name (CallStmt_Func source)) = false ->
  skipDebugs scope v (stmts ++ src :: rest) i w
  = (foldM (fun _ c => debug scope (Debug_CallStmt c) v) leading tt ;;
     ret (i + length leading)%nat) w.
Proof.
  intros Hmap Hsrc Hdebug Hsource. revert stmts i w Hmap.
  induction Hdebug as [| c leading Hc _ IH]; intros stmts i w Hmap.
  - destruct stmts; [| discriminate Hmap].
    cbn [app skipDebugs foldM length]. rewrite Hsrc. cbn [deref]. rewrite bind_ret.
    rewrite Hsource, bind_ret. rewrite Nat.add_0_r. reflexivity.
  - destruct stmts as [| stmt stmts]; [discriminate Hmap |].
    cbn [map] in Hmap. injection Hmap as Hstmt Hmap.
    cbn [app skipDebugs foldM length]. rewrite Hstmt. cbn [deref]. rewrite bind_ret.
    rewrite Hc. rewrite bind_assoc. apply bind_ext; [reflexivity |].
    intros [] w0. rewrite IH by exact Hmap.
    replace (S i + length leading)%nat with (i + S (length leading))%nat by lia.
    reflexivity.
Qed.

Lemma chainStmts_foldM (typ : ObjType) (ac : aliasCallback) (stmts : list Stmt)
  (calls : list CallStmt) (v : value) (w : world) :
  map Stmt_Call stmts = map Some calls ->
  chainStmts scope typ ac stmts v w = foldM (chainStep scope typ ac) calls v w.
Proof.
  revert calls v w. induction stmts as [| stmt stmts IH]; intros calls v w Hmap.
  - destruct calls; [reflexivity | discriminate Hmap].
  - destruct calls as [| c calls]; [discriminate Hmap |].
    cbn [map] in Hmap. injection Hmap as Hstmt Hmap.
    cbn [chainStmts foldM]. rewrite Hstmt. cbn [deref]. rewrite bind_ret.
    unfold chainStep. rewrite bind_assoc.
    destruct (IsDebug (Name (CallStmt_Func c))).
    + apply bind_ext; [reflexivity |]. intros [] w0. rewrite bind_ret. apply IH, Hmap.
    + apply bind_ext; [reflexivity |]. intros [] w0.
      rewrite bind_assoc. apply bind_ext; [reflexivity |]. intros chain w1.
      rewrite bind_assoc. apply bind_ext; [reflexivity |]. intros v' w2.
      rewrite bind_assoc. apply bind_ext; [reflexivity |]. intros [] w3.
      rewrite bind_ret. apply IH, Hmap.
Qed.

(** [emitBlock] on a block given as its leading debug calls, its first
    other statement and the statements after it. *)
Lemma emitBlock_unfold (bt : blockType) (stmts : list Stmt)
  (leading : list CallStmt) (source : CallStmt) (remaining : list CallStmt)
  (ac : aliasCallback) (w : world) :
  map Stmt_Call stmts = map Some (leading ++ source :: remaining) ->
  Forall (fun c => IsDebug (Name (CallStmt_Func c)) = true) leading ->
  IsDebug (Name (CallStmt_Func source)) = false ->
  emitBlock scope (objTypeOf bt) stmts ac w
  = blockProtocol scope bt leading source remaining ac w.
Proof.
  intros Hmap Hleading Hsource.
  rewrite map_app in Hmap. cbn [map] in Hmap.
  apply map_eq_app in Hmap as (stmts1 & stmts' & -> & Hmap1 & Hmap').
  apply map_eq_cons in Hmap' as (src & stmts2 & -> & Hsrc & Hmap2).
  assert (Hlen : length stmts1 = length leading).
  { rewrite <- (length_map Stmt_Call stmts1), Hmap1. apply length_map. }
  unfold emitBlock, blockProtocol. rewrite initialValue_identity.
  etransitivity.
  { apply bind_ext; [| intros idx w0; reflexivity].
    intros w0.
    apply (skipDebugs_leading _ leading source stmts1 stmts2 src 0 w0
             Hmap1 Hsrc Hleading Hsource). }
  rewrite bind_assoc. apply bind_ext; [reflexivity |]. intros [] w1.
  rewrite bind_ret. cbn [Nat.add]. unfold index.
  rewrite <- Hlen, list_lookup_middle by reflexivity. rewrite bind_ret.
  rewrite Hsrc. cbn [deref]. rewrite bind_ret.
  apply bind_ext; [reflexivity |]. intros [] w2.
  apply bind_ext; [reflexivity |]. intros v w3.
  apply bind_ext; [reflexivity |]. intros [] w4.
  replace (drop (length stmts1 + 1) (stmts1 ++ src :: stmts2)) with stmts2.
  - apply chainStmts_foldM, Hmap2.
  - rewrite drop_app_add. reflexivity.
Qed.

Lemma debug_hook (c : CallStmt) (V : value) (w : world) :
  debug scope (Debug_CallStmt c) V w = hook scope c V w.
Proof.
  unfold debug, callDebug, hook, bind.
  destruct (Debug (info w) scope (Debug_CallStmt c) V); reflexivity.
Qed.

Lemma reportAlias_report (ac : aliasCallback) (c : CallStmt) (V : value) (w : world) :
  reportAlias ac c V w = report ac c V w.
Proof. unfold reportAlias, report. destruct (CallStmt_Alias c); reflexivity. Qed.

Lemma emitSourceStmt_sourceValue (bt : blockType) (ac : aliasCallback) (c : CallStmt)
  (w : world) :
  emitSourceStmt scope (objTypeOf bt) c ac w = sourceValue scope bt ac c w.
Proof.
  unfold sourceValue. destruct (IsBuiltin (objTypeOf bt) (Name (CallStmt_Func c))) eqn:Hb;
    [| reflexivity].
  unfold emitSourceStmt. rewrite Hb. destruct bt; reflexivity.
Qed.

(** The chain function [emitChainStmt] returns, applied to the
    accumulator. *)
Lemma emitChainStmt_nextValue (bt : blockType) (ac : aliasCallback) (c : CallStmt)
  (V : value) (w : world) :
  (f <- emitChainStmt scope (objTypeOf bt) c ac ;; f V) w = nextValue scope bt ac V c w.
Proof.
  destruct bt; unfold emitChainStmt, nextValue; cbn [objTypeOf].
  - rewrite switch_hit, bind_assoc. apply bind_ext; [reflexivity |].
    intros so w0. rewrite bind_ret.
    destruct V; try reflexivity. destruct so as [f |]; reflexivity.
  - rewrite switch_skip by reflexivity. rewrite switch_hit. reflexivity.
Qed.

Lemma chainStep_accumulateStep (bt : blockType) (ac : aliasCallback) (V : value)
  (c : CallStmt) (w : world) :
  chainStep scope (objTypeOf bt) ac V c w = accumulateStep scope bt ac V c w.
Proof.
  unfold chainStep, accumulateStep. apply bind_ext; [apply debug_hook |].
  intros [] w0. destruct (IsDebug (Name (CallStmt_Func c))); [reflexivity |].
  rewrite <- bind_assoc. apply bind_ext; [apply emitChainStmt_nextValue |].
  intros V' w1. apply bind_ext; [apply reportAlias_report | reflexivity].
Qed.

Lemma foldM_ext {A B : Type} (f g : A -> B -> M A) (l : list B) (a : A) (w : world) :
  (forall a0 b w0, f a0 b w0 = g a0 b w0) -> foldM f l a w = foldM g l a w.
Proof.
  intros Hfg. revert a w. induction l as [| b l IH]; intros a w; [reflexivity |].
  cbn [foldM]. apply bind_ext; [intros w0; apply Hfg | intros a' w0; apply IH].
Qed.

Lemma blockProtocol_accumulate (bt : blockType) (leading : list CallStmt)
  (source : CallStmt) (remaining : list CallStmt) (ac : aliasCallback) (w : world) :
  blockProtocol scope bt leading source remaining ac w
  = accumulate scope bt leading source remaining ac w.
Proof.
  unfold blockProtocol, accumulate.
  apply bind_ext; [intros w0; apply foldM_ext; intros; apply debug_hook |].
  intros [] w0. apply bind_ext; [apply debug_hook |].
  intros [] w1. apply bind_ext; [apply emitSourceStmt_sourceValue |].
  intros V w2. apply bind_ext; [apply reportAlias_report |].
  intros [] w3. apply foldM_ext. intros. apply chainStep_accumulateStep.
Qed.

(** A string block does not get past a statement after the source
    statement that is no debug call. *)
Lemma string_chain_stops (ac : aliasCallback) (remaining : list CallStmt) :
  Exists (fun c => IsDebug (Name (CallStmt_Func c)) = false) remaining ->
  forall V w v w', foldM (accumulateStep scope StringBlock ac) remaining V w <> (Ok v, w').
Proof.
  induction 1 as [c rest Hc | c rest _ IH]; intros V w v w' Hrun.
  - cbn [foldM] in Hrun. apply bind_Ok_inv in Hrun as (V1 & w1 & Hstep & _).
    unfold accumulateStep in Hstep. rewrite Hc in Hstep.
    apply bind_Ok_inv in Hstep as ([] & w2 & _ & Hstep).
    discriminate Hstep.
  - cbn [foldM] in Hrun. apply bind_Ok_inv in Hrun as (V1 & w1 & _ & Hrun).
    exact (IH _ _ _ _ Hrun).
Qed.

(** C3, amended. On a block whose statements are call statements, with
    leading debug calls [leading], first other statement [source] and
    later statements [remaining], [emitBlock] is the block protocol:
    the accumulator starts as the identity of the block type, the source
    statement replaces it, and in an [fs] block every later statement
    that is no debug call is evaluated to its state option, which maps
    the current accumulator to the next one; the result is the last
    accumulator. A string block follows the protocol up to its source
    statement only: a later statement that is no debug call reaches the
    string chain evaluator, which is not implemented, and the block
    yields no value. *)
Theorem emitBlock_protocol (bt : blockType) (stmts : list Stmt)
  (leading : list CallStmt) (source : CallStmt) (remaining : list CallStmt)
  (ac : aliasCallback) (w : world) :
  map Stmt_Call stmts = map Some (leading ++ source :: remaining) ->
  Forall (fun c => IsDebug (Name (CallStmt_Func c)) = true) leading ->
  IsDebug (Name (CallStmt_Func source)) = false ->
  emitBlock scope (objTypeOf bt) stmts ac w
  = accumulate scope bt leading source remaining ac w
  /\ (bt = StringBlock ->
      Exists (fun c => IsDebug (Name (CallStmt_Func c)) = false) remaining ->
      forall v w', emitBlock scope Str stmts ac w <> (Ok v, w')).
Proof.
  intros Hmap Hleading Hsource.
  assert (Heq : emitBlock scope (objTypeOf bt) stmts ac w
                = accumulate scope bt leading source remaining ac w).
  { rewrite (emitBlock_unfold bt stmts leading source remaining ac w Hmap Hleading Hsource).
    apply blockProtocol_accumulate. }
  split; [exact Heq |].
  intros -> Hex v w' Hrun. cbn [objTypeOf] in Heq. rewrite Heq in Hrun.
  unfold accumulate in Hrun.
  apply bind_Ok_inv in Hrun as ([] & w1 & _ & Hrun).
  apply bind_Ok_inv in Hrun as ([] & w2 & _ & Hrun).
  apply bind_Ok_inv in Hrun as (V & w3 & _ & Hrun).
  apply bind_Ok_inv in Hrun as ([] & w4 & _ & Hrun).
  exact (string_chain_stops ac remaining Hex _ _ _ _ Hrun).
Qed.

End BlockProtocol.

(** [breakpoint; image "alpine"; run "true"]: the block evaluates as the
    protocol says, to the image with the command run on it. *)
Lemma emitBlock_protocol_witness :
  @emitBlock (reference.externals 1) emptyScope Filesystem
    [callOf "breakpoint" []; callOf "image" [NewStringExpr "alpine"];
     callOf "run" [NewStringExpr "true"]] noopAliasCallback world0
  = @accumulate (reference.externals 1) emptyScope FsBlock
      [theCall (callOf "breakpoint" [])]
      (theCall (callOf "image" [NewStringExpr "alpine"]))
      [theCall (callOf "run" [NewStringExpr "true"])] noopAliasCallback world0
  /\ @accumulate (reference.externals 1) emptyScope FsBlock
       [theCall (callOf "breakpoint" [])]
       (theCall (callOf "image" [NewStringExpr "alpine"]))
       [theCall (callOf "run" [NewStringExpr "true"])] noopAliasCallback world0
     = (Ok (VState (llb.ExecRoot (llb.Image "alpine" []) [llb.Shlex "true"])), world0).
Proof.
  split; [| reflexivity].
  apply (@emitBlock_protocol (reference.externals 1) emptyScope FsBlock).
  - reflexivity.
  - constructor; [reflexivity | constructor].
  - reflexivity.
Defined.

(** C3 as stated fails on the string block [value "x"; value "y"]: it
    has a statement that is no debug call, and its second statement is
    not evaluated to a function of the accumulator; the block has no
    result. *)
Lemma string_chain_counterexample :
  Exists (fun stmt => @evaluated (reference.externals 1) stmt)
    [callOf "value" [NewStringExpr "x"]; callOf "value" [NewStringExpr "y"]]
  /\ @emitBlock (reference.externals 1) emptyScope Str
       [callOf "value" [NewStringExpr "x"]; callOf "value" [NewStringExpr "y"]]
       noopAliasCallback world0
     = (Panic (Explicit "unimplemented"), world0)
  /\ ~ (exists v w',
          @emitBlock (reference.externals 1) emptyScope Str
            [callOf "value" [NewStringExpr "x"]; callOf "value" [NewStringExpr "y"]]
            noopAliasCallback world0
          = (Ok v, w')).
Proof.
  split; [| split].
  - apply Exists_cons_hd. exists (theCall (callOf "value" [NewStringExpr "x"])).
    split; reflexivity.
  - reflexivity.
  - intros (v & w' & Hrun). vm_compute in Hrun. discriminate Hrun.
Qed.

(** ** What the alias callback is shown *)

Lemma addCaptured_nil (w : world) : addCaptured w [] = w.
Proof. destruct w. unfold addCaptured. cbn. rewrite app_nil_r. reflexivity. Qed.

Lemma addCaptured_app (w : world) (e1 e2 : list (CallStmt * value)) :
  addCaptured (addCaptured w e1) e2 = addCaptured w (e1 ++ e2).
Proof. unfold addCaptured. cbn. rewrite app_assoc. reflexivity. Qed.

Section AliasReports.

Context `{Externals}.
Variable scope : Scope.

Lemma debug_world (node : DebugNode) (v : value) (w w1 : world) (r : result error unit) :
  debug scope node v w = (r, w1) -> w1 = w.
Proof.
  unfold debug, callDebug, bind, fail, ret.
  destruct (Debug (info w) scope node v); intros Heq; injection Heq as _ <-; reflexivity.
Qed.

Lemma foldM_debug_world (v : value) (l : list CallStmt) (w w1 : world)
  (r : result error unit) :
  foldM (fun _ c => debug scope (Debug_CallStmt c) v) l tt w = (r, w1) -> w1 = w.
Proof.
  revert w. induction l as [| c l IH]; intros w Hrun.
  - unfold foldM, ret in Hrun. injection Hrun as _ <-. reflexivity.
  - cbn [foldM] in Hrun. unfold bind in Hrun.
    destruct (debug scope (Debug_CallStmt c) v w) as [[[] | e | p] w2] eqn:Hd;
      apply debug_world in Hd; subst w2.
    + apply IH, Hrun.
    + injection Hrun as _ <-. reflexivity.
    + injection Hrun as _ <-. reflexivity.
Qed.

Lemma reportAlias_record (c : CallStmt) (v : value) (w : world) :
  reportAlias recordAlias c v w = (Ok tt, addCaptured w (shownFor c v)).
Proof.
  unfold reportAlias, shownFor. destruct (CallStmt_Alias c); cbn [notNil].
  - reflexivity.
  - rewrite addCaptured_nil. reflexivity.
Qed.

(** In an [fs] block every chain function returns a state. *)
Lemma emitChainStmt_fs_state (c : CallStmt) (ac : aliasCallback) (f : value -> M value)
  (w w1 w2 w3 : world) (v v1 : value) :
  emitChainStmt scope Filesystem c ac w = (Ok f, w1) ->
  f v w2 = (Ok v1, w3) -> exists st, v1 = VState st.
Proof.
  unfold emitChainStmt. rewrite switch_hit. intros Hemit Hf.
  apply bind_Ok_inv in Hemit as (chain & w4 & _ & Hret).
  cbn in Hret. injection Hret as <- _.
  apply bind_Ok_inv in Hf as (st & w5 & _ & Hf).
  apply bind_Ok_inv in Hf as (st' & w6 & _ & Hf).
  cbn in Hf. injection Hf as <- _. exists st'. reflexivity.
Qed.

(** An [fs] source builtin returns a state. *)
Lemma emitSourceStmt_fs_state (c : CallStmt) (ac : aliasCallback) (w w1 : world) (v : value) :
  IsBuiltin Filesystem (Name (CallStmt_Func c)) = true ->
  emitSourceStmt scope Filesystem c ac w = (Ok v, w1) -> exists st, v = VState st.
Proof.
  intros Hb. unfold emitSourceStmt. rewrite Hb, switch_hit. intros Hrun.
  apply bind_Ok_inv in Hrun as (st & w2 & _ & Hret).
  cbn in Hret. injection Hret as <- _. exists st. reflexivity.
Qed.

Lemma debug_Ok_inv (node : DebugNode) (v : value) (w w1 : world) :
  debug scope node v w = (Ok tt, w1) -> Debug (info w) scope node v = None /\ w1 = w.
Proof.
  unfold debug, callDebug, bind, fail, ret.
  destruct (Debug (info w) scope node v); intros Heq; [discriminate Heq |].
  injection Heq as <-. split; reflexivity.
Qed.

Lemma debug_passes (node : DebugNode) (v : value) (w : world) :
  Debug (info w) scope node v = None -> debug scope node v w = (Ok tt, w).
Proof. intros Hd. unfold debug, callDebug, bind. rewrite Hd. reflexivity. Qed.

Lemma shownFor_reported (c : CallStmt) (V : value) :
  IsDebug (Name (CallStmt_Func c)) = false ->
  map fst (shownFor c V) = if reported c then [c] else [].
Proof.
  intros Hd. unfold shownFor, reported. rewrite Hd.
  destruct (CallStmt_Alias c); reflexivity.
Qed.

(** The statements after the source statement: a run of the second loop
    that returns is a run of the relation. *)
Lemma chain_shows (typ : ObjType) (remaining : list CallStmt) (V v : value) (w w' : world) :
  foldM (chainStep scope typ recordAlias) remaining V w = (Ok v, w') ->
  exists entries, chainShows scope typ remaining V w entries v w'.
Proof.
  revert V w. induction remaining as [| c rest IH]; intros V w Hrun.
  - cbn in Hrun. injection Hrun as <- <-. exists []. constructor.
  - cbn [foldM] in Hrun. apply bind_Ok_inv in Hrun as (V1 & w1 & Hstep & Hrest).
    unfold chainStep in Hstep.
    apply bind_Ok_inv in Hstep as ([] & w2 & Hd & Hstep).
    apply debug_Ok_inv in Hd as [Hd ->].
    destruct (IsDebug (Name (CallStmt_Func c))) eqn:Hdebug.
    + cbn in Hstep. injection Hstep as <- <-.
      destruct (IH _ _ Hrest) as [entries Hshows].
      exists entries. apply shows_debug; assumption.
    + apply bind_Ok_inv in Hstep as (f & w2 & Hemit & Hstep).
      apply bind_Ok_inv in Hstep as (V2 & w3 & Hf & Hstep).
      rewrite (bind_Ok _ _ _ _ _ (reportAlias_record c V2 w3)) in Hstep.
      cbn in Hstep. injection Hstep as <- <-.
      destruct (IH _ _ Hrest) as [entries Hshows].
      exists (shownFor c V2 ++ entries).
      exact (shows_call scope typ c rest V w f w2 V2 w3 entries v w'
               Hdebug Hd Hemit Hf Hshows).
Qed.

(** And a run of the relation is a run of the second loop. *)
Lemma shows_chain (typ : ObjType) (remaining : list CallStmt) (V v : value) (w w' : world)
  (entries : list (CallStmt * value)) :
  chainShows scope typ remaining V w entries v w' ->
  foldM (chainStep scope typ recordAlias) remaining V w = (Ok v, w').
Proof.
  induction 1 as [V w | c rest V w entries V' w' Hdebug Hd _ IH
                 | c rest V w f w1 V1 w2 entries V' w' Hdebug Hd Hemit Hf _ IH].
  - reflexivity.
  - cbn [foldM]. unfold chainStep at 1.
    rewrite bind_assoc, (bind_Ok _ _ _ _ _ (debug_passes _ _ _ Hd)), Hdebug, bind_ret.
    exact IH.
  - cbn [foldM]. unfold chainStep at 1.
    rewrite bind_assoc, (bind_Ok _ _ _ _ _ (debug_passes _ _ _ Hd)), Hdebug.
    mstep Hemit. mstep Hf. mstep (reportAlias_record c V1 w2). rewrite bind_ret.
    exact IH.
Qed.

(** What the block shows on the way: every aliased statement that is no
    debug call, once and in order; in an [fs] block, with a filesystem. *)
Lemma chainShows_entries (typ : ObjType) (remaining : list CallStmt) (V v : value)
  (w w' : world) (entries : list (CallStmt * value)) :
  chainShows scope typ remaining V w entries v w' ->
  map fst entries = List.filter reported remaining
  /\ (typ = Filesystem -> Forall (fun e => exists st, snd e = VState st) entries).
Proof.
  induction 1 as [V w | c rest V w entries V' w' Hdebug Hd _ [IHcalls IHtyp]
                 | c rest V w f w1 V1 w2 entries V' w' Hdebug Hd Hemit Hf _ [IHcalls IHtyp]].
  - split; [reflexivity | constructor].
  - split; [| exact IHtyp].
    cbn [List.filter]. unfold reported at 1. rewrite Hdebug. exact IHcalls.
  - split.
    + rewrite map_app, (shownFor_reported c V1 Hdebug), IHcalls. cbn [List.filter].
      destruct (reported c); reflexivity.
    + intros ->. apply Forall_app. split; [| apply IHtyp; reflexivity].
      unfold shownFor. destruct (CallStmt_Alias c); constructor; [| constructor].
      cbn [snd]. exact (emitChainStmt_fs_state _ _ _ _ _ _ _ _ _ Hemit Hf).
Qed.

Lemma mountTargets_length (call : CallStmt) (mounts : list CallStmt) (targets : list string)
  (w w1 : world) :
  mountTargets scope call mounts w = (Ok targets, w1) -> length targets = length mounts.
Proof.
  revert targets w w1. induction mounts as [| c rest IH]; intros targets w w1 Hrun.
  - cbn in Hrun. injection Hrun as <- _. reflexivity.
  - cbn [mountTargets] in Hrun.
    apply bind_Ok_inv in Hrun as (a1 & w2 & _ & Hrun).
    apply bind_Ok_inv in Hrun as (t & w3 & _ & Hrun).
    apply bind_Ok_inv in Hrun as (ts & w4 & Hrest & Hrun).
    cbn in Hrun. injection Hrun as <- _. cbn [length]. f_equal. exact (IH _ _ _ Hrest).
Qed.

(** The scan for aliased mounts evaluates the mount points of the
    aliased [mount] statements in order, and keeps for each mount point
    the last statement that has it. *)
Lemma mountAliases_targets (call : CallStmt) (stmts : list Stmt)
  (targets0 targets : list string) (calls0 calls : gmap string CallStmt) (w w1 : world) :
  mountAliases scope call stmts targets0 calls0 w = (Ok (targets, calls), w1) ->
  exists new,
    mountTargets scope call (aliasedMounts stmts) w = (Ok new, w1)
    /\ targets = targets0 ++ new
    /\ forall t, calls !! t = match lastAt (zip new (aliasedMounts stmts)) t with
                              | Some c => Some c
                              | None => calls0 !! t
                              end.
Proof.
  revert targets0 calls0 w. induction stmts as [| stmt rest IH]; intros targets0 calls0 w Hrun.
  - cbn in Hrun. injection Hrun as <- <- <-. exists []. rewrite app_nil_r.
    repeat split; reflexivity.
  - cbn [mountAliases] in Hrun. apply bind_Ok_inv in Hrun as (c & w2 & Hc & Hrun).
    destruct (Stmt_Call stmt) as [c' |] eqn:Hstmt; [| discriminate Hc].
    cbn in Hc. injection Hc as -> <-.
    cbn [aliasedMounts]. rewrite Hstmt.
    destruct (String.eqb (Name (CallStmt_Func c)) "mount") eqn:Hname;
      [destruct (notNil (CallStmt_Alias c)) eqn:Halias |]; cbn [negb orb andb] in *.
    + apply bind_Ok_inv in Hrun as (a1 & w3 & Ha1 & Hrun).
      apply bind_Ok_inv in Hrun as (t1 & w4 & Ht1 & Hrun).
      destruct (IH _ _ _ Hrun) as (new & Hnew & -> & Hcalls).
      exists (t1 :: new). split; [| split].
      * cbn [mountTargets]. mstep Ha1. mstep Ht1. mstep Hnew. reflexivity.
      * rewrite <- app_assoc. reflexivity.
      * intros t. rewrite Hcalls.
        change (zip (t1 :: new) (c :: aliasedMounts rest))
          with ((t1, c) :: zip new (aliasedMounts rest)).
        cbn [lastAt].
        destruct (lastAt (zip new (aliasedMounts rest)) t); [reflexivity |].
        destruct (String.eqb t1 t) eqn:Ht.
        -- apply String.eqb_eq in Ht as ->. apply lookup_insert_eq.
        -- apply String.eqb_neq in Ht. apply lookup_insert_ne. exact Ht.
    + exact (IH _ _ _ Hrun).
    + exact (IH _ _ _ Hrun).
Qed.

Lemma lastAt_Some (targets : list string) (mounts : list CallStmt) (t : string) :
  length targets = length mounts -> t ∈ targets -> is_Some (lastAt (zip targets mounts) t).
Proof.
  revert mounts. induction targets as [| t1 targets IH]; intros mounts Hlen Hin.
  - apply elem_of_nil in Hin. contradiction.
  - destruct mounts as [| c mounts]; [discriminate Hlen |].
    change (zip (t1 :: targets) (c :: mounts)) with ((t1, c) :: zip targets mounts).
    cbn [lastAt].
    destruct (lastAt (zip targets mounts) t) as [c' |] eqn:Hrest; [eexists; reflexivity |].
    apply elem_of_cons in Hin as [-> | Hin].
    + rewrite String.eqb_refl. eexists. reflexivity.
    + cbn [length] in Hlen. injection Hlen as Hlen.
      destruct (IH mounts Hlen Hin) as [c' Hc']. rewrite Hc' in Hrest. discriminate Hrest.
Qed.

(** The closure of [run] shows the callback the statement kept for each
    mount point, in the order of the mount points. *)
Lemma reportMounts_shown (st : llb.State) (opts : list llb.Opt)
  (calls : gmap string CallStmt) (pairs : list (string * CallStmt)) (targets : list string)
  (w : world) :
  (forall t, t ∈ targets -> calls !! t = lastAt pairs t /\ is_Some (lastAt pairs t)) ->
  reportMounts recordAlias st opts calls targets w
  = (Ok tt,
     addCaptured w
       (omap (fun t => option_map (fun c => (c, VState (llb.ExecMount st opts t)))
                                  (lastAt pairs t)) targets)).
Proof.
  revert w. induction targets as [| t targets IH]; intros w Hall.
  - cbn. rewrite addCaptured_nil. reflexivity.
  - destruct (Hall t) as [Hc [c Hsome]]; [left |].
    cbn [reportMounts omap list_omap]. rewrite Hc, Hsome. cbn [deref option_map].
    rewrite bind_ret.
    rewrite (bind_Ok (recordAlias c _) _ w
               (addCaptured w [(c, VState (llb.ExecMount st opts t))]) tt) by reflexivity.
    rewrite IH by (intros t' Ht'; apply Hall; right; exact Ht').
    rewrite addCaptured_app. reflexivity.
Qed.

(** With pairwise distinct mount points every aliased mount is kept for
    its own mount point. *)
Lemma mountsShown_distinct (mounts : list CallStmt) (targets : list string)
  (st : llb.State) (opts : list llb.Opt) :
  length targets = length mounts -> NoDup targets ->
  mountsShown mounts targets st opts
  = zip mounts (map (fun t => VState (llb.ExecMount st opts t)) targets).
Proof.
  unfold mountsShown. revert mounts.
  induction targets as [| t targets IH]; intros mounts Hlen Hnd.
  - destruct mounts; reflexivity.
  - destruct mounts as [| c mounts]; [discriminate Hlen |].
    cbn [length] in Hlen. injection Hlen as Hlen.
    apply NoDup_cons in Hnd as [Hnin Hnd].
    assert (Hnone : lastAt (zip targets mounts) t = None).
    { clear -Hnin. revert mounts. induction targets as [| t' targets IH]; intros mounts.
      - reflexivity.
      - destruct mounts as [| c' mounts]; [reflexivity |].
        apply not_elem_of_cons in Hnin as [Hne Hnin].
        change (zip (t' :: targets) (c' :: mounts)) with ((t', c') :: zip targets mounts).
        cbn [lastAt]. rewrite (IH Hnin).
        destruct (String.eqb t' t) eqn:Ht; [| reflexivity].
        apply String.eqb_eq in Ht. congruence. }
    change (zip (t :: targets) (c :: mounts)) with ((t, c) :: zip targets mounts).
    cbn [omap list_omap lastAt map]. rewrite Hnone.
    rewrite String.eqb_refl. cbn [option_map].
    change (zip (c :: mounts) (VState (llb.ExecMount st opts t)
                               :: map (fun t0 => VState (llb.ExecMount st opts t0)) targets))
      with ((c, VState (llb.ExecMount st opts t))
            :: zip mounts (map (fun t0 => VState (llb.ExecMount st opts t0)) targets)).
    f_equal.
    rewrite <- (IH mounts Hlen Hnd). clear IH.
    assert (Hext : forall l : list string,
               (forall t', t' ∈ l -> t' ∈ targets) ->
               omap (fun t0 => option_map (fun c0 => (c0, VState (llb.ExecMount st opts t0)))
                       match lastAt (zip targets mounts) t0 with
                       | Some c' => Some c'
                       | None => if String.eqb t t0 then Some c else None
                       end) l
               = omap (fun t0 => option_map
                                   (fun c0 => (c0, VState (llb.ExecMount st opts t0)))
                                   (lastAt (zip targets mounts) t0)) l).
    { induction l as [| t' l IHl]; intros Hsub; [reflexivity |].
      cbn [omap list_omap].
      destruct (lastAt_Some targets mounts t' Hlen) as [c' Hc'];
        [apply Hsub; left |].
      rewrite Hc'. cbn [option_map]. f_equal.
      apply IHl. intros t'' Ht''. apply Hsub. right. exact Ht''. }
    apply Hext. intros t' Ht'. exact Ht'.
Qed.

Lemma mountsShown_length (mounts : list CallStmt) (targets : list string)
  (st : llb.State) (opts : list llb.Opt) :
  length targets = length mounts ->
  length (mountsShown mounts targets st opts) = length mounts.
Proof.
  intros Hlen. unfold mountsShown. rewrite <- Hlen.
  assert (Hsub : forall l : list string, (forall t, t ∈ l -> t ∈ targets) ->
                           length (omap (fun t => option_map
                                                    (fun c => (c, VState (llb.ExecMount st opts t)))
                                                    (lastAt (zip targets mounts) t)) l)
                           = length l).
  { induction l as [| t l IH]; intros Hsub; [reflexivity |].
    cbn [omap list_omap].
    destruct (lastAt_Some targets mounts t Hlen) as [c Hc]; [apply Hsub; left |].
    rewrite Hc. cbn [option_map length]. f_equal.
    apply IH. intros t' Ht'. apply Hsub. right. exact Ht'. }
  apply Hsub. intros t Ht. exact Ht.
Qed.

(** The scan of [run], on the inline block of the call. *)
Lemma runMountAliases_targets (call : CallStmt) (targets : list string)
  (calls : gmap string CallStmt) (w w1 : world) :
  runMountAliases scope call w = (Ok (targets, calls), w1) ->
  mountTargets scope call (aliasedMounts (inlineStmts call)) w = (Ok targets, w1)
  /\ forall t, calls !! t = lastAt (zip targets (aliasedMounts (inlineStmts call))) t.
Proof.
  unfold runMountAliases, inlineStmts.
  destruct (CallStmt_WithOpt call) as [wo |].
  2: { intros Hrun. injection Hrun as <- <- <-. split; [reflexivity |].
       intros t. apply lookup_empty. }
  destruct (WithOpt_Ident wo) as [id |].
  { intros Hrun. injection Hrun as <- <- <-. split; [reflexivity |].
    intros t. apply lookup_empty. }
  destruct (WithOpt_FuncLit wo) as [lit |]; [| discriminate].
  intros Hrun. apply mountAliases_targets in Hrun as (new & Hnew & -> & Hcalls).
  cbn [app]. split; [exact Hnew |].
  intros t. rewrite Hcalls.
  destruct (lastAt (zip new (aliasedMounts (NonEmptyStmts (FuncLit_Body lit)))) t);
    [reflexivity | apply lookup_empty].
Qed.

Lemma assertOpts_Ok_inv (k : llb.OptionKind) (iopts opts : list llb.Opt) (w w1 : world) :
  assertOpts k iopts w = (Ok opts, w1) -> opts = iopts /\ w1 = w.
Proof.
  revert opts w1. induction iopts as [| o iopts IH]; intros opts w1 Hrun.
  - cbn in Hrun. injection Hrun as <- <-. split; reflexivity.
  - cbn [assertOpts] in Hrun. destruct (llb.implements o k); [| discriminate Hrun].
    apply bind_Ok_inv in Hrun as (opts' & w2 & Hrest & Hret).
    destruct (IH _ _ Hrest) as [-> ->]. cbn in Hret. injection Hret as <- <-.
    split; reflexivity.
Qed.

(** C4, amended. With the recording callback: a block that returns has
    evaluated its source statement and then, one after the other, the
    statements after it, and the block itself has shown the callback
    every aliased statement that is no debug call once, each right after
    the statement and with the accumulator the statement has left, the
    value current at that statement; in an [fs] block these values are
    filesystems. Conversely every such run is a run of the block. The
    state option of a [run] evaluates the mount points of the aliased
    [mount] statements of its inline [with] block in their order and,
    when it is applied, shows the callback one entry per aliased mount:
    for each mount point, in order, the last statement with that mount
    point and the filesystem of the mount after the exec; with pairwise
    distinct mount points these are the aliased mounts themselves, each
    once and in order. *)
Theorem alias_callback_reports :
  (forall (bt : blockType) (stmts : list Stmt) (leading : list CallStmt)
          (source : CallStmt) (remaining : list CallStmt) (v : value) (w w' : world),
      map Stmt_Call stmts = map Some (leading ++ source :: remaining) ->
      Forall (fun c => IsDebug (Name (CallStmt_Func c)) = true) leading ->
      IsDebug (Name (CallStmt_Func source)) = false ->
      emitBlock scope (objTypeOf bt) stmts recordAlias w = (Ok v, w') ->
      exists V0 w0 entries,
        emitSourceStmt scope (objTypeOf bt) source recordAlias w = (Ok V0, w0)
        /\ chainShows scope (objTypeOf bt) remaining V0 (addCaptured w0 (shownFor source V0))
             entries v w'
        /\ map fst (shownFor source V0 ++ entries)
           = List.filter reported (source :: remaining)
        /\ (bt = FsBlock -> IsBuiltin Filesystem (Name (CallStmt_Func source)) = true ->
            Forall (fun e => exists st, snd e = VState st) (shownFor source V0 ++ entries)))
  /\ (forall (bt : blockType) (stmts : list Stmt) (leading : list CallStmt)
             (source : CallStmt) (remaining : list CallStmt) (V0 v : value)
             (entries : list (CallStmt * value)) (w w0 w' : world),
        map Stmt_Call stmts = map Some (leading ++ source :: remaining) ->
        Forall (fun c => IsDebug (Name (CallStmt_Func c)) = true) leading ->
        IsDebug (Name (CallStmt_Func source)) = false ->
        Forall (fun c => Debug (info w) scope (Debug_CallStmt c) (identityOf bt) = None)
               (leading ++ [source]) ->
        emitSourceStmt scope (objTypeOf bt) source recordAlias w = (Ok V0, w0) ->
        chainShows scope (objTypeOf bt) remaining V0 (addCaptured w0 (shownFor source V0))
          entries v w' ->
        emitBlock scope (objTypeOf bt) stmts recordAlias w = (Ok v, w'))
  /\ (forall (typ : ObjType) (call : CallStmt) (so : llb.State -> M llb.State)
             (w w1 : world),
        Name (CallStmt_Func call) = "run" ->
        emitFilesystemChainStmt scope typ call recordAlias w = (Ok (Some so), w1) ->
        exists iopts shlex targets w0 wa,
          emitWithOption scope call (CallStmt_WithOpt call) recordAlias w = (Ok iopts, w0)
          /\ runShlex scope call (CallStmt_Args call) w0 = (Ok shlex, wa)
          /\ mountTargets scope call (aliasedMounts (inlineStmts call)) wa = (Ok targets, w1)
          /\ forall st,
               let opts := iopts ++ [llb.Shlex shlex] in
               let mounts := aliasedMounts (inlineStmts call) in
               (forall w2, so st w2
                           = (Ok (llb.ExecRoot st opts),
                              addCaptured w2 (mountsShown mounts targets st opts)))
               /\ length (mountsShown mounts targets st opts) = length mounts
               /\ (NoDup targets ->
                   mountsShown mounts targets st opts
                   = zip mounts (map (fun t => VState (llb.ExecMount st opts t)) targets))).
Proof.
  split; [| split].
  - intros bt stmts leading source remaining v w w' Hmap Hleading Hsource Hrun.
    rewrite (emitBlock_unfold scope bt stmts leading source remaining recordAlias w
               Hmap Hleading Hsource) in Hrun.
    unfold blockProtocol in Hrun.
    apply bind_Ok_inv in Hrun as ([] & w1 & Hd1 & Hrun).
    apply foldM_debug_world in Hd1. subst w1.
    apply bind_Ok_inv in Hrun as ([] & w1 & Hd2 & Hrun).
    apply debug_world in Hd2. subst w1.
    apply bind_Ok_inv in Hrun as (V0 & w0 & Hsrc & Hrun).
    rewrite (bind_Ok _ _ _ _ _ (reportAlias_record source V0 w0)) in Hrun.
    destruct (chain_shows _ _ _ _ _ _ Hrun) as [entries Hshows].
    destruct (chainShows_entries _ _ _ _ _ _ _ Hshows) as [Hcalls Htyp].
    exists V0, w0, entries. split; [exact Hsrc |]. split; [exact Hshows |]. split.
    + rewrite map_app, (shownFor_reported source V0 Hsource), Hcalls. cbn [List.filter].
      destruct (reported source); reflexivity.
    + intros -> Hb. apply Forall_app. split; [| apply Htyp; reflexivity].
      unfold shownFor. destruct (CallStmt_Alias source); constructor; [| constructor].
      cbn [snd]. exact (emitSourceStmt_fs_state _ _ _ _ _ Hb Hsrc).
  - intros bt stmts leading source remaining V0 v entries w w0 w' Hmap Hleading Hsource
           Hpass Hsrc Hshows.
    rewrite (emitBlock_unfold scope bt stmts leading source remaining recordAlias w
               Hmap Hleading Hsource).
    unfold blockProtocol. apply Forall_app in Hpass as [Hpl Hps].
    assert (Hhooks : foldM (fun _ c => debug scope (Debug_CallStmt c) (identityOf bt))
                       leading tt w = (Ok tt, w)).
    { clear -Hpl. induction Hpl as [| c l Hc _ IH]; [reflexivity |].
      cbn [foldM]. rewrite (bind_Ok _ _ _ _ _ (debug_passes _ _ _ Hc)). exact IH. }
    mstep Hhooks. inversion Hps as [| ? ? Hs _]; subst.
    mstep (debug_passes _ _ _ Hs). mstep Hsrc.
    mstep (reportAlias_record source V0 w0).
    exact (shows_chain _ _ _ _ _ _ _ Hshows).
  - intros typ call so w w1 Hname. unfold emitFilesystemChainStmt. rewrite Hname.
    intros Hrun.
    apply bind_Ok_inv in Hrun as (iopts & w0 & Hwith & Hrun).
    rewrite switch_hit in Hrun.
    apply bind_Ok_inv in Hrun as (shlex & wa & Hshlex & Hrun).
    apply bind_Ok_inv in Hrun as (opts & wb & Hopts & Hrun).
    apply assertOpts_Ok_inv in Hopts as [-> ->].
    apply bind_Ok_inv in Hrun as ([targets calls] & wc & Hscan & Hrun).
    cbn in Hrun. injection Hrun as <- <-.
    apply runMountAliases_targets in Hscan as [Htargets Hcalls].
    pose proof (mountTargets_length _ _ _ _ _ Htargets) as Hlen.
    exists iopts, shlex, targets, w0, wa.
    split; [exact Hwith |]. split; [exact Hshlex |]. split; [exact Htargets |].
    intros st. cbv zeta.
    set (opts := iopts ++ [llb.Shlex shlex]).
    set (mounts := aliasedMounts (inlineStmts call)) in *.
    split; [| split].
    + intros w2. unfold runStateOption.
      rewrite (bind_Ok _ _ _ _ _
                 (reportMounts_shown st opts calls (zip targets mounts) targets w2
                    (fun t Ht => conj (Hcalls t) (lastAt_Some targets mounts t Hlen Ht)))).
      reflexivity.
    + apply mountsShown_length, Hlen.
    + intros Hnd. apply mountsShown_distinct; assumption.
Qed.

End AliasReports.

(** [image "alpine" as base; run "true" with option { mount scratch "/a" as a; mount scratch "/b" as b; } as built] *)
Lemma alias_callback_reports_witness :
  let image := NewCallStmt "image" [NewStringExpr "alpine"] None (Some (aliasOf "base")) in
  let run :=
    NewCallStmt "run" [NewStringExpr "true"]
      (Some (NewWithFuncLit [mountOf "/a" "a"; mountOf "/b" "b"])) (Some (aliasOf "built")) in
  let opts := [llb.AddMount "/a" llb.Scratch []; llb.AddMount "/b" llb.Scratch [];
               llb.Shlex "true"] in
  let st := llb.Image "alpine" [] in
  captured (snd (@emitBlock (reference.externals 3) emptyScope Filesystem [image; run]
                   recordAlias world0))
  = [(theCall image, VState st);
     (theCall (mountOf "/a" "a"), VState (llb.ExecMount st opts "/a"));
     (theCall (mountOf "/b" "b"), VState (llb.ExecMount st opts "/b"));
     (theCall run, VState (llb.ExecRoot st opts))]
  /\ (exists V0 w0 entries,
        @emitSourceStmt (reference.externals 3) emptyScope Filesystem (theCall image)
          recordAlias world0 = (Ok V0, w0)
        /\ map fst (shownFor (theCall image) V0 ++ entries) = [theCall image; theCall run]
        /\ Forall (fun e => exists st', snd e = VState st') (shownFor (theCall image) V0 ++ entries))
  /\ (exists so w1,
        @emitFilesystemChainStmt (reference.externals 3) emptyScope Filesystem (theCall run)
          recordAlias world0 = (Ok (Some so), w1)
        /\ forall st' w2,
             so st' w2
             = (Ok (llb.ExecRoot st' opts),
                addCaptured w2
                  [(theCall (mountOf "/a" "a"), VState (llb.ExecMount st' opts "/a"));
                   (theCall (mountOf "/b" "b"), VState (llb.ExecMount st' opts "/b"))])).
Proof.
  intros image run opts st. split; [reflexivity |]. split.
  - destruct (proj1 (@alias_callback_reports (reference.externals 3) emptyScope)
                FsBlock [image; run] [] (theCall image) [theCall run]
                (VState (llb.ExecRoot st opts))
                world0
                (snd (@emitBlock (reference.externals 3) emptyScope Filesystem [image; run]
                        recordAlias world0)))
      as (V0 & w0 & entries & Hsrc & _ & Hcalls & Htyp).
    + reflexivity.
    + constructor.
    + reflexivity.
    + reflexivity.
    + exists V0, w0, entries. split; [exact Hsrc |]. split; [exact Hcalls |].
      apply Htyp; reflexivity.
  - eexists _, _. split; [reflexivity |].
    destruct (proj2 (proj2 (@alias_callback_reports (reference.externals 3) emptyScope))
                Filesystem (theCall run) _ world0 _ eq_refl eq_refl)
      as (iopts & shlex & targets & w0 & wa & Hwith & Hshlex & Htargets & Hso).
    injection Hwith as <- <-. injection Hshlex as <- <-. injection Htargets as <-.
    intros st' w2. exact (proj1 (Hso st') w2).
Defined.

(** C4 as stated fails on
    [image "alpine"; run "true" with option { mount scratch "/m" as a; mount scratch "/m" as b; }]:
    the two aliased mounts share their target, [calls] keeps the second
    statement for it, and the callback is shown the statement aliased
    [b] twice and the one aliased [a] never. *)
Lemma alias_shared_target_counterexample :
  let shown :=
    captured (snd (@emitFilesystemBlock (reference.externals 1) emptyScope
                     [callOf "image" [NewStringExpr "alpine"]; runWithMounts "/m" "/m"]
                     recordAlias world0)) in
  timesShown "a" shown <> 1%nat
  /\ timesShown "a" shown = 0%nat
  /\ timesShown "b" shown = 2%nat.
Proof.
  vm_compute. repeat split. discriminate.
Qed.

(** ** The enumerated option arguments *)

Section Enums.

Context `{Externals}.
Variable scope : Scope.

Lemma netMode_table (mode : string) (w : world) :
  netMode mode w
  = (match modeOf networkModes mode with
     | Some m => Ok m
     | None => Panic (Explicit "unknown network mode")
     end, w).
Proof.
  unfold netMode. cbn [switch modeOf networkModes].
  repeat (destruct (String.eqb mode _); [reflexivity |]). reflexivity.
Qed.

Lemma securityMode_table (mode : string) (w : world) :
  securityMode mode w
  = (match modeOf securityModes mode with
     | Some m => Ok m
     | None => Panic (Explicit "unknown network mode")
     end, w).
Proof.
  unfold securityMode. cbn [switch modeOf securityModes].
  repeat (destruct (String.eqb mode _); [reflexivity |]). reflexivity.
Qed.

Lemma sharingMode_table (mode : string) (w : world) :
  sharingMode mode w
  = (match modeOf sharingModes mode with
     | Some m => Ok m
     | None => Panic (Explicit "unknown sharing mode")
     end, w).
Proof.
  unfold sharingMode. cbn [switch modeOf sharingModes].
  repeat (destruct (String.eqb mode _); [reflexivity |]). reflexivity.
Qed.

Lemma withOptionOf_none (ac : aliasCallback) (call : CallStmt) (w : world) :
  CallStmt_WithOpt call = None -> withOptionOf scope ac call w = (Ok [], w).
Proof. intros Hwith. rewrite withOptionOf_eq, Hwith. reflexivity. Qed.

(** What [time.Parse] reads is a date and a time of day. *)
Lemma Parse_inRange (value : string) (t : time.Time) :
  time.Parse value = Some t -> inRange t.
Proof.
  unfold time.Parse. intros Hparse.
  unfold mbind, option_bind in Hparse.
  repeat match type of Hparse with
         | match ?p with _ => _ end = Some _ => destruct p eqn:?; try discriminate Hparse
         | (if ?b then _ else _) = Some _ => destruct b eqn:?; try discriminate Hparse
         end.
  injection Hparse as <-. unfold inRange.
  cbn [time.month time.day time.year time.hour time.minute time.second].
  repeat match goal with
         | H : (_ || _) = false |- _ => apply orb_false_iff in H as [? ?]
         end.
  lia.
Qed.

(** C5, amended. In an option block of one statement without a [with]
    clause of its own, whose arguments evaluate to the strings named:
    [network] in a [run] block, [security] in a [run] block and [cache]
    in a [mount] block yield the mode the table gives for the string,
    and for a string outside the table the evaluation panics, it does
    not return an error (the panic of [security] carries the message of
    [network], as the source has it). [createdTime] in a [mkdir],
    [mkfile] or [copy] block returns an error exactly on the strings
    that [time.Parse] does not read with the layout of RFC 3339, and
    yields the time read on the others, a date and a time of day in
    range; these are not the strings that are no valid RFC 3339
    timestamp: an hour of one digit is read. *)
Theorem option_enumerations (stmt : Stmt) (call : CallStmt) (ac : aliasCallback)
  (a0 : Expr) (s0 : string) (w w1 : world) :
  Stmt_Call stmt = Some call ->
  CallStmt_WithOpt call = None ->
  CallStmt_Args call !! 0%nat = Some a0 ->
  emitStringExpr scope call a0 w = (Ok s0, w1) ->
  (Name (CallStmt_Func call) = "network" ->
   emitOptions scope "run" [stmt] ac w
   = (match modeOf networkModes s0 with
      | Some m => Ok [llb.Network m]
      | None => Panic (Explicit "unknown network mode")
      end, w1))
  /\ (Name (CallStmt_Func call) = "security" ->
      emitOptions scope "run" [stmt] ac w
      = (match modeOf securityModes s0 with
         | Some m => Ok [llb.Security m]
         | None => Panic (Explicit "unknown network mode")
         end, w1))
  /\ (Name (CallStmt_Func call) = "cache" ->
      forall a1 s1 w2,
        CallStmt_Args call !! 1%nat = Some a1 ->
        emitStringExpr scope call a1 w1 = (Ok s1, w2) ->
        emitOptions scope "mount" [stmt] ac w
        = (match modeOf sharingModes s1 with
           | Some m => Ok [llb.AsPersistentCacheDir s0 m]
           | None => Panic (Explicit "unknown sharing mode")
           end, w2))
  /\ (Name (CallStmt_Func call) = "createdTime" ->
      emitOptions scope "mkdir" [stmt] ac w
      = (match time.Parse s0 with
         | Some t => Ok [llb.WithCreatedTime t]
         | None => Err (ErrTimeParse s0)
         end, w1)
      /\ emitOptions scope "mkfile" [stmt] ac w
         = (match time.Parse s0 with
            | Some t => Ok [llb.WithCreatedTime t]
            | None => Err (ErrTimeParse s0)
            end, w1)
      /\ emitOptions scope "copy" [stmt] ac w
         = (match time.Parse s0 with
            | Some t => Ok [llb.CopyInfoOpt llb.emptyCopyInfo; llb.WithCreatedTime t]
            | None => Err (ErrTimeParse s0)
            end, w1)
      /\ (forall t, time.Parse s0 = Some t -> inRange t)).
Proof.
  intros Hstmt Hwith Ha0 Hs0.
  assert (Harg0 : forall w0, arg (CallStmt_Args call) 0 w0 = (Ok a0, w0)).
  { intros w0. unfold arg, index. rewrite Ha0. reflexivity. }
  split; [| split; [| split]].
  - intros Hname. unfold emitOptions. switch_case.
    unfold emitExecOptions. cbn [forStmts]. rewrite Hstmt.
    rewrite bind_assoc, (bind_Ok _ _ _ _ _ (withOptionOf_none ac call w Hwith)).
    unfold execOption. rewrite Hname. switch_case.
    rewrite bind_assoc, (bind_Ok _ _ _ _ _ (Harg0 w)).
    rewrite bind_assoc, (bind_Ok _ _ _ _ _ Hs0).
    unfold bind. rewrite netMode_table.
    destruct (modeOf networkModes s0); reflexivity.
  - intros Hname. unfold emitOptions. switch_case.
    unfold emitExecOptions. cbn [forStmts]. rewrite Hstmt.
    rewrite bind_assoc, (bind_Ok _ _ _ _ _ (withOptionOf_none ac call w Hwith)).
    unfold execOption. rewrite Hname. switch_case.
    rewrite bind_assoc, (bind_Ok _ _ _ _ _ (Harg0 w)).
    rewrite bind_assoc, (bind_Ok _ _ _ _ _ Hs0).
    unfold bind. rewrite securityMode_table.
    destruct (modeOf securityModes s0); reflexivity.
  - intros Hname a1 s1 w2 Ha1 Hs1. unfold emitOptions. switch_case.
    unfold emitMountOptions. cbn [forStmts]. rewrite Hstmt, Hname. switch_case.
    rewrite bind_assoc, (bind_Ok _ _ _ _ _ (Harg0 w)).
    rewrite bind_assoc, (bind_Ok _ _ _ _ _ Hs0).
    rewrite bind_assoc.
    rewrite (bind_Ok (arg (CallStmt_Args call) 1) _ w1 w1 a1)
      by (unfold arg, index; rewrite Ha1; reflexivity).
    rewrite bind_assoc, (bind_Ok _ _ _ _ _ Hs1).
    unfold bind. rewrite sharingMode_table.
    destruct (modeOf sharingModes s1); reflexivity.
  - intros Hname.
    assert (Htime : forall opts,
              createdTimeOption scope call opts w
              = (match time.Parse s0 with
                 | Some t => Ok (opts ++ [llb.WithCreatedTime t])
                 | None => Err (ErrTimeParse s0)
                 end, w1)).
    { intros opts. unfold createdTimeOption.
      rewrite (bind_Ok _ _ _ _ _ (Harg0 w)), (bind_Ok _ _ _ _ _ Hs0).
      destruct (time.Parse s0); reflexivity. }
    split; [| split; [| split]]; [| | | apply Parse_inRange].
    + unfold emitOptions. switch_case.
      unfold emitMkdirOptions. cbn [forStmts]. rewrite Hstmt, Hname. switch_case.
      unfold bind. rewrite Htime. destruct (time.Parse s0); reflexivity.
    + unfold emitOptions. switch_case.
      unfold emitMkfileOptions. cbn [forStmts]. rewrite Hstmt, Hname. switch_case.
      unfold bind. rewrite Htime. destruct (time.Parse s0); reflexivity.
    + unfold emitOptions. switch_case.
      unfold emitCopyOptions. cbn [forStmts]. rewrite Hstmt.
      cbn [fst snd]. rewrite Hname. switch_case.
      unfold bind. rewrite Htime. destruct (time.Parse s0); reflexivity.
Qed.

End Enums.

(** [network "host"] in the option block of a [run]. *)
Lemma option_enumerations_witness :
  @emitOptions (reference.externals 1) emptyScope "run"
    [callOf "network" [NewStringExpr "host"]] noopAliasCallback world0
  = (Ok [llb.Network llb.NetMode_HOST], world0).
Proof.
  exact (proj1 (@option_enumerations (reference.externals 1) emptyScope
                  (callOf "network" [NewStringExpr "host"])
                  (theCall (callOf "network" [NewStringExpr "host"]))
                  noopAliasCallback (NewStringExpr "host") "host" world0 world0
                  eq_refl eq_refl eq_refl eq_refl) eq_refl).
Defined.

(** C5 as stated fails on [network "bridge"]: the evaluation does not
    return an error, it panics. *)
Lemma network_unknown_counterexample :
  modeOf networkModes "bridge" = None
  /\ ~ (exists e w,
          @emitOptions (reference.externals 1) emptyScope "run"
            [callOf "network" [NewStringExpr "bridge"]] noopAliasCallback world0
          = (Err e, w)).
Proof.
  split; [reflexivity |].
  intros (e & w & Hrun). vm_compute in Hrun. discriminate Hrun.
Qed.

Example network_unknown_panics :
  @emitOptions (reference.externals 1) emptyScope "run"
    [callOf "network" [NewStringExpr "bridge"]] noopAliasCallback world0
  = (Panic (Explicit "unknown network mode"), world0).
Proof. reflexivity. Qed.

Example createdTime_unparsed :
  @emitOptions (reference.externals 1) emptyScope "mkdir"
    [callOf "createdTime" [NewStringExpr "yesterday"]] noopAliasCallback world0
  = (Err (ErrTimeParse "yesterday"), world0).
Proof. reflexivity. Qed.

(** C5 as stated fails on [createdTime] as well: an hour of one digit
    is no valid RFC 3339 timestamp, and the evaluation returns no error
    on it, it yields the time. *)
Lemma createdTime_lenient :
  reference.validRFC3339 "2020-01-01T1:02:03Z" = false
  /\ @emitOptions (reference.externals 1) emptyScope "mkdir"
       [callOf "createdTime" [NewStringExpr "2020-01-01T1:02:03Z"]] noopAliasCallback world0
     = (Ok [llb.WithCreatedTime (time.mkTime 2020 1 1 1 2 3 0 0)], world0).
Proof. split; reflexivity. Qed.

(** C5 as stated fails twice: [network "bridge"] has a string outside
    the table and does not return an error, it panics; and
    [createdTime "2020-01-01T1:02:03Z"] has a string that is no valid
    RFC 3339 timestamp and does not return an error, it yields the
    time. *)
Lemma option_arguments_counterexample :
  (modeOf networkModes "bridge" = None
   /\ ~ (exists e w,
           @emitOptions (reference.externals 1) emptyScope "run"
             [callOf "network" [NewStringExpr "bridge"]] noopAliasCallback world0
           = (Err e, w)))
  /\ (reference.validRFC3339 "2020-01-01T1:02:03Z" = false
      /\ ~ (exists e w,
              @emitOptions (reference.externals 1) emptyScope "mkdir"
                [callOf "createdTime" [NewStringExpr "2020-01-01T1:02:03Z"]]
                noopAliasCallback world0
              = (Err e, w))).
Proof.
  split; (split; [reflexivity |]); intros (e & w & Hrun); vm_compute in Hrun;
    discriminate Hrun.
Qed.

(** What [time.Parse] reads and what it does not, with the layout of
    RFC 3339. *)
Example Parse_offset :
  time.Parse "2020-02-29T12:30:00.5+01:00"
  = Some (time.mkTime 2020 2 29 12 30 0 500000000 3600).
Proof. reflexivity. Qed.

Example Parse_zone_unchecked :
  time.Parse "2020-01-01T00:00:00+99:99"
  = Some (time.mkTime 2020 1 1 0 0 0 0 ((99 * 60 + 99) * 60)).
Proof. reflexivity. Qed.

Example Parse_day_of_month : time.Parse "2021-02-29T12:30:00Z" = None.
Proof. reflexivity. Qed.

Example Parse_lower_case : time.Parse "2020-01-01t00:00:00z" = None.
Proof. reflexivity. Qed.

Example Parse_leap_second : time.Parse "2016-12-31T23:59:60Z" = None.
Proof. reflexivity. Qed.

Example Parse_extra_text : time.Parse "2020-01-01T00:00:00Z " = None.
Proof. reflexivity. Qed.

Example validRFC3339_lower_case : reference.validRFC3339 "2020-01-01t00:00:00z" = true.
Proof. reflexivity. Qed.

(** ** The source builtins: options and local identifiers *)

Section Sources.

Context `{Externals}.
Variable scope : Scope.

Lemma assertOpts_Ok (k : llb.OptionKind) (iopts : list llb.Opt) (w : world) :
  Forall (fun o => llb.implements o k = true) iopts ->
  assertOpts k iopts w = (Ok iopts, w).
Proof.
  induction 1 as [| o iopts Ho _ IH]; [reflexivity |].
  cbn [assertOpts]. rewrite Ho, (bind_Ok _ _ _ _ _ IH). reflexivity.
Qed.

(** [image] hands every item of its [with] clause to [llb.Image]. *)
Lemma image_passes_options (call : CallStmt) (ac : aliasCallback) (a0 : Expr)
  (iopts : list llb.Opt) (ref : string) (w w0 w1 : world) :
  Name (CallStmt_Func call) = "image" ->
  emitWithOption scope call (CallStmt_WithOpt call) ac w = (Ok iopts, w0) ->
  CallStmt_Args call !! 0%nat = Some a0 ->
  emitStringExpr scope call a0 w0 = (Ok ref, w1) ->
  Forall (fun o => llb.implements o llb.ImageOption = true) iopts ->
  emitFilesystemSourceStmt scope call ac w = (Ok (llb.Image ref iopts), w1).
Proof.
  intros Hname Hwith Ha0 Href Hopts. unfold emitFilesystemSourceStmt.
  rewrite (bind_Ok _ _ _ _ _ Hwith), Hname. switch_case.
  unfold arg, index. rewrite Ha0, bind_ret, (bind_Ok _ _ _ _ _ Href).
  rewrite (bind_Ok _ _ _ _ _ (assertOpts_Ok _ _ w1 Hopts)). reflexivity.
Qed.

(** [local] hands [llb.Local] the identifier alone, whatever its [with]
    clause evaluates to. *)
Lemma local_passes_no_options (call : CallStmt) (ac : aliasCallback) (st : llb.State)
  (w w1 : world) :
  Name (CallStmt_Func call) = "local" ->
  emitFilesystemSourceStmt scope call ac w = (Ok st, w1) ->
  exists id, st = llb.Local id [].
Proof.
  intros Hname. unfold emitFilesystemSourceStmt. rewrite Hname. intros Hrun.
  apply bind_Ok_inv in Hrun as (iopts & w2 & _ & Hrun).
  revert Hrun. switch_case. intros Hrun.
  apply bind_Ok_inv in Hrun as (a0 & w3 & _ & Hrun).
  apply bind_Ok_inv in Hrun as (path & w4 & _ & Hrun).
  apply bind_Ok_inv in Hrun as (id & w5 & _ & Hrun).
  apply bind_Ok_inv in Hrun as ([] & w6 & _ & Hrun).
  apply bind_Ok_inv in Hrun as (opts & w7 & _ & Hrun).
  cbn in Hrun. injection Hrun as <- _. exists id. reflexivity.
Qed.

End Sources.

(** ** The identifiers of [local]

    What an evaluation does to [Locals]: the rules of the monad first,
    then every function of [codegen.go] in the order of the file. *)

Section Rules.

Context `{Externals}.

Lemma keeps_same {A : Type} (m : M A) :
  (forall w r w', m w = (r, w') ->
     Locals (info w') = Locals (info w) /\ drawn w' = drawn w) ->
  keeps m.
Proof.
  intros Hsame base w r w' Hrun [Hbase Hkeys].
  destruct (Hsame w r w' Hrun) as [HL Hd].
  split; [| rewrite HL; reflexivity].
  split; [rewrite Hd; exact Hbase |].
  intros id. rewrite HL, Hd. apply Hkeys.
Qed.

Lemma keeps_ret {A : Type} (a : A) : keeps (ret a).
Proof. apply keeps_same. intros w r w' [= _ <-]. split; reflexivity. Qed.

Lemma keeps_fail {A : Type} (e : error) : keeps (@fail A e).
Proof. apply keeps_same. intros w r w' [= _ <-]. split; reflexivity. Qed.

Lemma keeps_crash {A : Type} (p : panic) : keeps (@crash A p).
Proof. apply keeps_same. intros w r w' [= _ <-]. split; reflexivity. Qed.

Lemma keeps_bind_Ok {A B : Type} (m : M A) (f : A -> M B) :
  keeps m -> (forall w a w', m w = (Ok a, w') -> keeps (f a)) -> keeps (bind m f).
Proof.
  intros Hm Hf base w r w' Hrun Hrec. unfold bind in Hrun.
  destruct (m w) as [[a | e | p] w1] eqn:Hmw.
  - destruct (Hm base w _ w1 Hmw Hrec) as [Hrec1 Hsub1].
    destruct (Hf w a w1 Hmw base w1 r w' Hrun Hrec1) as [Hrec2 Hsub2].
    split; [exact Hrec2 | etrans; eassumption].
  - injection Hrun as <- <-. exact (Hm base w _ w1 Hmw Hrec).
  - injection Hrun as <- <-. exact (Hm base w _ w1 Hmw Hrec).
Qed.

Lemma keeps_bind {A B : Type} (m : M A) (f : A -> M B) :
  keeps m -> (forall a, keeps (f a)) -> keeps (bind m f).
Proof. intros Hm Hf. apply keeps_bind_Ok; [exact Hm | intros _ a _ _; apply Hf]. Qed.

Lemma keeps_deref {A : Type} (p : option A) : keeps (deref p).
Proof. destruct p; [apply keeps_ret | apply keeps_crash]. Qed.

Lemma keeps_index {A : Type} (s : list A) (i : nat) : keeps (index s i).
Proof. unfold index. destruct (s !! i); [apply keeps_ret | apply keeps_crash]. Qed.

Lemma keeps_callDebug (scope : Scope) (node : DebugNode) (v : value) :
  keeps (callDebug scope node v).
Proof. apply keeps_same. intros w r w' [= _ <-]. split; reflexivity. Qed.

Lemma keeps_debug (scope : Scope) (node : DebugNode) (v : value) :
  keeps (debug scope node v).
Proof.
  unfold debug. apply keeps_bind; [apply keeps_callDebug |].
  intros [e |]; [apply keeps_fail | apply keeps_ret].
Qed.

Lemma keeps_assertState (v : value) : keeps (assertState v).
Proof. destruct v; first [apply keeps_ret | apply keeps_crash]. Qed.

Lemma keeps_assertString (v : value) : keeps (assertString v).
Proof. destruct v; first [apply keeps_ret | apply keeps_crash]. Qed.

Lemma keeps_assertOptions (v : value) : keeps (assertOptions v).
Proof. destruct v; first [apply keeps_ret | apply keeps_crash]. Qed.

Lemma keeps_switch {A : Type} (x : string) (cases : list (string * M A)) (default : M A) :
  Forall (fun c => keeps (snd c)) cases -> keeps default -> keeps (switch x cases default).
Proof.
  intros Hcases Hdefault. induction Hcases as [| [k m] cases Hm _ IH]; [exact Hdefault |].
  cbn [switch]. destruct (String.eqb x k); [exact Hm | exact IH].
Qed.

Lemma keeps_noop : keepsCallback noopAliasCallback.
Proof. intros c v. apply keeps_ret. Qed.

Lemma keeps_recordAlias : keepsCallback recordAlias.
Proof.
  intros c v. apply keeps_same. intros w r w' [= _ <-]. split; reflexivity.
Qed.


End Rules.

(** One step of a proof that an evaluation keeps the records: the rule
    of the head of the term. *)
Create HintDb keeps.

Ltac keeps_step :=
  first
    [ apply keeps_ret | apply keeps_fail | apply keeps_crash
    | apply keeps_deref | apply keeps_index | apply keeps_debug | apply keeps_callDebug
    | apply keeps_assertState | apply keeps_assertString | apply keeps_assertOptions
    | match goal with
      | Hext : evaluatorsKeep |- _ =>
          first
            [ apply (keep_emitStringExpr Hext) | apply (keep_emitIntExpr Hext)
            | apply (keep_maybeEmitBoolExpr Hext) | apply (keep_emitOptionExpr Hext)
            | apply (keep_emitAliasDecl Hext) | apply (keep_emitFilesystemAliasDecl Hext)
            | apply (keep_emitFilesystemExpr Hext); assumption
            | apply (keep_emitFuncDecl Hext); first [assumption | apply keeps_noop]
            | apply (keep_emitFilesystemFuncDecl Hext); first [assumption | apply keeps_noop] ]
      end
    | solve [auto with keeps]
    | apply keeps_bind; [| intros ?]
    | progress cbn [switch]
    | progress cbv zeta
    | match goal with
      | |- keeps (match ?x with _ => _ end) => destruct x
      | |- keeps (if ?b then _ else _) => destruct b
      end ].

Ltac keeps_tac := repeat keeps_step.

(** The functions of [codegen.go] keep the records when the functions
    of the other files do and no identifier is drawn twice. *)

Section Records.

Context `{Externals}.
Hypothesis NewID_inj : forall m n, identity_NewID m = identity_NewID n -> m = n.
Hypothesis Hext : evaluatorsKeep.

Lemma recorded_afterLocal (base : nat) (w : world) (path : string) :
  recorded base w ->
  Locals (info w) !! identity_NewID (drawn w) = None
  /\ recorded base (afterLocal w path)
  /\ Locals (info w) ⊆ Locals (info (afterLocal w path)).
Proof.
  intros [Hbase Hkeys].
  assert (Hfresh : Locals (info w) !! identity_NewID (drawn w) = None).
  { apply eq_None_not_Some. intros Hsome.
    apply Hkeys in Hsome as (n & Hn & Heq). apply NewID_inj in Heq. lia. }
  split; [exact Hfresh |]. split.
  - split; [cbn [afterLocal drawn]; lia |].
    intros id. cbn [afterLocal info Locals drawn].
    destruct (decide (id = identity_NewID (drawn w))) as [-> | Hne].
    + rewrite lookup_insert_eq. split; [| intros _; eexists; reflexivity].
      intros _. exists (drawn w). split; [lia | reflexivity].
    + rewrite lookup_insert_ne by congruence. rewrite Hkeys. split.
      * intros (n & Hn & ->). exists n. split; [lia | reflexivity].
      * intros (n & Hn & ->). exists n. split; [| reflexivity].
        destruct (decide (n = drawn w)) as [-> | Hn']; [contradiction | lia].
  - cbn [afterLocal info Locals]. apply insert_subseteq, Hfresh.
Qed.

(** One entry for every identifier drawn. *)
Lemma recorded_size (base : nat) (w : world) :
  recorded base w -> size (Locals (info w)) = (drawn w - base)%nat.
Proof.
  intros [Hbase Hkeys].
  set (l := identity_NewID <$> seq base (drawn w - base)).
  assert (Hnodup : NoDup l).
  { assert (Hi : Inj (=) (=) identity_NewID) by exact NewID_inj.
    apply (NoDup_fmap_2 identity_NewID), NoDup_seq. }
  assert (Hdom : dom (Locals (info w)) = list_to_set (C := gset string) l).
  { apply set_eq. intros id. rewrite elem_of_dom, Hkeys, elem_of_list_to_set.
    unfold l. rewrite list_elem_of_fmap. split.
    - intros (n & Hn & ->). exists n. split; [reflexivity |]. apply elem_of_seq. lia.
    - intros (n & -> & Hn). apply elem_of_seq in Hn. exists n. split; [lia | reflexivity]. }
  rewrite <- size_dom, Hdom, size_list_to_set by exact Hnodup.
  unfold l. rewrite length_fmap, length_seq. reflexivity.
Qed.

Lemma keeps_local {A : Type} (path : string) (k : string -> M A) :
  (forall id, keeps (k id)) -> keeps (id <- NewID ;; setLocal id path ;; k id).
Proof.
  intros Hk base w r w' Hrun Hrec.
  change ((id <- NewID ;; setLocal id path ;; k id) w)
    with (k (identity_NewID (drawn w)) (afterLocal w path)) in Hrun.
  destruct (recorded_afterLocal base w path Hrec) as (_ & Hrec1 & Hsub1).
  destruct (Hk _ base _ r w' Hrun Hrec1) as [Hrec2 Hsub2].
  split; [exact Hrec2 | etrans; eassumption].
Qed.



Variable scope : Scope.

Lemma keeps_arg (args : list Expr) (i : nat) : keeps (arg args i).
Proof. apply keeps_index. Qed.

Lemma keeps_assertOpts (k : llb.OptionKind) (iopts : list llb.Opt) : keeps (assertOpts k iopts).
Proof.
  induction iopts as [| o iopts IH]; cbn [assertOpts]; [apply keeps_ret |].
  destruct (llb.implements o k); [| apply keeps_crash].
  apply keeps_bind; [exact IH | intros ?; apply keeps_ret].
Qed.

Lemma keeps_emitStringExprs (call : CallStmt) (args : list Expr) :
  keeps (emitStringExprs scope call args).
Proof.
  induction args as [| a args IH]; cbn [emitStringExprs]; [apply keeps_ret |].
  apply keeps_bind; [apply (keep_emitStringExpr Hext) | intros s].
  apply keeps_bind; [exact IH | intros ?; apply keeps_ret].
Qed.

Lemma keeps_forStmts {S : Type} (body : CallStmt -> S -> M S) (stmts : list Stmt) (s : S) :
  (forall c s, keeps (body c s)) -> keeps (forStmts body stmts s).
Proof.
  intros Hbody. revert s. induction stmts as [| stmt stmts IH]; intros s; cbn [forStmts].
  - apply keeps_ret.
  - destruct (Stmt_Call stmt); [| apply IH].
    apply keeps_bind; [apply Hbody | intros ?; apply IH].
Qed.

#[local] Hint Resolve keeps_arg keeps_assertOpts keeps_emitStringExprs : keeps.

Lemma keeps_defaultOption op call opts : keeps (defaultOption scope op call opts).
Proof. unfold defaultOption. keeps_tac. Qed.

Lemma keeps_createdTimeOption call opts : keeps (createdTimeOption scope call opts).
Proof. unfold createdTimeOption. keeps_tac. Qed.

Lemma keeps_chownOption call opts : keeps (chownOption scope call opts).
Proof. unfold chownOption. keeps_tac. Qed.

#[local] Hint Resolve keeps_defaultOption keeps_createdTimeOption keeps_chownOption : keeps.

Lemma keeps_emitImageOptions op stmts : keeps (emitImageOptions scope op stmts).
Proof. unfold emitImageOptions. apply keeps_forStmts. intros c s. keeps_tac. Qed.

Lemma keeps_emitHTTPOptions op stmts : keeps (emitHTTPOptions scope op stmts).
Proof. unfold emitHTTPOptions. apply keeps_forStmts. intros c s. keeps_tac. Qed.

Lemma keeps_emitGitOptions op stmts : keeps (emitGitOptions scope op stmts).
Proof. unfold emitGitOptions. apply keeps_forStmts. intros c s. keeps_tac. Qed.

Lemma keeps_emitLocalOptions op stmts : keeps (emitLocalOptions scope op stmts).
Proof. unfold emitLocalOptions. apply keeps_forStmts. intros c s. keeps_tac. Qed.

Lemma keeps_emitGenerateOptions op stmts ac :
  keepsCallback ac -> keeps (emitGenerateOptions scope op stmts ac).
Proof. intros Hac. unfold emitGenerateOptions. apply keeps_forStmts. intros c s. keeps_tac. Qed.

Lemma keeps_emitMkdirOptions op stmts : keeps (emitMkdirOptions scope op stmts).
Proof. unfold emitMkdirOptions. apply keeps_forStmts. intros c s. keeps_tac. Qed.

Lemma keeps_emitMkfileOptions op stmts : keeps (emitMkfileOptions scope op stmts).
Proof. unfold emitMkfileOptions. apply keeps_forStmts. intros c s. keeps_tac. Qed.

Lemma keeps_emitRmOptions op stmts : keeps (emitRmOptions scope op stmts).
Proof. unfold emitRmOptions. apply keeps_forStmts. intros c s. keeps_tac. Qed.

Lemma keeps_emitCopyOptions op stmts : keeps (emitCopyOptions scope op stmts).
Proof.
  unfold emitCopyOptions. apply keeps_bind; [| intros ?; apply keeps_ret].
  apply keeps_forStmts. intros c s. keeps_tac.
Qed.

#[local] Hint Resolve keeps_emitImageOptions keeps_emitHTTPOptions keeps_emitGitOptions
  keeps_emitLocalOptions keeps_emitGenerateOptions keeps_emitMkdirOptions
  keeps_emitMkfileOptions keeps_emitRmOptions keeps_emitCopyOptions : keeps.

Lemma keeps_emitSSHOptions op stmts : keeps (emitSSHOptions scope op stmts).
Proof.
  unfold emitSSHOptions. apply keeps_bind; [| intros ?; keeps_tac].
  apply keeps_forStmts. intros c s. keeps_tac.
Qed.

Lemma keeps_emitSecretOptions op stmts : keeps (emitSecretOptions scope op stmts).
Proof.
  unfold emitSecretOptions. apply keeps_bind; [| intros ?; keeps_tac].
  apply keeps_forStmts. intros c s. keeps_tac.
Qed.

Lemma keeps_sharingMode mode : keeps (sharingMode mode).
Proof. unfold sharingMode. keeps_tac. Qed.

Lemma keeps_netMode mode : keeps (netMode mode).
Proof. unfold netMode. keeps_tac. Qed.

Lemma keeps_securityMode mode : keeps (securityMode mode).
Proof. unfold securityMode. keeps_tac. Qed.

#[local] Hint Resolve keeps_emitSSHOptions keeps_emitSecretOptions keeps_sharingMode
  keeps_netMode keeps_securityMode : keeps.

Lemma keeps_emitMountOptions op stmts : keeps (emitMountOptions scope op stmts).
Proof. unfold emitMountOptions. apply keeps_forStmts. intros c s. keeps_tac. Qed.

#[local] Hint Resolve keeps_emitMountOptions : keeps.

Lemma keeps_emitOptionsOther op stmts ac :
  keepsCallback ac -> keeps (emitOptionsOther scope op stmts ac).
Proof. intros Hac. unfold emitOptionsOther. keeps_tac. Qed.

Lemma keeps_execOption op ac call iopts opts :
  keepsCallback ac -> keeps (execOption scope op ac call iopts opts).
Proof. intros Hac. unfold execOption. keeps_tac. Qed.

Lemma keeps_withIdent id : keeps (withIdent scope id).
Proof. unfold withIdent. keeps_tac. Qed.

#[local] Hint Resolve keeps_emitOptionsOther keeps_execOption keeps_withIdent : keeps.

Lemma keeps_withOptionOf ac :
  keepsCallback ac -> forall parent, keeps (withOptionOf scope ac parent).
Proof.
  intros Hac. fix IH 1.
  intros [pos doc func args [[wpos wth [id |] [[lpos ltyp body] |]] |] alias se];
    cbn [withOptionOf]; try solve [keeps_tac].
  destruct (String.eqb (Name func) "run"); [| keeps_tac].
  destruct body as [[bpos ob stmts cb] |]; [| keeps_tac].
  generalize (@nil llb.Opt). revert stmts. fix IHs 1.
  intros [| [spos c nl sdoc] rest] opts; [keeps_tac |].
  destruct (notNil nl || notNil sdoc); [apply IHs |].
  destruct c as [call |]; [| apply IHs].
  apply keeps_bind; [| intros ?; apply IHs].
  apply keeps_bind; [apply IH | intros ?; keeps_tac].
Qed.

#[local] Hint Resolve keeps_withOptionOf keeps_noop : keeps.

Lemma keeps_emitExecOptions op stmts ac :
  keepsCallback ac -> keeps (emitExecOptions scope op stmts ac).
Proof.
  intros Hac. unfold emitExecOptions. apply keeps_forStmts. intros c s. keeps_tac.
Qed.

#[local] Hint Resolve keeps_emitExecOptions : keeps.

Lemma keeps_emitOptions op stmts ac :
  keepsCallback ac -> keeps (emitOptions scope op stmts ac).
Proof. intros Hac. unfold emitOptions. keeps_tac. Qed.

#[local] Hint Resolve keeps_emitOptions : keeps.

Lemma keeps_emitWithOption parent with_ ac :
  keepsCallback ac -> keeps (emitWithOption scope parent with_ ac).
Proof. intros Hac. unfold emitWithOption. keeps_tac. Qed.

#[local] Hint Resolve keeps_emitWithOption : keeps.

Lemma keeps_emitFilesystemSourceStmt call ac :
  keepsCallback ac -> keeps (emitFilesystemSourceStmt scope call ac).
Proof.
  intros Hac. unfold emitFilesystemSourceStmt.
  apply keeps_bind; [auto with keeps | intros iopts]. cbv zeta.
  apply keeps_switch; [| keeps_tac].
  repeat (apply Forall_cons_2; [cbn [snd] |]); try apply Forall_nil_2; try solve [keeps_tac].
  apply keeps_bind; [keeps_tac | intros a0].
  apply keeps_bind; [keeps_tac | intros path].
  apply keeps_local. intros id. keeps_tac.
Qed.

Lemma keeps_emitStringSourceStmt call ac : keeps (emitStringSourceStmt scope call ac).
Proof. unfold emitStringSourceStmt. keeps_tac. Qed.

#[local] Hint Resolve keeps_emitFilesystemSourceStmt keeps_emitStringSourceStmt : keeps.

Lemma keeps_emitSourceStmt typ call ac :
  keepsCallback ac -> keeps (emitSourceStmt scope typ call ac).
Proof. intros Hac. unfold emitSourceStmt. keeps_tac. Qed.

Lemma keeps_runShlex call args : keeps (runShlex scope call args).
Proof. unfold runShlex. keeps_tac. Qed.

Lemma keeps_mountAliases call stmts targets calls :
  keeps (mountAliases scope call stmts targets calls).
Proof.
  revert targets calls. induction stmts as [| stmt stmts IH]; intros targets calls;
    cbn [mountAliases]; [apply keeps_ret |].
  apply keeps_bind; [apply keeps_deref | intros c].
  destruct (_ || _); [apply IH |]. keeps_tac.
Qed.

#[local] Hint Resolve keeps_emitSourceStmt keeps_runShlex keeps_mountAliases : keeps.

Lemma keeps_runMountAliases call : keeps (runMountAliases scope call).
Proof. unfold runMountAliases. keeps_tac. Qed.

Lemma keeps_reportMounts ac st opts calls targets :
  keepsCallback ac -> keeps (reportMounts ac st opts calls targets).
Proof.
  intros Hac. induction targets as [| target targets IH]; cbn [reportMounts];
    [apply keeps_ret |].
  apply keeps_bind; [apply keeps_deref | intros c].
  apply keeps_bind; [apply Hac | intros ?; exact IH].
Qed.

#[local] Hint Resolve keeps_runMountAliases keeps_reportMounts : keeps.

Lemma keeps_runStateOption ac opts targets calls st :
  keepsCallback ac -> keeps (runStateOption ac opts targets calls st).
Proof. intros Hac. unfold runStateOption. keeps_tac. Qed.

Lemma keeps_emitFilesystemChainStmt typ call ac :
  keepsCallback ac -> keeps (emitFilesystemChainStmt scope typ call ac).
Proof. intros Hac. unfold emitFilesystemChainStmt. keeps_tac. Qed.

(** The closure a chain statement returns keeps the records as well. *)
Lemma keepsOption_emitFilesystemChainStmt typ call ac so w w' :
  keepsCallback ac ->
  emitFilesystemChainStmt scope typ call ac w = (Ok so, w') -> keepsOption so.
Proof.
  intros Hac. unfold emitFilesystemChainStmt. cbv zeta. intros Hrun.
  apply bind_Ok_inv in Hrun as (iopts & w1 & _ & Hrun). cbn [switch] in Hrun.
  repeat match type of Hrun with
         | (if ?b then _ else _) _ = _ => destruct b
         end;
    repeat (apply bind_Ok_inv in Hrun as (? & ? & _ & Hrun));
    injection Hrun as <- _; try exact I; intros st;
    first [apply keeps_ret | apply keeps_runStateOption, Hac].
Qed.

#[local] Hint Resolve keeps_emitFilesystemChainStmt : keeps.

Lemma keeps_applyStateOption so st : keepsOption so -> keeps (applyStateOption so st).
Proof. destruct so as [f |]; [intros Hf; apply Hf | intros _; apply keeps_crash]. Qed.

Lemma keeps_emitChainStmt typ call ac :
  keepsCallback ac -> keeps (emitChainStmt scope typ call ac).
Proof. intros Hac. unfold emitChainStmt, emitStringChainStmt. keeps_tac. Qed.

Lemma keeps_chain typ call ac chain w w' :
  keepsCallback ac ->
  emitChainStmt scope typ call ac w = (Ok chain, w') -> forall v, keeps (chain v).
Proof.
  intros Hac. unfold emitChainStmt, emitStringChainStmt. cbn [switch]. intros Hrun.
  repeat match type of Hrun with
         | (if ?b then _ else _) _ = _ => destruct b
         end; try discriminate Hrun.
  apply bind_Ok_inv in Hrun as (so & w1 & Hso & Hrun). injection Hrun as <- _.
  intros v. apply keeps_bind; [apply keeps_assertState | intros st].
  apply keeps_bind; [| intros ?; apply keeps_ret].
  apply keeps_applyStateOption. exact (keepsOption_emitFilesystemChainStmt _ _ _ _ _ _ Hac Hso).
Qed.

Lemma keeps_skipDebugs v stmts i : keeps (skipDebugs scope v stmts i).
Proof.
  revert i. induction stmts as [| stmt stmts IH]; intros i; cbn [skipDebugs];
    [apply keeps_ret |].
  keeps_tac.
Qed.

Lemma keeps_reportAlias ac call v : keepsCallback ac -> keeps (reportAlias ac call v).
Proof. intros Hac. unfold reportAlias. destruct (notNil _); [apply Hac | apply keeps_ret]. Qed.

#[local] Hint Resolve keeps_emitChainStmt keeps_skipDebugs keeps_reportAlias : keeps.

Lemma keeps_chainStmts typ ac stmts v :
  keepsCallback ac -> keeps (chainStmts scope typ ac stmts v).
Proof.
  intros Hac. revert v. induction stmts as [| stmt stmts IH]; intros v; cbn [chainStmts];
    [apply keeps_ret |].
  apply keeps_bind; [apply keeps_deref | intros call].
  destruct (IsDebug _); [keeps_tac |].
  apply keeps_bind; [apply keeps_debug | intros _].
  apply keeps_bind_Ok; [auto with keeps |]. intros w chain w' Hchain.
  apply keeps_bind; [exact (keeps_chain _ _ _ _ _ _ Hac Hchain v) | intros v'].
  keeps_tac.
Qed.

#[local] Hint Resolve keeps_chainStmts : keeps.

Lemma keeps_emitBlock typ stmts ac :
  keepsCallback ac -> keeps (emitBlock scope typ stmts ac).
Proof. intros Hac. unfold emitBlock. keeps_tac. Qed.

#[local] Hint Resolve keeps_emitBlock : keeps.

Lemma keeps_emitFilesystemBlock stmts ac :
  keepsCallback ac -> keeps (emitFilesystemBlock scope stmts ac).
Proof. intros Hac. unfold emitFilesystemBlock. keeps_tac. Qed.

Lemma keeps_emitStringBlock stmts : keeps (emitStringBlock scope stmts).
Proof. unfold emitStringBlock. keeps_tac. Qed.

#[local] Hint Resolve keeps_emitFilesystemBlock keeps_emitStringBlock : keeps.

Lemma keeps_emitFuncLit lit op ac :
  keepsCallback ac -> keeps (emitFuncLit scope lit op ac).
Proof. intros Hac. unfold emitFuncLit. keeps_tac. Qed.

#[local] Hint Resolve keeps_emitFuncLit : keeps.

Lemma recorded_freshWorld (w : world) : recorded (drawn w) (freshWorld w).
Proof.
  split; [reflexivity |]. intros id. cbn [freshWorld info Locals drawn].
  rewrite lookup_empty. split; [intros [? [=]] | intros (n & Hn & _); lia].
Qed.

Lemma keeps_applyOptions (opts : list CodeGenOption) :
  Forall (fun opt => forall i, Locals (fst (opt i)) = Locals i) opts ->
  keeps (applyOptions opts).
Proof.
  intros Hopts. apply keeps_same.
  induction Hopts as [| opt opts Hopt _ IH]; intros w r w'; cbn [applyOptions].
  - intros [= _ <-]. split; reflexivity.
  - specialize (Hopt (info w)). destruct (opt (info w)) as [i [e |]]; cbn [fst] in Hopt.
    + intros [= _ <-]. split; [exact Hopt | reflexivity].
    + intros Hrun. apply IH in Hrun as [HL Hd]. cbn [info drawn] in HL, Hd.
      split; [congruence | exact Hd].
Qed.

Lemma Generate_recorded (call : CallStmt) (file : File) (opts : list CodeGenOption)
  (r : result error (llb.State * option error)) (w w' : world) :
  Forall (fun opt => forall i, Locals (fst (opt i)) = Locals i) opts ->
  Generate call file opts w = (r, w') -> recorded (drawn w) w'.
Proof.
  intros Hopts. unfold Generate. cbv zeta.
  rewrite (bind_Ok newInfo _ w (freshWorld w) tt) by reflexivity.
  intros Hrun.
  match type of Hrun with
  | ?m _ = _ => assert (Hkeeps : keeps m)
  end.
  { apply keeps_bind; [apply keeps_applyOptions, Hopts | intros err]. keeps_tac. }
  exact (proj1 (Hkeeps _ _ _ _ Hrun (recorded_freshWorld w))).
Qed.

Lemma local_Ok_inv (call : CallStmt) (ac : aliasCallback) (st : llb.State) (w w' : world) :
  Name (CallStmt_Func call) = "local" ->
  emitFilesystemSourceStmt scope call ac w = (Ok st, w') ->
  exists iopts w0 a0 path w1,
    emitWithOption scope call (CallStmt_WithOpt call) ac w = (Ok iopts, w0)
    /\ CallStmt_Args call !! 0%nat = Some a0
    /\ emitStringExpr scope call a0 w0 = (Ok path, w1)
    /\ st = llb.Local (identity_NewID (drawn w1)) []
    /\ w' = afterLocal w1 path.
Proof.
  intros Hname. unfold emitFilesystemSourceStmt. rewrite Hname. intros Hrun.
  apply bind_Ok_inv in Hrun as (iopts & w0 & Hwith & Hrun).
  revert Hrun. switch_case. intros Hrun.
  apply bind_Ok_inv in Hrun as (a0 & w3 & Ha0 & Hrun).
  unfold arg, index in Ha0. destruct (CallStmt_Args call !! 0%nat) as [a |] eqn:Hargs;
    [| discriminate Ha0]. injection Ha0 as -> <-.
  apply bind_Ok_inv in Hrun as (path & w1 & Hpath & Hrun).
  change ((id <- NewID ;; setLocal id path ;;
           opts <- assertOpts llb.LocalOption iopts ;;
           ret (llb.Local id [])) w1)
    with ((opts <- assertOpts llb.LocalOption iopts ;;
           ret (llb.Local (identity_NewID (drawn w1)) [])) (afterLocal w1 path)) in Hrun.
  apply bind_Ok_inv in Hrun as (opts & w4 & Hopts & Hrun).
  apply assertOpts_Ok_inv in Hopts as [_ ->].
  injection Hrun as <- <-.
  exists iopts, w0, a0, path, w1. repeat split; assumption.
Qed.

End Records.

Section LocalIdentifiers.

Context `{Externals}.
Hypothesis NewID_inj : forall m n, identity_NewID m = identity_NewID n -> m = n.
Hypothesis Hext : evaluatorsKeep.
Variable scope : Scope.


End LocalIdentifiers.

(** The evaluators of the reference keep the records. *)

Lemma reference_NewID_inj (m n : nat) : reference.NewID m = reference.NewID n -> m = n.
Proof.
  unfold reference.NewID. intros Heq.
  apply (inj (String.append "local-")) in Heq. apply (inj pretty) in Heq. exact Heq.
Qed.

Lemma keeps_draws (e e' : Externals) {A : Type} (m : M A) :
  @identity_NewID e = @identity_NewID e' -> @keeps e A m -> @keeps e' A m.
Proof.
  intros Hnew Hkeeps base w r w' Hrun [Hbase Hkeys].
  destruct (Hkeeps base w r w' Hrun) as [[Hbase' Hkeys'] Hsub].
  - split; [exact Hbase |]. intros id. rewrite Hnew. apply Hkeys.
  - split; [| exact Hsub]. split; [exact Hbase' |].
    intros id. rewrite <- Hnew. apply Hkeys'.
Qed.

Lemma keeps_withError `{Externals} (m : M llb.State) : keeps m -> keeps (reference.withError m).
Proof.
  intros Hm base w r w' Hrun Hrec. unfold reference.withError in Hrun.
  destruct (m w) as [[st | e | p] w1] eqn:Hmw; injection Hrun as <- <-;
    exact (Hm base w _ w1 Hmw Hrec).
Qed.

Section LevelKeeps.

Variable inner : Externals.
Hypothesis inner_NewID : @identity_NewID inner = reference.NewID.
Hypothesis Hinner : @evaluatorsKeep inner.

Let inner_inj : forall m n, @identity_NewID inner m = @identity_NewID inner n -> m = n.
Proof. rewrite inner_NewID. exact reference_NewID_inj. Qed.

#[local] Hint Resolve keeps_emitSourceStmt keeps_emitFuncLit keeps_emitBlock keeps_emitOptions
  keeps_noop : keeps.

Lemma keeps_assertInt (v : value) : @keeps inner _ (reference.assertInt v).
Proof. destruct v; first [apply keeps_ret | apply keeps_crash]. Qed.

Lemma keeps_assertBool (v : value) : @keeps inner _ (reference.assertBool v).
Proof. destruct v; first [apply keeps_ret | apply keeps_crash]. Qed.

#[local] Hint Resolve keeps_assertInt keeps_assertBool : keeps.

Lemma keeps_stringExpr scope call e : @keeps inner _ (reference.stringExpr inner scope call e).
Proof. unfold reference.stringExpr. keeps_tac. Qed.

Lemma keeps_intExpr scope e : @keeps inner _ (reference.intExpr inner scope e).
Proof. unfold reference.intExpr. keeps_tac. Qed.

Lemma keeps_boolExpr scope e : @keeps inner _ (reference.boolExpr inner scope e).
Proof. unfold reference.boolExpr. keeps_tac. Qed.

#[local] Hint Resolve keeps_stringExpr keeps_intExpr keeps_boolExpr : keeps.

Lemma keeps_maybeBoolExpr scope args :
  @keeps inner _ (reference.maybeBoolExpr inner scope args).
Proof. unfold reference.maybeBoolExpr. keeps_tac. Qed.

Lemma keeps_filesystemExpr scope call e ac :
  @keepsCallback inner ac -> @keeps inner _ (reference.filesystemExpr inner scope call e ac).
Proof. intros Hac. unfold reference.filesystemExpr. keeps_tac. Qed.

#[local] Hint Resolve keeps_maybeBoolExpr keeps_filesystemExpr : keeps.

Lemma keeps_argValue scope call f e : @keeps inner _ (reference.argValue inner scope call f e).
Proof. unfold reference.argValue. keeps_tac. Qed.

Lemma keeps_bindArgs scope call params args objects :
  @keeps inner _ (reference.bindArgs inner scope call params args objects).
Proof.
  revert args objects. induction params as [| f params IH]; intros args objects;
    cbn [reference.bindArgs]; [apply keeps_ret |].
  destruct args as [| e args]; [apply keeps_ret |].
  apply keeps_bind; [apply keeps_argValue | intros v; apply IH].
Qed.

#[local] Hint Resolve keeps_bindArgs : keeps.

Lemma keeps_funcDecl scope n call op ac :
  @keepsCallback inner ac -> @keeps inner _ (reference.funcDecl inner scope n call op ac).
Proof. intros Hac. unfold reference.funcDecl. keeps_tac. Qed.

#[local] Hint Resolve keeps_funcDecl : keeps.

Lemma keeps_optionExpr scope call op e :
  @keeps inner _ (reference.optionExpr inner scope call op e).
Proof. unfold reference.optionExpr. keeps_tac. Qed.

Lemma keeps_aliasDecl scope n call : @keeps inner _ (reference.aliasDecl inner scope n call).
Proof.
  unfold reference.aliasDecl.
  apply keeps_bind; [apply keeps_deref | intros f].
  apply keeps_bind; [apply keeps_deref | intros obj].
  destruct (Object_Node obj) as [fd' | | |]; try apply keeps_crash.
  intros base w r w' Hrun Hrec.
  match type of Hrun with
  | context [reference.funcDecl inner scope ?n' call] => set (fd := n') in *
  end.
  destruct (reference.funcDecl inner scope fd call "" recordAlias
              {| info := info w; drawn := drawn w; captured := [] |})
    as [[v | e | p] w1] eqn:Hfunc.
  all: destruct (keeps_funcDecl scope fd call "" recordAlias (@keeps_recordAlias inner)
                   base _ _ _ Hfunc Hrec) as [Hrec1 Hsub1].
  - destruct (List.filter _ (captured w1)) as [| [c v'] l]; injection Hrun as <- <-;
      split; assumption.
  - injection Hrun as <- <-. split; assumption.
  - injection Hrun as <- <-. split; assumption.
Qed.

Lemma level_keeps : @evaluatorsKeep (reference.level inner).
Proof.
  assert (Hto : forall (A : Type) (m : M A),
            @keeps inner A m -> @keeps (reference.level inner) A m).
  { intros A m. apply keeps_draws. exact inner_NewID. }
  assert (Hfrom : forall ac, @keepsCallback (reference.level inner) ac
                             -> @keepsCallback inner ac).
  { intros ac Hac c v. apply (keeps_draws (reference.level inner) inner);
      [symmetry; exact inner_NewID | apply Hac]. }
  constructor; cbn [emitStringExpr emitIntExpr maybeEmitBoolExpr emitFilesystemExpr
                    emitOptionExpr emitFuncDecl emitAliasDecl emitFilesystemFuncDecl
                    emitFilesystemAliasDecl reference.level].
  - intros. apply Hto, keeps_stringExpr.
  - intros. apply Hto, keeps_intExpr.
  - intros. apply Hto, keeps_maybeBoolExpr.
  - intros scope call e ac Hac. apply Hto, keeps_filesystemExpr, Hfrom, Hac.
  - intros. apply Hto, keeps_optionExpr.
  - intros scope n call op ac Hac. apply Hto, keeps_funcDecl, Hfrom, Hac.
  - intros. apply Hto, keeps_aliasDecl.
  - intros scope n call ac Hac. apply Hto, keeps_withError.
    apply keeps_bind; [apply keeps_funcDecl, Hfrom, Hac | intros v; apply keeps_assertState].
  - intros scope n call. apply Hto, keeps_withError.
    apply keeps_bind; [apply keeps_aliasDecl | intros v; apply keeps_assertState].
Qed.

End LevelKeeps.

Lemma externals_NewID (depth : nat) :
  @identity_NewID (reference.externals depth) = reference.NewID.
Proof. destruct depth; reflexivity. Qed.

Lemma externals_keep (depth : nat) : @evaluatorsKeep (reference.externals depth).
Proof.
  induction depth as [| depth IH]; cbn [reference.externals].
  - constructor; intros; apply (@keeps_crash reference.bottom).
  - apply level_keeps; [apply externals_NewID | exact IH].
Qed.

Lemma recorded_world0 `{Externals} : recorded 0 world0.
Proof.
  split; [reflexivity |]. intros id. cbn [world0 info Locals drawn].
  rewrite lookup_empty. split; [intros [? [=]] | intros (n & Hn & _); lia].
Qed.


(** [fs default() { local "."; copy fs { local "src"; } "/" "/"; }]: the
    info [Generate] returns holds one entry for each of the two calls. *)
Example Generate_two_locals :
  let run := @Generate (reference.externals 3) (theCall (callOf "default" [])) localsFile []
               world0 in
  fst run = Ok (llb.StFile (llb.Local "local-0" [])
                  (llb.Copy (llb.Local "local-1" []) "/" "/" []), None)
  /\ Locals (info (snd run)) = <["local-0" := "."]> (<["local-1" := "src"]> ∅).
Proof. vm_compute. split; reflexivity. Qed.

(** The source does not compare the identifier with the ones it has
    drawn: were [identity.NewID] to return one identifier twice, the
    second [local] call would take the entry of the first. *)
Example repeating_identifier :
  (_ <- @emitFilesystemSourceStmt repeating emptyScope
          (theCall (callOf "local" [NewStringExpr "."])) noopAliasCallback ;;
   @emitFilesystemSourceStmt repeating emptyScope
     (theCall (callOf "local" [NewStringExpr "src"])) noopAliasCallback) world0
  = (Ok (llb.Local "same" []),
     mkWorld (mkCodeGenInfo NewNoopDebugger (<["same" := "src"]> (<["same" := "."]> ∅))) 2 []).
Proof. reflexivity. Qed.


(** C6 on [local]: the [with] clause evaluates to the include patterns,
    and the [Local] that is emitted carries no option. *)
Theorem local_drops_with_options :
  @emitWithOption (reference.externals 1) emptyScope (theCall localWithPatterns)
    (CallStmt_WithOpt (theCall localWithPatterns)) noopAliasCallback world0
  = (Ok [llb.IncludePatterns ["*.go"]], world0)
  /\ fst (@emitFilesystemSourceStmt (reference.externals 1) emptyScope
            (theCall localWithPatterns) noopAliasCallback world0)
     = Ok (llb.Local "local-0" []).
Proof. split; reflexivity. Qed.

(** The same clause on [image] reaches the builder. *)
Example image_keeps_with_options :
  fst (@emitFilesystemSourceStmt (reference.externals 1) emptyScope
         (theCall (NewCallStmt "image" [NewStringExpr "alpine"]
                     (Some (NewWithFuncLit [callOf "resolve" []])) None))
         noopAliasCallback world0)
  = Ok (llb.Image "alpine" [llb.WithDefault]).
Proof. reflexivity. Qed.

(** ** String blocks, and the blocks [emitBlock] cannot evaluate *)

Section Blocks.

Context `{Externals}.
Variable scope : Scope.

Lemma debug_Ok (node : DebugNode) (v : value) (w : world) :
  Debug (info w) scope node v = None -> debug scope node v w = (Ok tt, w).
Proof. intros Hd. unfold debug, callDebug, bind. rewrite Hd. reflexivity. Qed.

Lemma reportAlias_noop (c : CallStmt) (v : value) (w : world) :
  reportAlias noopAliasCallback c v w = (Ok tt, w).
Proof. unfold reportAlias. destruct (notNil (CallStmt_Alias c)); reflexivity. Qed.

Lemma foldM_app {A B : Type} (f : A -> B -> M A) (l1 l2 : list B) (a : A) (w : world) :
  foldM f (l1 ++ l2) a w = (a' <- foldM f l1 a ;; foldM f l2 a') w.
Proof.
  revert a w. induction l1 as [| b l1 IH]; intros a w; [reflexivity |].
  cbn [app foldM]. rewrite bind_assoc. apply bind_ext; [reflexivity |].
  intros a' w0. apply IH.
Qed.

(** The hooks of calls the debugger lets pass. *)
Lemma hooks_pass (v : value) (calls : list CallStmt) (w : world) :
  Forall (fun c => Debug (info w) scope (Debug_CallStmt c) v = None) calls ->
  foldM (fun _ c => debug scope (Debug_CallStmt c) v) calls tt w = (Ok tt, w).
Proof.
  induction 1 as [| c calls Hc _ IH]; [reflexivity |].
  cbn [foldM]. rewrite (bind_Ok _ _ _ _ _ (debug_Ok _ _ _ Hc)). exact IH.
Qed.

(** Debug calls after the source statement that the debugger lets pass
    leave the accumulator as it is. *)
Lemma chain_debugs_pass (typ : ObjType) (ac : aliasCallback) (v : value)
  (calls : list CallStmt) (w : world) :
  Forall (fun c => IsDebug (Name (CallStmt_Func c)) = true) calls ->
  Forall (fun c => Debug (info w) scope (Debug_CallStmt c) v = None) calls ->
  foldM (chainStep scope typ ac) calls v w = (Ok v, w).
Proof.
  induction 1 as [| c calls Hc _ IH]; intros Hpass; [reflexivity |].
  inversion Hpass as [| ? ? Hp Hrest]; subst.
  cbn [foldM]. unfold chainStep at 1.
  rewrite bind_assoc, (bind_Ok _ _ _ _ _ (debug_Ok _ _ _ Hp)), Hc, bind_ret.
  exact (IH Hrest).
Qed.

(** C8, amended. String blocks are source-only. A string block whose
    statements are debug calls and one other statement, a string source
    builtin, evaluates to the string of that statement when the
    statement evaluates and the debugger raises no error: the debug
    calls, before and after it, are shown to the debugger and skipped.
    A string block with a second statement that is no debug call yields
    no value: when the statements before the second one and the debugger
    let the evaluation get that far, the string chain evaluator is
    reached on it, and panics as unimplemented. *)
Theorem string_block_source_only (stmts : list Stmt) (leading : list CallStmt)
  (source : CallStmt) (remaining : list CallStmt) (w : world) :
  map Stmt_Call stmts = map Some (leading ++ source :: remaining) ->
  Forall (fun c => IsDebug (Name (CallStmt_Func c)) = true) leading ->
  IsDebug (Name (CallStmt_Func source)) = false ->
  (forall (s : string) (w1 : world),
      Forall (fun c => IsDebug (Name (CallStmt_Func c)) = true) remaining ->
      IsBuiltin Str (Name (CallStmt_Func source)) = true ->
      Forall (fun c => Debug (info w) scope (Debug_CallStmt c) (VString EmptyString) = None)
             (leading ++ [source]) ->
      emitStringSourceStmt scope source noopAliasCallback w = (Ok s, w1) ->
      Forall (fun c => Debug (info w1) scope (Debug_CallStmt c) (VString s) = None)
             remaining ->
      emitStringBlock scope stmts w = (Ok s, w1))
  /\ (Exists (fun c => IsDebug (Name (CallStmt_Func c)) = false) remaining ->
      forall s w', emitStringBlock scope stmts w <> (Ok s, w'))
  /\ (forall (middle : list CallStmt) (next : CallStmt) (rest : list CallStmt)
             (v : value) (w1 : world),
        remaining = middle ++ next :: rest ->
        Forall (fun c => IsDebug (Name (CallStmt_Func c)) = true) middle ->
        IsDebug (Name (CallStmt_Func next)) = false ->
        Forall (fun c => Debug (info w) scope (Debug_CallStmt c) (VString EmptyString) = None)
               (leading ++ [source]) ->
        emitSourceStmt scope Str source noopAliasCallback w = (Ok v, w1) ->
        Forall (fun c => Debug (info w1) scope (Debug_CallStmt c) v = None)
               (middle ++ [next]) ->
        emitStringBlock scope stmts w = (Panic (Explicit "unimplemented"), w1)).
Proof.
  intros Hmap Hleading Hsource.
  pose proof (emitBlock_unfold scope StringBlock stmts leading source remaining
                noopAliasCallback w Hmap Hleading Hsource) as Hblock.
  cbn [objTypeOf] in Hblock. unfold emitStringBlock.
  split; [| split].
  - intros s w1 Hremaining Hbuiltin Hpass Hsrc Hpass1.
    apply Forall_app in Hpass as [Hpl Hps]. inversion Hps as [| ? ? Hs _]; subst.
    assert (Hrun : emitBlock scope Str stmts noopAliasCallback w = (Ok (VString s), w1)).
    { rewrite Hblock. unfold blockProtocol. cbn [identityOf objTypeOf].
      mstep (hooks_pass _ _ _ Hpl). mstep (debug_Ok _ _ _ Hs).
      unfold emitSourceStmt. rewrite Hbuiltin. switch_case.
      mstep Hsrc. rewrite bind_ret.
      mstep (reportAlias_noop source (VString s) w1).
      exact (chain_debugs_pass Str noopAliasCallback _ _ _ Hremaining Hpass1). }
    rewrite (bind_Ok _ _ _ _ _ Hrun). reflexivity.
  - intros Hex s w' Hrun.
    apply bind_Ok_inv in Hrun as (v & w1 & Hrun & _).
    rewrite Hblock, blockProtocol_accumulate in Hrun. unfold accumulate in Hrun.
    apply bind_Ok_inv in Hrun as ([] & w2 & _ & Hrun).
    apply bind_Ok_inv in Hrun as ([] & w3 & _ & Hrun).
    apply bind_Ok_inv in Hrun as (V & w4 & _ & Hrun).
    apply bind_Ok_inv in Hrun as ([] & w5 & _ & Hrun).
    exact (string_chain_stops scope noopAliasCallback remaining Hex _ _ _ _ Hrun).
  - intros middle next rest v w1 -> Hmiddle Hnext Hpass Hsrc Hpass1.
    apply Forall_app in Hpass as [Hpl Hps]. inversion Hps as [| ? ? Hs _]; subst.
    apply Forall_app in Hpass1 as [Hpm Hpn]. inversion Hpn as [| ? ? Hn _]; subst.
    apply bind_Panic. rewrite Hblock. unfold blockProtocol. cbn [identityOf objTypeOf].
    mstep (hooks_pass _ _ _ Hpl). mstep (debug_Ok _ _ _ Hs). mstep Hsrc.
    mstep (reportAlias_noop source v w1).
    rewrite foldM_app.
    rewrite (bind_Ok _ _ _ _ _ (chain_debugs_pass Str noopAliasCallback _ _ _ Hmiddle Hpm)).
    cbn [foldM]. apply bind_Panic. unfold chainStep.
    rewrite (bind_Ok _ _ _ _ _ (debug_Ok _ _ _ Hn)), Hnext.
    unfold emitChainStmt. switch_case. reflexivity.
Qed.

End Blocks.

(** [breakpoint; value "x"; breakpoint], and
    [value "x"; breakpoint; value "y"]. *)
Lemma string_block_source_only_witness :
  @emitStringBlock (reference.externals 1) emptyScope
    [callOf "breakpoint" []; callOf "value" [NewStringExpr "x"]; callOf "breakpoint" []]
    world0 = (Ok "x", world0)
  /\ @emitStringBlock (reference.externals 1) emptyScope
       [callOf "value" [NewStringExpr "x"]; callOf "breakpoint" [];
        callOf "value" [NewStringExpr "y"]] world0
     = (Panic (Explicit "unimplemented"), world0).
Proof.
  split.
  - destruct (@string_block_source_only (reference.externals 1) emptyScope
                [callOf "breakpoint" []; callOf "value" [NewStringExpr "x"];
                 callOf "breakpoint" []]
                [theCall (callOf "breakpoint" [])]
                (theCall (callOf "value" [NewStringExpr "x"]))
                [theCall (callOf "breakpoint" [])] world0)
      as (Hone & _ & _).
    + reflexivity.
    + constructor; [reflexivity | constructor].
    + reflexivity.
    + apply Hone.
      * constructor; [reflexivity | constructor].
      * reflexivity.
      * repeat constructor.
      * reflexivity.
      * repeat constructor.
  - destruct (@string_block_source_only (reference.externals 1) emptyScope
                [callOf "value" [NewStringExpr "x"]; callOf "breakpoint" [];
                 callOf "value" [NewStringExpr "y"]]
                []
                (theCall (callOf "value" [NewStringExpr "x"]))
                [theCall (callOf "breakpoint" []);
                 theCall (callOf "value" [NewStringExpr "y"])] world0)
      as (_ & _ & Hreached).
    + reflexivity.
    + constructor.
    + reflexivity.
    + apply (Hreached [theCall (callOf "breakpoint" [])]
               (theCall (callOf "value" [NewStringExpr "y"])) [] (VString "x") world0).
      * reflexivity.
      * constructor; [reflexivity | constructor].
      * reflexivity.
      * repeat constructor.
      * reflexivity.
      * repeat constructor.
Defined.

(** C8 as stated fails on the string block [value "x"; breakpoint]: it
    has two statements that are no trivia, the second is a debug call,
    which the second loop of [emitBlock] skips, and the block evaluates
    to a value. *)
Lemma string_block_debug_counterexample :
  length (NonEmptyStmts
            (Some (mkBlockStmt noPosition None
                     [callOf "value" [NewStringExpr "x"]; callOf "breakpoint" []] None)))
  = 2%nat
  /\ @emitStringBlock (reference.externals 1) emptyScope
       (NonEmptyStmts
          (Some (mkBlockStmt noPosition None
                   [callOf "value" [NewStringExpr "x"]; callOf "breakpoint" []] None)))
       world0
     = (Ok "x", world0).
Proof. split; reflexivity. Qed.

Section Crashes.

Context `{Externals}.
Variable scope : Scope.

Lemma chainStmts_app (typ : ObjType) (ac : aliasCallback) (l1 l2 : list Stmt) (v : value)
  (w : world) :
  chainStmts scope typ ac (l1 ++ l2) v w
  = (v' <- chainStmts scope typ ac l1 v ;; chainStmts scope typ ac l2 v') w.
Proof.
  revert v w. induction l1 as [| stmt l1 IH]; intros v w; [reflexivity |].
  cbn [app chainStmts]. rewrite bind_assoc. apply bind_ext; [reflexivity |].
  intros call w0. destruct (IsDebug (Name (CallStmt_Func call))).
  - rewrite bind_assoc. apply bind_ext; [reflexivity |]. intros [] w1. apply IH.
  - rewrite bind_assoc. apply bind_ext; [reflexivity |]. intros [] w1.
    rewrite bind_assoc. apply bind_ext; [reflexivity |]. intros chain w2.
    rewrite bind_assoc. apply bind_ext; [reflexivity |]. intros v' w3.
    rewrite bind_assoc. apply bind_ext; [reflexivity |]. intros [] w4. apply IH.
Qed.

(** The first loop stops at the first statement that is no debug call,
    and what follows that statement has no part in it. *)
Lemma skipDebugs_evaluated (v : value) (stmts more : list Stmt) :
  Exists evaluated stmts ->
  forall i w, skipDebugs scope v (stmts ++ more) i w = skipDebugs scope v stmts i w.
Proof.
  induction 1 as [stmt stmts (c & Hc & Hd) | stmt stmts _ IH]; intros i w.
  - cbn [app skipDebugs]. rewrite Hc. cbn [deref]. rewrite !bind_ret, Hd. reflexivity.
  - cbn [app skipDebugs]. destruct (Stmt_Call stmt) as [call |]; [| reflexivity].
    cbn [deref]. rewrite !bind_ret.
    destruct (IsDebug (Name (CallStmt_Func call))); [| reflexivity].
    apply bind_ext; [reflexivity |]. intros [] w0. apply IH.
Qed.

Lemma skipDebugs_bound (v : value) (stmts : list Stmt) :
  Exists evaluated stmts ->
  forall i w idx w1,
    skipDebugs scope v stmts i w = (Ok idx, w1) ->
    (i <= idx < i + length stmts)%nat.
Proof.
  induction 1 as [stmt stmts (c & Hc & Hd) | stmt stmts _ IH]; intros i w idx w1 Hrun.
  - cbn [skipDebugs] in Hrun. rewrite Hc in Hrun. cbn [deref] in Hrun.
    rewrite bind_ret, Hd in Hrun. cbn in Hrun. injection Hrun as <- _.
    cbn [length]. lia.
  - cbn [skipDebugs] in Hrun. destruct (Stmt_Call stmt) as [call |]; [| discriminate Hrun].
    cbn [deref] in Hrun. rewrite bind_ret in Hrun.
    destruct (IsDebug (Name (CallStmt_Func call))).
    + apply bind_Ok_inv in Hrun as ([] & w2 & _ & Hrun).
      apply IH in Hrun. cbn [length]. lia.
    + cbn in Hrun. injection Hrun as <- _. cbn [length]. lia.
Qed.

Lemma emitBlock_append (typ : ObjType) (stmts more : list Stmt) (ac : aliasCallback)
  (w : world) :
  Exists evaluated stmts ->
  emitBlock scope typ (stmts ++ more) ac w
  = (v <- emitBlock scope typ stmts ac ;; chainStmts scope typ ac more v) w.
Proof.
  intros Hex. unfold emitBlock. rewrite bind_assoc.
  pose proof (skipDebugs_evaluated (initialValue typ) _ more Hex 0%nat w) as Hmore.
  destruct (skipDebugs scope (initialValue typ) stmts 0 w) as [[idx | e | p] w1] eqn:Hskip.
  2: { rewrite (bind_Err _ _ _ _ _ Hmore), (bind_Err _ _ _ _ _ Hskip). reflexivity. }
  2: { rewrite (bind_Panic _ _ _ _ _ Hmore), (bind_Panic _ _ _ _ _ Hskip). reflexivity. }
  rewrite (bind_Ok _ _ _ _ _ Hmore), (bind_Ok _ _ _ _ _ Hskip).
  apply (skipDebugs_bound _ _ Hex) in Hskip.
  rewrite bind_assoc. unfold index. rewrite lookup_app_l by lia.
  destruct (stmts !! idx) as [stmt |] eqn:Hstmt; [| reflexivity].
  rewrite !bind_ret.
  rewrite bind_assoc. apply bind_ext; [reflexivity |]. intros sourceStmt w2.
  rewrite bind_assoc. apply bind_ext; [reflexivity |]. intros [] w3.
  rewrite bind_assoc. apply bind_ext; [reflexivity |]. intros v w4.
  rewrite bind_assoc. apply bind_ext; [reflexivity |]. intros [] w5.
  rewrite drop_app_le by lia. apply chainStmts_app.
Qed.

(** The first loop passes over debug calls that the debugger lets
    pass. *)
Lemma skipDebugs_passing (v : value) (before more : list Stmt) (i : nat) (w : world) :
  Forall (passing scope w v) before ->
  skipDebugs scope v (before ++ more) i w
  = match more with
    | [] => (Ok 0%nat, w)
    | _ => skipDebugs scope v more (i + length before) w
    end.
Proof.
  intros Hall. revert i.
  induction Hall as [| stmt before (c & Hstmt & Hdebug & Hpass) _ IH]; intros i.
  - cbn [app length]. rewrite Nat.add_0_r. destruct more; reflexivity.
  - cbn [app skipDebugs length]. rewrite Hstmt. cbn [deref]. rewrite bind_ret, Hdebug.
    rewrite (bind_Ok _ _ _ _ _ (debug_Ok scope _ _ w Hpass)), IH.
    destruct more; [reflexivity |]. f_equal. lia.
Qed.

(** The second loop returns on call statements only. *)
Lemma chainStmts_Ok_calls (typ : ObjType) (ac : aliasCallback) (stmts : list Stmt)
  (v v' : value) (w w' : world) :
  chainStmts scope typ ac stmts v w = (Ok v', w') ->
  Forall (fun stmt => Stmt_Call stmt <> None) stmts.
Proof.
  revert v w. induction stmts as [| stmt stmts IH]; intros v w Hrun; [constructor |].
  cbn [chainStmts] in Hrun. apply bind_Ok_inv in Hrun as (call & w1 & Hcall & Hrun).
  destruct (Stmt_Call stmt) as [c |] eqn:Hstmt; [| discriminate Hcall].
  constructor; [rewrite Hstmt; discriminate |].
  destruct (IsDebug (Name (CallStmt_Func call))).
  - apply bind_Ok_inv in Hrun as ([] & w2 & _ & Hrun). exact (IH _ _ Hrun).
  - apply bind_Ok_inv in Hrun as ([] & w2 & _ & Hrun).
    apply bind_Ok_inv in Hrun as (chain & w3 & _ & Hrun).
    apply bind_Ok_inv in Hrun as (v1 & w4 & _ & Hrun).
    apply bind_Ok_inv in Hrun as ([] & w5 & _ & Hrun).
    exact (IH _ _ Hrun).
Qed.

(** The first loop returns an index that it has read every statement up
    to, or 0 when it has read them all. *)
Lemma skipDebugs_Ok_calls (v : value) (stmts : list Stmt) (i idx : nat) (w w1 : world) :
  skipDebugs scope v stmts i w = (Ok idx, w1) ->
  Forall (fun stmt => Stmt_Call stmt <> None) stmts
  \/ ((i <= idx)%nat
      /\ Forall (fun stmt => Stmt_Call stmt <> None) (take (idx - i + 1) stmts)).
Proof.
  revert i w. induction stmts as [| stmt stmts IH]; intros i w Hrun.
  - left. constructor.
  - cbn [skipDebugs] in Hrun. apply bind_Ok_inv in Hrun as (call & w2 & Hcall & Hrun).
    destruct (Stmt_Call stmt) as [c |] eqn:Hstmt; [| discriminate Hcall].
    assert (Hhead : Stmt_Call stmt <> None) by (rewrite Hstmt; discriminate).
    destruct (IsDebug (Name (CallStmt_Func call))).
    + apply bind_Ok_inv in Hrun as ([] & w3 & _ & Hrun).
      destruct (IH _ _ Hrun) as [Hall | [Hle Htake]].
      * left. constructor; assumption.
      * right. split; [lia |].
        replace (idx - i + 1)%nat with (S (idx - S i + 1)) by lia.
        cbn [take]. constructor; assumption.
    + cbn in Hrun. injection Hrun as <- _. right. split; [lia |].
      replace (i - i + 1)%nat with 1%nat by lia. cbn [take].
      constructor; [exact Hhead | rewrite take_0; constructor].
Qed.

(** A block that returns a value holds call statements only. *)
Lemma emitBlock_Ok_calls (typ : ObjType) (stmts : list Stmt) (ac : aliasCallback)
  (v : value) (w w' : world) :
  emitBlock scope typ stmts ac w = (Ok v, w') ->
  Forall (fun stmt => Stmt_Call stmt <> None) stmts.
Proof.
  unfold emitBlock. intros Hrun.
  apply bind_Ok_inv in Hrun as (idx & w1 & Hskip & Hrun).
  apply bind_Ok_inv in Hrun as (src & w2 & _ & Hrun).
  apply bind_Ok_inv in Hrun as (sourceStmt & w3 & _ & Hrun).
  apply bind_Ok_inv in Hrun as ([] & w4 & _ & Hrun).
  apply bind_Ok_inv in Hrun as (v1 & w5 & _ & Hrun).
  apply bind_Ok_inv in Hrun as ([] & w6 & _ & Hrun).
  apply chainStmts_Ok_calls in Hrun.
  destruct (skipDebugs_Ok_calls _ _ _ _ _ _ Hskip) as [Hall | [_ Htake]]; [exact Hall |].
  rewrite Nat.sub_0_r in Htake.
  rewrite <- (take_drop (idx + 1) stmts). apply Forall_app. split; assumption.
Qed.

(** C10, amended. [emitBlock] panics on the empty statement list. A
    list that holds a statement that is no call statement yields no
    value: the evaluation panics on the nil call when it reaches that
    statement, at once when only debug calls that the debugger lets pass
    stand before it, and after the statements before it when these
    hold a statement that is no debug call and evaluate. A list of
    debug calls alone is evaluated as far as the debugger lets it: the
    error of the debugger is returned when it objects to one of them;
    when it lets all of them pass, the first of them is taken for the
    source statement, so that the block panics with the name of that
    call when the name is no builtin of the block type and is bound to
    nothing in the scope. *)
Theorem emitBlock_panics (typ : ObjType) (ac : aliasCallback) (w : world) :
  emitBlock scope typ [] ac w = (Panic IndexOutOfRange, w)
  /\ (forall (stmts : list Stmt),
        Exists (fun stmt => Stmt_Call stmt = None) stmts ->
        forall v w', emitBlock scope typ stmts ac w <> (Ok v, w'))
  /\ (forall (before : list Stmt) (stmt : Stmt) (after : list Stmt),
        Stmt_Call stmt = None ->
        Forall (passing scope w (initialValue typ)) before ->
        emitBlock scope typ (before ++ stmt :: after) ac w = (Panic NilDereference, w))
  /\ (forall (before : list Stmt) (stmt : Stmt) (after : list Stmt) (v : value) (w' : world),
        Stmt_Call stmt = None ->
        Exists evaluated before ->
        emitBlock scope typ before ac w = (Ok v, w') ->
        emitBlock scope typ (before ++ stmt :: after) ac w = (Panic NilDereference, w'))
  /\ (forall (before : list Stmt) (stmt : Stmt) (after : list Stmt) (c : CallStmt) (e : error),
        Stmt_Call stmt = Some c ->
        IsDebug (Name (CallStmt_Func c)) = true ->
        Forall (passing scope w (initialValue typ)) before ->
        Debug (info w) scope (Debug_CallStmt c) (initialValue typ) = Some e ->
        emitBlock scope typ (before ++ stmt :: after) ac w = (Err e, w))
  /\ (forall (stmt0 : Stmt) (rest : list Stmt) (c0 : CallStmt),
        Stmt_Call stmt0 = Some c0 ->
        Forall (passing scope w (initialValue typ)) (stmt0 :: rest) ->
        emitBlock scope typ (stmt0 :: rest) ac w
        = (v <- emitSourceStmt scope typ c0 ac ;;
           reportAlias ac c0 v ;;
           chainStmts scope typ ac rest v) w
        /\ (IsBuiltin typ (Name (CallStmt_Func c0)) = false ->
            Lookup scope (Name (CallStmt_Func c0)) = None ->
            emitBlock scope typ (stmt0 :: rest) ac w
            = (Panic (Explicit (Name (CallStmt_Func c0))), w))).
Proof.
  split; [reflexivity |]. split; [| split; [| split; [| split]]].
  - intros stmts Hex v w' Hrun. apply emitBlock_Ok_calls in Hrun.
    apply List.Exists_exists in Hex as (stmt & Hin & Hnone).
    rewrite List.Forall_forall in Hrun. exact (Hrun stmt Hin Hnone).
  - intros before stmt after Hstmt Hpass. unfold emitBlock.
    rewrite (bind_Panic _ _ w w NilDereference); [reflexivity |].
    rewrite (skipDebugs_passing _ _ _ _ _ Hpass). cbn [skipDebugs]. rewrite Hstmt.
    reflexivity.
  - intros before stmt after v w' Hstmt Hex Hrun.
    rewrite (emitBlock_append typ before (stmt :: after) ac w Hex).
    rewrite (bind_Ok _ _ _ _ _ Hrun). cbn [chainStmts]. rewrite Hstmt. reflexivity.
  - intros before stmt after c e Hstmt Hdebug Hpass Hobj. unfold emitBlock.
    rewrite (bind_Err _ _ w w e); [reflexivity |].
    rewrite (skipDebugs_passing _ _ _ _ _ Hpass). cbn [skipDebugs]. rewrite Hstmt.
    cbn [deref]. rewrite bind_ret, Hdebug.
    apply bind_Err. unfold debug, callDebug, bind. rewrite Hobj. reflexivity.
  - intros stmt0 rest c0 Hstmt0 Hpass.
    assert (Heq : emitBlock scope typ (stmt0 :: rest) ac w
                  = (v <- emitSourceStmt scope typ c0 ac ;;
                     reportAlias ac c0 v ;;
                     chainStmts scope typ ac rest v) w).
    { unfold emitBlock.
      pose proof (skipDebugs_passing (initialValue typ) (stmt0 :: rest) [] 0 w Hpass) as Hskip.
      rewrite app_nil_r in Hskip. mstep Hskip.
      unfold index. cbn [lookup list_lookup]. rewrite bind_ret, Hstmt0. cbn [deref].
      rewrite bind_ret.
      inversion Hpass as [| ? ? (c & Hc & _ & Hp) _]; subst.
      rewrite Hstmt0 in Hc. injection Hc as <-.
      mstep (debug_Ok scope _ _ w Hp). reflexivity. }
    split; [exact Heq |].
    intros Hbuiltin Hlook. rewrite Heq. apply bind_Panic.
    unfold emitSourceStmt. rewrite Hbuiltin, Hlook. reflexivity.
Qed.

End Crashes.

(** [breakpoint] alone; [breakpoint], a newline statement and
    [image "alpine"]; and [image "alpine"] followed by a newline
    statement. *)
Lemma emitBlock_panics_witness :
  @emitBlock (reference.externals 1) emptyScope Filesystem [callOf "breakpoint" []]
    noopAliasCallback world0
  = (Panic (Explicit "breakpoint"), world0)
  /\ @emitBlock (reference.externals 1) emptyScope Filesystem
       ([callOf "breakpoint" []] ++ newlineStmt :: [callOf "image" [NewStringExpr "alpine"]])
       noopAliasCallback world0
     = (Panic NilDereference, world0)
  /\ @emitBlock (reference.externals 1) emptyScope Filesystem
       ([callOf "image" [NewStringExpr "alpine"]] ++ newlineStmt :: [])
       noopAliasCallback world0
     = (Panic NilDereference, world0).
Proof.
  destruct (@emitBlock_panics (reference.externals 1) emptyScope Filesystem
              noopAliasCallback world0) as (_ & _ & Hfirst & Hlater & _ & Hdebugs).
  assert (Hpass : Forall (@passing (reference.externals 1) emptyScope world0
                            (@initialValue Filesystem))
                         [callOf "breakpoint" []]).
  { constructor; [| constructor].
    exists (theCall (callOf "breakpoint" [])). repeat split. }
  split; [| split].
  - apply (proj2 (Hdebugs (callOf "breakpoint" []) [] (theCall (callOf "breakpoint" []))
                    eq_refl Hpass)); reflexivity.
  - apply (Hfirst [callOf "breakpoint" []] newlineStmt
             [callOf "image" [NewStringExpr "alpine"]] eq_refl Hpass).
  - apply (Hlater [callOf "image" [NewStringExpr "alpine"]] newlineStmt []
             (VState (llb.Image "alpine" [])) world0 eq_refl).
    + apply Exists_cons_hd. exists (theCall (callOf "image" [NewStringExpr "alpine"])).
      split; reflexivity.
    + reflexivity.
Defined.

(** C10 as stated fails on the block [breakpoint], a list whose
    statements are all debug calls, with a debugger that objects: the
    block does not crash, it returns the error of the debugger. *)
Lemma emitBlock_debugger_counterexample :
  let w := mkWorld (mkCodeGenInfo (objecting (ErrOther "stop")) ∅) 0 [] in
  @IsDebug (reference.externals 1) "breakpoint" = true
  /\ @emitBlock (reference.externals 1) emptyScope Filesystem [callOf "breakpoint" []]
       noopAliasCallback w
     = (Err (ErrOther "stop"), w)
  /\ ~ (exists p w',
          @emitBlock (reference.externals 1) emptyScope Filesystem [callOf "breakpoint" []]
            noopAliasCallback w
          = (Panic p, w')).
Proof.
  cbv zeta. split; [reflexivity |]. split; [reflexivity |].
  intros (p & w' & Hrun). vm_compute in Hrun. discriminate Hrun.
Qed.

(** Nor does it crash when the name of the debug call is bound in the
    scope: with [breakpoint] bound to a parameter that holds a
    filesystem, the block [breakpoint] evaluates to that filesystem. *)
Example emitBlock_debug_name_bound :
  @emitBlock (reference.externals 1)
    (mkScope {[ "breakpoint" := mkObject FieldKind
                                  (Node_Field (NewField Filesystem "breakpoint" false))
                                  (VState llb.Scratch) ]} None)
    Filesystem [callOf "breakpoint" []] noopAliasCallback world0
  = (Ok (VState llb.Scratch), world0).
Proof. reflexivity. Qed.


(** On a parsed block, [NonEmptyStmts] returns call statements only. *)
Lemma NonEmptyStmts_calls (b : BlockStmt) :
  Forall parsedStmt (BlockStmt_List b) ->
  exists calls, map Stmt_Call (NonEmptyStmts (Some b)) = map Some calls.
Proof.
  unfold NonEmptyStmts. induction 1 as [| stmt stmts Hstmt _ [calls IH]].
  - exists []. reflexivity.
  - cbn [List.filter]. unfold parsedStmt in Hstmt.
    destruct (Stmt_Newline stmt), (Stmt_Doc stmt); cbn [notNil orb negb];
      try (exists calls; exact IH).
    destruct (Stmt_Call stmt) as [c |] eqn:Hc; [| discriminate Hstmt].
    exists (c :: calls). cbn [map]. rewrite Hc, IH. reflexivity.
Qed.

(** [NonEmptyStmts] is the filter the callers of [emitBlock] apply: what
    it returns holds no newline and no comment statement. *)
Lemma NonEmptyStmts_no_trivia (b : option BlockStmt) :
  Forall (fun stmt => Stmt_Newline stmt = None /\ Stmt_Doc stmt = None) (NonEmptyStmts b).
Proof.
  destruct b as [b |]; [| constructor].
  unfold NonEmptyStmts. apply List.Forall_forall. intros stmt Hin.
  apply List.filter_In in Hin as [_ Hkeep].
  destruct (Stmt_Newline stmt), (Stmt_Doc stmt); try discriminate Hkeep.
  split; reflexivity.
Qed.

(** * Further properties of the code

    What the functions of [part_000] and [codegen.go] do beyond the
    properties above: their edge cases, how they compose, and what they
    keep. *)

(** ** Package [parser]: counting statements *)

Lemma countStmts_length (stmts : list Stmt) (num : Z) :
  countStmts stmts num
  = num + Z.of_nat (length (List.filter
                              (fun stmt => negb (notNil (Stmt_Newline stmt)
                                                 || notNil (Stmt_Doc stmt)))
                              stmts)).
Proof.
  revert num. induction stmts as [| stmt rest IH]; intros num.
  - cbn. lia.
  - cbn [countStmts List.filter].
    destruct (notNil (Stmt_Newline stmt) || notNil (Stmt_Doc stmt)); cbn [negb];
      rewrite IH; cbn [length]; lia.
Qed.

(** X1. [NumStmts] counts the statements [NonEmptyStmts] returns, on a block
    and on a function literal, and both methods accept the nil receiver:
    the count is 0 where the list is empty. A literal without a body has
    no statements. *)
Theorem NumStmts_counts (s : option BlockStmt) (l : option FuncLit) :
  BlockStmt_NumStmts s = Z.of_nat (length (NonEmptyStmts s))
  /\ FuncLit_NumStmts l
     = Z.of_nat (length (NonEmptyStmts (match l with
                                        | Some lit => FuncLit_Body lit
                                        | None => None
                                        end))).
Proof.
  assert (Hblock : forall b, BlockStmt_NumStmts b = Z.of_nat (length (NonEmptyStmts b))).
  { intros [b |]; [| reflexivity].
    unfold BlockStmt_NumStmts, NonEmptyStmts. rewrite countStmts_length. lia. }
  split; [apply Hblock |].
  destruct l as [lit |]; [apply Hblock | reflexivity].
Qed.

(** X2. On a block of the grammar, where every statement is a call, a
    newline or a comment, [NonEmptyStmts] returns the call statements,
    all of them and in their order, and nothing else: every statement it
    returns has its [Call]. *)
Theorem NonEmptyStmts_parsed (b : BlockStmt) :
  Forall (fun stmt => grammarStmt stmt = true) (BlockStmt_List b) ->
  NonEmptyStmts (Some b) = List.filter (fun stmt => notNil (Stmt_Call stmt)) (BlockStmt_List b)
  /\ Forall (fun stmt => exists call, Stmt_Call stmt = Some call) (NonEmptyStmts (Some b)).
Proof.
  unfold NonEmptyStmts. induction 1 as [| stmt stmts Hstmt _ [IHeq IHall]].
  - split; [reflexivity | constructor].
  - cbn [List.filter]. unfold grammarStmt in Hstmt.
    destruct (Stmt_Call stmt) as [call |] eqn:Hcall, (Stmt_Newline stmt), (Stmt_Doc stmt);
      try discriminate Hstmt; cbn [notNil orb negb].
    + split; [rewrite IHeq; reflexivity |].
      constructor; [exists call; exact Hcall | exact IHall].
    + split; [exact IHeq | exact IHall].
    + split; [exact IHeq | exact IHall].
Qed.

(** [{ scratch; <newline> }] *)
Lemma NonEmptyStmts_parsed_witness :
  NonEmptyStmts (Some (mkBlockStmt noPosition None [callOf "scratch" []; newlineStmt] None))
  = [callOf "scratch" []]
  /\ Forall (fun stmt => exists call, Stmt_Call stmt = Some call)
       (NonEmptyStmts
          (Some (mkBlockStmt noPosition None [callOf "scratch" []; newlineStmt] None))).
Proof.
  apply (NonEmptyStmts_parsed
           (mkBlockStmt noPosition None [callOf "scratch" []; newlineStmt] None)).
  repeat constructor.
Defined.

(** ** Package [parser]: types and literals *)

Lemma ContainsRune_cons (c d : ascii) (s : string) :
  ContainsRune (String c s) d = false ->
  Ascii.eqb c d = false /\ ContainsRune s d = false.
Proof.
  cbn [ContainsRune]. destruct (Ascii.eqb c d); [discriminate |]. intros Hs. split; [reflexivity | exact Hs].
Qed.

Lemma append_cons (c : ascii) (s t : string) : String c s +:+ t = String c (s +:+ t).
Proof. reflexivity. Qed.

Lemma append_nil (t : string) : EmptyString +:+ t = t.
Proof. reflexivity. Qed.

Lemma beforeColons_cons (c d : ascii) (r : string) :
  beforeColons (String c (String d r))
  = if Ascii.eqb c ":" && Ascii.eqb d ":" then EmptyString
    else String c (beforeColons (String d r)).
Proof. reflexivity. Qed.

Lemma splitColons_cons (c d : ascii) (r : string) :
  splitColons (String c (String d r))
  = if Ascii.eqb c ":" && Ascii.eqb d ":" then EmptyString :: splitColons r
    else match splitColons (String d r) with
         | part :: parts => String c part :: parts
         | [] => [String c EmptyString]
         end.
Proof. reflexivity. Qed.

Lemma beforeColons_prefix (a b : string) :
  ContainsRune a ":" = false -> beforeColons (a +:+ String ":" (String ":" b)) = a.
Proof.
  induction a as [| c a IH]; intros Ha; [reflexivity |].
  apply ContainsRune_cons in Ha as [Hc Ha].
  rewrite append_cons. specialize (IH Ha).
  destruct (a +:+ String ":" (String ":" b)) as [| d r] eqn:Hrest.
  - destruct a; discriminate Hrest.
  - rewrite beforeColons_cons, Hc. cbn [andb]. rewrite IH. reflexivity.
Qed.

Lemma beforeColons_whole (a : string) : ContainsRune a ":" = false -> beforeColons a = a.
Proof.
  induction a as [| c a IH]; intros Ha; [reflexivity |].
  apply ContainsRune_cons in Ha as [Hc Ha]. specialize (IH Ha).
  destruct a as [| d r]; [reflexivity |].
  rewrite beforeColons_cons, Hc. cbn [andb]. rewrite IH. reflexivity.
Qed.

Lemma splitColons_prefix (a b : string) :
  ContainsRune a ":" = false ->
  splitColons (a +:+ String ":" (String ":" b)) = a :: splitColons b.
Proof.
  induction a as [| c a IH]; intros Ha; [reflexivity |].
  apply ContainsRune_cons in Ha as [Hc Ha].
  rewrite append_cons. specialize (IH Ha).
  destruct (a +:+ String ":" (String ":" b)) as [| d r] eqn:Hrest.
  - destruct a; discriminate Hrest.
  - rewrite splitColons_cons, Hc. cbn [andb]. rewrite IH. reflexivity.
Qed.

Lemma splitColons_whole (a : string) : ContainsRune a ":" = false -> splitColons a = [a].
Proof.
  induction a as [| c a IH]; intros Ha; [reflexivity |].
  apply ContainsRune_cons in Ha as [Hc Ha]. specialize (IH Ha).
  destruct a as [| d r]; [reflexivity |].
  rewrite splitColons_cons, Hc. cbn [andb]. rewrite IH. reflexivity.
Qed.

(** The first part of the split is what [Type] returns, on every string. *)
Lemma splitColons_head (s : string) :
  exists parts, splitColons s = beforeColons s :: parts.
Proof.
  induction s as [| c s IH]; [exists []; reflexivity |].
  destruct s as [| d r]; [exists []; reflexivity |].
  rewrite splitColons_cons, beforeColons_cons.
  destruct (Ascii.eqb c ":" && Ascii.eqb d ":").
  - eexists. reflexivity.
  - destruct IH as [parts ->]. eexists. reflexivity.
Qed.

(** X3. [Type] and [SubType] take a type name apart at its separator: of
    [a::b], where neither part holds a colon, [Type] is [a] and [SubType]
    is [b], and the type equals [a]; of a name [a] without a separator
    [Type] is the name itself and [SubType] is [None]. *)
Theorem Type_SubType_split (pos : Position) (a b : string) :
  ContainsRune a ":" = false ->
  ContainsRune b ":" = false ->
  let t := mkType pos (a +:+ "::" +:+ b) in
  Type_Type t = a /\ Type_SubType t = b /\ Type_Equals t a = true
  /\ Type_Type (mkType pos a) = a /\ Type_SubType (mkType pos a) = None_.
Proof.
  intros Ha Hb t. subst t.
  unfold Type_Type, Type_SubType, Type_Equals, Type_Type. cbn [Type_ObjType].
  change ("::" +:+ b) with (String ":" (String ":" b)).
  rewrite beforeColons_prefix, splitColons_prefix by exact Ha.
  rewrite (splitColons_whole b Hb), (splitColons_whole a Ha), (beforeColons_whole a Ha).
  rewrite String.eqb_refl. repeat split; reflexivity.
Qed.

(** [option::run] *)
Lemma Type_SubType_split_witness :
  Type_Type (NewType OptionRun) = Option /\ Type_SubType (NewType OptionRun) = "run"
  /\ Type_Equals (NewType OptionRun) Option = true
  /\ Type_Type (NewType Option) = Option /\ Type_SubType (NewType Option) = None_.
Proof.
  apply (Type_SubType_split noPosition "option" "run"); reflexivity.
Defined.

(** X4. [BasicLit.ObjType] panics exactly on a literal with none of its four
    alternatives set, and it never returns with an error; on the literal
    of each constructor it is the type of the constructor, [int] for the
    decimal and for the numeric literal. *)
Theorem BasicLit_ObjType_total (E : Type) (l : BasicLit) :
  ((exists p, @BasicLit_ObjType E l = Panic p)
   <-> BasicLit_Str l = None /\ BasicLit_Decimal l = None
       /\ BasicLit_Numeric l = None /\ BasicLit_Bool l = None)
  /\ (forall (v : string) (n base : Z) (b : bool),
        option_map (@BasicLit_ObjType E) (Expr_BasicLit (NewStringExpr v)) = Some (Ok Str)
        /\ option_map (@BasicLit_ObjType E) (Expr_BasicLit (NewDecimalExpr n)) = Some (Ok Int)
        /\ option_map (@BasicLit_ObjType E) (Expr_BasicLit (NewNumericExpr n base))
           = Some (Ok Int)
        /\ option_map (@BasicLit_ObjType E) (Expr_BasicLit (NewBoolExpr b)) = Some (Ok Bool)).
Proof.
  split; [| intros; repeat split; reflexivity].
  unfold BasicLit_ObjType.
  destruct (BasicLit_Str l), (BasicLit_Decimal l), (BasicLit_Numeric l), (BasicLit_Bool l);
    cbn [notNil orb]; split;
    try (intros [p Hp]; discriminate Hp);
    try (intros (H1 & H2 & H3 & H4); discriminate);
    try (intros _; repeat split; reflexivity).
  intros _. eexists. reflexivity.
Qed.

(** ** Package [parser]: [End] *)

(** X5. [Stmt.End] panics exactly on a call statement that has no [StmtEnd].
    The constructors of the package leave the closing tokens nil: a
    statement of [NewCallStmt], a literal of [NewFuncLit] and a clause of
    [NewWithFuncLit] have no [End], whatever they are built from, while a
    clause of [NewWithIdent] ends after its name. *)
Theorem constructed_nodes_End (E : Type) :
  (forall s : Stmt,
      (exists p, @Stmt_End E s = Panic p)
      <-> exists call, Stmt_Call s = Some call /\ CallStmt_StmtEnd call = None)
  /\ (forall name args withOpt alias,
        @Stmt_End E (NewCallStmt name args withOpt alias) = Panic NilDereference)
  /\ (forall typ stmts, @FuncLit_End E (NewFuncLit typ stmts) = Panic NilDereference)
  /\ (forall stmts, @WithOpt_End E (NewWithFuncLit stmts) = Panic NilDereference)
  /\ (forall name,
        @WithOpt_End E (NewWithIdent name) = Ok (shiftPosition noPosition (len name) 0)).
Proof.
  split; [| repeat split; reflexivity].
  intros s. unfold Stmt_End, CallStmt_End. split.
  - intros [p Hp]. destruct (Stmt_Call s) as [call |].
    + exists call. split; [reflexivity |].
      destruct (CallStmt_StmtEnd call); [discriminate Hp | reflexivity].
    + destruct (Stmt_Newline s); [discriminate Hp |].
      destruct (Stmt_Doc s); discriminate Hp.
  - intros (call & -> & ->). eexists. reflexivity.
Qed.

(** X6. [File.End] is the end of the last declaration, whatever comes before
    it; and so it panics on every file whose last declaration is a
    function without a body. *)
Theorem File_End_last (E : Type) (f : File) (decls : list Decl) (d : Decl) :
  File_Decls f = decls ++ [d] ->
  @File_End E f = Decl_End d
  /\ (forall fd,
        Decl_Bad d = None -> Decl_Import d = None -> Decl_Export d = None ->
        Decl_Func d = Some fd -> FuncDecl_Body fd = None ->
        @File_End E f = Panic NilDereference).
Proof.
  intros Hdecls.
  assert (Hlast : @File_End E f = Decl_End d).
  { unfold File_End. rewrite Hdecls, last_snoc. reflexivity. }
  split; [exact Hlast |].
  intros fd Hbad Himport Hexport Hfunc Hbody. rewrite Hlast.
  unfold Decl_End, FuncDecl_End. rewrite Hbad, Himport, Hexport, Hfunc, Hbody. reflexivity.
Qed.

(** A newline, then [fs build()]. *)
Lemma File_End_last_witness :
  @File_End error (mkFile noPosition emptyScope None [newlineDecl; forwardDecl])
  = Panic NilDereference.
Proof.
  apply (proj2 (File_End_last error
                  (mkFile noPosition emptyScope None [newlineDecl; forwardDecl])
                  [newlineDecl] forwardDecl eq_refl)
           (funcOf Filesystem "build" None));
    reflexivity.
Defined.

(** ** The option loops *)

(** Two switches over the same keys are related case by case. *)
Lemma switch_rel {A B : Type} (R : A -> B -> Prop) (x : string)
  (cases1 : list (string * A)) (cases2 : list (string * B)) (d1 : A) (d2 : B) :
  List.Forall2 (fun p q => fst p = fst q /\ R (snd p) (snd q)) cases1 cases2 ->
  R d1 d2 ->
  R (switch x cases1 d1) (switch x cases2 d2).
Proof.
  intros Hcases Hd.
  induction Hcases as [| [k1 a] [k2 b] c1 c2 [Hk Hab] _ IH]; [exact Hd |].
  cbn [fst snd] in Hk, Hab. subst k2. cbn [switch].
  destruct (String.eqb x k1); [exact Hab | exact IH].
Qed.

Ltac each_case tac :=
  repeat (constructor; [split; [reflexivity | cbn [snd]; tac] |]);
  try lazymatch goal with |- List.Forall2 _ [] [] => constructor end.

Ltac append_end := rewrite ?bind_ret; cbn [app]; rewrite ?app_nil_r; reflexivity.

Ltac append_case :=
  unfold defaultOption, chownOption, createdTimeOption;
  repeat (rewrite ?bind_assoc; apply bind_ext; [reflexivity | intros ? ?]);
  first
    [ append_end
    | match goal with |- context [if ?v then _ else _] => destruct v end; append_end
    | match goal with
      | |- context [match time.Parse ?v with _ => _ end] => destruct (time.Parse v)
      end; first [reflexivity | append_end] ].

Ltac op_case op k :=
  destruct (String.eqb op k) eqn:?;
  [ match goal with
    | Hk : String.eqb op k = true |- _ => apply String.eqb_eq in Hk; subst op
    end
  | ].

Section FurtherOptions.

Context `{Externals}.
Variable scope : Scope.

Lemma forStmts_app {S : Type} (body : CallStmt -> S -> M S) (s1 s2 : list Stmt) (s : S)
  (w : world) :
  forStmts body (s1 ++ s2) s w = (s' <- forStmts body s1 s ;; forStmts body s2 s') w.
Proof.
  revert s w. induction s1 as [| stmt s1 IH]; intros s w; [reflexivity |].
  cbn [app forStmts]. destruct (Stmt_Call stmt) as [call |]; [| apply IH].
  rewrite bind_assoc. apply bind_ext; [reflexivity |]. intros s' w0. apply IH.
Qed.

Lemma forStmts_appendOnly (body : CallStmt -> list llb.Opt -> M (list llb.Opt)) :
  appendOnly body ->
  forall stmts opts w,
    forStmts body stmts opts w = (x <- forStmts body stmts [] ;; ret (opts ++ x)) w.
Proof.
  intros Hbody stmts. induction stmts as [| stmt stmts IH]; intros opts w.
  - cbn [forStmts]. rewrite bind_ret, app_nil_r. reflexivity.
  - cbn [forStmts]. destruct (Stmt_Call stmt) as [call |]; [| apply IH].
    rewrite bind_assoc.
    etransitivity; [apply bind_ext; [apply Hbody | reflexivity] |].
    rewrite bind_assoc. apply bind_ext; [reflexivity |]. intros x w0.
    rewrite bind_ret.
    etransitivity; [apply IH |]. symmetry.
    etransitivity; [apply bind_ext; [apply IH | reflexivity] |].
    rewrite bind_assoc. apply bind_ext; [reflexivity |]. intros y w1.
    rewrite !bind_ret, app_assoc. reflexivity.
Qed.

Lemma loop_app (body : CallStmt -> list llb.Opt -> M (list llb.Opt)) (s1 s2 : list Stmt)
  (w : world) :
  appendOnly body ->
  forStmts body (s1 ++ s2) [] w
  = (o1 <- forStmts body s1 [] ;; o2 <- forStmts body s2 [] ;; ret (o1 ++ o2)) w.
Proof.
  intros Hbody. rewrite forStmts_app. apply bind_ext; [reflexivity |].
  intros o1 w0. apply forStmts_appendOnly, Hbody.
Qed.

(** X7. The options of a block are the options of its statements, in the
    order of the statements: on every operation but [copy], [ssh] and
    [secret], whose loops fold their flags and fields into one item,
    evaluating two statement lists one after the other is evaluating
    their concatenation. *)
Theorem emitOptions_app (op : string) (s1 s2 : list Stmt) (ac : aliasCallback) (w : world) :
  existsb (String.eqb op) ["copy"; "ssh"; "secret"] = false ->
  emitOptions scope op (s1 ++ s2) ac w
  = (o1 <- emitOptions scope op s1 ac ;;
     o2 <- emitOptions scope op s2 ac ;;
     ret (o1 ++ o2)) w.
Proof.
  intros Hop.
  assert (Hloop : forall body,
             appendOnly body ->
             forStmts body (s1 ++ s2) [] w
             = (o1 <- forStmts body s1 [] ;; o2 <- forStmts body s2 [] ;; ret (o1 ++ o2)) w).
  { intros body Hbody. apply loop_app, Hbody. }
  op_case op "image"; [| op_case op "http"; [| op_case op "git"; [| op_case op "local";
    [| op_case op "generate"; [| op_case op "run"; [| op_case op "ssh";
    [| op_case op "secret"; [| op_case op "mount"; [| op_case op "mkdir";
    [| op_case op "mkfile"; [| op_case op "rm"; [| op_case op "copy"; [|]]]]]]]]]]]]].
  14: { unfold emitOptions. cbn [switch].
        repeat match goal with
               | Hk : String.eqb op _ = false |- _ => rewrite Hk; clear Hk
               end.
        reflexivity. }
  all: try (vm_compute in Hop; discriminate Hop).
  all: apply Hloop; intros call opts w0; cbv beta zeta;
    try (rewrite bind_assoc; apply bind_ext; [reflexivity | intros ? ?]; unfold execOption);
    apply (switch_rel (fun a b => a _ = (x <- b ;; ret (opts ++ x)) _));
    [each_case append_case | append_case].
Qed.

End FurtherOptions.

(** [readonly] and then [sourcePath "/etc"], the options of a [mount]. *)
Lemma emitOptions_app_witness :
  @emitOptions (reference.externals 1) emptyScope "mount"
    ([callOf "readonly" []] ++ [callOf "sourcePath" [NewStringExpr "/etc"]])
    noopAliasCallback world0
  = (Ok ([llb.Readonly] ++ [llb.SourcePath "/etc"]), world0).
Proof.
  etransitivity.
  - apply (@emitOptions_app (reference.externals 1) emptyScope "mount"). reflexivity.
  - reflexivity.
Defined.

(** ** The [with] clause of a builtin *)

(** Go through the builtins of a table of option interfaces: on each,
    select the case of the builtin and run it down to its assertions. *)
Ltac kind_case Hkind Hrun Hassert :=
  repeat match type of Hkind with
         | (if String.eqb ?n ?s then _ else _) = _ =>
             let E := fresh "E" in
             destruct (String.eqb n s) eqn:E;
             [ apply String.eqb_eq in E; rewrite E in Hrun;
               repeat first [rewrite switch_hit in Hrun
                            | rewrite switch_skip in Hrun by reflexivity];
               injection Hkind as <-;
               repeat (apply bind_Ok_inv in Hrun as (? & ? & ? & Hrun));
               eapply Hassert; eassumption
             | ]
         end;
  discriminate Hkind.

Section FurtherClauses.

Context `{Externals}.
Variable scope : Scope.

Lemma assertOpts_wrong (k : llb.OptionKind) (iopts : list llb.Opt) (w : world) :
  Exists (fun o => llb.implements o k = false) iopts ->
  assertOpts k iopts w = (Panic TypeAssertion, w).
Proof.
  induction iopts as [| o iopts IH]; intros Hwrong; [inversion Hwrong |].
  cbn [assertOpts]. destruct (llb.implements o k) eqn:Ho; [| reflexivity].
  apply bind_Panic, IH. inversion Hwrong as [? ? Hhead | ? ? Htail]; subst.
  - rewrite Ho in Hhead. discriminate Hhead.
  - exact Htail.
Qed.

(** X8. A [with] block on a call whose name is none of the thirteen
    operations that have options makes the call panic, as a source
    statement and as a chain statement, whatever the block holds (an
    empty block too) and before any argument is evaluated. So
    [scratch], [env], [dir], [user] and [entrypoint] take no block. *)
Theorem with_block_unsupported (typ : ObjType) (call : CallStmt) (wopt : WithOpt)
  (lit : FuncLit) (ac : aliasCallback) (w : world) :
  CallStmt_WithOpt call = Some wopt ->
  WithOpt_Ident wopt = None ->
  WithOpt_FuncLit wopt = Some lit ->
  existsb (String.eqb (Name (CallStmt_Func call))) optionOps = false ->
  emitFilesystemSourceStmt scope call ac w
  = (Panic (Explicit "call stmt does not support options"), w)
  /\ emitFilesystemChainStmt scope typ call ac w
     = (Panic (Explicit "call stmt does not support options"), w).
Proof.
  intros Hwith Hident Hlit Hname.
  assert (Hclause : emitWithOption scope call (CallStmt_WithOpt call) ac w
                    = (Panic (Explicit "call stmt does not support options"), w)).
  { rewrite Hwith. unfold emitWithOption. rewrite Hident, Hlit.
    cbn [existsb optionOps] in Hname.
    repeat (apply orb_false_elim in Hname as [? Hname]).
    unfold emitOptions. cbn [switch].
    repeat match goal with
           | Hk : String.eqb _ _ = false |- _ => rewrite Hk; clear Hk
           end.
    reflexivity. }
  split.
  - unfold emitFilesystemSourceStmt. apply bind_Panic, Hclause.
  - unfold emitFilesystemChainStmt. apply bind_Panic, Hclause.
Qed.

(** X9. A [with] clause that names an identifier is looked up before any
    argument is evaluated, and the call panics, as a source statement
    and as a chain statement: on the nil object of a name that is bound
    nowhere; on an object of another kind than an expression; and on an
    expression whose data is no list of options. *)
Theorem with_ident_resolution (typ : ObjType) (call : CallStmt) (wopt : WithOpt)
  (id : Ident) (ac : aliasCallback) (w : world) :
  CallStmt_WithOpt call = Some wopt ->
  WithOpt_Ident wopt = Some id ->
  let panics (p : panic) :=
    emitFilesystemSourceStmt scope call ac w = (Panic p, w)
    /\ emitFilesystemChainStmt scope typ call ac w = (Panic p, w) in
  (Lookup scope (Name id) = None -> panics NilDereference)
  /\ (forall obj,
        Lookup scope (Name id) = Some obj -> Object_Kind obj <> ExprKind ->
        panics (Explicit "unknown with option kind"))
  /\ (forall obj,
        Lookup scope (Name id) = Some obj -> Object_Kind obj = ExprKind ->
        (forall o, Object_Data obj <> VOptions o) ->
        panics TypeAssertion).
Proof.
  intros Hwith Hident panics.
  assert (Hboth : forall p,
             emitWithOption scope call (CallStmt_WithOpt call) ac w = (Panic p, w) ->
             panics p).
  { intros p Hclause. split.
    - unfold emitFilesystemSourceStmt. apply bind_Panic, Hclause.
    - unfold emitFilesystemChainStmt. apply bind_Panic, Hclause. }
  rewrite Hwith in Hboth. unfold emitWithOption, withIdent in Hboth. rewrite Hident in Hboth.
  split; [| split].
  - intros Hlook. apply Hboth. rewrite Hlook. reflexivity.
  - intros obj Hlook Hkind. apply Hboth. rewrite Hlook. cbn [deref]. rewrite bind_ret.
    destruct (Object_Kind obj); [reflexivity | reflexivity | contradiction].
  - intros obj Hlook Hkind Hdata. apply Hboth. rewrite Hlook. cbn [deref].
    rewrite bind_ret, Hkind.
    destruct (Object_Data obj) as [| | | | | o]; try reflexivity.
    exfalso. exact (Hdata o eq_refl).
Qed.

(** X10. An item of the [with] clause that does not implement the option
    interface of the builtin is never accepted: the call does not
    return, whatever its arguments evaluate to. This holds for the five
    source builtins with options, [local] among them, which asserts the
    items it then drops, and for [run], [mkfile], [rm] and [copy]. *)
Theorem wrong_option_kind (typ : ObjType) (call : CallStmt) (ac : aliasCallback)
  (iopts : list llb.Opt) (k : llb.OptionKind) (w w1 : world) :
  emitWithOption scope call (CallStmt_WithOpt call) ac w = (Ok iopts, w1) ->
  Exists (fun o => llb.implements o k = false) iopts ->
  (sourceOptionKind (Name (CallStmt_Func call)) = Some k ->
   forall st w', emitFilesystemSourceStmt scope call ac w <> (Ok st, w'))
  /\ (chainOptionKind (Name (CallStmt_Func call)) = Some k ->
      forall so w', emitFilesystemChainStmt scope typ call ac w <> (Ok so, w')).
Proof.
  intros Hclause Hwrong.
  assert (Hassert : forall w0 opts w0', assertOpts k iopts w0 <> (Ok opts, w0')).
  { intros w0 opts w0' Hok. rewrite (assertOpts_wrong _ _ _ Hwrong) in Hok. discriminate Hok. }
  split.
  - intros Hkind st w' Hrun. unfold emitFilesystemSourceStmt in Hrun.
    rewrite (bind_Ok _ _ _ _ _ Hclause) in Hrun.
    unfold sourceOptionKind in Hkind. cbn [switch] in Hkind.
    kind_case Hkind Hrun Hassert.
  - intros Hkind so w' Hrun. unfold emitFilesystemChainStmt in Hrun.
    rewrite (bind_Ok _ _ _ _ _ Hclause) in Hrun.
    unfold chainOptionKind in Hkind. cbn [switch] in Hkind.
    kind_case Hkind Hrun Hassert.
Qed.

End FurtherClauses.

(** [env "K" "V" with option { }] *)
Lemma with_block_unsupported_witness :
  @emitFilesystemChainStmt (reference.externals 1) emptyScope Filesystem
    (callWith "env" [NewStringExpr "K"; NewStringExpr "V"] (NewWithFuncLit []))
    noopAliasCallback world0
  = (Panic (Explicit "call stmt does not support options"), world0).
Proof.
  apply (proj2 (@with_block_unsupported (reference.externals 1) emptyScope Filesystem
                  (callWith "env" [NewStringExpr "K"; NewStringExpr "V"] (NewWithFuncLit []))
                  (NewWithFuncLit []) (NewFuncLit Option []) noopAliasCallback world0
                  eq_refl eq_refl eq_refl eq_refl)).
Defined.

(** [image "alpine" with missing] *)
Lemma with_ident_resolution_witness :
  @emitFilesystemSourceStmt (reference.externals 1) emptyScope
    (callWith "image" [NewStringExpr "alpine"] (NewWithIdent "missing"))
    noopAliasCallback world0
  = (Panic NilDereference, world0).
Proof.
  destruct (@with_ident_resolution (reference.externals 1) emptyScope Filesystem
              (callWith "image" [NewStringExpr "alpine"] (NewWithIdent "missing"))
              (NewWithIdent "missing") (NewIdent "missing") noopAliasCallback world0
              eq_refl eq_refl) as (Hunbound & _ & _).
  exact (proj1 (Hunbound eq_refl)).
Defined.

(** [image "alpine" with opts], where [opts] is the option [keepGitDir]
    of [git]. *)
Lemma wrong_option_kind_witness :
  llb.implements llb.KeepGitDir llb.ImageOption = false
  /\ forall st w',
       @emitFilesystemSourceStmt (reference.externals 1) optionScope
         (callWith "image" [NewStringExpr "alpine"] (NewWithIdent "opts"))
         noopAliasCallback world0
       <> (Ok st, w').
Proof.
  split; [reflexivity |].
  apply (proj1 (@wrong_option_kind (reference.externals 1) optionScope Filesystem
                  (callWith "image" [NewStringExpr "alpine"] (NewWithIdent "opts"))
                  noopAliasCallback [llb.KeepGitDir] llb.ImageOption world0 world0
                  eq_refl (Exists_cons_hd _ llb.KeepGitDir [] eq_refl))).
  reflexivity.
Defined.

(** ** The loops that fold their statements into one item *)

(** A switch holds of a property that every case has under the
    assumption that its key is the string, and that the default has
    under the assumption that no key is. *)
Lemma switch_cases {A : Type} (P : A -> Prop) (x : string) (cases : list (string * A))
  (d : A) :
  List.Forall (fun p => x = fst p -> P (snd p)) cases ->
  (List.Forall (fun p => x <> fst p) cases -> P d) ->
  P (switch x cases d).
Proof.
  induction cases as [| [k a] cases IH]; intros Hcases Hd.
  - apply Hd. constructor.
  - cbn [switch]. inversion Hcases as [| ? ? Hhead Htail]; subst.
    destruct (String.eqb x k) eqn:Hk.
    + apply String.eqb_eq in Hk. exact (Hhead Hk).
    + apply String.eqb_neq in Hk. apply IH; [exact Htail |].
      intros Hne. apply Hd. constructor; [exact Hk | exact Hne].
Qed.

Section FurtherFolds.

Context `{Externals}.
Variable scope : Scope.

(** What a loop reaches once, it keeps: a property of the accumulator
    that every step preserves, and that a step on a statement of a
    certain kind establishes, holds at the end of a loop that started
    with it or that met such a statement. *)
Lemma forStmts_reaches {S : Type} (body : CallStmt -> S -> M S) (P : S -> Prop)
  (Q : CallStmt -> Prop) :
  (forall call s w s' w', body call s w = (Ok s', w') -> P s \/ Q call -> P s') ->
  forall stmts s w r w1,
    forStmts body stmts s w = (Ok r, w1) ->
    P s \/ Exists (fun stmt => exists c, Stmt_Call stmt = Some c /\ Q c) stmts ->
    P r.
Proof.
  intros Hstep stmts. induction stmts as [| stmt stmts IH]; intros s w r w1 Hrun Hstart.
  - cbn in Hrun. injection Hrun as <- _.
    destruct Hstart as [Hs | Hex]; [exact Hs | inversion Hex].
  - cbn [forStmts] in Hrun. destruct (Stmt_Call stmt) as [call |] eqn:Hcall.
    + apply bind_Ok_inv in Hrun as (s' & w2 & Hbody & Hrun).
      apply (IH _ _ _ _ Hrun).
      destruct Hstart as [Hs | Hex].
      * left. apply (Hstep _ _ _ _ _ Hbody). left. exact Hs.
      * inversion Hex as [? ? (c & Hc & Hq) | ? ? Htail]; subst.
        -- left. apply (Hstep _ _ _ _ _ Hbody). right.
           rewrite Hcall in Hc. injection Hc as <-. exact Hq.
        -- right. exact Htail.
    + apply (IH _ _ _ _ Hrun). destruct Hstart as [Hs | Hex]; [left; exact Hs |].
      inversion Hex as [? ? (c & Hc & _) | ? ? Htail]; subst.
      * rewrite Hcall in Hc. discriminate Hc.
      * right. exact Htail.
Qed.

(** X11. The options of [copy] start with the one [llb.CopyInfo] the loop has
    filled in, whatever the statements are; and a flag that is set again
    takes the later value: appending a flag statement to the statements
    changes that flag of the [CopyInfo] and nothing else. *)
Theorem copy_flags (op : string) (stmts : list Stmt) (items : list llb.Opt) (w w1 : world) :
  emitCopyOptions scope op stmts w = (Ok items, w1) ->
  exists cp opts,
    items = llb.CopyInfoOpt cp :: opts
    /\ forall stmt call v cp' w2,
         Stmt_Call stmt = Some call ->
         setCopyFlag (Name (CallStmt_Func call)) v cp = Some cp' ->
         maybeEmitBoolExpr scope (CallStmt_Args call) w1 = (Ok v, w2) ->
         emitCopyOptions scope op (stmts ++ [stmt]) w
         = (Ok (llb.CopyInfoOpt cp' :: opts), w2).
Proof.
  unfold emitCopyOptions. intros Hrun.
  apply bind_Ok_inv in Hrun as ([cp opts] & w1' & Hloop & Hret).
  cbn in Hret. injection Hret as <- <-.
  exists cp, opts. split; [reflexivity |].
  intros stmt call v cp' w2 Hcall Hflag Hbool.
  etransitivity; [apply bind_ext; [intros w0; apply forStmts_app | reflexivity] |].
  rewrite bind_assoc, (bind_Ok _ _ _ _ _ Hloop).
  cbn [forStmts]. rewrite Hcall. cbv zeta. cbn [fst snd].
  unfold setCopyFlag in Hflag. cbn [switch] in Hflag |- *.
  repeat match type of Hflag with
         | (if String.eqb ?n ?s then _ else _) = _ =>
             destruct (String.eqb n s);
             [injection Hflag as <-; rewrite !bind_assoc, (bind_Ok _ _ _ _ _ Hbool);
              reflexivity |]
         end.
  discriminate Hflag.
Qed.

(** The items a loop has collected: what every statement has added, in
    the order of the statements. *)
Lemma forStmts_collects {S : Type} (body : CallStmt -> S -> M S) (out : S -> list llb.Opt)
  (added_by : Stmt -> list llb.Opt -> Prop) :
  (forall stmt call s w s' w',
      Stmt_Call stmt = Some call -> body call s w = (Ok s', w') ->
      exists added, out s' = out s ++ added /\ added_by stmt added) ->
  (forall stmt, Stmt_Call stmt = None -> added_by stmt []) ->
  forall stmts s w r w1,
    forStmts body stmts s w = (Ok r, w1) ->
    exists addeds, Forall2 added_by stmts addeds /\ out r = out s ++ concat addeds.
Proof.
  intros Hstep Hnone stmts.
  induction stmts as [| stmt stmts IH]; intros s w r w1 Hrun.
  - cbn in Hrun. injection Hrun as <- _. exists []. split; [constructor |].
    cbn. rewrite app_nil_r. reflexivity.
  - cbn [forStmts] in Hrun. destruct (Stmt_Call stmt) as [call |] eqn:Hcall.
    + apply bind_Ok_inv in Hrun as (s' & w2 & Hbody & Hrun).
      destruct (Hstep _ _ _ _ _ _ Hcall Hbody) as (added & Hout & Hadded).
      destruct (IH _ _ _ _ Hrun) as (addeds & Hall & Hr).
      exists (added :: addeds). split; [constructor; assumption |].
      rewrite Hr, Hout. cbn [concat]. rewrite app_assoc. reflexivity.
    + destruct (IH _ _ _ _ Hrun) as (addeds & Hall & Hr).
      exists ([] :: addeds). split; [constructor; [apply Hnone, Hcall | exact Hall] |].
      exact Hr.
Qed.

(** Whether a loop has met a statement of a certain kind. *)
Lemma forStmts_met {S : Type} (body : CallStmt -> S -> M S) (flag : S -> bool)
  (sets : CallStmt -> bool) :
  (forall call s w s' w', body call s w = (Ok s', w') -> flag s' = flag s || sets call) ->
  forall stmts s w r w1,
    forStmts body stmts s w = (Ok r, w1) ->
    flag r = true
    <-> flag s = true \/ Exists (fun stmt => exists c, Stmt_Call stmt = Some c /\ sets c = true) stmts.
Proof.
  intros Hstep stmts.
  induction stmts as [| stmt stmts IH]; intros s w r w1 Hrun.
  - cbn in Hrun. injection Hrun as <- _. split; [left; assumption |].
    intros [Hs | Hex]; [exact Hs | inversion Hex].
  - cbn [forStmts] in Hrun. destruct (Stmt_Call stmt) as [call |] eqn:Hcall.
    + apply bind_Ok_inv in Hrun as (s' & w2 & Hbody & Hrun).
      rewrite (IH _ _ _ _ Hrun), (Hstep _ _ _ _ _ Hbody). split.
      * intros [Hs | Hex].
        -- apply orb_true_iff in Hs as [Hs | Hc]; [left; exact Hs |].
           right. apply Exists_cons_hd. exists call. split; [exact Hcall | exact Hc].
        -- right. apply Exists_cons_tl, Hex.
      * intros [Hs | Hex]; [left; rewrite Hs; reflexivity |].
        inversion Hex as [? ? (c & Hc & Hsets) | ? ? Htail]; subst.
        -- left. rewrite Hcall in Hc. injection Hc as <-. rewrite Hsets.
           apply orb_true_r.
        -- right. exact Htail.
    + rewrite (IH _ _ _ _ Hrun). split.
      * intros [Hs | Hex]; [left; exact Hs | right; apply Exists_cons_tl, Hex].
      * intros [Hs | Hex]; [left; exact Hs |].
        inversion Hex as [? ? (c & Hc & _) | ? ? Htail]; subst.
        -- rewrite Hcall in Hc. discriminate Hc.
        -- right. exact Htail.
Qed.

Lemma arg_Ok_inv (args : list Expr) (i : nat) (a : Expr) (w w' : world) :
  arg args i w = (Ok a, w') -> args !! i = Some a /\ w' = w.
Proof.
  unfold arg, index. destruct (args !! i) as [a' |]; [| discriminate].
  cbn. intros Heq. injection Heq as <- <-. split; reflexivity.
Qed.

(** X12. The options of [ssh] are the items its statements add, in
    their order, followed by one socket option when a statement sets a
    field, and by nothing otherwise: the statements that set a field
    add no item of their own, however many they are and wherever they
    stand, and the one socket option carries the last value of each
    field. A field statement at the end leaves the items before the
    socket option as they are and changes its own field only. The same
    holds of the options of [secret] and their one file option. *)
Theorem socket_option_last (op : string) (stmts : list Stmt) (items : list llb.Opt)
  (w w1 : world) :
  (emitSSHOptions scope op stmts w = (Ok items, w1) ->
   exists addeds sopt,
     Forall2 (adds scope sshFields llb.SSHID op) stmts addeds
     /\ items = concat addeds ++ match sopt with Some o => [socketItem o] | None => [] end
     /\ (is_Some sopt <-> Exists (setsField sshFields) stmts)
     /\ (forall stmt call a0 target w2,
           Stmt_Call stmt = Some call ->
           Name (CallStmt_Func call) = "target" ->
           CallStmt_Args call !! 0%nat = Some a0 ->
           emitStringExpr scope call a0 w1 = (Ok target, w2) ->
           let o := orEmptySsh sopt in
           emitSSHOptions scope op (stmts ++ [stmt]) w
           = (Ok (concat addeds
                  ++ [socketItem (mkSshSocketOpt target (ssh_uid o) (ssh_gid o) (ssh_mode o))]),
              w2))
     /\ (forall stmt call a0 n o' w2,
           Stmt_Call stmt = Some call ->
           setSshInt (Name (CallStmt_Func call)) n (orEmptySsh sopt) = Some o' ->
           CallStmt_Args call !! 0%nat = Some a0 ->
           emitIntExpr scope a0 w1 = (Ok n, w2) ->
           emitSSHOptions scope op (stmts ++ [stmt]) w
           = (Ok (concat addeds ++ [socketItem o']), w2)))
  /\ (emitSecretOptions scope op stmts w = (Ok items, w1) ->
      exists addeds sopt,
        Forall2 (adds scope secretFields llb.SecretID op) stmts addeds
        /\ items = concat addeds ++ match sopt with Some o => [fileItem o] | None => [] end
        /\ (is_Some sopt <-> Exists (setsField secretFields) stmts)
        /\ (forall stmt call a0 n o' w2,
              Stmt_Call stmt = Some call ->
              setSecretInt (Name (CallStmt_Func call)) n (orEmptySecret sopt) = Some o' ->
              CallStmt_Args call !! 0%nat = Some a0 ->
              emitIntExpr scope a0 w1 = (Ok n, w2) ->
              emitSecretOptions scope op (stmts ++ [stmt]) w
              = (Ok (concat addeds ++ [fileItem o']), w2))).
Proof.
  split.
  - unfold emitSSHOptions. intros Hrun.
    apply bind_Ok_inv in Hrun as ([sopt opts] & w2 & Hloop & Hret).
    match type of Hloop with forStmts ?b _ _ _ = _ => set (body := b) in * end.
    assert (Hstep : forall stmt call s w0 s' w0',
               Stmt_Call stmt = Some call -> body call s w0 = (Ok s', w0') ->
               (exists added, snd s' = snd s ++ added
                              /\ adds scope sshFields llb.SSHID op stmt added)
               /\ notNil (fst s')
                  = notNil (fst s)
                    || existsb (String.eqb (Name (CallStmt_Func call))) sshFields).
    { clear. intros stmt call [sopt opts] w [sopt' opts'] w' Hcall. subst body.
      cbv beta zeta. cbn [fst snd]. unfold adds. rewrite Hcall. cbv zeta.
      apply (switch_cases
               (fun m => m w = (Ok (sopt', opts'), w') ->
                         (exists added, opts' = opts ++ added /\ _) /\ _)).
      - repeat (constructor; [cbn [fst snd]; intros Hname Hbody; rewrite Hname |]);
          try lazymatch goal with |- List.Forall _ [] => constructor end;
          apply bind_Ok_inv in Hbody as (a0 & wa & Harg & Hbody);
          apply arg_Ok_inv in Harg as [Harg ->];
          apply bind_Ok_inv in Hbody as (x & wb & Hx & Hbody);
          cbn in Hbody; injection Hbody as <- <- <-;
          (split; [| cbn; rewrite ?orb_true_r, ?orb_false_r; reflexivity]).
        + exists []. rewrite app_nil_r. split; reflexivity.
        + exists [llb.SSHID x]. split; [reflexivity |]. cbn.
          exists a0, x, w, wb. repeat split; assumption.
        + exists []. rewrite app_nil_r. split; reflexivity.
        + exists []. rewrite app_nil_r. split; reflexivity.
        + exists []. rewrite app_nil_r. split; reflexivity.
      - intros Hne Hbody.
        apply bind_Ok_inv in Hbody as (opts1 & wa & Hdef & Hbody).
        cbn in Hbody. injection Hbody as <- <- <-.
        unfold defaultOption in Hdef.
        apply bind_Ok_inv in Hdef as (iopts & wb & Hexpr & Hdef).
        cbn in Hdef. injection Hdef as <- <-.
        assert (Hnames : existsb (String.eqb (Name (CallStmt_Func call))) sshFields = false
                         /\ String.eqb (Name (CallStmt_Func call)) "id" = false).
        { repeat (apply List.Forall_cons_iff in Hne as [?Hk Hne]).
          cbn [fst] in *. cbn [existsb sshFields].
          repeat match goal with
                 | Hk : _ <> _ |- _ => apply String.eqb_neq in Hk; rewrite Hk; clear Hk
                 end.
          split; reflexivity. }
        destruct Hnames as [Hf Hid]. rewrite Hf, Hid. split.
        + exists iopts. split; [reflexivity |]. exists w, wb. exact Hexpr.
        + rewrite orb_false_r. reflexivity. }
    destruct (forStmts_collects body snd (adds scope sshFields llb.SSHID op)
                (fun stmt call s w0 s' w0' Hc Hb => proj1 (Hstep stmt call s w0 s' w0' Hc Hb))
                (fun stmt Hc => ltac:(unfold adds; rewrite Hc; reflexivity))
                _ _ _ _ _ Hloop) as (addeds & Hadds & Hopts).
    cbn [snd app] in Hopts. subst opts.
    pose proof (forStmts_met body (fun s => notNil (fst s))
                  (fun c => existsb (String.eqb (Name (CallStmt_Func c))) sshFields)) as Hmet.
    assert (Hw : w2 = w1)
      by (cbn [fst] in Hret; destruct sopt; cbn in Hret; injection Hret as _ Hw; exact Hw).
    subst w2.
    exists addeds, sopt. split; [exact Hadds |]. split; [| split; [| split]].
    + cbn [fst snd] in Hret. destruct sopt; cbn in Hret; injection Hret as <-.
      * reflexivity.
      * rewrite app_nil_r. reflexivity.
    + pose proof (Hmet (fun call s w0 s' w0' Hb =>
                          proj2 (Hstep (mkStmt noPosition (Some call) None None) call s w0 s' w0'
                                   eq_refl Hb)) _ _ _ _ _ Hloop) as Hiff.
      cbn beta in Hiff. cbn [fst notNil] in Hiff. split.
      * intros [o ->]. destruct (proj1 Hiff eq_refl) as [Hs | Hs]; [discriminate Hs | exact Hs].
      * intros Hs. destruct sopt; [eexists; reflexivity |].
        discriminate (proj2 Hiff (or_intror Hs)).
    + intros stmt call a0 target w3 Hcall Hname Ha0 Htarget. subst body.
      etransitivity; [apply bind_ext; [intros w0; apply forStmts_app | reflexivity] |].
      rewrite bind_assoc, (bind_Ok _ _ _ _ _ Hloop).
      cbn [forStmts]. rewrite Hcall. cbv zeta. cbn [fst snd]. rewrite Hname. switch_case.
      unfold arg, index. rewrite Ha0. rewrite !bind_assoc, bind_ret.
      mstep Htarget. reflexivity.
    + intros stmt call a0 n o' w3 Hcall Hset Ha0 Hn. subst body.
      etransitivity; [apply bind_ext; [intros w0; apply forStmts_app | reflexivity] |].
      rewrite bind_assoc, (bind_Ok _ _ _ _ _ Hloop).
      cbn [forStmts]. rewrite Hcall. cbv zeta. cbn [fst snd].
      unfold setSshInt in Hset.
      revert Hset. apply (switch_cases (fun r => r = Some o' -> _)).
      * repeat (constructor; [cbn [fst snd]; intros Hname Ho; rewrite Hname;
                              injection Ho as <-; switch_case;
                              unfold arg, index; rewrite Ha0; rewrite !bind_assoc, bind_ret;
                              mstep Hn; reflexivity |]).
        constructor.
      * intros _ Ho. discriminate Ho.
  - unfold emitSecretOptions. intros Hrun.
    apply bind_Ok_inv in Hrun as ([sopt opts] & w2 & Hloop & Hret).
    match type of Hloop with forStmts ?b _ _ _ = _ => set (body := b) in * end.
    assert (Hstep : forall stmt call s w0 s' w0',
               Stmt_Call stmt = Some call -> body call s w0 = (Ok s', w0') ->
               (exists added, snd s' = snd s ++ added
                              /\ adds scope secretFields llb.SecretID op stmt added)
               /\ notNil (fst s')
                  = notNil (fst s)
                    || existsb (String.eqb (Name (CallStmt_Func call))) secretFields).
    { clear. intros stmt call [sopt opts] w [sopt' opts'] w' Hcall. subst body.
      cbv beta zeta. cbn [fst snd]. unfold adds. rewrite Hcall. cbv zeta.
      apply (switch_cases
               (fun m => m w = (Ok (sopt', opts'), w') ->
                         (exists added, opts' = opts ++ added /\ _) /\ _)).
      - repeat (constructor; [cbn [fst snd]; intros Hname Hbody; rewrite Hname |]);
          try lazymatch goal with |- List.Forall _ [] => constructor end;
          apply bind_Ok_inv in Hbody as (a0 & wa & Harg & Hbody);
          apply arg_Ok_inv in Harg as [Harg ->];
          apply bind_Ok_inv in Hbody as (x & wb & Hx & Hbody);
          cbn in Hbody; injection Hbody as <- <- <-;
          (split; [| cbn; rewrite ?orb_true_r, ?orb_false_r; reflexivity]).
        + exists [llb.SecretID x]. split; [reflexivity |]. cbn.
          exists a0, x, w, wb. repeat split; assumption.
        + exists []. rewrite app_nil_r. split; reflexivity.
        + exists []. rewrite app_nil_r. split; reflexivity.
        + exists []. rewrite app_nil_r. split; reflexivity.
      - intros Hne Hbody.
        apply bind_Ok_inv in Hbody as (opts1 & wa & Hdef & Hbody).
        cbn in Hbody. injection Hbody as <- <- <-.
        unfold defaultOption in Hdef.
        apply bind_Ok_inv in Hdef as (iopts & wb & Hexpr & Hdef).
        cbn in Hdef. injection Hdef as <- <-.
        assert (Hnames : existsb (String.eqb (Name (CallStmt_Func call))) secretFields = false
                         /\ String.eqb (Name (CallStmt_Func call)) "id" = false).
        { repeat (apply List.Forall_cons_iff in Hne as [?Hk Hne]).
          cbn [fst] in *. cbn [existsb secretFields].
          repeat match goal with
                 | Hk : _ <> _ |- _ => apply String.eqb_neq in Hk; rewrite Hk; clear Hk
                 end.
          split; reflexivity. }
        destruct Hnames as [Hf Hid]. rewrite Hf, Hid. split.
        + exists iopts. split; [reflexivity |]. exists w, wb. exact Hexpr.
        + rewrite orb_false_r. reflexivity. }
    destruct (forStmts_collects body snd (adds scope secretFields llb.SecretID op)
                (fun stmt call s w0 s' w0' Hc Hb => proj1 (Hstep stmt call s w0 s' w0' Hc Hb))
                (fun stmt Hc => ltac:(unfold adds; rewrite Hc; reflexivity))
                _ _ _ _ _ Hloop) as (addeds & Hadds & Hopts).
    cbn [snd app] in Hopts. subst opts.
    pose proof (forStmts_met body (fun s => notNil (fst s))
                  (fun c => existsb (String.eqb (Name (CallStmt_Func c))) secretFields)) as Hmet.
    assert (Hw : w2 = w1)
      by (cbn [fst] in Hret; destruct sopt; cbn in Hret; injection Hret as _ Hw; exact Hw).
    subst w2.
    exists addeds, sopt. split; [exact Hadds |]. split; [| split].
    + cbn [fst snd] in Hret. destruct sopt; cbn in Hret; injection Hret as <-.
      * reflexivity.
      * rewrite app_nil_r. reflexivity.
    + pose proof (Hmet (fun call s w0 s' w0' Hb =>
                          proj2 (Hstep (mkStmt noPosition (Some call) None None) call s w0 s' w0'
                                   eq_refl Hb)) _ _ _ _ _ Hloop) as Hiff.
      cbn beta in Hiff. cbn [fst notNil] in Hiff. split.
      * intros [o ->]. destruct (proj1 Hiff eq_refl) as [Hs | Hs]; [discriminate Hs | exact Hs].
      * intros Hs. destruct sopt; [eexists; reflexivity |].
        discriminate (proj2 Hiff (or_intror Hs)).
    + intros stmt call a0 n o' w3 Hcall Hset Ha0 Hn. subst body.
      etransitivity; [apply bind_ext; [intros w0; apply forStmts_app | reflexivity] |].
      rewrite bind_assoc, (bind_Ok _ _ _ _ _ Hloop).
      cbn [forStmts]. rewrite Hcall. cbv zeta. cbn [fst snd].
      unfold setSecretInt in Hset.
      revert Hset. apply (switch_cases (fun r => r = Some o' -> _)).
      * repeat (constructor; [cbn [fst snd]; intros Hname Ho; rewrite Hname;
                              injection Ho as <-; switch_case;
                              unfold arg, index; rewrite Ha0; rewrite !bind_assoc, bind_ret;
                              mstep Hn; reflexivity |]).
        constructor.
      * intros _ Ho. discriminate Ho.
Qed.

End FurtherFolds.

(** [followSymlinks] and then [followSymlinks false], the options of a
    [copy]. *)
Lemma copy_flags_witness :
  @emitCopyOptions (reference.externals 1) emptyScope "copy"
    ([callOf "followSymlinks" []] ++ [callOf "followSymlinks" [NewBoolExpr false]]) world0
  = (Ok [llb.CopyInfoOpt llb.emptyCopyInfo], world0).
Proof.
  destruct (@copy_flags (reference.externals 1) emptyScope "copy"
              [callOf "followSymlinks" []]
              [llb.CopyInfoOpt (llb.mkCopyInfo true false false false false false)]
              world0 world0 eq_refl)
    as (cp & opts & Hitems & Hlast).
  injection Hitems as <- <-.
  exact (Hlast (callOf "followSymlinks" [NewBoolExpr false])
           (theCall (callOf "followSymlinks" [NewBoolExpr false]))
           false llb.emptyCopyInfo world0 eq_refl eq_refl eq_refl).
Defined.

(** [target "/ssh"; id "key"], the options of an [ssh], and the same
    followed by [uid 7]: the identifier comes first, the one socket
    option last, and the later statement changes its [uid] only. *)
Lemma socket_option_last_witness :
  @emitSSHOptions (reference.externals 1) emptyScope "ssh"
    [callOf "target" [NewStringExpr "/ssh"]; callOf "id" [NewStringExpr "key"]] world0
  = (Ok [llb.SSHID "key"; llb.SSHSocketOpt "/ssh" 0 0 0], world0)
  /\ @emitSSHOptions (reference.externals 1) emptyScope "ssh"
       ([callOf "target" [NewStringExpr "/ssh"]; callOf "id" [NewStringExpr "key"]]
        ++ [callOf "uid" [NewDecimalExpr 7]]) world0
     = (Ok [llb.SSHID "key"; llb.SSHSocketOpt "/ssh" 7 0 0], world0).
Proof.
  split; [reflexivity |].
  destruct (proj1 (@socket_option_last (reference.externals 1) emptyScope "ssh"
                     [callOf "target" [NewStringExpr "/ssh"]; callOf "id" [NewStringExpr "key"]]
                     [llb.SSHID "key"; llb.SSHSocketOpt "/ssh" 0 0 0] world0 world0) eq_refl)
    as (addeds & sopt & _ & Hitems & Hsome & _ & Hint).
  destruct (proj2 Hsome) as [[target uid gid mode] ->].
  { apply Exists_cons_hd.
    exists (theCall (callOf "target" [NewStringExpr "/ssh"])). split; reflexivity. }
  change [llb.SSHID "key"; llb.SSHSocketOpt "/ssh" 0 0 0]
    with ([llb.SSHID "key"] ++ [llb.SSHSocketOpt "/ssh" 0 0 0]) in Hitems.
  apply app_inj_tail in Hitems as [Hfront Hsock].
  unfold socketItem in Hsock. cbn in Hsock. injection Hsock as <- <- <- <-.
  rewrite (Hint (callOf "uid" [NewDecimalExpr 7]) (theCall (callOf "uid" [NewDecimalExpr 7]))
             (NewDecimalExpr 7) 7 (mkSshSocketOpt "/ssh" 7 0 0) world0
             eq_refl eq_refl eq_refl eq_refl).
  rewrite <- Hfront. reflexivity.
Defined.

(** ** The options and the debugger of [Generate] *)

Lemma applyOptions_pre (pre rest : list CodeGenOption) (w : world) :
  Forall (fun opt => forall i, snd (opt i) = None) pre ->
  applyOptions (pre ++ rest) w
  = applyOptions rest
      {| info := applied pre (info w); drawn := drawn w; captured := captured w |}.
Proof.
  intros Hpre. revert w. induction Hpre as [| opt pre Hopt _ IH]; intros w.
  - destruct w. reflexivity.
  - cbn [app applyOptions]. specialize (Hopt (info w)).
    destruct (opt (info w)) as [i err] eqn:Happly. cbn [snd] in Hopt. subst err.
    rewrite IH. unfold applied. cbn [fold_left info drawn captured].
    rewrite Happly. reflexivity.
Qed.

(** X13. The options are applied in order, each to the info the one before
    has left, and the first that fails ends [Generate]: the call returns
    the scratch state with the error of that option and the info as the
    option has left it; the options after it are not applied, and the
    target is not looked up, so the error comes before every error about
    the target. *)
Theorem Generate_option_error `{Externals} (call : CallStmt) (file : File)
  (pre post : list CodeGenOption) (opt : CodeGenOption) (e : error) (w : world) :
  Forall (fun o => forall i, snd (o i) = None) pre ->
  (forall i, snd (opt i) = Some e) ->
  Generate call file (pre ++ opt :: post) w
  = (Ok (llb.Scratch, Some e),
     {| info := fst (opt (applied pre (info (freshWorld w))));
        drawn := drawn w; captured := captured w |}).
Proof.
  intros Hpre Hopt.
  assert (Hopts : applyOptions (pre ++ opt :: post) (freshWorld w)
                  = (Ok (Some e),
                     {| info := fst (opt (applied pre (info (freshWorld w))));
                        drawn := drawn w; captured := captured w |})).
  { rewrite (applyOptions_pre _ _ _ Hpre).
    cbn [applyOptions info drawn captured freshWorld].
    specialize (Hopt (applied pre {| Debug := NewNoopDebugger; Locals := ∅ |})).
    destruct (opt (applied pre {| Debug := NewNoopDebugger; Locals := ∅ |})) as [i err].
    cbn [snd] in Hopt. subst err. reflexivity. }
  unfold Generate.
  rewrite (bind_Ok newInfo _ w (freshWorld w) tt) by reflexivity.
  rewrite (bind_Ok _ _ _ _ _ Hopts). reflexivity.
Qed.

(** An option that fails, between two debuggers. *)
Lemma Generate_option_error_witness :
  @Generate (reference.externals 1) (theCall (callOf "missing" [])) greetFile
    ([WithDebugger NewNoopDebugger]
     ++ failingOption (ErrOther "no") :: [WithDebugger (objecting (ErrOther "stop"))])
    world0
  = (Ok (llb.Scratch, Some (ErrOther "no")), world0).
Proof.
  apply (@Generate_option_error (reference.externals 1) (theCall (callOf "missing" []))
           greetFile [WithDebugger NewNoopDebugger]
           [WithDebugger (objecting (ErrOther "stop"))]
           (failingOption (ErrOther "no")) (ErrOther "no") world0).
  - repeat constructor.
  - reflexivity.
Defined.

(** X14. [WithDebugger] installs its debugger in place of the one before it
    and leaves the rest of the info. [Generate] looks the target up
    first, so an unknown target is reported whatever the debugger would
    say; it then shows the debugger the file, with no value, before it
    looks at what the target is bound to, and an objection of the
    debugger is what the call returns, with the scratch state, for a
    target of any kind. *)
Theorem Generate_debugger `{Externals} (call : CallStmt) (file : File)
  (pre : list CodeGenOption) (d : Debugger) (w : world) :
  Forall (fun o => forall i, snd (o i) = None) pre ->
  let w1 := {| info := {| Debug := d;
                          Locals := Locals (applied pre (info (freshWorld w))) |};
               drawn := drawn w; captured := captured w |} in
  (Lookup (File_Scope file) (Name (CallStmt_Func call)) = None ->
   Generate call file (pre ++ [WithDebugger d]) w
   = (Ok (llb.Scratch, Some (ErrUnknownTarget (Name (CallStmt_Func call)))), w1))
  /\ (forall obj e,
        Lookup (File_Scope file) (Name (CallStmt_Func call)) = Some obj ->
        d (File_Scope file) (Debug_File file) VNil = Some e ->
        Generate call file (pre ++ [WithDebugger d]) w = (Ok (llb.Scratch, Some e), w1)).
Proof.
  intros Hpre w1.
  assert (Hopts : applyOptions (pre ++ [WithDebugger d]) (freshWorld w) = (Ok None, w1)).
  { rewrite (applyOptions_pre _ _ _ Hpre). reflexivity. }
  unfold Generate.
  rewrite (bind_Ok newInfo _ w (freshWorld w) tt) by reflexivity.
  rewrite (bind_Ok _ _ _ _ _ Hopts).
  split.
  - intros Hlook. rewrite Hlook. reflexivity.
  - intros obj e Hlook Hd. rewrite Hlook.
    rewrite (bind_Ok (callDebug _ _ _) _ w1 w1 (Some e))
      by (unfold callDebug; cbn [info Debug w1]; rewrite Hd; reflexivity).
    reflexivity.
Qed.

(** The string function [greet] as the target, and a debugger that
    objects: the objection comes before the invalid target. *)
Lemma Generate_debugger_witness :
  @Generate (reference.externals 1) (theCall (callOf "greet" [])) greetFile
    ([] ++ [WithDebugger (objecting (ErrOther "stop"))]) world0
  = (Ok (llb.Scratch, Some (ErrOther "stop")),
     mkWorld (mkCodeGenInfo (objecting (ErrOther "stop")) ∅) 0 []).
Proof.
  apply (proj2 (@Generate_debugger (reference.externals 1) (theCall (callOf "greet" []))
                  greetFile [] (objecting (ErrOther "stop")) world0 (Forall_nil_2 _))
           (mkObject DeclKind (Node_FuncDecl (funcOf Str "greet" None)) VNil)
           (ErrOther "stop")).
  - reflexivity.
  - reflexivity.
Defined.

(** ** Blocks, statement by statement *)

Section FurtherBlocks.

Context `{Externals}.
Variable scope : Scope.

(** X15. A block is evaluated statement by statement: once a block holds a
    statement that is no debug call, the statements appended to it are
    chained onto its value, and the block with them evaluates as the
    block without them followed by the second loop on them. *)
Theorem emitBlock_incremental (typ : ObjType) (stmts more : list Stmt) (ac : aliasCallback)
  (w : world) :
  Exists evaluated stmts ->
  emitBlock scope typ (stmts ++ more) ac w
  = (v <- emitBlock scope typ stmts ac ;; chainStmts scope typ ac more v) w.
Proof. apply emitBlock_append. Qed.

End FurtherBlocks.

(** [image "alpine"], and then [env "A" "B"]. *)
Lemma emitBlock_incremental_witness :
  @emitBlock (reference.externals 1) emptyScope Filesystem
    ([callOf "image" [NewStringExpr "alpine"]]
     ++ [callOf "env" [NewStringExpr "A"; NewStringExpr "B"]])
    noopAliasCallback world0
  = (Ok (VState (llb.StAddEnv (llb.Image "alpine" []) "A" "B")), world0).
Proof.
  etransitivity.
  - apply (@emitBlock_incremental (reference.externals 1) emptyScope Filesystem
             [callOf "image" [NewStringExpr "alpine"]]).
    apply Exists_cons_hd.
    exists (theCall (callOf "image" [NewStringExpr "alpine"])). split; reflexivity.
  - reflexivity.
Defined.

(** ** Statements the evaluator has no case for *)

Section FurtherStatements.

Context `{Externals}.
Variable scope : Scope.

(** X16. A chain statement whose name is none of the nine chain builtins, a
    call of a function of the program for one, is no error: the state
    option that [emitFilesystemChainStmt] returns for it is the nil
    function, and the function that [emitChainStmt] makes of it panics
    when it is applied. So a block panics on such a statement after the
    statements before it have been evaluated and the debugger has been
    shown it. *)
Theorem unknown_chain_stmt (typ : ObjType) (call : CallStmt) (ac : aliasCallback) :
  CallStmt_WithOpt call = None ->
  existsb (String.eqb (Name (CallStmt_Func call))) chainNames = false ->
  (forall w, emitFilesystemChainStmt scope typ call ac w = (Ok None, w))
  /\ (forall w,
        exists chain,
          emitChainStmt scope Filesystem call ac w = (Ok chain, w)
          /\ forall st w', chain (VState st) w' = (Panic NilFuncCall, w'))
  /\ (forall stmts stmt st w w1,
        Stmt_Call stmt = Some call ->
        IsDebug (Name (CallStmt_Func call)) = false ->
        Exists evaluated stmts ->
        emitBlock scope Filesystem stmts ac w = (Ok (VState st), w1) ->
        Debug (info w1) scope (Debug_CallStmt call) (VState st) = None ->
        emitBlock scope Filesystem (stmts ++ [stmt]) ac w = (Panic NilFuncCall, w1)).
Proof.
  intros Hwith Hname.
  assert (Hnil : forall typ0 w, emitFilesystemChainStmt scope typ0 call ac w = (Ok None, w)).
  { intros typ0 w. unfold emitFilesystemChainStmt. rewrite Hwith. cbn [emitWithOption].
    rewrite bind_ret.
    cbn [existsb chainNames] in Hname.
    repeat (apply orb_false_elim in Hname as [? Hname]).
    cbn [switch].
    repeat match goal with
           | Hk : String.eqb _ _ = false |- _ => rewrite Hk; clear Hk
           end.
    reflexivity. }
  assert (Hchain : forall w,
             exists chain,
               emitChainStmt scope Filesystem call ac w = (Ok chain, w)
               /\ forall st w', chain (VState st) w' = (Panic NilFuncCall, w')).
  { intros w. unfold emitChainStmt. rewrite switch_hit.
    rewrite (bind_Ok _ _ _ _ _ (Hnil Filesystem w)).
    eexists. split; [reflexivity |]. intros st w'. reflexivity. }
  split; [apply Hnil |]. split; [exact Hchain |].
  intros stmts stmt st w w1 Hstmt Hdebug Hex Hblock Hsilent.
  rewrite emitBlock_append by exact Hex.
  rewrite (bind_Ok _ _ _ _ _ Hblock).
  cbn [chainStmts]. rewrite Hstmt. cbn [deref]. rewrite bind_ret, Hdebug.
  rewrite (bind_Ok _ _ _ _ _ (debug_Ok scope _ _ w1 Hsilent)).
  destruct (Hchain w1) as (chain & Hemit & Happly).
  rewrite (bind_Ok _ _ _ _ _ Hemit).
  apply bind_Panic, Happly.
Qed.

(** X17. A source statement that names no builtin is looked up in the scope.
    Where the name is bound nowhere the block panics with the name for
    its message. Where it is bound to a parameter, the data of the
    parameter is the value of the statement, whatever the arguments of
    the call are; an [fs] block of that one statement returns the data
    when it is a filesystem state and panics on the type assertion of
    [emitFilesystemBlock] when it is anything else. *)
Theorem parameter_as_source (stmt : Stmt) (call : CallStmt) (ac : aliasCallback) (w : world) :
  Stmt_Call stmt = Some call ->
  IsDebug (Name (CallStmt_Func call)) = false ->
  IsBuiltin Filesystem (Name (CallStmt_Func call)) = false ->
  Debug (info w) scope (Debug_CallStmt call) (VState llb.Scratch) = None ->
  CallStmt_Alias call = None ->
  (Lookup scope (Name (CallStmt_Func call)) = None ->
   emitFilesystemBlock scope [stmt] ac w = (Panic (Explicit (Name (CallStmt_Func call))), w))
  /\ (forall obj f,
        Lookup scope (Name (CallStmt_Func call)) = Some obj ->
        Object_Node obj = Node_Field f ->
        emitFilesystemBlock scope [stmt] ac w
        = (match Object_Data obj with
           | VState st => Ok st
           | _ => Panic TypeAssertion
           end, w)).
Proof.
  intros Hstmt Hdebug Hbuiltin Hsilent Halias.
  assert (Hhead : emitBlock scope Filesystem [stmt] ac w
                  = (v <- emitSourceStmt scope Filesystem call ac ;;
                     reportAlias ac call v ;;
                     chainStmts scope Filesystem ac [] v) w).
  { unfold emitBlock. cbn [skipDebugs]. rewrite Hstmt. cbn [deref].
    rewrite !bind_assoc, !bind_ret, Hdebug, bind_ret.
    unfold index. cbn [lookup list_lookup]. rewrite bind_ret, Hstmt. cbn [deref].
    rewrite bind_ret.
    rewrite (bind_Ok _ _ _ _ _ (debug_Ok scope _ _ w Hsilent)). reflexivity. }
  unfold emitFilesystemBlock. split.
  - intros Hlook. apply bind_Panic. rewrite Hhead. apply bind_Panic.
    unfold emitSourceStmt. rewrite Hbuiltin, Hlook. reflexivity.
  - intros obj f Hlook Hnode.
    assert (Hblock : emitBlock scope Filesystem [stmt] ac w = (Ok (Object_Data obj), w)).
    { rewrite Hhead.
      rewrite (bind_Ok _ _ w w (Object_Data obj))
        by (unfold emitSourceStmt; rewrite Hbuiltin, Hlook, Hnode; reflexivity).
      unfold reportAlias. rewrite Halias. reflexivity. }
    rewrite (bind_Ok _ _ _ _ _ Hblock).
    destruct (Object_Data obj); reflexivity.
Qed.

End FurtherStatements.

(** [image "alpine"], and then [sshKeyScan "github.com"], a call of a
    function of the program. *)
Lemma unknown_chain_stmt_witness :
  @emitBlock (reference.externals 1) emptyScope Filesystem
    ([callOf "image" [NewStringExpr "alpine"]]
     ++ [callOf "sshKeyScan" [NewStringExpr "github.com"]])
    noopAliasCallback world0
  = (Panic NilFuncCall, world0).
Proof.
  apply (proj2 (proj2 (@unknown_chain_stmt (reference.externals 1) emptyScope Filesystem
                         (theCall (callOf "sshKeyScan" [NewStringExpr "github.com"]))
                         noopAliasCallback eq_refl eq_refl))
           [callOf "image" [NewStringExpr "alpine"]]
           (callOf "sshKeyScan" [NewStringExpr "github.com"])
           (llb.Image "alpine" []) world0 world0).
  - reflexivity.
  - reflexivity.
  - apply Exists_cons_hd.
    exists (theCall (callOf "image" [NewStringExpr "alpine"])). split; reflexivity.
  - reflexivity.
  - reflexivity.
Defined.

(** The block [src] of a function whose parameter [src] holds a string. *)
Lemma parameter_as_source_witness :
  @emitFilesystemBlock (reference.externals 1) parameterScope [callOf "src" []]
    noopAliasCallback world0
  = (Panic TypeAssertion, world0).
Proof.
  exact (proj2 (@parameter_as_source (reference.externals 1) parameterScope
                  (callOf "src" []) (theCall (callOf "src" [])) noopAliasCallback world0
                  eq_refl eq_refl eq_refl eq_refl eq_refl)
           (mkObject FieldKind (Node_Field (NewField Filesystem "src" false))
              (VString "context"))
           (NewField Filesystem "src" false) eq_refl eq_refl).
Defined.

(** ** Arguments *)

(** Read the bounds off the arguments a computation has indexed. *)
Ltac arg_bounds :=
  repeat match goal with
         | Harg : arg ?args ?i _ = (Ok _, _) |- _ =>
             unfold arg, index in Harg;
             let Hl := fresh "Hl" in
             destruct (args !! i) eqn:Hl;
             [apply lookup_lt_Some in Hl; clear Harg | discriminate Harg]
         end.

(** Go through the builtins of a table of arities: on each, select the
    case of the builtin, run it to its end and compare the arguments it
    has indexed with the arguments there are. *)
Ltac arity_case Hkind Hrun :=
  repeat match type of Hkind with
         | (if String.eqb ?n ?s then _ else _) = _ =>
             let E := fresh "E" in
             destruct (String.eqb n s) eqn:E;
             [ apply String.eqb_eq in E; rewrite E in Hrun;
               repeat first [rewrite switch_hit in Hrun
                            | rewrite switch_skip in Hrun by reflexivity];
               injection Hkind as <-;
               repeat (apply bind_Ok_inv in Hrun as (? & ? & ? & Hrun));
               arg_bounds; lia
             | ]
         end;
  discriminate Hkind.

Ltac arity_now Hkind :=
  repeat match type of Hkind with
         | (if String.eqb ?n ?s then _ else _) = _ =>
             let E := fresh "E" in
             destruct (String.eqb n s) eqn:E;
             [ apply String.eqb_eq in E; rewrite E;
               repeat first [rewrite switch_hit | rewrite switch_skip by reflexivity];
               reflexivity
             | ]
         end;
  discriminate Hkind.

Section FurtherArguments.

Context `{Externals}.
Variable scope : Scope.

(** X18. A builtin that is called with fewer arguments than it reads by
    position never returns a value, as a source statement of an [fs] or
    of a [string] block and as a chain statement: it indexes past the
    arguments. With no argument at all and no [with] clause it panics on
    the spot, before anything is evaluated. *)
Theorem missing_arguments (typ : ObjType) (call : CallStmt) (ac : aliasCallback) (n : nat)
  (w : world) :
  (length (CallStmt_Args call) < n)%nat ->
  let name := Name (CallStmt_Func call) in
  (sourceArity name = Some n ->
   forall st w', emitFilesystemSourceStmt scope call ac w <> (Ok st, w'))
  /\ (stringArity name = Some n ->
      forall s w', emitStringSourceStmt scope call ac w <> (Ok s, w'))
  /\ (chainArity name = Some n ->
      forall so w', emitFilesystemChainStmt scope typ call ac w <> (Ok so, w'))
  /\ (CallStmt_WithOpt call = None -> CallStmt_Args call = [] ->
      (sourceArity name = Some n ->
       emitFilesystemSourceStmt scope call ac w = (Panic IndexOutOfRange, w))
      /\ (stringArity name = Some n ->
          emitStringSourceStmt scope call ac w = (Panic IndexOutOfRange, w))
      /\ (chainArity name = Some n ->
          emitFilesystemChainStmt scope typ call ac w = (Panic IndexOutOfRange, w))).
Proof.
  intros Hlen name. subst name. split; [| split; [| split]].
  - intros Hkind st w' Hrun. unfold emitFilesystemSourceStmt in Hrun.
    apply bind_Ok_inv in Hrun as (iopts & w1 & _ & Hrun).
    unfold sourceArity in Hkind. cbn [switch] in Hkind.
    arity_case Hkind Hrun.
  - intros Hkind s w' Hrun. unfold emitStringSourceStmt in Hrun.
    unfold stringArity in Hkind. cbn [switch] in Hkind.
    arity_case Hkind Hrun.
  - intros Hkind so w' Hrun. unfold emitFilesystemChainStmt in Hrun.
    apply bind_Ok_inv in Hrun as (iopts & w1 & _ & Hrun).
    unfold chainArity in Hkind. cbn [switch] in Hkind.
    arity_case Hkind Hrun.
  - intros Hwith Hargs. split; [| split].
    + intros Hkind. unfold emitFilesystemSourceStmt. rewrite Hwith, Hargs.
      cbn [emitWithOption]. rewrite bind_ret.
      unfold sourceArity in Hkind. cbn [switch] in Hkind.
      arity_now Hkind.
    + intros Hkind. unfold emitStringSourceStmt. rewrite Hargs.
      unfold stringArity in Hkind. cbn [switch] in Hkind.
      arity_now Hkind.
    + intros Hkind. unfold emitFilesystemChainStmt. rewrite Hwith, Hargs.
      cbn [emitWithOption]. rewrite bind_ret.
      unfold chainArity in Hkind. cbn [switch] in Hkind.
      arity_now Hkind.
Qed.

End FurtherArguments.

(** [git "https://example.com/repo.git"], without the reference. *)
Lemma missing_arguments_witness :
  sourceArity "git" = Some 2%nat
  /\ forall st w',
       @emitFilesystemSourceStmt (reference.externals 1) emptyScope
         (theCall (callOf "git" [NewStringExpr "https://example.com/repo.git"]))
         noopAliasCallback world0
       <> (Ok st, w').
Proof.
  split; [reflexivity |].
  apply (proj1 (@missing_arguments (reference.externals 1) emptyScope Filesystem
                  (theCall (callOf "git" [NewStringExpr "https://example.com/repo.git"]))
                  noopAliasCallback 2 world0 (le_n 2))).
  reflexivity.
Defined.

(** ** Function literals and nested clauses *)

Section FurtherLiterals.

Context `{Externals}.
Variable scope : Scope.

(** X19. [emitFuncLit] dispatches on [Type], the part of the type before the
    separator, and never reads the sub type: a literal of type
    [option::sub] is evaluated by [emitOptions] on the operation the
    caller names, whatever [sub] is, a literal of type [fs::sub] or
    [string::sub] as the block of its statements, and a literal of type
    [int::sub] or [bool::sub] panics. *)
Theorem emitFuncLit_subtype (pos tpos : Position) (sub : string) (body : option BlockStmt)
  (op : string) (ac : aliasCallback) (w : world) :
  let lit (base : ObjType) := mkFuncLit pos (mkType tpos (base +:+ "::" +:+ sub)) body in
  emitFuncLit scope (lit Option) op ac w
  = (opts <- emitOptions scope op (NonEmptyStmts body) ac ;; ret (VOptions opts)) w
  /\ emitFuncLit scope (lit Filesystem) op ac w
     = (st <- emitFilesystemBlock scope (NonEmptyStmts body) ac ;; ret (VState st)) w
  /\ emitFuncLit scope (lit Str) op ac w
     = (s <- emitStringBlock scope (NonEmptyStmts body) ;; ret (VString s)) w
  /\ emitFuncLit scope (lit Int) op ac w = (Panic (Explicit "unimplemented"), w)
  /\ emitFuncLit scope (lit Bool) op ac w = (Panic (Explicit "unimplemented"), w).
Proof.
  intros lit. subst lit. unfold emitFuncLit, Type_Type.
  cbn [FuncLit_Type FuncLit_Body Type_ObjType].
  change ("::" +:+ sub) with (String ":" (String ":" sub)).
  rewrite !beforeColons_prefix by reflexivity.
  repeat split; switch_case; reflexivity.
Qed.

Lemma assertOpts_forallb (k : llb.OptionKind) (iopts : list llb.Opt) (w : world) :
  assertOpts k iopts w
  = (if forallb (fun o => llb.implements o k) iopts then Ok iopts else Panic TypeAssertion, w).
Proof.
  induction iopts as [| o iopts IH]; [reflexivity |].
  cbn [assertOpts forallb]. destruct (llb.implements o k); [| reflexivity].
  cbn [andb]. unfold bind. rewrite IH.
  destruct (forallb (fun o0 => llb.implements o0 k) iopts); reflexivity.
Qed.

(** X20. An option of [run] that has a [with] clause of its own evaluates the
    clause first, then its arguments in order, and hands every item of
    the clause on, in the order of the clause: [mount] to
    [llb.AddMount], [secret] to [llb.AddSecret] and [ssh] to
    [llb.AddSSHSocket]. An item that does not implement the option
    interface of the three makes the statement panic, after the
    arguments have been evaluated. The item of [readonly] is such an
    item: [llb.Readonly] is stored as the plain function it is, so a
    [mount] whose clause holds it panics on the assertion to
    [llb.MountOption]. *)
Theorem nested_options (op : string) (stmt : Stmt) (call : CallStmt) (ac : aliasCallback)
  (iopts : list llb.Opt) (w w1 : world) :
  Stmt_Call stmt = Some call ->
  emitWithOption scope call (CallStmt_WithOpt call) ac w = (Ok iopts, w1) ->
  let accepted (k : llb.OptionKind) (item : llb.Opt) : result error (list llb.Opt) :=
    if forallb (fun o => llb.implements o k) iopts then Ok [item] else Panic TypeAssertion in
  (forall a0 a1 rest input target w2 w3,
      Name (CallStmt_Func call) = "mount" ->
      CallStmt_Args call = a0 :: a1 :: rest ->
      emitFilesystemExpr scope None a0 ac w1 = (Ok input, w2) ->
      emitStringExpr scope call a1 w2 = (Ok target, w3) ->
      emitExecOptions scope op [stmt] ac w
      = (accepted llb.MountOption (llb.AddMount target input iopts), w3)
      /\ (In llb.Readonly iopts ->
          emitExecOptions scope op [stmt] ac w = (Panic TypeAssertion, w3)))
  /\ (forall a0 rest target w2,
        Name (CallStmt_Func call) = "secret" ->
        CallStmt_Args call = a0 :: rest ->
        emitStringExpr scope call a0 w1 = (Ok target, w2) ->
        emitExecOptions scope op [stmt] ac w
        = (accepted llb.SecretOption (llb.AddSecret target iopts), w2))
  /\ (Name (CallStmt_Func call) = "ssh" ->
      emitExecOptions scope op [stmt] ac w
      = (accepted llb.SSHOption (llb.AddSSHSocket iopts), w1)).
Proof.
  intros Hstmt Hclause accepted. subst accepted.
  assert (Hloop : forall w0,
             emitExecOptions scope op [stmt] ac w0
             = (iopts0 <- emitWithOption scope call (CallStmt_WithOpt call) ac ;;
                opts <- execOption scope op ac call iopts0 [] ;;
                ret opts) w0).
  { intros w0. rewrite emitExecOptions_eq. cbn [forStmts]. rewrite Hstmt.
    rewrite bind_assoc. reflexivity. }
  rewrite !Hloop, !(bind_Ok _ _ _ _ _ Hclause). unfold execOption.
  split; [| split].
  - intros a0 a1 rest input target w2 w3 Hname Hargs Hinput Htarget.
    rewrite Hname, Hargs. switch_case. unfold arg, index. cbn [lookup list_lookup].
    rewrite !bind_assoc, bind_ret. mstep Hinput. rewrite !bind_assoc, bind_ret.
    mstep Htarget.
    rewrite ?bind_assoc. unfold bind. rewrite assertOpts_forallb.
    split.
    + destruct (forallb _ iopts); reflexivity.
    + intros Hin. destruct (forallb _ iopts) eqn:Hall; [| reflexivity].
      rewrite forallb_forall in Hall. specialize (Hall _ Hin). discriminate Hall.
  - intros a0 rest target w2 Hname Hargs Htarget.
    rewrite Hname, Hargs. switch_case. unfold arg, index. cbn [lookup list_lookup].
    rewrite !bind_assoc, bind_ret. mstep Htarget.
    rewrite ?bind_assoc. unfold bind. rewrite assertOpts_forallb.
    destruct (forallb _ iopts); reflexivity.
  - intros Hname. rewrite Hname. switch_case.
    rewrite ?bind_assoc. unfold bind. rewrite assertOpts_forallb.
    destruct (forallb _ iopts); reflexivity.
Qed.

End FurtherLiterals.

(** [mount scratch "/m" with option { readonly }], an option of [run]:
    the clause evaluates to the one item of [readonly], and the mount
    panics. *)
Lemma nested_options_witness :
  @emitWithOption (reference.externals 3) emptyScope
    (callWith "mount" [NewIdentExpr "scratch"; NewStringExpr "/m"]
       (NewWithFuncLit [callOf "readonly" []]))
    (Some (NewWithFuncLit [callOf "readonly" []])) noopAliasCallback world0
  = (Ok [llb.Readonly], world0)
  /\ @emitExecOptions (reference.externals 3) emptyScope "run"
       [NewCallStmt "mount" [NewIdentExpr "scratch"; NewStringExpr "/m"]
          (Some (NewWithFuncLit [callOf "readonly" []])) None]
       noopAliasCallback world0
     = (Panic TypeAssertion, world0).
Proof.
  split; [reflexivity |].
  refine (proj2 (proj1 (@nested_options (reference.externals 3) emptyScope "run"
                          (NewCallStmt "mount" [NewIdentExpr "scratch"; NewStringExpr "/m"]
                             (Some (NewWithFuncLit [callOf "readonly" []])) None)
                          (callWith "mount" [NewIdentExpr "scratch"; NewStringExpr "/m"]
                             (NewWithFuncLit [callOf "readonly" []]))
                          noopAliasCallback [llb.Readonly] world0 world0 eq_refl eq_refl)
                   (NewIdentExpr "scratch") (NewStringExpr "/m") [] llb.Scratch "/m"
                   world0 world0 eq_refl eq_refl eq_refl eq_refl) _).
  left. reflexivity.
Defined.

(** The same mount with [tmpfs] in its clause is built with the item. *)
Example mount_tmpfs_option :
  @emitExecOptions (reference.externals 3) emptyScope "run"
    [NewCallStmt "mount" [NewIdentExpr "scratch"; NewStringExpr "/m"]
       (Some (NewWithFuncLit [callOf "tmpfs" []])) None]
    noopAliasCallback world0
  = (Ok [llb.AddMount "/m" llb.Scratch [llb.Tmpfs]], world0).
Proof. reflexivity. Qed.

(** ** The command of [run], read back *)

Lemma append_assoc (a b c : string) : (a +:+ b) +:+ c = a +:+ b +:+ c.
Proof.
  induction a as [| x a IH]; [reflexivity |].
  rewrite !append_cons, IH. reflexivity.
Qed.

Lemma append_nil_r (a : string) : a +:+ EmptyString = a.
Proof.
  induction a as [| x a IH]; [reflexivity |].
  rewrite append_cons, IH. reflexivity.
Qed.

Lemma append_snoc (a : string) (c : ascii) (b : string) :
  (a +:+ str1 c) +:+ b = a +:+ String c b.
Proof. rewrite append_assoc. reflexivity. Qed.

Ltac ascii_cases c := destruct c as [[] [] [] [] [] [] [] []].

(** A character that [quote] writes as it is. *)
Lemma plain_char (c : ascii) :
  ContainsRune shellquote.specialChars c = false ->
  ContainsRune shellquote.extraSpecialChars c = false ->
  Ascii.eqb c squoteChar = false /\ Ascii.eqb c dquoteChar = false
  /\ Ascii.eqb c backslashChar = false /\ ContainsRune shellquote.splitChars c = false.
Proof.
  ascii_cases c; vm_compute; intros H1 H2;
    first [discriminate H1 | discriminate H2 | repeat split; reflexivity].
Qed.

(** A character that [quote] writes after a backslash is no newline. *)
Lemma escaped_char (c : ascii) (atStart : bool) :
  ContainsRune shellquote.specialChars c
  || atStart && ContainsRune shellquote.prefixChars c = true ->
  Ascii.eqb c newlineChar = false.
Proof.
  ascii_cases c; destruct atStart; vm_compute; intros H1;
    first [discriminate H1 | reflexivity].
Qed.

Section Shellquote.

Import shellquote.

Lemma scan_Raw_plain (buf : string) (words : list string) (c : ascii) (rest : string) :
  Ascii.eqb c squoteChar = false -> Ascii.eqb c dquoteChar = false ->
  Ascii.eqb c backslashChar = false -> ContainsRune splitChars c = false ->
  scan Raw buf words (String c rest) = scan Raw (buf +:+ str1 c) words rest.
Proof. intros H1 H2 H3 H4. cbn [scan]. rewrite H1, H2, H3, H4. reflexivity. Qed.

Lemma scan_Raw_backslash (buf : string) (words : list string) (c : ascii) (rest : string) :
  Ascii.eqb c newlineChar = false ->
  scan Raw buf words (String backslashChar (String c rest))
  = scan Raw (buf +:+ str1 c) words rest.
Proof.
  intros Hc.
  change (scan Raw buf words (String backslashChar (String c rest)))
    with (if Ascii.eqb c newlineChar then scan Raw buf words rest
          else scan Raw (buf +:+ str1 c) words rest).
  rewrite Hc. reflexivity.
Qed.

Lemma scan_Raw_squote (buf : string) (words : list string) (rest : string) :
  scan Raw buf words (String squoteChar rest) = scan Single buf words rest.
Proof. reflexivity. Qed.

Lemma scan_Raw_space (buf : string) (words : list string) (rest : string) :
  scan Raw buf words (String spaceChar rest) = scan Between EmptyString (words ++ [buf]) rest.
Proof. reflexivity. Qed.

Lemma scan_Between_plain (words : list string) (c : ascii) (rest : string) :
  Ascii.eqb c squoteChar = false -> Ascii.eqb c dquoteChar = false ->
  Ascii.eqb c backslashChar = false -> ContainsRune splitChars c = false ->
  scan Between EmptyString words (String c rest) = scan Raw (str1 c) words rest.
Proof. intros H1 H2 H3 H4. cbn [scan]. rewrite H1, H2, H3, H4. reflexivity. Qed.

Lemma scan_Between_backslash (words : list string) (c : ascii) (rest : string) :
  Ascii.eqb c newlineChar = false ->
  scan Between EmptyString words (String backslashChar (String c rest))
  = scan Raw (str1 c) words rest.
Proof.
  intros Hc.
  change (scan Between EmptyString words (String backslashChar (String c rest)))
    with (if Ascii.eqb c newlineChar then scan Between EmptyString words rest
          else scan Raw (str1 c) words rest).
  rewrite Hc. reflexivity.
Qed.

(** What [quote] has written with backslashes is read back in the raw
    mode character by character. *)
Lemma scan_quoteEscape (cur : string) :
  forall atStart e buf words tail,
    quoteEscape atStart cur = Some e ->
    scan Raw buf words (e +:+ tail) = scan Raw (buf +:+ cur) words tail.
Proof.
  induction cur as [| c cur IH]; intros atStart e buf words tail He.
  - cbn in He. injection He as <-. rewrite append_nil, append_nil_r. reflexivity.
  - cbn [quoteEscape] in He.
    destruct (ContainsRune specialChars c || atStart && ContainsRune prefixChars c)
      eqn:Hesc.
    + destruct (quoteEscape false cur) as [r |] eqn:Hr; [| discriminate He].
      cbn in He. injection He as <-. rewrite !append_cons.
      rewrite scan_Raw_backslash by exact (escaped_char _ _ Hesc).
      rewrite (IH _ _ _ _ _ Hr), append_snoc. reflexivity.
    + destruct (ContainsRune extraSpecialChars c) eqn:Hextra; [discriminate He |].
      destruct (quoteEscape false cur) as [r |] eqn:Hr; [| discriminate He].
      cbn in He. injection He as <-. rewrite append_cons.
      apply orb_false_elim in Hesc as [Hspecial _].
      destruct (plain_char c Hspecial Hextra) as (H1 & H2 & H3 & H4).
      rewrite scan_Raw_plain by assumption.
      rewrite (IH _ _ _ _ _ Hr), append_snoc. reflexivity.
Qed.

Lemma scan_Between_quoteEscape (c : ascii) (cur e : string) (words : list string)
  (tail : string) :
  quoteEscape true (String c cur) = Some e ->
  scan Between EmptyString words (e +:+ tail) = scan Raw (String c cur) words tail.
Proof.
  intros He. cbn [quoteEscape] in He.
  destruct (ContainsRune specialChars c || true && ContainsRune prefixChars c) eqn:Hesc.
  - destruct (quoteEscape false cur) as [r |] eqn:Hr; [| discriminate He].
    cbn in He. injection He as <-. rewrite !append_cons.
    rewrite scan_Between_backslash by exact (escaped_char _ _ Hesc).
    rewrite (scan_quoteEscape _ _ _ _ _ _ Hr). reflexivity.
  - destruct (ContainsRune extraSpecialChars c) eqn:Hextra; [discriminate He |].
    destruct (quoteEscape false cur) as [r |] eqn:Hr; [| discriminate He].
    cbn in He. injection He as <-. rewrite append_cons.
    apply orb_false_elim in Hesc as [Hspecial _].
    destruct (plain_char c Hspecial Hextra) as (H1 & H2 & H3 & H4).
    rewrite scan_Between_plain by assumption.
    rewrite (scan_quoteEscape _ _ _ _ _ _ Hr). reflexivity.
Qed.


Lemma ContainsRune_app (a b : string) (c : ascii) :
  ContainsRune (a +:+ b) c = ContainsRune a c || ContainsRune b c.
Proof.
  induction a as [| x a IH]; [reflexivity |].
  rewrite append_cons. cbn [ContainsRune]. destruct (Ascii.eqb x c); [reflexivity | exact IH].
Qed.

Lemma quoteSingle_nil (seg : string) : quoteSingle seg EmptyString = flushed seg.
Proof. destruct seg; reflexivity. Qed.

Lemma quoteSingle_cons (seg : string) (c : ascii) (word : string) :
  quoteSingle seg (String c word)
  = if Ascii.eqb c squoteChar
    then flushed seg +:+ String backslashChar (str1 squoteChar) +:+ quoteSingle EmptyString word
    else quoteSingle (seg +:+ str1 c) word.
Proof. destruct seg; reflexivity. Qed.

(** A run without a single quote is read back between single quotes as
    it is. *)
Lemma scan_Single_seg (seg : string) :
  forall buf words tail,
    ContainsRune seg squoteChar = false ->
    scan Single buf words (seg +:+ String squoteChar tail) = scan Raw (buf +:+ seg) words tail.
Proof.
  induction seg as [| c seg IH]; intros buf words tail Hseg.
  - rewrite append_nil, append_nil_r. reflexivity.
  - apply ContainsRune_cons in Hseg as [Hc Hseg]. rewrite append_cons.
    cbn [scan]. rewrite Hc, (IH _ _ _ Hseg), append_snoc. reflexivity.
Qed.

Lemma scan_flushed (seg : string) (buf : string) (words : list string) (rest : string) :
  ContainsRune seg squoteChar = false ->
  scan Raw buf words (flushed seg +:+ rest) = scan Raw (buf +:+ seg) words rest.
Proof.
  intros Hseg. destruct seg as [| c seg].
  - rewrite append_nil_r. reflexivity.
  - unfold flushed. rewrite !append_assoc.
    change (str1 squoteChar +:+ String c seg +:+ str1 squoteChar +:+ rest)
      with (String squoteChar (String c seg +:+ String squoteChar rest)).
    rewrite scan_Raw_squote. apply scan_Single_seg, Hseg.
Qed.

(** What [quote] has written between single quotes is read back in the
    raw mode run by run. *)
Lemma scan_quoteSingle (word : string) :
  forall seg buf words tail,
    ContainsRune seg squoteChar = false ->
    scan Raw buf words (quoteSingle seg word +:+ tail)
    = scan Raw (buf +:+ seg +:+ word) words tail.
Proof.
  induction word as [| c word IH]; intros seg buf words tail Hseg.
  - rewrite quoteSingle_nil, append_nil_r. apply scan_flushed, Hseg.
  - rewrite quoteSingle_cons. destruct (Ascii.eqb c squoteChar) eqn:Hc.
    + apply Ascii.eqb_eq in Hc. subst c.
      rewrite !append_assoc, (scan_flushed _ _ _ _ Hseg).
      change (String backslashChar (str1 squoteChar) +:+ quoteSingle EmptyString word +:+ tail)
        with (String backslashChar
                (String squoteChar (quoteSingle EmptyString word +:+ tail))).
      rewrite scan_Raw_backslash by reflexivity.
      rewrite (IH EmptyString) by reflexivity.
      rewrite append_nil, append_snoc, append_assoc. reflexivity.
    + rewrite IH.
      * rewrite append_snoc. reflexivity.
      * rewrite ContainsRune_app, Hseg. cbn [ContainsRune str1 orb]. rewrite Hc. reflexivity.
Qed.

Lemma quoteSingle_head (word : string) :
  forall seg, seg <> EmptyString -> exists r, quoteSingle seg word = String squoteChar r.
Proof.
  induction word as [| c word IH]; intros seg Hseg.
  - rewrite quoteSingle_nil. destruct seg as [| x seg]; [contradiction |].
    eexists. reflexivity.
  - rewrite quoteSingle_cons. destruct (Ascii.eqb c squoteChar).
    + destruct seg as [| x seg]; [contradiction |]. eexists. reflexivity.
    + apply IH. destruct seg; discriminate.
Qed.

(** One quoted word and what follows it: the word is read back whole,
    and the scanner is in the raw mode at what follows. *)
Lemma scan_quote (word : string) (words : list string) (tail : string) :
  scan Between EmptyString words (quote word +:+ tail) = scan Raw word words tail.
Proof.
  destruct word as [| c word]; [reflexivity |].
  unfold quote. destruct (quoteEscape true (String c word)) as [e |] eqn:He.
  - apply scan_Between_quoteEscape, He.
  - transitivity (scan Raw EmptyString words (quoteSingle EmptyString (String c word) +:+ tail)).
    + rewrite quoteSingle_cons. destruct (Ascii.eqb c squoteChar) eqn:Hc.
      * reflexivity.
      * destruct (quoteSingle_head word (EmptyString +:+ str1 c)) as [r ->];
          [discriminate | reflexivity].
    + rewrite scan_quoteSingle by reflexivity. reflexivity.
Qed.

Lemma scan_Join (args : list string) :
  forall words, scan Between EmptyString words (Join args) = inr (words ++ args).
Proof.
  induction args as [| a args IH]; intros words.
  - cbn. rewrite app_nil_r. reflexivity.
  - destruct args as [| b args].
    + cbn [Join]. rewrite <- (append_nil_r (quote a)), scan_quote. reflexivity.
    + change (Join (a :: b :: args)) with (quote a +:+ " " +:+ Join (b :: args)).
      rewrite scan_quote.
      change (" " +:+ Join (b :: args)) with (String spaceChar (Join (b :: args))).
      rewrite scan_Raw_space, IH, <- app_assoc. reflexivity.
Qed.

(** The words of a joined command are the words that were joined. *)
Lemma Split_Join (args : list string) : Split (Join args) = inr args.
Proof. unfold Split. rewrite scan_Join. reflexivity. Qed.

End Shellquote.

Section FurtherRun.

Context `{Externals}.
Variable scope : Scope.

(** X21. The command of a [run] is never malformed, and a shell reads the
    arguments of the [run] off it unchanged: splitting the command that
    [run] emits gives back the strings its arguments evaluated to when
    there are none or several, the three words [/bin/sh], [-c] and the
    argument when a single argument was wrapped, and the one word of a
    single argument that was passed as it is. The quoting of [Join] is
    undone by [Split] on every list of strings. *)
Theorem run_command_splits (call : CallStmt) (strs : list string) (shlex : string)
  (w w1 w2 : world) :
  emitStringExprs scope call (CallStmt_Args call) w = (Ok strs, w1) ->
  runShlex scope call (CallStmt_Args call) w = (Ok shlex, w2) ->
  shellquote.Split shlex = inr (argvOf strs)
  /\ forall args, shellquote.Split (shellquote.Join args) = inr args.
Proof.
  intros Hargs Hrun. split; [| apply Split_Join].
  rewrite (runShlex_command scope call strs w w1 Hargs) in Hrun.
  unfold commandOf, argvOf in *.
  destruct strs as [| s [| s' strs]].
  - injection Hrun as <- _. exact (Split_Join []).
  - destruct (shellquote.Split s) as [e | [| p [| p' parts]]] eqn:Hsplit;
      try discriminate Hrun; injection Hrun as <- _;
      first [exact Hsplit | exact (Split_Join ["/bin/sh"; "-c"; s])].
  - injection Hrun as <- _. exact (Split_Join (s :: s' :: strs)).
Qed.

End FurtherRun.

(** [run "echo hi"], whose command is [/bin/sh -c 'echo hi']. *)
Lemma run_command_splits_witness :
  shellquote.Split "/bin/sh -c 'echo hi'" = inr ["/bin/sh"; "-c"; "echo hi"].
Proof.
  apply (proj1 (@run_command_splits (reference.externals 1) emptyScope
                  (theCall (callOf "run" [NewStringExpr "echo hi"]))
                  ["echo hi"] "/bin/sh -c 'echo hi'" world0 world0 world0
                  eq_refl eq_refl)).
Defined.

(** ** Boolean options, and the debugger inside a block *)

(** Take a table of options apart into the operations and the names it
    has an entry for. *)
Ltac table_cases Htable :=
  repeat match type of Htable with
         | (if String.eqb ?n ?s then _ else _) = _ =>
             let E := fresh "E" in
             destruct (String.eqb n s) eqn:E; [apply String.eqb_eq in E |]
         end;
  try discriminate Htable.

Section FurtherFlags.

Context `{Externals}.
Variable scope : Scope.

(** X22. The boolean options are of two kinds. [resolve], [keepGitDir],
    [readonlyRootfs], [readonly] and [tmpfs] are flags: the statement
    adds its item when the argument evaluates to true and adds nothing
    when it evaluates to false. [createParents], [allowNotFound] and
    [allowWildcard] carry the value: the statement always adds the item,
    with the value the argument evaluates to. *)
Theorem boolean_options (op : string) (stmt : Stmt) (call : CallStmt) (ac : aliasCallback)
  (v : bool) (w w1 : world) :
  Stmt_Call stmt = Some call ->
  CallStmt_WithOpt call = None ->
  maybeEmitBoolExpr scope (CallStmt_Args call) w = (Ok v, w1) ->
  (forall item,
      flagOption op (Name (CallStmt_Func call)) = Some item ->
      emitOptions scope op [stmt] ac w = (Ok (if v then [item] else []), w1))
  /\ (forall item,
        boolOption op (Name (CallStmt_Func call)) = Some item ->
        emitOptions scope op [stmt] ac w = (Ok [item v], w1)).
Proof.
  intros Hstmt Hwith Hbool. split.
  - intros item Hflag. unfold flagOption in Hflag. cbn [switch] in Hflag.
    table_cases Hflag; injection Hflag as <-; subst op;
      unfold emitOptions; switch_case;
      unfold emitImageOptions, emitGitOptions, emitMountOptions, emitExecOptions;
      cbn [forStmts]; rewrite Hstmt; rewrite ?bind_assoc;
      rewrite ?(bind_Ok _ _ _ _ _ (withOptionOf_none scope ac call w Hwith));
      unfold execOption;
      match goal with
      | Hname : Name (CallStmt_Func call) = _ |- _ => rewrite Hname
      end;
      switch_case; rewrite !bind_assoc, (bind_Ok _ _ _ _ _ Hbool);
      destruct v; reflexivity.
  - intros item Hitem. unfold boolOption in Hitem. cbn [switch] in Hitem.
    table_cases Hitem; injection Hitem as <-; subst op;
      unfold emitOptions; switch_case;
      unfold emitMkdirOptions, emitRmOptions;
      cbn [forStmts]; rewrite Hstmt;
      match goal with
      | Hname : Name (CallStmt_Func call) = _ |- _ => rewrite Hname
      end;
      switch_case; rewrite !bind_assoc, (bind_Ok _ _ _ _ _ Hbool); reflexivity.
Qed.

(** X23. The debugger is shown every statement of a block with the value the
    statements before it have made, and its objection ends the block
    there: the block returns the error of the debugger, in the state the
    statements before have left, and evaluates neither that statement
    nor any after it, whether the statement is a debug call or not. *)
Theorem block_debugger_objects (typ : ObjType) (stmts : list Stmt) (stmt : Stmt)
  (rest : list Stmt) (call : CallStmt) (ac : aliasCallback) (v : value) (e : error)
  (w w1 : world) :
  Exists evaluated stmts ->
  emitBlock scope typ stmts ac w = (Ok v, w1) ->
  Stmt_Call stmt = Some call ->
  Debug (info w1) scope (Debug_CallStmt call) v = Some e ->
  emitBlock scope typ (stmts ++ stmt :: rest) ac w = (Err e, w1).
Proof.
  intros Hex Hblock Hstmt Hobject.
  rewrite emitBlock_append by exact Hex.
  rewrite (bind_Ok _ _ _ _ _ Hblock).
  cbn [chainStmts]. rewrite Hstmt. cbn [deref]. rewrite bind_ret.
  assert (Hdebug : debug scope (Debug_CallStmt call) v w1 = (Err e, w1)).
  { unfold debug, callDebug, bind. rewrite Hobject. reflexivity. }
  destruct (IsDebug (Name (CallStmt_Func call))); apply bind_Err, Hdebug.
Qed.

End FurtherFlags.

(** [image "alpine"; run "true"; env "A" "B"], with a debugger that
    objects to [run]. *)
Lemma block_debugger_objects_witness :
  @emitBlock (reference.externals 1) emptyScope Filesystem
    ([callOf "image" [NewStringExpr "alpine"]]
     ++ callOf "run" [NewStringExpr "true"]
        :: [callOf "env" [NewStringExpr "A"; NewStringExpr "B"]])
    noopAliasCallback
    (mkWorld (mkCodeGenInfo (objectingTo "run" (ErrOther "stop")) ∅) 0 [])
  = (Err (ErrOther "stop"),
     mkWorld (mkCodeGenInfo (objectingTo "run" (ErrOther "stop")) ∅) 0 []).
Proof.
  apply (@block_debugger_objects (reference.externals 1) emptyScope Filesystem
           [callOf "image" [NewStringExpr "alpine"]]
           (callOf "run" [NewStringExpr "true"])
           [callOf "env" [NewStringExpr "A"; NewStringExpr "B"]]
           (theCall (callOf "run" [NewStringExpr "true"]))
           noopAliasCallback (VState (llb.Image "alpine" []))).
  - apply Exists_cons_hd.
    exists (theCall (callOf "image" [NewStringExpr "alpine"])). split; reflexivity.
  - reflexivity.
  - reflexivity.
  - reflexivity.
Defined.

(** [readonly false], an option of [mount]. *)
Lemma boolean_options_witness :
  @emitOptions (reference.externals 1) emptyScope "mount"
    [callOf "readonly" [NewBoolExpr false]] noopAliasCallback world0
  = (Ok [], world0).
Proof.
  apply (proj1 (@boolean_options (reference.externals 1) emptyScope "mount"
                  (callOf "readonly" [NewBoolExpr false])
                  (theCall (callOf "readonly" [NewBoolExpr false]))
                  noopAliasCallback false world0 world0 eq_refl eq_refl eq_refl)
           llb.Readonly).
  reflexivity.
Defined.

(** ** Targets that are no function *)

(** X24. A target that is bound to a declaration which is neither a function
    nor an alias, the name of an import for one, is not rejected:
    [Generate] returns the scratch state and no error. A target that is
    bound to an alias whose function has not been linked makes
    [Generate] panic on the nil pointer. *)
Theorem Generate_other_declarations `{Externals} (call : CallStmt) (file : File)
  (opts : list CodeGenOption) (obj : Object) (w w1 : world) :
  applyOptions opts (freshWorld w) = (Ok None, w1) ->
  Lookup (File_Scope file) (Name (CallStmt_Func call)) = Some obj ->
  Debug (info w1) (File_Scope file) (Debug_File file) VNil = None ->
  Object_Kind obj = DeclKind ->
  ((forall n, Object_Node obj <> Node_FuncDecl n) ->
   (forall n, Object_Node obj <> Node_AliasDecl n) ->
   Generate call file opts w = (Ok (llb.Scratch, None), w1))
  /\ (forall n,
        Object_Node obj = Node_AliasDecl n -> AliasDecl_Func n = None ->
        Generate call file opts w = (Panic NilDereference, w1)).
Proof.
  intros Hopts Hlook Hdebug Hkind. unfold Generate.
  rewrite (bind_Ok newInfo _ w (freshWorld w) tt) by reflexivity.
  rewrite (bind_Ok _ _ _ _ _ Hopts), Hlook.
  rewrite (bind_Ok (callDebug _ _ _) _ w1 w1 None)
    by (unfold callDebug; rewrite Hdebug; reflexivity).
  rewrite Hkind. split.
  - intros Hfunc Halias. destruct (Object_Node obj) as [n | n | n | n]; try reflexivity.
    + exfalso. exact (Hfunc n eq_refl).
    + exfalso. exact (Halias n eq_refl).
  - intros n Hnode Hnil. rewrite Hnode, Hnil. reflexivity.
Qed.

(** The name of an import as the target. *)
Lemma Generate_other_declarations_witness :
  @Generate (reference.externals 1) (theCall (callOf "lib" [])) importFile [] world0
  = (Ok (llb.Scratch, None), world0).
Proof.
  apply (proj1 (@Generate_other_declarations (reference.externals 1)
                  (theCall (callOf "lib" [])) importFile []
                  (mkObject DeclKind
                     (Node_ImportDecl
                        (mkImportDecl noPosition (NewIdent "lib") (NewFuncLit Filesystem [])))
                     VNil)
                  world0 world0 eq_refl eq_refl eq_refl eq_refl));
    intros n; discriminate.
Defined.

(** ** The options a builtin passes on *)

Section FurtherPassing.

Context `{Externals}.
Variable scope : Scope.

(** X25. The source builtins [http], [git] and [generate] evaluate their
    [with] clause first and then their arguments in order, and pass
    every item of the clause to the builder, in the order of the clause:
    [http] and [git] pass the items alone, [generate] passes them after
    [llb.IgnoreCache], which it always sets. An item that does not
    implement the option interface of the builtin makes the call panic
    after the arguments have been evaluated. *)
Theorem source_options_passed (call : CallStmt) (ac : aliasCallback) (iopts : list llb.Opt)
  (w w0 : world) :
  emitWithOption scope call (CallStmt_WithOpt call) ac w = (Ok iopts, w0) ->
  let accepted (k : llb.OptionKind) (st : llb.State) : result error llb.State :=
    if forallb (fun o => llb.implements o k) iopts then Ok st else Panic TypeAssertion in
  (forall a0 url w1,
      Name (CallStmt_Func call) = "http" ->
      CallStmt_Args call !! 0%nat = Some a0 ->
      emitStringExpr scope call a0 w0 = (Ok url, w1) ->
      emitFilesystemSourceStmt scope call ac w
      = (accepted llb.HTTPOption (llb.HTTP url iopts), w1))
  /\ (forall a0 a1 remote ref w1 w2,
        Name (CallStmt_Func call) = "git" ->
        CallStmt_Args call !! 0%nat = Some a0 ->
        CallStmt_Args call !! 1%nat = Some a1 ->
        emitStringExpr scope call a0 w0 = (Ok remote, w1) ->
        emitStringExpr scope call a1 w1 = (Ok ref, w2) ->
        emitFilesystemSourceStmt scope call ac w
        = (accepted llb.GitOption (llb.Git remote ref iopts), w2))
  /\ (forall a0 frontend w1,
        Name (CallStmt_Func call) = "generate" ->
        CallStmt_Args call !! 0%nat = Some a0 ->
        emitFilesystemExpr scope None a0 ac w0 = (Ok frontend, w1) ->
        emitFilesystemSourceStmt scope call ac w
        = (accepted llb.FrontendOption (llb.Frontend frontend (llb.IgnoreCache :: iopts)),
           w1)).
Proof.
  intros Hclause accepted. subst accepted. unfold emitFilesystemSourceStmt.
  rewrite !(bind_Ok _ _ _ _ _ Hclause). split; [| split].
  - intros a0 url w1 Hname Ha0 Hurl. rewrite Hname. switch_case.
    unfold arg, index. rewrite Ha0, bind_ret. mstep Hurl.
    unfold bind. rewrite assertOpts_forallb. destruct (forallb _ iopts); reflexivity.
  - intros a0 a1 remote ref w1 w2 Hname Ha0 Ha1 Hremote Href. rewrite Hname. switch_case.
    unfold arg, index. rewrite Ha0, Ha1, bind_ret. mstep Hremote. rewrite bind_ret.
    mstep Href.
    unfold bind. rewrite assertOpts_forallb. destruct (forallb _ iopts); reflexivity.
  - intros a0 frontend w1 Hname Ha0 Hfrontend. rewrite Hname. switch_case.
    unfold arg, index. rewrite Ha0, bind_ret. mstep Hfrontend.
    unfold bind. rewrite assertOpts_forallb. destruct (forallb _ iopts); reflexivity.
Qed.

(** X26. [mkdir] evaluates its [with] clause twice: once before its
    arguments, as every chain builtin does, and once more after them.
    The items of the first evaluation are dropped; the directory is made
    with the items of the second, all of them and in their order, with
    the mode converted to a file mode, and an item of the second
    evaluation that is no option of [mkdir] makes the call panic. *)
Theorem mkdir_clause_twice (typ : ObjType) (call : CallStmt) (ac : aliasCallback)
  (a0 a1 : Expr) (first second : list llb.Opt) (path : string) (mode : Z)
  (w w0 w1 w2 w3 : world) :
  Name (CallStmt_Func call) = "mkdir" ->
  CallStmt_Args call !! 0%nat = Some a0 ->
  CallStmt_Args call !! 1%nat = Some a1 ->
  emitWithOption scope call (CallStmt_WithOpt call) ac w = (Ok first, w0) ->
  emitStringExpr scope call a0 w0 = (Ok path, w1) ->
  emitIntExpr scope a1 w1 = (Ok mode, w2) ->
  emitWithOption scope call (CallStmt_WithOpt call) ac w2 = (Ok second, w3) ->
  emitFilesystemChainStmt scope typ call ac w
  = (if forallb (fun o => llb.implements o llb.MkdirOption) second
     then Ok (Some (fun st => ret (llb.StFile st (llb.Mkdir path (FileMode mode) second))))
     else Panic TypeAssertion, w3)
  /\ 0 <= FileMode mode < 2 ^ 32.
Proof.
  intros Hname Ha0 Ha1 Hfirst Hpath Hmode Hsecond. split.
  - unfold emitFilesystemChainStmt. rewrite (bind_Ok _ _ _ _ _ Hfirst), Hname. switch_case.
    unfold arg, index. rewrite Ha0, Ha1, bind_ret. mstep Hpath. rewrite bind_ret.
    mstep Hmode. mstep Hsecond.
    unfold bind. rewrite assertOpts_forallb. destruct (forallb _ second); reflexivity.
  - unfold FileMode. apply Z.mod_pos_bound. reflexivity.
Qed.

(** X27. [mkfile], [rm] and [copy] evaluate their [with] clause first
    and then their arguments in order, and pass every item of the clause
    to the file action, in the order of the clause; an item that is no
    option of the action makes the call panic after the arguments have
    been evaluated. *)
Theorem file_options_passed (typ : ObjType) (call : CallStmt) (ac : aliasCallback)
  (iopts : list llb.Opt) (w w0 : world) :
  emitWithOption scope call (CallStmt_WithOpt call) ac w = (Ok iopts, w0) ->
  let accepted (k : llb.OptionKind) (a : llb.FileAction) : result error StateOption :=
    if forallb (fun o => llb.implements o k) iopts
    then Ok (Some (fun st => ret (llb.StFile st a)))
    else Panic TypeAssertion in
  (forall a0 a1 a2 path mode content w1 w2 w3,
      Name (CallStmt_Func call) = "mkfile" ->
      CallStmt_Args call !! 0%nat = Some a0 ->
      CallStmt_Args call !! 1%nat = Some a1 ->
      CallStmt_Args call !! 2%nat = Some a2 ->
      emitStringExpr scope call a0 w0 = (Ok path, w1) ->
      emitIntExpr scope a1 w1 = (Ok mode, w2) ->
      emitStringExpr scope call a2 w2 = (Ok content, w3) ->
      emitFilesystemChainStmt scope typ call ac w
      = (accepted llb.MkfileOption (llb.Mkfile path (FileMode mode) content iopts), w3))
  /\ (forall a0 path w1,
        Name (CallStmt_Func call) = "rm" ->
        CallStmt_Args call !! 0%nat = Some a0 ->
        emitStringExpr scope call a0 w0 = (Ok path, w1) ->
        emitFilesystemChainStmt scope typ call ac w
        = (accepted llb.RmOption (llb.Rm path iopts), w1))
  /\ (forall a0 a1 a2 input src dest w1 w2 w3,
        Name (CallStmt_Func call) = "copy" ->
        CallStmt_Args call !! 0%nat = Some a0 ->
        CallStmt_Args call !! 1%nat = Some a1 ->
        CallStmt_Args call !! 2%nat = Some a2 ->
        emitFilesystemExpr scope None a0 ac w0 = (Ok input, w1) ->
        emitStringExpr scope call a1 w1 = (Ok src, w2) ->
        emitStringExpr scope call a2 w2 = (Ok dest, w3) ->
        emitFilesystemChainStmt scope typ call ac w
        = (accepted llb.CopyOption (llb.Copy input src dest iopts), w3)).
Proof.
  intros Hclause accepted. subst accepted. unfold emitFilesystemChainStmt.
  rewrite !(bind_Ok _ _ _ _ _ Hclause). split; [| split].
  - intros a0 a1 a2 path mode content w1 w2 w3 Hname Ha0 Ha1 Ha2 Hpath Hmode Hcontent.
    rewrite Hname. switch_case.
    unfold arg, index. rewrite Ha0, Ha1, Ha2, bind_ret. mstep Hpath. rewrite bind_ret.
    mstep Hmode. rewrite bind_ret. mstep Hcontent.
    unfold bind. rewrite assertOpts_forallb. destruct (forallb _ iopts); reflexivity.
  - intros a0 path w1 Hname Ha0 Hpath. rewrite Hname. switch_case.
    unfold arg, index. rewrite Ha0, bind_ret. mstep Hpath.
    unfold bind. rewrite assertOpts_forallb. destruct (forallb _ iopts); reflexivity.
  - intros a0 a1 a2 input src dest w1 w2 w3 Hname Ha0 Ha1 Ha2 Hinput Hsrc Hdest.
    rewrite Hname. switch_case.
    unfold arg, index. rewrite Ha0, Ha1, Ha2, bind_ret. mstep Hinput. rewrite bind_ret.
    mstep Hsrc. rewrite bind_ret. mstep Hdest.
    unfold bind. rewrite assertOpts_forallb. destruct (forallb _ iopts); reflexivity.
Qed.

End FurtherPassing.

(** [git "https://example.com/repo.git" "main" with option { keepGitDir }] *)
Lemma source_options_passed_witness :
  @emitFilesystemSourceStmt (reference.externals 1) emptyScope
    (callWith "git" [NewStringExpr "https://example.com/repo.git"; NewStringExpr "main"]
       (NewWithFuncLit [callOf "keepGitDir" []]))
    noopAliasCallback world0
  = (Ok (llb.Git "https://example.com/repo.git" "main" [llb.KeepGitDir]), world0).
Proof.
  exact (proj1 (proj2 (@source_options_passed (reference.externals 1) emptyScope
                         (callWith "git"
                            [NewStringExpr "https://example.com/repo.git"; NewStringExpr "main"]
                            (NewWithFuncLit [callOf "keepGitDir" []]))
                         noopAliasCallback [llb.KeepGitDir] world0 world0 eq_refl))
           (NewStringExpr "https://example.com/repo.git") (NewStringExpr "main")
           "https://example.com/repo.git" "main" world0 world0
           eq_refl eq_refl eq_refl eq_refl eq_refl).
Defined.

(** [mkdir "/x" 0o755 with option { createParents }] *)
Lemma mkdir_clause_twice_witness :
  @emitFilesystemChainStmt (reference.externals 1) emptyScope Filesystem
    (callWith "mkdir" [NewStringExpr "/x"; NewNumericExpr 493 8]
       (NewWithFuncLit [callOf "createParents" []]))
    noopAliasCallback world0
  = (Ok (Some (fun st => ret (llb.StFile st (llb.Mkdir "/x" (FileMode 493)
                                               [llb.WithParents true])))),
     world0)
  /\ 0 <= FileMode 493 < 2 ^ 32.
Proof.
  exact (@mkdir_clause_twice (reference.externals 1) emptyScope Filesystem
           (callWith "mkdir" [NewStringExpr "/x"; NewNumericExpr 493 8]
              (NewWithFuncLit [callOf "createParents" []]))
           noopAliasCallback (NewStringExpr "/x") (NewNumericExpr 493 8)
           [llb.WithParents true] [llb.WithParents true] "/x" 493
           world0 world0 world0 world0 world0
           eq_refl eq_refl eq_refl eq_refl eq_refl eq_refl eq_refl).
Defined.

(** [rm "/tmp" with option { allowNotFound }] *)
Lemma file_options_passed_witness :
  @emitFilesystemChainStmt (reference.externals 1) emptyScope Filesystem
    (callWith "rm" [NewStringExpr "/tmp"] (NewWithFuncLit [callOf "allowNotFound" []]))
    noopAliasCallback world0
  = (Ok (Some (fun st => ret (llb.StFile st (llb.Rm "/tmp" [llb.WithAllowNotFound true])))),
     world0).
Proof.
  exact (proj1 (proj2 (@file_options_passed (reference.externals 1) emptyScope Filesystem
                         (callWith "rm" [NewStringExpr "/tmp"]
                            (NewWithFuncLit [callOf "allowNotFound" []]))
                         noopAliasCallback [llb.WithAllowNotFound true] world0 world0 eq_refl))
           (NewStringExpr "/tmp") "/tmp" world0 eq_refl eq_refl eq_refl).
Defined.

(** ** Commands of one word *)

Lemma wordChar_plain (c : ascii) :
  wordChar c = true ->
  Ascii.eqb c squoteChar = false /\ Ascii.eqb c dquoteChar = false
  /\ Ascii.eqb c backslashChar = false /\ ContainsRune shellquote.splitChars c = false.
Proof.
  unfold wordChar. intros Hc.
  apply andb_prop in Hc as [Hc H4]. apply andb_prop in Hc as [Hc H3].
  apply andb_prop in Hc as [H1 H2].
  apply negb_true_iff in H1, H2, H3, H4. repeat split; assumption.
Qed.

(** A run of word characters is read in the raw mode to its end, and is
    one word. *)
Lemma scan_Raw_word (s : string) :
  allChars wordChar s = true ->
  forall buf words, shellquote.scan shellquote.Raw buf words s = inr (words ++ [buf +:+ s]).
Proof.
  induction s as [| c s IH]; intros Hs buf words.
  - rewrite append_nil_r. reflexivity.
  - cbn [allChars] in Hs. apply andb_prop in Hs as [Hc Hs].
    destruct (wordChar_plain c Hc) as (H1 & H2 & H3 & H4).
    rewrite scan_Raw_plain by assumption. rewrite (IH Hs), append_snoc. reflexivity.
Qed.

Section FurtherWords.

Context `{Externals}.
Variable scope : Scope.

(** X28. A [run] with a single argument that evaluates to one word, a
    string that is not empty and holds no blank, tab, newline, quote or
    backslash, runs the word itself, without a shell. The empty string
    is no word: [shellquote.Split] finds no word in it, and the command
    is the shell with the quoted empty string. *)
Theorem run_plain_word (call : CallStmt) (a0 : Expr) (s : string) (w w1 : world) :
  emitStringExpr scope call a0 w = (Ok s, w1) ->
  (allChars wordChar s = true -> s <> EmptyString ->
   shellquote.Split s = inr [s] /\ runShlex scope call [a0] w = (Ok s, w1))
  /\ (s = EmptyString ->
      shellquote.Split s = inr [] /\ runShlex scope call [a0] w = (Ok "/bin/sh -c ''", w1)).
Proof.
  intros Ha0. unfold runShlex. rewrite (bind_Ok _ _ _ _ _ Ha0). split.
  - intros Hs Hne.
    assert (Hsplit : shellquote.Split s = inr [s]).
    { destruct s as [| c s]; [contradiction |].
      cbn [allChars] in Hs. apply andb_prop in Hs as [Hc Hs].
      destruct (wordChar_plain c Hc) as (H1 & H2 & H3 & H4).
      unfold shellquote.Split. rewrite scan_Between_plain by assumption.
      rewrite (scan_Raw_word s Hs). reflexivity. }
    rewrite Hsplit. split; reflexivity.
  - intros ->. split; reflexivity.
Qed.

End FurtherWords.

(** [run "true"] *)
Lemma run_plain_word_witness :
  shellquote.Split "true" = inr ["true"]
  /\ @runShlex (reference.externals 1) emptyScope
       (theCall (callOf "run" [NewStringExpr "true"])) [NewStringExpr "true"] world0
     = (Ok "true", world0).
Proof.
  apply (proj1 (@run_plain_word (reference.externals 1) emptyScope
                  (theCall (callOf "run" [NewStringExpr "true"])) (NewStringExpr "true")
                  "true" world0 world0 eq_refl)).
  - reflexivity.
  - discriminate.
Defined.
